(* ===== verification/_CoqProject ===== *)
-Q . S2P
Prelude.v
CLib.v
Kernel.v
Util.v
Base64.v
Json.v
EntryList.v
Protocol.v
ProcRead.v
ProcScan.v
Parallel.v
Threads.v
Reclaim.v
Tids.v
Tracer.v
Session.v
TraceProps.v
SessionEnds.v
Stream.v
Server.v
Descriptors.v
Listener.v
ServerProps.v
Requests.v
Replies.v
Script.v
Permitted.v
Connection.v
ClientView.v
Main.v
MainProps.v
Daemon.v
ThreadRuns.v
DaemonProps.v
