(* ===== verification/Prelude.v ===== *)
(** * Verification of hsedd, the Hidden Space Explorer daemon

    hsedd (src/backend/src) finds the files that have been deleted but are
    still held open, and lets a client on a Unix socket list them, truncate
    them, signal the processes that hold them, and watch what is written to
    them.  This library models the C sources of the daemon and proves what
    makes them correct.

    ** The program

    - util.c: the log and [hsed_strlcpy];
    - base64.c: the encoding of captured data;
    - proc_scan.c: the scan of /proc, by several threads, into a list of
      entries or into their number and total size;
    - protocol.c: the JSON lines and the socket writer;
    - reclaim.c: truncation and signals;
    - tracer.c: a session of ptrace that reports the writes to a descriptor;
    - server.c: the connections, one thread each, and the listening socket;
    - hsed.c: the command line and the life of the daemon.

    ** How it is modelled

    Bytes are [ascii], C strings lists of them, integers [Z] with their wrap
    written out ([i32], [u64], ...), arrays [buf], lists of bytes that may be
    unwritten.  An operation on arrays returns [option]: [None] is undefined
    behaviour (a store outside an array, the read of an unwritten byte, a
    signed overflow, a wrong argument of [printf]), so a theorem that gives
    [Some] says there is none.

    The operating system is the class [Kernel] of Kernel.v: any function from
    a call and the history of calls to an answer.  A theorem about all kernels
    covers every failure, interruption, partial send and race with other
    processes.  [prog] is the monad of the code that makes calls, with
    undefined behaviour, [exit] and the end of the fuel as outcomes, and
    [wp m h I Q] its program logic: no undefined behaviour, [Q] of the result
    and of the calls made if [m] returns, [I] of the calls made if it is cut
    short.  [only] and [lasts] are two more judgements on programs, by
    following the code to its calls.  What the code relies on of the kernel
    and of [qsort] are classes, each with an instance that satisfies it:
    [SendLaws], [RecvLaws], [StatLaws], [StrerrorLaws], [TraceLaws],
    [TaskLaws], [ScanLaws], [EuidLaws], [FdLaws], [QsortLaws].

    ** The files

    - Prelude.v, CLib.v: bytes, arrays, integers; the C library ([printf],
      [strtol], [strtok_r], ...) as functions.
    - Kernel.v: the calls, [prog] and [wp].
    - Util.v, Base64.v, Protocol.v, EntryList.v, Reclaim.v: util.c, base64.c,
      protocol.c, the entries and list of proc_scan, reclaim.c.  Json.v is
      the reader of JSON lines they are judged by.
    - ProcRead.v, ProcScan.v, Parallel.v, Threads.v: proc_scan.c, from the
      files of one process to [hsed_scan] and [hsed_scan_stats], and the
      interleavings of the threads as a step relation.
    - Tids.v, Tracer.v: tracer.c, its table of threads and [hsed_trace_fd];
      Session.v is the transition system it refines, TraceProps.v and
      SessionEnds.v its properties.
    - Stream.v, Server.v: server.c, the STREAM command and the rest.
      Listener.v, ServerProps.v, Requests.v, Replies.v, Permitted.v,
      Connection.v and ClientView.v prove it, from the line read to the
      objects a client parses; Script.v holds example clients.
    - Main.v, MainProps.v: hsed.c.
    - Descriptors.v, Daemon.v, ThreadRuns.v, DaemonProps.v: the daemon as a
      whole, its accepting thread and its connections interleaved call by call
      on one kernel, and the descriptors each of them holds.

    ** What the theorems show

    - Safety of the daemon: the signals of a connection are exactly those its
      client asked for and every other call is one a request permits
      ([connection_safe]), also when the connections run concurrently
      ([daemon_safe]); a thread uses and closes only descriptors it holds, no
      two hold the same one, and none is lost ([descriptors_owned]); nothing
      leaves its arrays (all the [_correct] theorems); every ptrace stop is
      answered ([trace_stops_answered]).
    - Truth of the answers: a SCAN lists each deleted file once, largest
      first ([hsed_scan_correct], [scan_one_pid_iff]), the client reads it
      ([client_told], [format_entry_correct], [json_escape_correct],
      [send_line_correct]), STATS and --scan-once agree with it
      ([scan_stats_agree], [scan_once_correct]); a reported write is one that
      was entered on the traced descriptor ([trace_reports_entered])
      and is told by one readable line ([stream_write_correct]).
    - Refinement: [connection_correct] (a conversation), [trace_fd_correct]
      (a session), [scan_one_pid_correct], [tid_table_correct],
      [dispatch_correct] (a table of commands), [schedule_independent] (the
      threads are as one).
    - Round trips of base64, of requests and of the command line, whose
      grammar is [parse_args_grammar]; errors of truncation; [main_correct] for
      every path of [main], with its exit status ([exit] is a call like any
      other, the last of the history).
    - Termination: the threads of a scan always finish
      ([schedule_independent]), a session ends when its client has gone
      ([trace_fd_ends]), the daemon when it is told to
      ([server_run_stops]).
    - What modelling showed, each a theorem on all runs of a kind: long
      captures are reported by a line cut short ([stream_write_cut]), two
      sessions take each other's stops ([foreign_stop_taken]), KILL and HUP do
      not check their argument ([kill_unchecked]), long socket paths are bound
      under another name ([long_path_cut]), the pidfile is created with a
      cleared umask ([pidfile_open]).

    ** Fuel

    [recv_line], [hsed_send_line], the loops of a connection, of a session
    and of the listening socket go on for as long as the peer does, and take
    fuel: a theorem states what holds of a run that it cuts short ([I]),
    and the bound on the fuel that is enough: one unit for each byte or
    interrupt for [hsed_send_line], one for each wait for a session, one for
    each look at the shutdown flag for the server.  A step of an execution of
    Daemon.v takes the fuel it needs.  All other loops are structural.

    ** Not modelled

    - The Go program src/tui and the packaging: other languages, no code of
      the daemon.
    - Memory: [malloc] and [realloc] may fail where the code checks for it,
      but [free] and leaks are not seen (the list a failed scan leaves behind,
      proc_scan.c:429).
    - What the threads share but the kernel: they have no memory in common
      beyond the constants of the command line, so that an execution of
      Daemon.v is a sequence of calls, each answered by the one kernel.  The
      end of the process when [main] returns is not in it: an execution may
      be cut anywhere.  The flag that the handler of SIGTERM raises is the
      answer of [CShutdownFlag].
    - A scan sees one [procfs], which answers each question once.  It may be
      any, but a name asked for twice has one answer.
    - Time: the timeouts of [poll] and [usleep] are calls without effect. *)

From Stdlib Require Export ZArith Lia Ascii.
From Stdlib Require String.
From stdpp Require Export base strings numbers list.

(** ** Bytes and byte strings

    A C [char] is an [ascii]; a C string, without its terminating NUL, is a
    list of them.  [lit] embeds the string literals of the source. *)

Abbreviation bytes := (list ascii).

Definition lit (s : string) : bytes := String.list_ascii_of_string s.

(** The same with every apostrophe standing for a double quote: the JSON
    texts of the source are written this way. *)
Definition jlit (s : string) : bytes :=
  (fun c => if decide (c = "'"%char) then "034"%char else c) <$> lit s.

Definition NUL : ascii := "000"%char.
Definition NL : ascii := "010"%char.
Definition CR : ascii := "013"%char.
Definition TAB : ascii := "009"%char.
Definition DQUOTE : ascii := "034"%char.
Definition BACKSLASH : ascii := "092"%char.
Definition SPACE : ascii := "032"%char.

(** The unsigned value of a byte, and the byte an unsigned value is stored as. *)
Definition byte_val (c : ascii) : Z := Z.of_N (N_of_ascii c).
Definition byte_of (z : Z) : ascii := ascii_of_N (Z.to_N (z mod 256)).

(** The C string at the start of a byte sequence: what lies before the first NUL. *)
Fixpoint nulcut (s : bytes) : bytes :=
  match s with
  | [] => []
  | c :: s' => if decide (c = NUL) then [] else c :: nulcut s'
  end.

Abbreviation no_nul := (Forall (fun c : ascii => c <> NUL)).

(** ** Machine integers

    A w-bit C integer is a [Z] in its range; the conversions wrap around the
    way the compilers the project supports define them. *)

Definition wrap_u (w z : Z) : Z := (z mod 2 ^ w)%Z.
Definition wrap_s (w z : Z) : Z :=
  ((z + 2 ^ (w - 1)) mod 2 ^ w - 2 ^ (w - 1))%Z.

Definition i32 (z : Z) : Z := wrap_s 32 z.
Definition u32 (z : Z) : Z := wrap_u 32 z.
Definition i64 (z : Z) : Z := wrap_s 64 z.
Definition u64 (z : Z) : Z := wrap_u 64 z.

Definition in_s (w z : Z) : Prop := (- 2 ^ (w - 1) <= z < 2 ^ (w - 1))%Z.
Definition in_u (w z : Z) : Prop := (0 <= z < 2 ^ w)%Z.

#[export] Instance in_s_dec w z : Decision (in_s w z).
Proof. unfold in_s. apply _. Defined.
#[export] Instance in_u_dec w z : Decision (in_u w z).
Proof. unfold in_u. apply _. Defined.

(** Addition in [long long]: overflow is undefined behaviour. *)
Definition add_i64 (a b : Z) : option Z :=
  if decide (in_s 64 (a + b)) then Some (a + b)%Z else None.

(** ** Memory

    A char array is a list of cells; [None] is a cell not yet written.  The
    result [None] of an operation on memory is undefined behaviour: an access
    out of bounds or a read of an unwritten cell. *)

Abbreviation cell := (option ascii).
Abbreviation buf := (list (option ascii)).

(** [char b[n];] with no initialiser, and [memset(b, 0, n)]. *)
Definition alloca (n : nat) : buf := replicate n None.
Definition zeroed (n : nat) : buf := replicate n (Some NUL).

Definition store (b : buf) (i : nat) (c : ascii) : option buf :=
  if decide (i < length b) then Some (<[i := Some c]> b) else None.

Definition load (b : buf) (i : nat) : option ascii :=
  match b !! i with Some (Some c) => Some c | _ => None end.

Fixpoint memcpy (b : buf) (off : nat) (src : bytes) : option buf :=
  match src with
  | [] => Some b
  | c :: src' => b' ← store b off c; memcpy b' (S off) src'
  end.

(** The C string a pointer to the start of [b] designates. *)
Fixpoint cstr (b : buf) : option bytes :=
  match b with
  | [] | None :: _ => None
  | Some c :: b' => if decide (c = NUL) then Some [] else (c ::.) <$> cstr b'
  end.

(** ** Automation *)

Create HintDb hsed.
Create Rewrite HintDb hsed_len.

(** Arithmetic on lengths. *)
Ltac len := autorewrite with hsed_len in *; simpl in *; try lia.

(** ** Lemmas on bytes and integers *)

Lemma byte_val_range c : (0 <= byte_val c < 256)%Z.
Proof.
  unfold byte_val. split; [lia|].
  pose proof (N_ascii_bounded c). lia.
Qed.

Lemma byte_of_val c : byte_of (byte_val c) = c.
Proof.
  unfold byte_of. rewrite Z.mod_small by apply byte_val_range.
  unfold byte_val. rewrite N2Z.id. apply ascii_N_embedding.
Qed.

Lemma byte_val_of z : byte_val (byte_of z) = (z mod 256)%Z.
Proof.
  unfold byte_val, byte_of. rewrite N_ascii_embedding; [|].
  - rewrite Z2N.id; [done|]. apply Z.mod_pos_bound. lia.
  - pose proof (Z.mod_pos_bound z 256). lia.
Qed.

Lemma byte_val_inj c d : byte_val c = byte_val d -> c = d.
Proof. intros H. by rewrite <- (byte_of_val c), <- (byte_of_val d), H. Qed.

(** A property of every byte by inspection of the 256 of them. *)
Lemma byte_cases (f : ascii -> bool) :
  forallb (fun n => f (ascii_of_nat n)) (seq 0 256) = true -> forall c, f c = true.
Proof.
  rewrite forallb_forall. intros Hall c.
  rewrite <- (ascii_nat_embedding c). apply Hall.
  rewrite <- list_elem_of_In. apply elem_of_seq.
  pose proof (nat_ascii_bounded c). lia.
Qed.

Lemma wrap_s_range w z : (0 < w)%Z -> in_s w (wrap_s w z).
Proof.
  intros Hw. unfold in_s, wrap_s.
  pose proof (Z.mod_pos_bound (z + 2 ^ (w - 1)) (2 ^ w)).
  assert (2 ^ w = 2 * 2 ^ (w - 1))%Z as E.
  { rewrite <- Z.pow_succ_r by lia. f_equal. lia. }
  assert (0 < 2 ^ (w - 1))%Z by (apply Z.pow_pos_nonneg; lia). lia.
Qed.

Lemma wrap_s_small w z : (0 < w)%Z -> in_s w z -> wrap_s w z = z.
Proof.
  intros Hw Hz. unfold in_s, wrap_s in *.
  assert (2 ^ w = 2 * 2 ^ (w - 1))%Z as E.
  { rewrite <- Z.pow_succ_r by lia. f_equal. lia. }
  rewrite Z.mod_small; lia.
Qed.

Lemma wrap_u_small w z : in_u w z -> wrap_u w z = z.
Proof. unfold in_u, wrap_u. intros. apply Z.mod_small. lia. Qed.

Lemma u32_range z : in_u 32 (u32 z).
Proof. apply Z.mod_pos_bound. lia. Qed.

(** Wrapping once at the end is wrapping at every addition. *)
Lemma wrap_s_add_l w a b :
  wrap_s w (wrap_s w a + b) = wrap_s w (a + b).
Proof.
  unfold wrap_s. f_equal.
  replace ((a + 2 ^ (w - 1)) mod 2 ^ w - 2 ^ (w - 1) + b + 2 ^ (w - 1))%Z
    with ((a + 2 ^ (w - 1)) mod 2 ^ w + b)%Z by lia.
  rewrite Zplus_mod_idemp_l. f_equal. lia.
Qed.

Lemma wrap_s_add_r w a b :
  wrap_s w (a + wrap_s w b) = wrap_s w (a + b).
Proof. rewrite (Z.add_comm a), wrap_s_add_l. f_equal. lia. Qed.

(** ** Lemmas on C strings *)

Lemma nulcut_no_nul s : no_nul (nulcut s).
Proof. induction s; simpl; [constructor|]. case_decide; auto. Qed.

Lemma nulcut_id s : no_nul s -> nulcut s = s.
Proof. induction 1; simpl; [done|]. case_decide; by f_equal. Qed.

Lemma nulcut_length s : length (nulcut s) <= length s.
Proof. induction s; simpl; [lia|]. case_decide; simpl; lia. Qed.

Lemma nulcut_app_nul s t : nulcut (s ++ NUL :: t) = nulcut s.
Proof. induction s; simpl; [done|]. case_decide; by f_equal. Qed.

(** ** Lemmas on memory *)

Lemma store_mid pre x rest c :
  store ((Some <$> pre) ++ x :: rest) (length pre) c
  = Some ((Some <$> (pre ++ [c])) ++ rest).
Proof.
  unfold store. rewrite decide_True.
  - rewrite insert_app_r_alt by (rewrite length_fmap; lia).
    rewrite length_fmap, Nat.sub_diag. simpl.
    by rewrite fmap_app, <- app_assoc.
  - rewrite length_app, length_fmap. simpl. lia.
Qed.

(** Writing at the frontier of what is written. *)
Lemma store_frontier pre rest c :
  0 < length rest ->
  store ((Some <$> pre) ++ rest) (length pre) c
  = Some ((Some <$> (pre ++ [c])) ++ drop 1 rest).
Proof. destruct rest; simpl; [lia|]. intros _. by rewrite store_mid, drop_0. Qed.

Lemma memcpy_frontier src : forall pre rest,
  length src <= length rest ->
  memcpy ((Some <$> pre) ++ rest) (length pre) src
  = Some ((Some <$> (pre ++ src)) ++ drop (length src) rest).
Proof.
  induction src as [|c src IH]; intros pre rest Hlen; simpl in *.
  - by rewrite app_nil_r, drop_0.
  - destruct rest as [|x rest]; simpl in *; [lia|].
    rewrite store_mid. simpl.
    replace (S (length pre)) with (length (pre ++ [c]))
      by (rewrite length_app; simpl; lia).
    rewrite IH by lia. by rewrite <- app_assoc.
Qed.

Lemma memcpy_start src rest :
  length src <= length rest ->
  memcpy rest 0 src = Some ((Some <$> src) ++ drop (length src) rest).
Proof. intros. by apply (memcpy_frontier src []). Qed.

Lemma length_memcpy b : forall off src b',
  memcpy b off src = Some b' -> length b' = length b.
Proof.
  intros off src. revert b off. induction src as [|c src IH]; simpl.
  - by intros ??? [= ->].
  - intros b off b' H. unfold store in H. case_decide; simplify_eq/=.
    apply IH in H. by rewrite length_insert in H.
Qed.

Lemma cstr_written s rest :
  cstr ((Some <$> s) ++ Some NUL :: rest) = Some (nulcut s).
Proof.
  induction s as [|c s IH]; csimpl; [done|].
  case_decide; [done|]. by rewrite IH.
Qed.

Lemma cstr_written_no_nul s rest :
  no_nul s -> cstr ((Some <$> s) ++ Some NUL :: rest) = Some s.
Proof. intros. by rewrite cstr_written, nulcut_id. Qed.

Lemma cstr_terminated s rest :
  cstr ((Some <$> (s ++ [NUL])) ++ rest) = Some (nulcut s).
Proof. rewrite fmap_app, <- app_assoc. apply cstr_written. Qed.

(** The bind of options, one step at a time. *)
Lemma some_bind {A B} (a : A) (k : A -> option B) : Some a ≫= k = k a.
Proof. done. Qed.

Lemma mapM_written {A} (l : list A) : mapM id (Some <$> l) = Some l.
Proof.
  induction l as [|x l IH]; [done|]. cbn [fmap list_fmap mapM]. rewrite IH. done.
Qed.

Lemma length_alloca n : length (alloca n) = n.
Proof. apply length_replicate. Qed.

Lemma length_zeroed n : length (zeroed n) = n.
Proof. apply length_replicate. Qed.

Lemma length_lit s : length (lit s) = String.length s.
Proof. induction s; simpl; auto. Qed.

#[export] Hint Rewrite length_alloca length_zeroed @length_fmap @length_app
  @length_drop @length_take @length_replicate : hsed_len.
#[export] Hint Resolve nulcut_no_nul byte_val_range : hsed.

(** ** Facts about [cstr] *)

Lemma cstr_inv b : forall s, cstr b = Some s ->
  exists rest, b = (Some <$> s) ++ Some NUL :: rest /\ no_nul s.
Proof.
  induction b as [|[c|] b IH]; intros s H; simplify_eq/=.
  case_decide; simplify_eq/=; [by exists b|].
  destruct (cstr b) as [s'|] eqn:E; simplify_eq/=.
  destruct (IH s' eq_refl) as (rest & -> & Hn). exists rest. split; [done|].
  by constructor.
Qed.

Lemma cstr_length b s : cstr b = Some s -> length s < length b.
Proof. intros (rest & -> & _)%cstr_inv. len. Qed.

Lemma cstr_no_nul b s : cstr b = Some s -> no_nul s.
Proof. by intros (rest & _ & ?)%cstr_inv. Qed.

Lemma cstr_load0 b s : cstr b = Some s ->
  load b 0 = Some (match s with [] => NUL | c :: _ => c end).
Proof. intros (rest & -> & _)%cstr_inv. by destruct s. Qed.

(** [b] is a C string holding [s]: the postcondition of the functions that
    fill an array. *)
Definition fills (b : buf) (s : bytes) (o : option buf) : Prop :=
  exists b', o = Some b' /\ length b' = length b /\ cstr b' = Some s.
