(* ===== verification/CLib.v ===== *)
(** * The C library functions the daemon calls

    Number printing and parsing ([printf] conversions, [strtol] and the
    functions defined from it), string comparison and tokenising, [fgets],
    and the [printf] family as an interpreter of format strings. *)

From S2P Require Import Prelude.

(** ** Printing integers *)

Definition digit_char (d : Z) : ascii :=
  if (d <? 10)%Z then byte_of (48 + d) else byte_of (87 + d).

Fixpoint digits_go (base : Z) (fuel : nat) (z : Z) (acc : bytes) : bytes :=
  match fuel with
  | O => acc
  | S fuel' =>
      let acc' := digit_char (z mod base) :: acc in
      if (z <? base)%Z then acc' else digits_go base fuel' (z / base)%Z acc'
  end.

(** [%u] and [%x]: the bits of [z] are enough fuel, a digit eats at least one. *)
Definition print_u (base z : Z) : bytes :=
  digits_go base (S (Z.to_nat (Z.log2 z))) z [].

(** [%d]. *)
Definition print_d (z : Z) : bytes :=
  if (z <? 0)%Z then "-"%char :: print_u 10 (- z) else print_u 10 z.

(** [%04x]. *)
Definition print_04x (z : Z) : bytes :=
  let s := print_u 16 z in replicate (4 - length s) "0"%char ++ s.

(** ** Parsing integers *)

Definition isdigit (c : ascii) : bool :=
  ((48 <=? byte_val c) && (byte_val c <=? 57))%Z.

Definition isspace (c : ascii) : bool :=
  ((byte_val c =? 32) || ((9 <=? byte_val c) && (byte_val c <=? 13)))%Z.

Fixpoint skip_space (s : bytes) : bytes :=
  match s with
  | c :: s' => if isspace c then skip_space s' else s
  | [] => []
  end.

Definition digit_in (base : Z) (c : ascii) : bool :=
  (isdigit c && (byte_val c - 48 <? base)%Z)%bool.

(** The value of the leading digits (for a base up to 10) and what follows them. *)
Fixpoint read_digits (base acc : Z) (s : bytes) : Z * bytes :=
  match s with
  | c :: s' =>
      if digit_in base c
      then read_digits base (acc * base + (byte_val c - 48)) s'
      else (acc, s)
  | [] => (acc, [])
  end.

(** Sign, then digits: [Some] of whether the number is negative, its
    magnitude and the rest, [None] when there is no digit to convert. *)
Definition scan_number (base : Z) (s : bytes) : option (bool * Z * bytes) :=
  let s1 := skip_space s in
  let '(neg, s2) :=
    match s1 with
    | c :: s' => if decide (c = "-"%char) then (true, s')
                 else if decide (c = "+"%char) then (false, s') else (false, s1)
    | [] => (false, [])
    end in
  match s2 with
  | c :: _ => if digit_in base c
              then let '(v, rest) := read_digits base 0 s2 in Some (neg, v, rest)
              else None
  | [] => None
  end.

Definition LONG_MAX : Z := 2 ^ 63 - 1.
Definition LONG_MIN : Z := - 2 ^ 63.

(** [strtol(s, &end, base)]: the value and the text at [end]. *)
Definition strtol_end (base : Z) (s : bytes) : Z * bytes :=
  match scan_number base s with
  | Some (neg, v, rest) =>
      (Z.max LONG_MIN (Z.min LONG_MAX (if neg then - v else v)), rest)
  | None => (0%Z, s)
  end.

Definition strtol (base : Z) (s : bytes) : Z := fst (strtol_end base s).
(** [long] and [long long] have 64 bits on both supported architectures. *)
Definition strtoll (base : Z) (s : bytes) : Z := strtol base s.
Definition atol (s : bytes) : Z := strtol 10 s.
Definition atoll (s : bytes) : Z := strtoll 10 s.
Definition atoi (s : bytes) : Z := i32 (strtol 10 s).

(** [strtoul]: a minus sign negates in the unsigned type; a magnitude that
    does not fit gives [ULONG_MAX]. *)
Definition strtoul (base : Z) (s : bytes) : Z :=
  match scan_number base s with
  | Some (neg, v, _) =>
      if (2 ^ 64 <=? v)%Z then (2 ^ 64 - 1)%Z
      else if neg then u64 (- v) else v
  | None => 0%Z
  end.

(** ** Comparing, searching and splitting strings *)

Definition streq (a b : bytes) : bool := bool_decide (a = b).

(** [strncmp(a, b, n) == 0]. *)
Definition strneq (n : nat) (a b : bytes) : bool := bool_decide (take n a = take n b).

Definition tolower (c : ascii) : ascii :=
  if ((65 <=? byte_val c) && (byte_val c <=? 90))%Z
  then byte_of (byte_val c + 32) else c.

(** [strcasecmp(a, b) == 0]. *)
Definition strcaseeq (a b : bytes) : bool :=
  bool_decide (tolower <$> a = tolower <$> b).

(** [memmem(hay, needle) != NULL]. *)
Fixpoint memmem (hay needle : bytes) : bool :=
  bool_decide (take (length needle) hay = needle) ||
  match hay with [] => false | _ :: hay' => memmem hay' needle end.

(** [strtok_r]: skip delimiters; the token runs to the next delimiter, which
    is consumed.  [None] when only delimiters are left. *)
Fixpoint tok_skip (delims s : bytes) : bytes :=
  match s with
  | c :: s' => if decide (c ∈ delims) then tok_skip delims s' else s
  | [] => []
  end.

Fixpoint tok_span (delims s : bytes) : bytes * bytes :=
  match s with
  | c :: s' => if decide (c ∈ delims) then ([], s')
               else let '(t, r) := tok_span delims s' in (c :: t, r)
  | [] => ([], [])
  end.

Definition strtok_r (delims s : bytes) : option bytes * bytes :=
  match tok_skip delims s with
  | [] => (None, [])
  | s' => let '(t, r) := tok_span delims s' in (Some t, r)
  end.

(** [fgets] with room for [n] characters and the NUL: up to and including
    the next newline; [None] at the end of the file. *)
Fixpoint fgets_go (n : nat) (s : bytes) : bytes * bytes :=
  match n, s with
  | O, _ | _, [] => ([], s)
  | S n', c :: s' =>
      if decide (c = NL) then ([c], s')
      else let '(l, r) := fgets_go n' s' in (c :: l, r)
  end.

Definition fgets (bufsize : nat) (s : bytes) : option (bytes * bytes) :=
  match s with [] => None | _ => Some (fgets_go (bufsize - 1) s) end.

(** ** Formatted output *)

Inductive farg :=
  | AInt (z : Z)        (* %d *)
  | AUInt (z : Z)       (* %u, %04x *)
  | ALong (z : Z)       (* %ld *)
  | ALLong (z : Z)      (* %lld *)
  | AULLong (z : Z)     (* %llu *)
  | ASize (z : Z)       (* %zu *)
  | AStr (s : bytes).   (* %s *)

Inductive piece := PLit (s : bytes) | PConv (spec : bytes).

(** Splitting a format string into text and conversion specifications.
    [lit_acc] is the text read so far, [conv] the specification being read. *)
Fixpoint lex_fmt (lit_acc : bytes) (conv : option bytes) (f : bytes) : list piece :=
  match f with
  | [] => match lit_acc with [] => [] | _ => [PLit lit_acc] end
  | c :: f' =>
      match conv with
      | None =>
          if decide (c = "%"%char) then
            match lit_acc with
            | [] => lex_fmt [] (Some []) f'
            | _ => PLit lit_acc :: lex_fmt [] (Some []) f'
            end
          else lex_fmt (lit_acc ++ [c]) None f'
      | Some spec =>
          let spec' := spec ++ [c] in
          if decide (c ∈ lit "duxs%") then PConv spec' :: lex_fmt [] None f'
          else lex_fmt [] (Some spec') f'
      end
  end.

(** One conversion: the argument it takes must have the type it names. *)
Definition conv1 (spec : bytes) (a : farg) : option bytes :=
  match a with
  | AInt z => if streq spec (lit "d") then Some (print_d z) else None
  | AUInt z => if streq spec (lit "u") then Some (print_u 10 z)
               else if streq spec (lit "04x") then Some (print_04x z) else None
  | ALong z => if streq spec (lit "ld") then Some (print_d z) else None
  | ALLong z => if streq spec (lit "lld") then Some (print_d z) else None
  | AULLong z => if streq spec (lit "llu") then Some (print_u 10 z) else None
  | ASize z => if streq spec (lit "zu") then Some (print_u 10 z) else None
  | AStr s => if streq spec (lit "s") then Some s else None
  end.

(** [None] is undefined behaviour: a missing argument or one of another type. *)
Fixpoint render (ps : list piece) (args : list farg) : option bytes :=
  match ps with
  | [] => Some []
  | PLit s :: ps' => (s ++.) <$> render ps' args
  | PConv spec :: ps' =>
      if streq spec (lit "%") then ("%"%char ::.) <$> render ps' args
      else match args with
           | [] => None
           | a :: args' => s ← conv1 spec a; (s ++.) <$> render ps' args'
           end
  end.

Definition format (fmt : bytes) (args : list farg) : option bytes :=
  render (lex_fmt [] None fmt) args.

(** Writing the formatted text at offset [off] of a buffer with [size]
    bytes left there; the return value is the untruncated length. *)
Definition snprintf_at (b : buf) (off size : nat) (fmt : bytes) (args : list farg)
    : option (buf * nat) :=
  s ← format fmt args;
  if decide (size = 0) then Some (b, length s)
  else b' ← memcpy b off (take (size - 1) s ++ [NUL]); Some (b', length s).

Definition snprintf (b : buf) (size : nat) (fmt : bytes) (args : list farg)
    : option (buf * nat) := snprintf_at b 0 size fmt args.

(** The C string [snprintf(local, sizeof local, ...)] leaves in a local array. *)
Definition sformat (size : nat) (fmt : bytes) (args : list farg) : option bytes :=
  '(b, _) ← snprintf (alloca size) size fmt args; cstr b.

(** ** Facts about the number functions *)

Lemma digit_char_val d : (0 <= d < 10)%Z -> byte_val (digit_char d) = (48 + d)%Z.
Proof.
  intros H. unfold digit_char. rewrite (proj2 (Z.ltb_lt _ _)) by lia.
  rewrite byte_val_of. apply Z.mod_small. lia.
Qed.

Lemma digit_char_digit base d :
  (0 <= d < base)%Z -> (base <= 10)%Z -> digit_in base (digit_char d) = true.
Proof.
  intros H Hb. unfold digit_in, isdigit. rewrite digit_char_val by lia.
  rewrite !andb_true_iff, !Z.leb_le, Z.ltb_lt. lia.
Qed.

Lemma digits_go_app base fuel : forall z acc,
  digits_go base fuel z acc = digits_go base fuel z [] ++ acc.
Proof.
  induction fuel as [|fuel IH]; intros z acc; simpl; [done|].
  destruct (z <? base)%Z; [done|].
  rewrite IH, (IH _ [_]), <- app_assoc. done.
Qed.

Lemma digits_go_digits base fuel : (2 <= base <= 10)%Z -> forall z,
  Forall (fun c => digit_in base c = true) (digits_go base fuel z []).
Proof.
  intros Hb. induction fuel as [|fuel IH]; intros z; simpl; [constructor|].
  assert (digit_in base (digit_char (z mod base)) = true) as Hd.
  { apply digit_char_digit; [|lia]. apply Z.mod_pos_bound. lia. }
  destruct (z <? base)%Z; [by constructor|].
  rewrite digits_go_app. apply Forall_app. split; [done|by constructor].
Qed.

(** The value of a string of digits, read from the left. *)
Definition digits_val (base a : Z) (s : bytes) : Z :=
  foldl (fun a c => a * base + (byte_val c - 48))%Z a s.

Lemma digits_go_val base fuel : (2 <= base <= 10)%Z -> forall z,
  (0 <= z < 2 ^ Z.of_nat fuel)%Z ->
  digits_val base 0 (digits_go base fuel z []) = z.
Proof.
  intros Hb. induction fuel as [|fuel IH]; intros z Hz; simpl.
  - unfold digits_val. simpl in *. lia.
  - rewrite Nat2Z.inj_succ, Z.pow_succ_r in Hz by lia.
    assert (0 <= z mod base < base)%Z by (apply Z.mod_pos_bound; lia).
    assert (0 <= z / base < 2 ^ Z.of_nat fuel)%Z.
    { split; [apply Z.div_pos; lia|apply Z.div_lt_upper_bound; nia]. }
    destruct (z <? base)%Z eqn:E.
    + apply Z.ltb_lt in E. unfold digits_val. simpl.
      rewrite Z.mod_small, digit_char_val by lia. lia.
    + rewrite digits_go_app. unfold digits_val. rewrite foldl_app.
      fold (digits_val base 0 (digits_go base fuel (z / base) [])).
      rewrite IH by lia. simpl. rewrite digit_char_val by lia.
      pose proof (Z.div_mod z base). lia.
Qed.

Lemma digits_go_length fuel : forall z k,
  (0 <= z < 10 ^ Z.of_nat k)%Z -> 0 < k ->
  length (digits_go 10 fuel z []) <= k.
Proof.
  induction fuel as [|fuel IH]; intros z k Hz Hk; simpl; [lia|].
  destruct (z <? 10)%Z eqn:E; [simpl; lia|].
  apply Z.ltb_ge in E. destruct k as [|k]; [lia|].
  rewrite Nat2Z.inj_succ, Z.pow_succ_r in Hz by lia.
  assert (0 < k) by (destruct k; [simpl in Hz|]; lia).
  rewrite digits_go_app, length_app. simpl.
  assert (length (digits_go 10 fuel (z / 10) []) <= k); [|lia].
  apply IH; [|done]. split; [apply Z.div_pos; lia|].
  apply Z.div_lt_upper_bound; lia.
Qed.

Lemma print_u_fuel z : (0 <= z)%Z -> (z < 2 ^ Z.of_nat (S (Z.to_nat (Z.log2 z))))%Z.
Proof.
  intros Hz. destruct (decide (z = 0)%Z) as [->|]; [done|].
  rewrite Nat2Z.inj_succ, Z2Nat.id by apply Z.log2_nonneg.
  apply Z.log2_spec. lia.
Qed.

Lemma print_u_digits z : Forall (fun c => digit_in 10 c = true) (print_u 10 z).
Proof. by apply digits_go_digits. Qed.

Lemma print_u_val z : (0 <= z)%Z -> digits_val 10 0 (print_u 10 z) = z.
Proof.
  intros Hz. apply digits_go_val; [lia|].
  split; [done|]. by apply print_u_fuel.
Qed.

Lemma print_u_length z k :
  (0 <= z < 10 ^ Z.of_nat k)%Z -> 0 < k -> length (print_u 10 z) <= k.
Proof. apply digits_go_length. Qed.

Lemma print_u_cons z : exists c s, print_u 10 z = c :: s /\ digit_in 10 c = true.
Proof.
  pose proof (print_u_digits z) as Hd. unfold print_u in *.
  destruct (digits_go 10 _ z []) as [|c s] eqn:E.
  - exfalso. simpl in E. destruct (z <? 10)%Z; [done|].
    rewrite digits_go_app in E. apply (f_equal length) in E.
    rewrite length_app in E. simpl in E. lia.
  - exists c, s. by apply Forall_cons_1 in Hd as [? ?].
Qed.

(** The text after a number does not continue it. *)
Definition ends_number (base : Z) (t : bytes) : Prop :=
  match t with [] => True | c :: _ => digit_in base c = false end.

Lemma read_digits_all base s : forall a t,
  Forall (fun c => digit_in base c = true) s -> ends_number base t ->
  read_digits base a (s ++ t) = (digits_val base a s, t).
Proof.
  induction s as [|c s IH]; intros a t Hs Ht; simpl.
  - destruct t as [|c t]; simpl in *; [done|]. by rewrite Ht.
  - apply Forall_cons_1 in Hs as [Hc Hs]. rewrite Hc. by apply IH.
Qed.

Lemma digit_not_sign c :
  digit_in 10 c = true -> isspace c = false /\ c <> "-"%char /\ c <> "+"%char.
Proof.
  unfold digit_in, isdigit, isspace. intros H.
  apply andb_true_iff in H as [[H1 H2]%andb_true_iff _].
  apply Z.leb_le in H1, H2. split_and!.
  - apply orb_false_iff. rewrite andb_false_iff, Z.eqb_neq, !Z.leb_gt. lia.
  - intros ->. by vm_compute in H1.
  - intros ->. by vm_compute in H1.
Qed.

Lemma scan_number_print_u z t :
  (0 <= z)%Z -> ends_number 10 t ->
  scan_number 10 (print_u 10 z ++ t) = Some (false, z, t).
Proof.
  intros Hz Ht. destruct (print_u_cons z) as (c & s & E & Hc).
  pose proof (read_digits_all 10 (print_u 10 z) 0 t (print_u_digits z) Ht) as Hr.
  rewrite print_u_val in Hr by done. rewrite E in *.
  unfold scan_number. destruct (digit_not_sign c Hc) as (Hsp & Hm & Hp).
  simpl app in *. cbn [skip_space]. rewrite Hsp, !decide_False by done.
  by rewrite Hc, Hr.
Qed.

Lemma scan_number_print_d z t :
  ends_number 10 t ->
  scan_number 10 (print_d z ++ t) = Some (bool_decide (z < 0)%Z, Z.abs z, t).
Proof.
  intros Ht. unfold print_d. destruct (z <? 0)%Z eqn:E.
  - apply Z.ltb_lt in E. rewrite bool_decide_true by done.
    destruct (print_u_cons (- z)) as (c & s & Es & Hc).
    pose proof (read_digits_all 10 (print_u 10 (- z)) 0 t (print_u_digits _) Ht) as Hr.
    rewrite print_u_val in Hr by lia. rewrite Es in *.
    unfold scan_number. simpl app in *. cbn [skip_space].
    replace (isspace "-") with false by done. rewrite decide_True by done.
    rewrite Hc, Hr. f_equal. f_equal. f_equal. lia.
  - apply Z.ltb_ge in E. rewrite bool_decide_false by lia.
    rewrite scan_number_print_u by done. f_equal. f_equal. f_equal. lia.
Qed.

(** Printing then parsing a [long] gives it back. *)
Lemma strtol_print_d z t :
  in_s 64 z -> ends_number 10 t -> strtol_end 10 (print_d z ++ t) = (z, t).
Proof.
  intros Hz Ht. unfold strtol_end. rewrite scan_number_print_d by done.
  f_equal. unfold in_s, LONG_MAX, LONG_MIN in *. simpl in Hz.
  case_bool_decide; lia.
Qed.

Lemma strtol_range base s : in_s 64 (strtol base s).
Proof.
  unfold strtol, strtol_end, in_s, LONG_MAX, LONG_MIN.
  destruct (scan_number base s) as [[[[] v] r]|]; simpl; lia.
Qed.

Lemma atoi_range s : in_s 32 (atoi s).
Proof. by apply wrap_s_range. Qed.

Lemma print_d_length z k :
  (Z.abs z < 10 ^ Z.of_nat k)%Z -> 0 < k -> length (print_d z) <= S k.
Proof.
  intros Hz Hk. unfold print_d.
  destruct (z <? 0)%Z eqn:E; [apply Z.ltb_lt in E|apply Z.ltb_ge in E]; simpl.
  - pose proof (print_u_length (- z) k). lia.
  - pose proof (print_u_length z k). lia.
Qed.

Lemma digit_not_nul c : digit_in 10 c = true -> c <> NUL.
Proof. by intros H ->. Qed.

Lemma print_u_no_nul z : no_nul (print_u 10 z).
Proof.
  eapply Forall_impl; [apply print_u_digits|]. intros c Hc. exact (digit_not_nul c Hc).
Qed.

Lemma print_d_no_nul z : no_nul (print_d z).
Proof.
  unfold print_d. destruct (z <? 0)%Z; [constructor; [done|]|]; apply print_u_no_nul.
Qed.

(** ** Facts about formatted output *)

Lemma snprintf_at_frontier pre rest size fmt args s :
  format fmt args = Some s -> 0 < size <= length rest ->
  snprintf_at ((Some <$> pre) ++ rest) (length pre) size fmt args
  = Some ((Some <$> (pre ++ take (size - 1) s ++ [NUL]))
          ++ drop (length (take (size - 1) s) + 1) rest, length s).
Proof.
  intros Hf Hs. unfold snprintf_at. rewrite Hf. simpl.
  rewrite decide_False by lia.
  rewrite memcpy_frontier by (rewrite length_app, length_take; simpl; lia).
  simpl. by rewrite length_app.
Qed.

Lemma snprintf_start b size fmt args s :
  format fmt args = Some s -> 0 < size <= length b ->
  snprintf b size fmt args
  = Some ((Some <$> (take (size - 1) s ++ [NUL]))
          ++ drop (length (take (size - 1) s) + 1) b, length s).
Proof. intros. by apply (snprintf_at_frontier [] b). Qed.

Lemma sformat_spec size fmt args s :
  format fmt args = Some s -> 0 < size ->
  sformat size fmt args = Some (nulcut (take (size - 1) s)).
Proof.
  intros Hf Hs. unfold sformat.
  rewrite (snprintf_start _ _ _ _ s) by (rewrite ?length_alloca; done || lia).
  cbn [mbind option_bind]. apply cstr_terminated.
Qed.

Lemma sformat_fits size fmt args s :
  format fmt args = Some s -> no_nul s -> length s < size ->
  sformat size fmt args = Some s.
Proof.
  intros Hf Hn Hs. rewrite (sformat_spec _ _ _ s) by (done || lia).
  rewrite take_ge by lia. by rewrite nulcut_id.
Qed.

(** ** Facts about tokenising and lines *)

Lemma tok_span_app delims s : forall t r,
  tok_span delims s = (t, r) -> Forall (fun c => c ∉ delims) t /\
  (s = t \/ exists d, d ∈ delims /\ s = t ++ d :: r).
Proof.
  induction s as [|c s IH]; simpl; intros t r H; simplify_eq.
  - auto.
  - case_decide; simplify_eq.
    + split; [constructor|]. right. by exists c.
    + destruct (tok_span delims s) as [t' r'] eqn:E. simplify_eq.
      destruct (IH _ _ eq_refl) as [Hf Ho]. split; [by constructor|].
      destruct Ho as [->|(d & ? & ->)]; [by left|]. right. by exists d.
Qed.

Lemma fgets_go_app n s : forall l r, fgets_go n s = (l, r) -> s = l ++ r.
Proof.
  revert s. induction n as [|n IH]; intros [|c s] l r H; simplify_eq/=; try done.
  case_decide; simplify_eq/=; [done|].
  destruct (fgets_go n s) as [l' r'] eqn:E. simplify_eq/=. f_equal. by apply IH.
Qed.

Lemma fgets_go_length n s : forall l r, fgets_go n s = (l, r) -> length l <= n.
Proof.
  revert s. induction n as [|n IH]; intros [|c s] l r H; simplify_eq/=; try lia.
  case_decide; simplify_eq/=; [lia|].
  destruct (fgets_go n s) as [l' r'] eqn:E. simplify_eq/=. apply IH in E. lia.
Qed.
