(* ===== verification/Kernel.v ===== *)
(** * The operating system as an interface

    The daemon's effects are calls of the kernel and of the parts of the C
    library that are not pure.  [call R] is a call answered by an [R]; a
    [Kernel] is any function from a call and the history of the calls made so
    far to an answer, so a theorem quantified over it covers every behaviour
    of the system, interrupted and failing calls and races included.
    [prog A] is the state monad over the history, with undefined behaviour,
    [exit] and running out of fuel as outcomes; [wp] is its program logic. *)

From S2P Require Import Prelude.

(** A system call returns a value or fails with an [errno]. *)
Inductive sysres (A : Type) : Type :=
  | ROk (a : A)
  | RErr (errno : Z).
Arguments ROk {A} a.
Arguments RErr {A} errno.

(** The fields of [struct stat] the daemon reads. *)
Record stat_t := {
  st_dev : Z; st_ino : Z; st_uid : Z; st_size : Z; st_mtime : Z }.

(** Where a [realloc] of a scan comes from: the worker with this index, the
    merge of the workers' lists, or the pid list. *)
Inductive alloc_site := AtWorker (i : nat) | AtMerge | AtPids.

(** What a scan observes of [/proc] and of the C library: each field answers
    one of the calls the scan makes, [None] being its failure.  A scan makes
    each of these calls once per path, so any answers a changing [/proc] can
    give are those of some [procfs]; only [comm], which [read_cmdline] falls
    back to, and the name of a user are asked for more than once, and the
    model gives them one answer. *)
Record procfs := {
  p_opendir : bytes -> option (list bytes);   (* entry names, in readdir order *)
  p_stat : bytes -> option stat_t;
  p_readlink : bytes -> option bytes;         (* the whole target *)
  p_read : bytes -> option bytes;             (* contents, None: open failed *)
  p_getpwuid : Z -> option bytes;             (* pw_name *)
  p_nprocs : Z;                               (* sysconf(_SC_NPROCESSORS_ONLN) *)
  p_calloc : nat -> bool;                     (* the two arrays of n workers *)
  p_realloc : alloc_site -> nat -> bool;      (* by the capacity asked for *)
  p_spawn : nat -> bool }.                    (* pthread_create of worker i *)

Inductive call : Type -> Type :=
  (* sockets *)
  | CSend (fd : Z) (data : bytes) : call (sysres Z)
  | CRecv (fd : Z) (len : nat) (dontwait : bool) : call (sysres bytes)
  | CSocket : call (sysres Z)
  | CBind (fd : Z) (path : bytes) : call (sysres unit)
  | CListen (fd backlog : Z) : call (sysres unit)
  | CPoll (fd timeout : Z) : call (sysres Z)
  | CAccept (fd : Z) : call (sysres Z)
  (* files *)
  | CStat (path : bytes) : call (sysres stat_t)
  | COpen (path : bytes) (flags : Z) : call (sysres Z)
  | CFtruncate (fd len : Z) : call (sysres unit)
  | CClose (fd : Z) : call unit
  | CUnlink (path : bytes) : call unit
  | CChmod (path : bytes) (mode : Z) : call (sysres unit)
  | COpendir (path : bytes) : call (sysres (list bytes))
  | CFopen (path mode : bytes) : call (sysres Z)
  | CFputs (f : Z) (text : bytes) : call unit
  | CFclose (f : Z) : call unit
  (* processes *)
  | CKill (pid sig : Z) : call (sysres unit)
  | CGetpid : call Z
  | CGeteuid : call Z
  | CFork : call (sysres Z)
  | CSetsid : call (sysres unit)
  | CUmask (mask : Z) : call unit
  | CChdir (path : bytes) : call (sysres unit)
  | CDup2 (oldfd newfd : Z) : call unit
  | CSignal (sig : Z) (ignored : bool) : call unit
  | CUsleep (us : Z) : call unit
  (* ptrace *)
  | CSeize (tid opts : Z) : call (sysres unit)
  | CInterrupt (tid : Z) : call (sysres unit)
  | CDetach (tid : Z) : call unit
  | CSyscall (tid sig : Z) : call (sysres unit)
  | CCont (tid : Z) : call unit
  | CGetRegs (tid : Z) : call (sysres (list Z))
  | CGetEventMsg (tid : Z) : call (sysres Z)
  | CWaitpid (tid : Z) : call (sysres (Z * Z))
  | CWaitAny : call (sysres (Z * Z))
  | CReadVm (tid addr : Z) (len : nat) : call (sysres bytes)
  (* the rest of the process *)
  | CMalloc (size : Z) : call bool
  | CSpawn (fd max_capture scan_threads : Z) : call (sysres unit)   (* handle_connection *)
  | CErrno : call Z
  | CShutdownFlag : call bool
  | CProcfs : call procfs
  | CSyslog (err : bool) (msg : bytes) : call unit
  | CStderr (text : bytes) : call unit
  | CStdout (text : bytes) : call unit
  | COpenlog (ident : bytes) (option facility : Z) : call unit
  | CExit (code : Z) : call unit.

Inductive event : Type :=
  | Ev {R : Type} (c : call R) (r : R).

Abbreviation hist := (list event).

Class Kernel := {
  answer : forall {R : Type}, call R -> hist -> R;
  strerror : Z -> bytes }.

(** ** Programs *)

Inductive outcome (A : Type) : Type :=
  | Done (a : A)
  | Exited (code : Z)
  | Undef
  | NoFuel.
Arguments Done {A} a.
Arguments Exited {A} code.
Arguments Undef {A}.
Arguments NoFuel {A}.

Definition prog (A : Type) : Type := hist -> outcome A * hist.

#[export] Instance prog_ret : MRet prog := fun A a h => (Done a, h).

#[export] Instance prog_bind : MBind prog := fun A B k m h =>
  match m h with
  | (Done a, h') => k a h'
  | (Exited c, h') => (Exited c, h')
  | (Undef, h') => (Undef, h')
  | (NoFuel, h') => (NoFuel, h')
  end.

Definition syscall {K : Kernel} {R} (c : call R) : prog R :=
  fun h => let r := answer c h in (Done r, h ++ [Ev c r]).

(** Pure code whose [None] is undefined behaviour. *)
Definition pure {A} (o : option A) : prog A :=
  fun h => (match o with Some a => Done a | None => Undef end, h).

(** [exit] is a call too: the exit status is seen in the history. *)
Definition exit {K : Kernel} {A} (code : Z) : prog A :=
  fun h => (Exited code, h ++ [Ev (CExit code) (answer (CExit code) h)]).
Definition out_of_fuel {A} : prog A := fun h => (NoFuel, h).

(** ** The program logic

    [wp m h I Q]: run from history [h], [m] has no undefined behaviour; the
    events it adds satisfy [Q] with its result if it returns, and [I] if it
    is cut short by [exit] or by the end of the fuel. *)
Definition wp {A} (m : prog A) (h : hist) (I : list event -> Prop)
    (Q : A -> list event -> Prop) : Prop :=
  exists evs, snd (m h) = h ++ evs /\
    match fst (m h) with
    | Done a => Q a evs
    | Undef => False
    | Exited _ | NoFuel => I evs
    end.

Section rules.
Context {K : Kernel}.

Lemma wp_ret {A} (a : A) h (I : list event -> Prop) (Q : A -> list event -> Prop) :
  Q a [] -> wp (mret a) h I Q.
Proof. intros HQ. exists []. by rewrite app_nil_r. Qed.

Lemma wp_bind {A B} (m : prog A) (k : A -> prog B) h I Q Q' :
  wp m h I Q ->
  (forall a evs, Q a evs ->
     wp (k a) (h ++ evs) (fun evs' => I (evs ++ evs')) (fun b evs' => Q' b (evs ++ evs'))) ->
  wp (m ≫= k) h I Q'.
Proof.
  intros (evs & Hh & Hm) Hk. unfold wp, mbind, prog_bind.
  destruct (m h) as [o h'] eqn:E. simpl in *. subst h'.
  destruct o as [a|c| |]; simpl; [|by exists evs..].
  destruct (Hk a evs Hm) as (evs' & Hh' & Hm').
  exists (evs ++ evs'). rewrite Hh', app_assoc. split; [done|].
  by destruct (fst (k a (h ++ evs))).
Qed.

Lemma wp_call {R} (c : call R) h (I : list event -> Prop) (Q : R -> list event -> Prop) :
  Q (answer c h) [Ev c (answer c h)] -> wp (syscall c) h I Q.
Proof. intros HQ. exists [Ev c (answer c h)]. done. Qed.

Lemma wp_pure {A} (o : option A) (a : A) h (I : list event -> Prop) (Q : A -> list event -> Prop) :
  o = Some a -> Q a [] -> wp (pure o) h I Q.
Proof. intros -> HQ. exists []. by rewrite app_nil_r. Qed.

Lemma wp_fuel {A} h (I : list event -> Prop) (Q : A -> list event -> Prop) :
  I [] -> wp out_of_fuel h I Q.
Proof. intros HI. exists []. by rewrite app_nil_r. Qed.

Lemma wp_exit {A} c h (I : list event -> Prop) (Q : A -> list event -> Prop) :
  I [Ev (CExit c) tt] -> wp (exit c) h I Q.
Proof.
  intros HI. exists [Ev (CExit c) tt]. unfold exit. by destruct (answer _ _).
Qed.

Lemma wp_conseq {A} (m : prog A) h (I I' : list event -> Prop) (Q Q' : A -> list event -> Prop) :
  wp m h I Q -> (forall evs, I evs -> I' evs) -> (forall a evs, Q a evs -> Q' a evs) ->
  wp m h I' Q'.
Proof.
  intros (evs & Hh & Hm) HI HQ. exists evs. split; [done|].
  destruct (fst (m h)); auto.
Qed.

Lemma wp_mono {A} (m : prog A) (h : hist) (I : list event -> Prop) (Q Q' : A -> list event -> Prop) :
  wp m h I Q -> (forall a evs, Q a evs -> Q' a evs) -> wp m h I Q'.
Proof. intros H HQ. by eapply wp_conseq. Qed.

Lemma wp_and {A} (m : prog A) (h : hist) (I I' : list event -> Prop) (Q Q' : A -> list event -> Prop) :
  wp m h I Q -> wp m h I' Q' -> wp m h I (fun a evs => Q a evs /\ Q' a evs).
Proof.
  intros (evs & Hh & Hm) (evs' & Hh' & Hm').
  assert (evs' = evs) as -> by (apply (app_inv_head h); congruence).
  exists evs. split; [done|]. by destruct (fst (m h)).
Qed.

Lemma wp_both {A} (m : prog A) (h : hist) (I I' : list event -> Prop) (Q Q' : A -> list event -> Prop) :
  wp m h I Q -> wp m h I' Q' -> wp m h (fun evs => I evs /\ I' evs) (fun a evs => Q a evs /\ Q' a evs).
Proof.
  intros (evs & Hh & Hm) (evs' & Hh' & Hm').
  assert (evs' = evs) as -> by (apply (app_inv_head h); congruence).
  exists evs. split; [done|]. by destruct (fst (m h)).
Qed.

(** A call, then the rest of the program. *)
Lemma wp_call_bind {R B} (c : call R) (k : R -> prog B) h (I : list event -> Prop) Q :
  (forall r, r = answer c h ->
     wp (k r) (h ++ [Ev c r]) (fun evs => I (Ev c r :: evs)) (fun b evs => Q b (Ev c r :: evs))) ->
  wp (syscall c ≫= k) h I Q.
Proof.
  intros Hk. eapply wp_bind; [by apply (wp_call c h I (fun r evs => r = answer c h /\ evs = [Ev c r]))|].
  simpl. intros r evs [Hr ->]. by apply Hk.
Qed.

Lemma wp_pure_bind {A B} (o : option A) (a : A) (k : A -> prog B) h I Q :
  o = Some a -> wp (k a) h I Q -> wp (pure o ≫= k) h I Q.
Proof. intros -> Hk. exact Hk. Qed.

Lemma run_mret_bind {A B} (a : A) (k : A -> prog B) (h : hist) (I : list event -> Prop) Q :
  wp (k a) h I Q -> wp (mret a ≫= k) h I Q.
Proof. done. Qed.

(** What a run says of its final history. *)
Lemma wp_done {A} (m : prog A) h I Q a h' :
  wp m h I Q -> m h = (Done a, h') -> exists evs, h' = h ++ evs /\ Q a evs.
Proof. intros (evs & Hh & Hm) E. rewrite E in *. eauto. Qed.

Lemma wp_no_undef {A} (m : prog A) h I Q :
  wp m h I Q -> fst (m h) <> Undef.
Proof. intros (evs & Hh & Hm) E. by rewrite E in Hm. Qed.
End rules.

(** ** The calls a program can make

    [only ok m]: every event of a run of [m] satisfies [ok], and is a call
    with the answer that the kernel gives to it after the events before. *)
Section only.
Context {K : Kernel}.

Fixpoint honest (h evs : list event) : Prop :=
  match evs with
  | [] => True
  | e :: evs =>
      match e with Ev c r => r = answer c h end /\ honest (h ++ [e]) evs
  end.

Definition only {A} (ok : event -> bool) (m : prog A) : Prop :=
  forall h, exists evs, snd (m h) = h ++ evs /\ honest h evs /\
    Forall (fun e => ok e = true) evs.

Lemma honest_app h evs evs' : honest h (evs ++ evs') <-> honest h evs /\ honest (h ++ evs) evs'.
Proof.
  revert h. induction evs as [|e evs IH]; intros h; cbn [app honest].
  - rewrite app_nil_r. tauto.
  - rewrite IH, <- app_assoc. tauto.
Qed.

Context (ok : event -> bool).

Lemma only_nothing {A} (o : outcome A) : only ok (fun h => (o, h)).
Proof. intros h. exists []. by rewrite app_nil_r. Qed.

Lemma only_ret {A} (a : A) : only ok (mret a).
Proof. apply only_nothing. Qed.

Lemma only_bind {A B} (m : prog A) (k : A -> prog B) :
  only ok m -> (forall a, only ok (k a)) -> only ok (m ≫= k).
Proof.
  intros Hm Hk h. destruct (Hm h) as (evs & Hh & Hhon & Hevs). unfold mbind, prog_bind.
  destruct (m h) as [o h'] eqn:E. simpl in Hh. subst h'.
  destruct o as [a|c| |]; [|by exists evs..].
  destruct (Hk a (h ++ evs)) as (evs' & Hh' & Hhon' & Hevs'). exists (evs ++ evs').
  rewrite Hh', app_assoc, honest_app. split_and!; [done..|]. by apply Forall_app.
Qed.

Lemma only_call {R} (c : call R) : (forall r, ok (Ev c r) = true) -> only ok (syscall c).
Proof.
  intros Hc h. exists [Ev c (answer c h)]. split_and!; [done..|]. by repeat constructor.
Qed.

Lemma only_pure {A} (o : option A) : only ok (pure o).
Proof. apply only_nothing. Qed.

Lemma only_fuel {A} : only ok (@out_of_fuel A).
Proof. apply only_nothing. Qed.

Lemma wp_only {A} (m : prog A) h I Q : wp m h I Q -> only ok m ->
  wp m h (fun evs => I evs /\ Forall (fun e => ok e = true) evs)
    (fun a evs => Q a evs /\ Forall (fun e => ok e = true) evs).
Proof.
  intros (evs & Hh & Hm) Ho. destruct (Ho h) as (evs' & Hh' & _ & Hevs).
  assert (evs' = evs) as -> by (apply (app_inv_head h); congruence).
  exists evs. split; [done|]. by destruct (fst (m h)).
Qed.

Lemma only_weaken (ok' : event -> bool) {A} (m : prog A) :
  (forall e, ok e = true -> ok' e = true) -> only ok m -> only ok' m.
Proof.
  intros Hok Hm h. destruct (Hm h) as (evs & Hh & Hhon & Hevs). exists evs. split_and!; [done..|].
  eapply Forall_impl; [done|]. auto.
Qed.
End only.

(** Follows the code down to its calls; [tac] decides a call. *)
Ltac only_calls tac :=
  repeat first
    [ assumption
    | apply only_ret | apply only_pure | apply only_fuel
    | apply only_bind; [|intros ?]
    | apply only_call; intros ?; tac
    | match goal with
      | |- only _ (match ?x with _ => _ end) => destruct x
      | |- only _ (let '_ := ?x in _) => destruct x
      end
    | progress cbv zeta ].

(** Running a program by hand. *)
Lemma run_bind {A B} (m : prog A) (k : A -> prog B) h a h' :
  m h = (Done a, h') -> (m ≫= k) h = k a h'.
Proof. intros E. unfold mbind, prog_bind. by rewrite E. Qed.

Lemma run_pure {A B} (o : option A) (k : A -> prog B) h a :
  o = Some a -> (pure o ≫= k) h = k a h.
Proof. by intros ->. Qed.

Lemma run_call {K : Kernel} {R B} (c : call R) (k : R -> prog B) h :
  (syscall c ≫= k) h = k (answer c h) (h ++ [Ev c (answer c h)]).
Proof. done. Qed.

#[export] Hint Resolve wp_ret : hsed.

(** ** A quiet kernel

    Every call succeeds with the plainest answer; the concrete kernels of the
    examples override some of them. *)
Definition quiet_procfs : procfs := {|
  p_opendir _ := Some []; p_stat _ := None; p_readlink _ := None; p_read _ := None;
  p_getpwuid _ := None; p_nprocs := 1; p_calloc _ := true; p_realloc _ _ := true;
  p_spawn _ := true |}.

Definition quiet {R} (c : call R) : R :=
  match c in call R return R with
  | CSend _ data => ROk (Z.of_nat (length data))
  | CRecv _ _ _ => ROk []
  | CSocket => ROk 3%Z
  | CBind _ _ => ROk tt
  | CListen _ _ => ROk tt
  | CPoll _ _ => ROk 0%Z
  | CAccept _ => ROk 4%Z
  | CStat _ => ROk {| st_dev := 0; st_ino := 0; st_uid := 0; st_size := 0; st_mtime := 0 |}
  | COpen _ _ => ROk 5%Z
  | CFtruncate _ _ => ROk tt
  | CClose _ => tt
  | CUnlink _ => tt
  | CChmod _ _ => ROk tt
  | COpendir _ => ROk []
  | CFopen _ _ => ROk 6%Z
  | CFputs _ _ => tt
  | CFclose _ => tt
  | CKill _ _ => ROk tt
  | CGetpid => 1%Z
  | CGeteuid => 0%Z
  | CFork => ROk 0%Z
  | CSetsid => ROk tt
  | CUmask _ => tt
  | CChdir _ => ROk tt
  | CDup2 _ _ => tt
  | CSignal _ _ => tt
  | CUsleep _ => tt
  | CSeize _ _ => ROk tt
  | CInterrupt _ => ROk tt
  | CDetach _ => tt
  | CSyscall _ _ => ROk tt
  | CCont _ => tt
  | CGetRegs _ => ROk []
  | CGetEventMsg _ => ROk 0%Z
  | CWaitpid _ => ROk (0, 0)%Z
  | CWaitAny => ROk (0, 0)%Z
  | CReadVm _ _ _ => ROk []
  | CMalloc _ => true
  | CSpawn _ _ _ => ROk tt
  | CErrno => 0%Z
  | CShutdownFlag => true
  | CProcfs => quiet_procfs
  | CSyslog _ _ => tt
  | CStderr _ => tt
  | CStdout _ => tt
  | COpenlog _ _ _ => tt
  | CExit _ => tt
  end.
