(* ===== verification/Util.v ===== *)
(** * util.c: logging and bounded string copy *)

From S2P Require Import Prelude CLib Kernel.

(** ** hsed_strlcpy

    [src] is the C string the pointer designates; the result is the
    destination array and the length of [src]. *)
Definition hsed_strlcpy (dst : buf) (src : bytes) (dstsize : nat) : option (buf * nat) :=
  let srclen := length src in
  if decide (0 < dstsize) then
    let copy := if decide (srclen < dstsize - 1) then srclen else dstsize - 1 in
    dst1 ← memcpy dst 0 (take copy src);
    dst2 ← store dst1 copy NUL;
    Some (dst2, srclen)
  else Some (dst, srclen).

(** ** The log

    [g_use_syslog] is the global set by [hsed_log_init]; the callers pass the
    formatted message. *)
Definition LOG_PID : Z := 1.
Definition LOG_DAEMON : Z := 24.

Definition hsed_log_init {K : Kernel} (use_syslog : bool) : prog bool :=
  _ ← (if use_syslog then syscall (COpenlog (lit "hsed") LOG_PID LOG_DAEMON) else mret tt);
  mret use_syslog.

Definition hsed_log {K : Kernel} (g_use_syslog : bool) (msg : bytes) : prog unit :=
  if g_use_syslog then syscall (CSyslog false msg)
  else syscall (CStderr (msg ++ [NL])).

Definition hsed_log_err {K : Kernel} (g_use_syslog : bool) (msg : bytes) : prog unit :=
  if g_use_syslog then syscall (CSyslog true msg)
  else syscall (CStderr (lit "[error] " ++ msg ++ [NL])).

(** ** Lemmas *)

Lemma strlcpy_run dst src dstsize :
  0 < dstsize <= length dst ->
  hsed_strlcpy dst src dstsize
  = Some ((Some <$> (take (dstsize - 1) src ++ [NUL]))
          ++ drop (length (take (dstsize - 1) src) + 1) dst, length src).
Proof.
  intros Hd. unfold hsed_strlcpy. rewrite decide_True by lia.
  assert (exists n, (if decide (length src < dstsize - 1) then length src else dstsize - 1) = n
            /\ take n src = take (dstsize - 1) src /\ length (take n src) = n)
    as (n & -> & Et & El).
  { case_decide; eexists; (split; [done|]).
    - rewrite !take_ge by lia. done.
    - split; [done|]. rewrite length_take. lia. }
  rewrite Et in *. rewrite memcpy_start by (rewrite length_take; lia). cbn [mbind option_bind].
  rewrite <- El at 1. rewrite store_frontier by (rewrite length_drop, length_take; lia).
  cbn [mbind option_bind]. by rewrite drop_drop, El.
Qed.

Lemma strlcpy_cstr dst src dstsize :
  0 < dstsize <= length dst -> no_nul src ->
  exists dst', hsed_strlcpy dst src dstsize = Some (dst', length src) /\
    length dst' = length dst /\ cstr dst' = Some (take (dstsize - 1) src).
Proof.
  intros Hd Hn. rewrite strlcpy_run by done. eexists. split; [done|]. split.
  - rewrite length_app, length_fmap, length_app, length_drop. simpl.
    rewrite length_take. lia.
  - rewrite cstr_terminated, nulcut_id; [done|]. by apply Forall_take.
Qed.

(** ** Properties *)

(** C35: [hsed_strlcpy] never writes outside the destination, always leaves it a
    C string holding the longest prefix of the source that fits, returns the
    source's length, and returns at least [dstsize] exactly when it truncated. *)
Theorem strlcpy_correct (dst : buf) (src : bytes) (dstsize : nat) :
  0 < dstsize <= length dst -> no_nul src ->
  exists dst' n, hsed_strlcpy dst src dstsize = Some (dst', n) /\
    length dst' = length dst /\
    cstr dst' = Some (take (dstsize - 1) src) /\
    n = length src /\ (dstsize <= n <-> cstr dst' <> Some src).
Proof.
  intros Hd Hn. destruct (strlcpy_cstr dst src dstsize Hd Hn) as (dst' & Hr & Hl & Hc).
  exists dst', (length src). split_and!; [done..|]. rewrite Hc. split.
  - intros Hs [= E]. apply (f_equal length) in E. rewrite length_take in E. lia.
  - intros Hne. destruct (decide (dstsize <= length src)) as [|Hlt]; [done|].
    destruct Hne. by rewrite take_ge by lia.
Qed.

Lemma strlcpy_correct_witness :
  exists dst' n, hsed_strlcpy (alloca 4) (lit "hello") 4 = Some (dst', n) /\
    length dst' = length (alloca 4) /\
    cstr dst' = Some (take (4 - 1) (lit "hello")) /\
    n = length (lit "hello") /\ (4 <= n <-> cstr dst' <> Some (lit "hello")).
Proof.
  apply (strlcpy_correct (alloca 4) (lit "hello") 4).
  - rewrite length_alloca. lia.
  - repeat constructor; discriminate.
Defined.
