(* ===== verification/Base64.v ===== *)
(** * base64.c: the transport encoding of captured bytes

    [hsed_base64_encode] is refined to [b64_spec], the encoding of RFC 4648,
    whose decoder [b64_decode] inverts it; it never leaves the output array
    of [hsed_base64_encoded_len] bytes. *)

From S2P Require Import Prelude.

Local Open Scope Z_scope.

(** ** The code *)

Definition B64_TABLE : bytes :=
  lit "ABCDEFGHIJKLMNOPQRSTUVWXYZabcdefghijklmnopqrstuvwxyz0123456789+/".

Definition hsed_base64_encoded_len (len : nat) : nat := ((len + 2) / 3 * 4 + 1)%nat.

Definition b64_char (k : Z) : option ascii := B64_TABLE !! Z.to_nat k.

(** Four times [out[o++] = ...]. *)
Definition put4 (out : buf) (o : nat) (a b c d : ascii) : option buf :=
  out ← store out o a;
  out ← store out (o + 1) b;
  out ← store out (o + 2) c;
  store out (o + 3) d.

(** The [while] loop; [len] is enough fuel, each turn consumes three bytes. *)
Fixpoint encode_loop (fuel : nat) (data : buf) (len i o : nat) (out : buf)
    : option (nat * nat * buf) :=
  if decide (i + 3 <= len)%nat then
    match fuel with
    | O => None
    | S fuel' =>
        d0 ← load data i;
        d1 ← load data (i + 1);
        d2 ← load data (i + 2);
        let v := Z.lor (Z.lor (Z.shiftl (byte_val d0) 16) (Z.shiftl (byte_val d1) 8))
                   (byte_val d2) in
        c0 ← b64_char (Z.land (Z.shiftr v 18) 63);
        c1 ← b64_char (Z.land (Z.shiftr v 12) 63);
        c2 ← b64_char (Z.land (Z.shiftr v 6) 63);
        c3 ← b64_char (Z.land v 63);
        out ← put4 out o c0 c1 c2 c3;
        encode_loop fuel' data len (i + 3) (o + 4) out
    end
  else Some (i, o, out).

(** The one or two bytes left over, padded. *)
Definition encode_tail (data : buf) (len i o : nat) (out : buf) : option (nat * buf) :=
  let rem := (len - i)%nat in
  if decide (rem = 1)%nat then
    d0 ← load data i;
    let v := Z.shiftl (byte_val d0) 16 in
    c0 ← b64_char (Z.land (Z.shiftr v 18) 63);
    c1 ← b64_char (Z.land (Z.shiftr v 12) 63);
    out ← put4 out o c0 c1 "="%char "="%char;
    Some ((o + 4)%nat, out)
  else if decide (rem = 2)%nat then
    d0 ← load data i;
    d1 ← load data (i + 1);
    let v := Z.lor (Z.shiftl (byte_val d0) 16) (Z.shiftl (byte_val d1) 8) in
    c0 ← b64_char (Z.land (Z.shiftr v 18) 63);
    c1 ← b64_char (Z.land (Z.shiftr v 12) 63);
    c2 ← b64_char (Z.land (Z.shiftr v 6) 63);
    out ← put4 out o c0 c1 c2 "="%char;
    Some ((o + 4)%nat, out)
  else Some (o, out).

Definition hsed_base64_encode (data : buf) (len : nat) (out : buf) : option buf :=
  '(i, o, out) ← encode_loop len data len 0 0 out;
  '(o, out) ← encode_tail data len i o out;
  store out o NUL.

(** ** The reference: RFC 4648 *)

Definition group (a b c : Z) : Z := a * 65536 + b * 256 + c.
Definition sextet (v : Z) (k : Z) : ascii :=
  default "="%char (b64_char (v / 2 ^ (6 * k) mod 64)).

Fixpoint b64_spec (d : bytes) : bytes :=
  match d with
  | a :: b :: c :: d' =>
      let v := group (byte_val a) (byte_val b) (byte_val c) in
      sextet v 3 :: sextet v 2 :: sextet v 1 :: sextet v 0 :: b64_spec d'
  | [a; b] =>
      let v := group (byte_val a) (byte_val b) 0 in
      [sextet v 3; sextet v 2; sextet v 1; "="%char]
  | [a] =>
      let v := group (byte_val a) 0 0 in
      [sextet v 3; sextet v 2; "="%char; "="%char]
  | [] => []
  end.

(** The value of a base64 digit: its position in the alphabet. *)
Fixpoint index_of (c : ascii) (t : bytes) (k : Z) : option Z :=
  match t with
  | [] => None
  | x :: t' => if decide (x = c) then Some k else index_of c t' (k + 1)
  end.
Definition b64_val (c : ascii) : option Z := index_of c B64_TABLE 0.

Fixpoint b64_decode (s : bytes) : option bytes :=
  match s with
  | [] => Some []
  | c0 :: c1 :: c2 :: c3 :: s' =>
      v0 ← b64_val c0;
      v1 ← b64_val c1;
      if decide (c2 = "="%char /\ c3 = "="%char /\ s' = []) then
        Some [byte_of (v0 * 4 + v1 / 16)]
      else
        v2 ← b64_val c2;
        if decide (c3 = "="%char /\ s' = []) then
          Some [byte_of (v0 * 4 + v1 / 16); byte_of (v1 * 16 + v2 / 4)]
        else
          v3 ← b64_val c3;
          r ← b64_decode s';
          Some (byte_of (v0 * 4 + v1 / 16) :: byte_of (v1 * 16 + v2 / 4)
                :: byte_of (v2 * 64 + v3) :: r)
  | _ => None
  end.

(** ** The alphabet *)

Lemma b64_char_total k : 0 <= k < 64 ->
  exists c, b64_char k = Some c /\ b64_val c = Some k /\ c <> "="%char /\ c <> NUL
            /\ c <> DQUOTE /\ c <> BACKSLASH.
Proof.
  intros Hk.
  assert (forallb (fun n => match b64_char (Z.of_nat n) with
            | Some c => bool_decide (b64_val c = Some (Z.of_nat n))
                && bool_decide (c <> "="%char) && bool_decide (c <> NUL)
                && bool_decide (c <> DQUOTE) && bool_decide (c <> BACKSLASH)
            | None => false end) (seq 0 64) = true) as H by by vm_compute.
  rewrite forallb_forall in H. specialize (H (Z.to_nat k)).
  rewrite Z2Nat.id in H by lia. rewrite <- list_elem_of_In, elem_of_seq in H.
  destruct (b64_char k) as [c|]; [|by discriminate H; lia].
  exists c. rewrite !andb_true_iff, !bool_decide_eq_true in H.
  destruct H as ((((?&?)&?)&?)&?); [lia|]. done.
Qed.

Lemma sextet_digit v k : exists x, x = v / 2 ^ (6 * k) mod 64 /\ 0 <= x < 64 /\
  b64_char x = Some (sextet v k) /\ b64_val (sextet v k) = Some x.
Proof.
  eexists. split; [done|].
  assert (0 <= v / 2 ^ (6 * k) mod 64 < 64) as Hr by (apply Z.mod_pos_bound; lia).
  destruct (b64_char_total _ Hr) as (c & Hc & Hv & _).
  unfold sextet. by rewrite Hc.
Qed.

Lemma sextet_clean v k : sextet v k <> "="%char /\ sextet v k <> NUL /\
  sextet v k <> DQUOTE /\ sextet v k <> BACKSLASH.
Proof.
  destruct (sextet_digit v k) as (x & _ & Hr & Hc & _).
  destruct (b64_char_total x Hr) as (c & Hc' & _ & Hcl). rewrite Hc in Hc'.
  by simplify_eq.
Qed.

(** The shifts and masks of the code compute the sextets of the group. *)
Lemma lor_low x y n : 0 <= n -> 0 <= y < 2 ^ n -> Z.lor (Z.shiftl x n) y = x * 2 ^ n + y.
Proof.
  intros Hn Hy. rewrite <- Z.shiftl_mul_pow2 by done.
  assert (Z.land (Z.shiftl x n) y = 0) as Hd.
  { apply Z.bits_inj'. intros i Hi. rewrite Z.land_spec, Z.bits_0.
    destruct (decide (i < n)).
    - by rewrite Z.shiftl_spec_low.
    - rewrite <- (Z.mod_small y (2 ^ n)), Z.mod_pow2_bits_high by lia.
      by rewrite andb_false_r. }
  by rewrite Z.add_nocarry_lxor, Z.lxor_lor.
Qed.

Lemma group_lor a b c : 0 <= a < 256 -> 0 <= b < 256 -> 0 <= c < 256 ->
  Z.lor (Z.lor (Z.shiftl a 16) (Z.shiftl b 8)) c = group a b c.
Proof.
  intros. rewrite (Z.shiftl_mul_pow2 b), lor_low by lia.
  replace (a * 2 ^ 16 + b * 2 ^ 8) with (Z.shiftl (a * 2 ^ 8 + b) 8)
    by (rewrite Z.shiftl_mul_pow2; lia).
  rewrite lor_low by lia. unfold group. lia.
Qed.

Lemma sextet_code v k n : n = 6 * k -> 0 <= k ->
  b64_char (Z.land (Z.shiftr v n) 63) = Some (sextet v k).
Proof.
  intros -> Hk. destruct (sextet_digit v k) as (x & Hx & _ & Hc & _).
  rewrite <- Hc. f_equal. change 63 with (Z.ones 6).
  rewrite Z.land_ones, Z.shiftr_div_pow2 by lia. done.
Qed.

Lemma sextet_code0 v : b64_char (Z.land v 63) = Some (sextet v 0).
Proof. rewrite <- (Z.shiftr_0_r v) at 1. by apply sextet_code. Qed.

(** ** Refinement *)

Local Open Scope nat_scope.

Lemma load_past pre post tail k n c :
  n = length pre + k -> post !! k = Some c ->
  load ((Some <$> (pre ++ post)) ++ tail) n = Some c.
Proof.
  intros -> Hl. pose proof (lookup_lt_Some _ _ _ Hl). unfold load.
  rewrite lookup_app_l by len.
  rewrite list_lookup_fmap, lookup_app_r by lia.
  replace (length pre + k - length pre) with k by lia. by rewrite Hl.
Qed.

Lemma put4_run w r o a b c d :
  o = length w -> 4 <= length r ->
  put4 ((Some <$> w) ++ r) o a b c d
  = Some ((Some <$> (w ++ [a; b; c; d])) ++ drop 4 r).
Proof.
  intros -> Hr. destruct r as [|? [|? [|? [|? r]]]]; simpl in Hr; try lia.
  assert (forall w' x y r' n, n = length w' ->
    store ((Some <$> w') ++ x :: r') n y = Some ((Some <$> (w' ++ [y])) ++ r')) as Hst.
  { intros w' x y r' n ->. apply store_mid. }
  unfold put4. rewrite (Hst w) by done. cbn [mbind option_bind].
  rewrite Hst by len. cbn [mbind option_bind].
  rewrite Hst by len. cbn [mbind option_bind].
  rewrite Hst by len. by rewrite <- !app_assoc.
Qed.

Lemma encode_tail_run pre rest tail w r :
  length rest < 3 -> length (b64_spec rest) < length r ->
  encode_tail ((Some <$> (pre ++ rest)) ++ tail)
       (length (pre ++ rest)) (length pre) (length w) ((Some <$> w) ++ r)
  = Some (length (w ++ b64_spec rest),
      (Some <$> (w ++ b64_spec rest)) ++ drop (length (b64_spec rest)) r).
Proof.
  intros Hrest Hr. unfold encode_tail.
  replace (length (pre ++ rest) - length pre) with (length rest) by len.
  pose proof byte_val_range as Hb.
  destruct rest as [|a [|b [|]]]; simpl in Hrest, Hr; try lia; clear Hrest.
  - rewrite !decide_False by (simpl; lia). by rewrite app_nil_r, drop_0.
  - rewrite decide_True by done.
    rewrite (load_past pre [a] tail 0 (length pre) a) by (done || lia).
    cbn [mbind option_bind].
    replace (Z.shiftl (byte_val a) 16) with (group (byte_val a) 0 0)
      by (unfold group; rewrite Z.shiftl_mul_pow2; lia).
    rewrite (sextet_code _ 3 18), (sextet_code _ 2 12) by lia. cbn [mbind option_bind].
    rewrite put4_run by (done || lia). cbn [mbind option_bind]. by rewrite length_app.
  - rewrite decide_False, decide_True by done.
    rewrite (load_past pre [a; b] tail 0 (length pre) a) by (done || lia).
    cbn [mbind option_bind].
    rewrite (load_past pre [a; b] tail 1 (length pre + 1) b) by (done || lia).
    cbn [mbind option_bind].
    rewrite <- (Z.lor_0_r (Z.lor _ _)), group_lor by (done || lia).
    rewrite (sextet_code _ 3 18), (sextet_code _ 2 12), (sextet_code _ 1 6) by lia.
    cbn [mbind option_bind].
    rewrite put4_run by (done || lia). cbn [mbind option_bind]. by rewrite length_app.
Qed.

(** Induction on a list three elements at a time. *)
Lemma list_ind3 {A} (P : list A -> Prop) :
  (forall l, length l < 3 -> P l) ->
  (forall a b c l, P l -> P (a :: b :: c :: l)) -> forall l, P l.
Proof.
  intros Hs Hc l. remember (length l) as n eqn:E. revert l E.
  induction (lt_wf n) as [n _ IH]. intros l ->.
  destruct l as [|a [|b [|c l]]]; [apply Hs; simpl; lia..|].
  apply Hc. eapply IH; [|done]. simpl. lia.
Qed.

Lemma encode_run rest : forall fuel pre tail w r,
  length rest <= fuel -> length (b64_spec rest) < length r ->
  ('(i, o, out) ← encode_loop fuel ((Some <$> (pre ++ rest)) ++ tail)
       (length (pre ++ rest)) (length pre) (length w) ((Some <$> w) ++ r);
   encode_tail ((Some <$> (pre ++ rest)) ++ tail) (length (pre ++ rest)) i o out)
  = Some (length (w ++ b64_spec rest),
      (Some <$> (w ++ b64_spec rest)) ++ drop (length (b64_spec rest)) r).
Proof.
  induction rest as [rest Hlt|a b c rest IH] using list_ind3; intros fuel pre tail w r Hf Hr.
  - assert (~ length pre + 3 <= length (pre ++ rest)) by len.
    destruct fuel; cbn [encode_loop]; rewrite decide_False by assumption;
      cbn [mbind option_bind]; apply encode_tail_run; assumption.
  - destruct fuel as [|fuel]; simpl in Hf, Hr; [lia|].
    cbn [encode_loop]. rewrite decide_True by len.
    rewrite (load_past pre (a :: b :: c :: rest) tail 0 (length pre) a) by (done || lia).
    cbn [mbind option_bind].
    rewrite (load_past pre (a :: b :: c :: rest) tail 1 (length pre + 1) b) by (done || lia).
    cbn [mbind option_bind].
    rewrite (load_past pre (a :: b :: c :: rest) tail 2 (length pre + 2) c) by (done || lia).
    cbn [mbind option_bind].
    rewrite group_lor by apply byte_val_range.
    rewrite (sextet_code _ 3 18), (sextet_code _ 2 12), (sextet_code _ 1 6), sextet_code0 by lia.
    cbn [mbind option_bind].
    rewrite put4_run by (done || lia). cbn [mbind option_bind].
    assert (pre ++ a :: b :: c :: rest = (pre ++ [a; b; c]) ++ rest) as Epre
      by (rewrite <- app_assoc; reflexivity).
    rewrite !Epre.
    replace (length pre + 3) with (length (pre ++ [a; b; c])) by len.
    set (v := group (byte_val a) (byte_val b) (byte_val c)).
    replace (length w + 4)
      with (length (w ++ [sextet v 3; sextet v 2; sextet v 1; sextet v 0])) by len.
    rewrite IH by len. rewrite <- !app_assoc, drop_drop. done.
Qed.

Lemma b64_spec_length d : length (b64_spec d) = (length d + 2) / 3 * 4.
Proof.
  induction d as [d Hlt|a b c d IH] using list_ind3.
  - destruct d as [|? [|? [|]]]; simpl in Hlt; [done..|lia].
  - cbn [b64_spec length]. rewrite IH.
    replace (S (S (S (length d))) + 2) with (length d + 2 + 1 * 3) by lia.
    rewrite Nat.div_add by lia. lia.
Qed.

Lemma b64_spec_clean d :
  Forall (fun c => c <> NUL /\ c <> DQUOTE /\ c <> BACKSLASH) (b64_spec d).
Proof.
  induction d as [d Hlt|a b c d IH] using list_ind3.
  - destruct d as [|? [|? [|]]]; simpl in Hlt; [|..|lia];
      repeat constructor; try apply sextet_clean; discriminate.
  - cbn [b64_spec]. repeat (apply Forall_cons; split; [repeat split; apply sextet_clean|]).
    done.
Qed.

Lemma b64_spec_no_nul d : no_nul (b64_spec d).
Proof. eapply Forall_impl; [apply b64_spec_clean|]. by intros c (? & _). Qed.

(** The whole call, on data with anything after its [len] bytes. *)
Lemma encode_spec d tail out :
  hsed_base64_encoded_len (length d) <= length out ->
  hsed_base64_encode ((Some <$> d) ++ tail) (length d) out
  = Some ((Some <$> (b64_spec d ++ [NUL])) ++ drop (length (b64_spec d) + 1) out).
Proof.
  unfold hsed_base64_encoded_len. rewrite <- b64_spec_length. intros Hout.
  unfold hsed_base64_encode.
  pose proof (encode_run d (length d) [] tail [] out) as H. cbn [app] in H.
  change ((Some <$> ([] : bytes)) ++ out) with out in H. cbn [length] in H.
  destruct (encode_loop _ _ _ _ _ _) as [[[i o] out']|]; cbn [mbind option_bind] in *.
  - rewrite H by lia. cbn [mbind option_bind].
    rewrite store_frontier by (rewrite length_drop; lia). by rewrite drop_drop.
  - discriminate H; lia.
Qed.

(** ** Decoding *)

Local Open Scope Z_scope.

Lemma byte_of_eq z c : z mod 256 = byte_val c -> byte_of z = c.
Proof. intros H. apply byte_val_inj. by rewrite byte_val_of. Qed.

Lemma sextet_not_pad v k : sextet v k <> "="%char.
Proof. apply sextet_clean. Qed.

(** The three bytes of a group come back from its sextets. *)
Lemma group_bytes a b c : 0 <= a < 256 -> 0 <= b < 256 -> 0 <= c < 256 ->
  let v := group a b c in
  let s k := v / 2 ^ (6 * k) mod 64 in
  (s 3 * 4 + s 2 / 16) mod 256 = a /\ (s 2 * 16 + s 1 / 4) mod 256 = b /\
  (s 1 * 64 + s 0) mod 256 = c.
Proof.
  intros Ha Hb Hc v s. unfold s, v, group. simpl Z.mul. simpl Z.pow.
  rewrite Z.div_1_r. Z.to_euclidean_division_equations. lia.
Qed.

Lemma b64_decode_spec d : b64_decode (b64_spec d) = Some d.
Proof.
  pose proof byte_val_range as Hb.
  induction d as [d Hlt|a b c d IH] using list_ind3.
  - destruct d as [|a [|b [|]]]; simpl in Hlt; [done|..|lia]; cbn [b64_spec b64_decode];
      set (v := group _ _ _);
      destruct (sextet_digit v 3) as (? & ? & _ & _ & Hs3);
      destruct (sextet_digit v 2) as (? & ? & _ & _ & Hs2);
      rewrite Hs3, Hs2; cbn [mbind option_bind].
    + rewrite decide_True by done. do 2 f_equal. apply byte_of_eq. subst.
      by apply (group_bytes (byte_val a) 0 0).
    + rewrite decide_False by (intros [E _]; by apply sextet_not_pad in E).
      destruct (sextet_digit v 1) as (? & ? & _ & _ & Hs1).
      rewrite Hs1. cbn [mbind option_bind]. rewrite decide_True by done.
      destruct (group_bytes (byte_val a) (byte_val b) 0) as (? & ? & _); [done..|].
      do 2 f_equal; [|f_equal]; apply byte_of_eq; by subst.
  - cbn [b64_spec b64_decode]. set (v := group _ _ _).
    destruct (sextet_digit v 3) as (? & ? & _ & _ & Hs3).
    destruct (sextet_digit v 2) as (? & ? & _ & _ & Hs2).
    destruct (sextet_digit v 1) as (? & ? & _ & _ & Hs1).
    destruct (sextet_digit v 0) as (? & ? & _ & _ & Hs0).
    rewrite Hs3, Hs2. cbn [mbind option_bind].
    rewrite decide_False by (intros [E _]; by apply sextet_not_pad in E).
    rewrite Hs1. cbn [mbind option_bind].
    rewrite decide_False by (intros [E _]; by apply sextet_not_pad in E).
    rewrite Hs0, IH. cbn [mbind option_bind].
    destruct (group_bytes (byte_val a) (byte_val b) (byte_val c)) as (? & ? & ?); [done..|].
    repeat f_equal; apply byte_of_eq; by subst.
Qed.

(** ** Properties *)

Local Open Scope nat_scope.

(** C23: The encoder, given an array of [hsed_base64_encoded_len] bytes or more,
    reads only the [len] data bytes and writes only inside that many bytes; it
    leaves a C string that is exactly one byte shorter than the promised
    length and that decodes to the data. *)
Theorem base64_encode_roundtrip (d : bytes) (tail out : buf) :
  hsed_base64_encoded_len (length d) <= length out ->
  exists out' s,
    hsed_base64_encode ((Some <$> d) ++ tail) (length d) out = Some out' /\
    cstr out' = Some s /\
    length s + 1 = hsed_base64_encoded_len (length d) /\
    drop (hsed_base64_encoded_len (length d)) out'
      = drop (hsed_base64_encoded_len (length d)) out /\
    b64_decode s = Some d.
Proof.
  intros Hout. eexists _, (b64_spec d). split; [by apply encode_spec|].
  assert (hsed_base64_encoded_len (length d) = length (b64_spec d) + 1) as El.
  { by rewrite b64_spec_length. }
  split_and!.
  - rewrite cstr_terminated. by rewrite nulcut_id by apply b64_spec_no_nul.
  - by rewrite El.
  - rewrite El, drop_app_length'; [done|]. by rewrite length_fmap, length_app.
  - apply b64_decode_spec.
Qed.

Lemma base64_encode_roundtrip_witness :
  exists out' s,
    hsed_base64_encode ((Some <$> lit "hello") ++ []) (length (lit "hello")) (alloca 9)
      = Some out' /\
    cstr out' = Some s /\
    length s + 1 = hsed_base64_encoded_len (length (lit "hello")) /\
    drop (hsed_base64_encoded_len (length (lit "hello"))) out'
      = drop (hsed_base64_encoded_len (length (lit "hello"))) (alloca 9) /\
    b64_decode s = Some (lit "hello").
Proof. apply (base64_encode_roundtrip (lit "hello") [] (alloca 9)). vm_compute. lia. Defined.

Example encode_hello :
  (out ← hsed_base64_encode ((Some <$> lit "hello") ++ []) 5 (alloca 9); cstr out)
  = Some (lit "aGVsbG8=").
Proof. by vm_compute. Qed.
