(* ===== verification/Json.v ===== *)
(** * The JSON lines of the protocol, as their reader sees them

    The reference side of protocol.c: a reader of one flat JSON object
    (RFC 8259 strings, integers and booleans), against which the lines the
    daemon formats are judged, and [json_line], the text of an object whose
    member values are given as text; what is left of such a line by a cut is
    not read ([json_object_cut]).  Nothing here models code of the daemon. *)

From S2P Require Import Prelude CLib.

Inductive jval := JStr (s : bytes) | JNum (z : Z) | JBool (b : bool).

#[export] Instance jval_eq_dec : EqDecision jval.
Proof. solve_decision. Defined.

(** ** Reading *)

Definition hex_val (c : ascii) : option Z :=
  let v := byte_val c in
  if ((48 <=? v) && (v <=? 57))%Z then Some (v - 48)%Z
  else if ((97 <=? v) && (v <=? 102))%Z then Some (v - 87)%Z
  else if ((65 <=? v) && (v <=? 70))%Z then Some (v - 55)%Z
  else None.

(** The byte a two-character escape stands for. *)
Definition unescape1 (e : ascii) : option ascii :=
  if decide (e = DQUOTE) then Some DQUOTE
  else if decide (e = BACKSLASH) then Some BACKSLASH
  else if decide (e = "/"%char) then Some "/"%char
  else if decide (e = "n"%char) then Some NL
  else if decide (e = "r"%char) then Some CR
  else if decide (e = "t"%char) then Some TAB
  else if decide (e = "b"%char) then Some "008"%char
  else if decide (e = "f"%char) then Some "012"%char
  else None.

(** A string after its opening quote: the bytes it denotes and what follows
    its closing quote.  A raw control character is an error; a [\u] escape is
    read when it denotes one byte. *)
Fixpoint json_string (s : bytes) : option (bytes * bytes) :=
  match s with
  | [] => None
  | c :: s' =>
      if decide (c = DQUOTE) then Some ([], s')
      else if decide (c = BACKSLASH) then
        match s' with
        | [] => None
        | e :: s'' =>
            if decide (e = "u"%char) then
              match s'' with
              | a :: b :: x :: y :: s3 =>
                  va ← hex_val a; vb ← hex_val b; vx ← hex_val x; vy ← hex_val y;
                  if decide (va = 0 /\ vb = 0)%Z then
                    '(t, r) ← json_string s3; Some (byte_of (vx * 16 + vy) :: t, r)
                  else None
              | _ => None
              end
            else
              d ← unescape1 e; '(t, r) ← json_string s''; Some (d :: t, r)
        end
      else if (byte_val c <? 32)%Z then None
      else '(t, r) ← json_string s'; Some (c :: t, r)
  end.

Definition strip_prefix (p s : bytes) : option bytes :=
  if decide (take (length p) s = p) then Some (drop (length p) s) else None.

Definition json_number (s : bytes) : option (Z * bytes) :=
  let '(neg, s1) :=
    match s with c :: s' => if decide (c = "-"%char) then (true, s') else (false, s)
    | [] => (false, []) end in
  match s1 with
  | c :: _ => if digit_in 10 c
              then let '(v, r) := read_digits 10 0 s1 in Some (if neg then - v else v, r)%Z
              else None
  | [] => None
  end.

Definition json_value (s : bytes) : option (jval * bytes) :=
  match s with
  | c :: s' =>
      if decide (c = DQUOTE) then '(t, r) ← json_string s'; Some (JStr t, r)
      else match strip_prefix (lit "true") s with
      | Some r => Some (JBool true, r)
      | None =>
          match strip_prefix (lit "false") s with
          | Some r => Some (JBool false, r)
          | None => '(z, r) ← json_number s; Some (JNum z, r)
          end
      end
  | [] => None
  end.

(** Members up to the closing brace, which must end the line.  Each takes at
    least one byte, so the length of the text is enough fuel. *)
Fixpoint json_members (fuel : nat) (s : bytes) : option (list (bytes * jval)) :=
  match fuel with
  | O => None
  | S fuel' =>
      s1 ← strip_prefix [DQUOTE] s;
      '(k, s2) ← json_string s1;
      s3 ← strip_prefix (lit ":") s2;
      '(v, s4) ← json_value s3;
      match s4 with
      | c :: s5 =>
          if decide (c = ","%char) then
            r ← json_members fuel' s5; Some ((k, v) :: r)
          else if decide (c = "}"%char /\ s5 = []) then Some [(k, v)] else None
      | [] => None
      end
  end.

Definition json_object (s : bytes) : option (list (bytes * jval)) :=
  match s with
  | c :: s' => if decide (c = "{"%char) then json_members (length s') s' else None
  | [] => None
  end.

(** ** Writing *)

Definition quoted (s : bytes) : bytes := DQUOTE :: s ++ [DQUOTE].

Definition json_member (m : bytes * bytes) : bytes := quoted m.1 ++ lit ":" ++ m.2.

Fixpoint json_body (ms : list (bytes * bytes)) : bytes :=
  match ms with
  | [] => lit "}"
  | [m] => json_member m ++ lit "}"
  | m :: ms' => json_member m ++ lit "," ++ json_body ms'
  end.

Definition json_line (ms : list (bytes * bytes)) : bytes := "{"%char :: json_body ms.

(** ** Correctness of the reader on such lines *)

(** A text read as the value [v] whatever delimiter follows. *)
Definition reads_as (t : bytes) (v : jval) : Prop :=
  forall c r, c = ","%char \/ c = "}"%char -> json_value (t ++ c :: r) = Some (v, c :: r).

Definition plain_char (c : ascii) : Prop :=
  c <> DQUOTE /\ c <> BACKSLASH /\ (32 <= byte_val c)%Z.

#[export] Instance plain_char_dec c : Decision (plain_char c).
Proof. unfold plain_char. apply _. Defined.

Lemma json_string_plain s : forall r, Forall plain_char s ->
  json_string (s ++ DQUOTE :: r) = Some (s, r).
Proof.
  induction s as [|c s IH]; intros r Hs; simpl; [done|].
  apply Forall_cons_1 in Hs as [(H1 & H2 & H3) Hs].
  rewrite !decide_False by done. rewrite (proj2 (Z.ltb_ge _ _)) by lia.
  by rewrite IH.
Qed.

Lemma strip_prefix_app p s : strip_prefix p (p ++ s) = Some s.
Proof.
  unfold strip_prefix. rewrite take_app_length, decide_True by done.
  by rewrite drop_app_length.
Qed.

Lemma strip_prefix_cons c s : strip_prefix [c] (c :: s) = Some s.
Proof. apply (strip_prefix_app [c]). Qed.

Lemma reads_as_string e t :
  (forall r, json_string (e ++ DQUOTE :: r) = Some (t, r)) -> reads_as (quoted e) (JStr t).
Proof.
  intros He c r _. unfold json_value, quoted. simpl.
  rewrite <- app_assoc. simpl. by rewrite He.
Qed.

Lemma reads_as_plain s : Forall plain_char s -> reads_as (quoted s) (JStr s).
Proof. intros Hs. apply reads_as_string. intros r. by apply json_string_plain. Qed.

Lemma reads_as_bool (b : bool) : reads_as (if b then lit "true" else lit "false") (JBool b).
Proof. intros c r [-> | ->]; by destruct b. Qed.

Lemma digit_not_other c : digit_in 10 c = true ->
  c <> DQUOTE /\ c <> "t"%char /\ c <> "f"%char /\ c <> "-"%char.
Proof. intros H. repeat split; intros ->; by vm_compute in H. Qed.

Lemma strip_prefix_head p0 p c s : c <> p0 -> strip_prefix (p0 :: p) (c :: s) = None.
Proof. intros Hc. unfold strip_prefix. simpl. rewrite decide_False; [done|]. by intros [= ?]. Qed.

Lemma reads_as_number z : reads_as (print_d z) (JNum z).
Proof.
  intros c r Hc.
  assert (ends_number 10 (c :: r)) as Hend by (destruct Hc; by subst).
  assert (exists d s, print_d z ++ c :: r = d :: s /\ d <> DQUOTE /\ d <> "t"%char /\ d <> "f"%char
          /\ json_number (d :: s) = Some (z, c :: r)) as (d & s & -> & H1 & H2 & H3 & H4).
  { unfold print_d. destruct (z <? 0)%Z eqn:E.
    - exists "-"%char, (print_u 10 (- z) ++ c :: r). split; [done|]. do 3 (split; [done|]).
      destruct (print_u_cons (- z)) as (d & s & Es & Hd).
      pose proof (read_digits_all 10 (print_u 10 (- z)) 0 (c :: r) (print_u_digits _) Hend) as Hr.
      apply Z.ltb_lt in E. rewrite print_u_val in Hr by lia. rewrite Es in *.
      unfold json_number. rewrite decide_True by done. rewrite <- ?app_comm_cons in *.
      rewrite Hd, Hr.
      do 2 f_equal. lia.
    - destruct (print_u_cons z) as (d & s & Es & Hd).
      pose proof (read_digits_all 10 (print_u 10 z) 0 (c :: r) (print_u_digits _) Hend) as Hr.
      apply Z.ltb_ge in E. rewrite print_u_val in Hr by lia. rewrite Es in *.
      destruct (digit_not_other d Hd) as (? & ? & ? & ?).
      exists d, (s ++ c :: r). do 4 (split; [done|]).
      unfold json_number. rewrite decide_False by done. rewrite <- ?app_comm_cons in *. by rewrite Hd, Hr. }
  unfold json_value. rewrite decide_False by done.
  unfold lit. simpl String.list_ascii_of_string. rewrite !strip_prefix_head by done.
  by rewrite H4.
Qed.

(** A member whose text reads back as the member [kv] of the object. *)
Definition member_reads (m : bytes * bytes) (kv : bytes * jval) : Prop :=
  m.1 = kv.1 /\ Forall plain_char m.1 /\ reads_as m.2 kv.2.

Lemma member_reads_intro k t v :
  forallb (fun c => bool_decide (plain_char c)) k = true -> reads_as t v ->
  member_reads (k, t) (k, v).
Proof.
  intros Hk Ht. split_and!; [done| |done]. simpl.
  rewrite forallb_forall in Hk. apply Forall_forall. intros c Hc.
  apply (bool_decide_eq_true _), Hk. by apply list_elem_of_In.
Qed.

Lemma json_members_line ms : forall kvs fuel,
  ms <> [] -> length ms <= fuel -> Forall2 member_reads ms kvs ->
  json_members fuel (json_body ms) = Some kvs.
Proof.
  induction ms as [|[k t] ms IH]; intros kvs fuel Hne Hf Hall; [done|].
  destruct fuel as [|fuel]; [simpl in Hf; lia|].
  apply Forall2_cons_inv_l in Hall as ([k' v] & vs' & (Hkk & Hk & Ht) & Hms & ->).
  simpl in Hkk, Hk, Ht. subst k'.
  assert (exists c r, json_body ((k, t) :: ms) = quoted k ++ lit ":" ++ t ++ c :: r /\
    ((ms = [] /\ c = "}"%char /\ r = []) \/ (ms <> [] /\ c = ","%char /\ r = json_body ms)))
    as (c & r & -> & Hcr).
  { destruct ms as [|m ms].
    - eexists _, _. split; [|by left]. cbn [json_body]. unfold json_member.
      rewrite <- !app_assoc. done.
    - eexists _, _. split; [|by right]. cbn [json_body]. unfold json_member.
      rewrite <- !app_assoc. done. }
  assert (c = ","%char \/ c = "}"%char) as Hc
    by (destruct Hcr as [(_ & ? & _)|(_ & ? & _)]; auto).
  cbn [json_members]. unfold quoted.
  change (lit ":") with [":"%char]. rewrite <- app_comm_cons, <- app_assoc, strip_prefix_cons.
  cbn [mbind option_bind app].
  rewrite json_string_plain by done. cbn [mbind option_bind].
  rewrite strip_prefix_cons. cbn [mbind option_bind].
  rewrite Ht by done. cbn [mbind option_bind].
  destruct Hcr as [(-> & -> & ->)|(Hne' & -> & ->)].
  - apply Forall2_nil_inv_l in Hms as ->. by rewrite decide_False, decide_True by done.
  - rewrite decide_True by done. simpl in Hf. rewrite (IH vs') by (done || lia). done.
Qed.

(** A line of members whose values read back reads back as the object. *)
Lemma json_object_line ms kvs :
  ms <> [] -> Forall2 member_reads ms kvs -> json_object (json_line ms) = Some kvs.
Proof.
  intros Hne Hall. unfold json_object, json_line. rewrite decide_True by done.
  apply json_members_line; [done| |done].
  clear Hne Hall. induction ms as [|m ms IH]; simpl; [lia|].
  destruct ms; unfold json_member, quoted; simpl; rewrite ?length_app in *; simpl in *; lia.
Qed.

(** Splits the reading of a line into the reading of its values. *)
Ltac json_reads :=
  apply json_object_line; [discriminate|];
  repeat (apply Forall2_cons_2; [apply member_reads_intro; [vm_compute; reflexivity|]|]);
  try apply Forall2_nil_2.

Create HintDb json.
#[export] Hint Resolve reads_as_number reads_as_bool : json.

Lemma quoted_no_nul s : no_nul s -> no_nul (quoted s).
Proof.
  intros Hs. unfold quoted. constructor; [done|]. apply Forall_app.
  split; [done|by repeat constructor].
Qed.

Definition member_no_nul (m : bytes * bytes) : Prop := no_nul m.1 /\ no_nul m.2.

Lemma json_line_no_nul ms : Forall member_no_nul ms -> no_nul (json_line ms).
Proof.
  intros Hms. constructor; [done|]. induction Hms as [|m ms [Hk Ht] _ IH]; cbn [json_body].
  - by repeat constructor.
  - assert (no_nul (json_member m)).
    { unfold json_member. repeat (apply Forall_app; split; auto using quoted_no_nul).
      by repeat constructor. }
    destruct ms; repeat (apply Forall_app; split; try done); by repeat constructor.
Qed.

Lemma member_no_nul_intro k t :
  forallb (fun c => bool_decide (c <> NUL)) k = true -> no_nul t -> member_no_nul (k, t).
Proof.
  intros Hk Ht. split; [|done]. simpl. rewrite forallb_forall in Hk.
  apply Forall_forall. intros c Hc. apply (bool_decide_eq_true _), Hk.
  by apply list_elem_of_In.
Qed.

Create HintDb no_nul.
#[export] Hint Resolve quoted_no_nul print_d_no_nul print_u_no_nul : no_nul.

Ltac line_no_nul :=
  apply json_line_no_nul;
  repeat (apply Forall_cons; split; [apply member_no_nul_intro; [vm_compute; reflexivity|]|]);
  try apply Forall_nil; auto with no_nul.

(** ** Lines without control characters *)

Abbreviation visible := (Forall (fun c : ascii => (32 <= byte_val c)%Z)).

Lemma visible_lit s : bool_decide (visible (lit s)) = true -> visible (lit s).
Proof. apply bool_decide_eq_true. Qed.

Lemma visible_plain s : Forall plain_char s -> visible s.
Proof. intros H. eapply Forall_impl; [done|]. by intros c (_ & _ & ?). Qed.

Lemma visible_quoted s : visible s -> visible (quoted s).
Proof.
  intros H. unfold quoted. constructor; [done|]. apply Forall_app. split; [done|].
  by repeat constructor.
Qed.

Definition member_visible (m : bytes * bytes) : Prop := visible m.1 /\ visible m.2.

Lemma visible_json_line ms : Forall member_visible ms -> visible (json_line ms).
Proof.
  intros Hms. constructor; [done|]. induction Hms as [|m ms [Hk Ht] _ IH]; cbn [json_body].
  - by repeat constructor.
  - assert (visible (json_member m)).
    { unfold json_member. repeat (apply Forall_app; split; auto using visible_quoted).
      by repeat constructor. }
    destruct ms; repeat (apply Forall_app; split; try done); by repeat constructor.
Qed.

Lemma member_visible_intro k t : bool_decide (visible (lit k)) = true -> visible t ->
  member_visible (lit k, t).
Proof. intros Hk Ht. split; [by apply visible_lit|done]. Qed.

Lemma digit_plain c : digit_in 10 c = true -> plain_char c.
Proof.
  assert (negb (digit_in 10 c) || bool_decide (plain_char c) = true) as H
    by (revert c; apply byte_cases; by vm_compute).
  intros E. rewrite E in H. by apply bool_decide_eq_true in H.
Qed.

Lemma print_u_plain z : Forall plain_char (print_u 10 z).
Proof. eapply Forall_impl; [apply print_u_digits|apply digit_plain]. Qed.

Lemma print_d_plain z : Forall plain_char (print_d z).
Proof.
  unfold print_d. destruct (z <? 0)%Z; [constructor; [done|]|]; apply print_u_plain.
Qed.

Create HintDb visible.
#[export] Hint Resolve visible_quoted visible_plain print_d_plain print_u_plain : visible.

Ltac line_visible :=
  apply visible_json_line;
  repeat (apply Forall_cons; split; [apply member_visible_intro; [vm_compute; reflexivity|]|]);
  try apply Forall_nil; auto with visible; try (apply visible_quoted, visible_lit; by vm_compute);
  try (apply visible_lit; by vm_compute).

Lemma visible_no_newline l : visible l -> NL ∉ l.
Proof. intros H Hin. rewrite Forall_forall in H. by apply (H NL) in Hin. Qed.

(** ** Cut lines *)

(** A line whose last member is a string, up to that string. *)
Definition json_head (ms : list (bytes * bytes)) (k : bytes) : bytes :=
  (ms ≫= fun m => json_member m ++ lit ",") ++ quoted k ++ lit ":".

Lemma json_body_head ms k s :
  json_body (ms ++ [(k, quoted s)]) = json_head ms k ++ DQUOTE :: s ++ [DQUOTE; "}"%char].
Proof.
  unfold json_head. induction ms as [|m ms IH].
  - cbn [app json_body mbind list_bind]. unfold json_member. cbn [fst snd]. unfold quoted at 2.
    by rewrite <- !app_assoc, <- app_comm_cons, <- app_assoc.
  - rewrite bind_cons, <- !app_assoc. rewrite <- !app_assoc in IH. rewrite <- IH.
    cbn [app json_body]. by destruct ms.
Qed.

(** A string that is not closed is not read. *)
Lemma json_string_open s : Forall plain_char s -> json_string s = None.
Proof.
  induction 1 as [|c s (H1 & H2 & H3) _ IH]; [done|]. cbn [json_string].
  rewrite !decide_False by done. rewrite (proj2 (Z.ltb_ge _ _)) by lia. by rewrite IH.
Qed.

(** What is left of a quoted string and the closing brace by a cut before the
    end. *)
Lemma take_quoted s n : n < length s + 2 ->
  take n (s ++ [DQUOTE; "}"%char]) = take n s \/ take n (s ++ [DQUOTE; "}"%char]) = s ++ [DQUOTE].
Proof.
  intros Hn. destruct (decide (n <= length s)) as [H|H].
  - left. by rewrite take_app_le.
  - right. replace n with (length s + 1) by lia. by rewrite take_app_add.
Qed.

Lemma json_head_nil k u : json_head [] k ++ u = DQUOTE :: k ++ DQUOTE :: ":"%char :: u.
Proof. unfold json_head, quoted. cbn. by rewrite <- !app_assoc. Qed.

Lemma json_head_cons m ms k u :
  json_head (m :: ms) k ++ u
  = DQUOTE :: m.1 ++ DQUOTE :: ":"%char :: m.2 ++ ","%char :: json_head ms k ++ u.
Proof.
  unfold json_head, json_member, quoted. rewrite bind_cons. cbn. by rewrite <- !app_assoc.
Qed.

Lemma json_members_cut ms k s n : forall kvs fuel,
  Forall2 member_reads ms kvs -> Forall plain_char k -> Forall plain_char s -> n < length s + 2 ->
  json_members fuel (json_head ms k ++ DQUOTE :: take n (s ++ [DQUOTE; "}"%char])) = None.
Proof.
  induction ms as [|[k1 t] ms IH]; intros kvs [|fuel] Hms Hk Hs Hn; [done| |done|].
  - rewrite json_head_nil. cbn [json_members].
    rewrite strip_prefix_cons, some_bind, json_string_plain, some_bind by done.
    cbn -[json_value take]. rewrite strip_prefix_cons, some_bind.
    cbn [json_value]. rewrite decide_True by done.
    destruct (take_quoted s n Hn) as [-> | ->].
    + rewrite json_string_open; [done|]. by apply Forall_take.
    + by rewrite json_string_plain.
  - apply Forall2_cons_inv_l in Hms as ([k' v] & vs & (Hkk & Hk1 & Ht) & Hms & ->).
    cbn [fst snd] in *. rewrite json_head_cons. cbn [fst snd json_members].
    rewrite strip_prefix_cons, some_bind, json_string_plain, some_bind by done.
    cbn -[json_value take json_head]. rewrite strip_prefix_cons, some_bind, Ht, some_bind by auto.
    rewrite decide_True by done. by rewrite (IH vs fuel).
Qed.

(** An object whose line is cut anywhere in the string that ends it, or right
    after, is not read. *)
Lemma json_object_cut ms kvs k s n :
  Forall2 member_reads ms kvs -> Forall plain_char k -> Forall plain_char s ->
  length (json_head ms k) + 2 <= n < length (json_line (ms ++ [(k, quoted s)])) ->
  json_object (take n (json_line (ms ++ [(k, quoted s)]))) = None.
Proof.
  intros Hms Hk Hs Hn. unfold json_line in *. rewrite json_body_head in *.
  destruct n as [|n]; [lia|]. cbn [firstn json_object]. rewrite decide_True by done.
  cbn [length] in Hn. rewrite length_app in Hn. cbn [length] in Hn. rewrite length_app in Hn.
  cbn [length] in Hn. rewrite take_app_ge by lia.
  replace (n - length (json_head ms k)) with (S (n - length (json_head ms k) - 1)) by lia.
  cbn [firstn]. eapply json_members_cut; try done. lia.
Qed.
