(* ===== verification/EntryList.v ===== *)
(** * The entries of a scan and the growable list that holds them

    [hsed_entry_t], [hsed_list_t] and [hsed_stats_t] of proc_scan.h, the list
    operations of proc_scan.c, and the comparison its [qsort] is given. *)

From stdpp Require Import sorting.
From S2P Require Import Prelude.

(** ** Data *)

(** A char array field is represented by the C string it holds. *)
Record hsed_entry_t := mk_entry {
  e_pid : Z;
  e_fd : Z;
  e_mode : bytes;
  e_size : Z;
  e_uid : Z;
  e_user : bytes;
  e_comm : bytes;
  e_cmdline : bytes;
  e_path : bytes;
  e_inode : Z;
  e_dev_major : Z;
  e_dev_minor : Z;
  e_mtime : Z }.

#[export] Instance entry_eq_dec : EqDecision hsed_entry_t.
Proof. solve_decision. Defined.

(** [items] is the allocated array, [None] a cell not yet written; the empty
    array stands for [NULL]. *)
Record hsed_list_t := mk_list {
  items : list (option hsed_entry_t);
  count : nat;
  capacity : nat }.

Record hsed_stats_t := mk_stats { s_count : Z; s_total : Z }.

(** ** Operations *)

Definition hsed_list_init : hsed_list_t := mk_list [] 0 0.
Definition hsed_list_free (l : hsed_list_t) : hsed_list_t := mk_list [] 0 0.

(** [list->items[i]]. *)
Definition item_at (l : hsed_list_t) (i : nat) : option hsed_entry_t :=
  match items l !! i with Some (Some e) => Some e | _ => None end.

(** [realloc newcap] says whether growing to [newcap] entries succeeds. *)
Definition list_push (realloc : nat -> bool) (l : hsed_list_t) (e : hsed_entry_t)
    : option (Z * hsed_list_t) :=
  let put l :=
    if decide (count l < length (items l)) then
      Some (0%Z, mk_list (<[count l := Some e]> (items l)) (S (count l)) (capacity l))
    else None in
  if decide (count l = capacity l) then
    let newcap := if decide (capacity l = 0) then 64 else capacity l * 2 in
    if realloc newcap then put (mk_list (resize newcap None (items l)) (count l) newcap)
    else Some ((-1)%Z, l)
  else put l.

Definition cmp_by_size_desc (a b : hsed_entry_t) : Z :=
  if (e_size a <? e_size b)%Z then 1
  else if (e_size b <? e_size a)%Z then -1
  else 0.

(** ** qsort as an interface

    The C standard fixes no algorithm and no order of equal elements. *)
Class Qsort := qsort : (hsed_entry_t -> hsed_entry_t -> Z) -> list hsed_entry_t -> list hsed_entry_t.

Definition cmp_le (cmp : hsed_entry_t -> hsed_entry_t -> Z) (a b : hsed_entry_t) : Prop :=
  (cmp a b <= 0)%Z.

(** A comparison [qsort] accepts: total and transitive. *)
Record cmp_ok (cmp : hsed_entry_t -> hsed_entry_t -> Z) : Prop := {
  cmp_total a b : cmp_le cmp a b \/ cmp_le cmp b a;
  cmp_trans a b c : cmp_le cmp a b -> cmp_le cmp b c -> cmp_le cmp a c }.

Class QsortLaws (Q : Qsort) : Prop := {
  qsort_perm cmp l : qsort cmp l ≡ₚ l;
  qsort_sorted cmp l : cmp_ok cmp -> StronglySorted (cmp_le cmp) (qsort cmp l) }.

Lemma sorted_weaken (R S : hsed_entry_t -> hsed_entry_t -> Prop) l :
  (forall a b, R a b -> S a b) -> StronglySorted R l -> StronglySorted S l.
Proof.
  intros HRS. induction 1 as [|x l _ IH Hx]; constructor; [done|].
  eapply Forall_impl; [done|]. auto.
Qed.

(** One implementation: insertion sort. *)
Fixpoint insert_by (cmp : hsed_entry_t -> hsed_entry_t -> Z) e (l : list hsed_entry_t) :=
  match l with
  | [] => [e]
  | x :: l' => if (cmp e x <=? 0)%Z then e :: l else x :: insert_by cmp e l'
  end.

Definition insertion_sort cmp l := foldr (insert_by cmp) [] l.

#[export] Instance insertion_qsort : Qsort := insertion_sort.

(** ** The list invariant *)

(** [l] is a well-formed list holding [es]: the first [count] cells are
    written, the array has [capacity] cells, and the capacity is what
    doubling from 64 gives. *)
Definition growth (cap : nat) : Prop := cap = 0 \/ exists k, cap = 64 * 2 ^ k.

Record holds (l : hsed_list_t) (es : list hsed_entry_t) : Prop := {
  holds_items : exists rest, items l = (Some <$> es) ++ rest;
  holds_count : count l = length es;
  holds_capacity : capacity l = length (items l);
  holds_growth : growth (capacity l) }.

Lemma holds_init : holds hsed_list_init [].
Proof. split; simpl; [by exists []|done|done|by left]. Qed.

Lemma growth_step cap : growth cap ->
  growth (if decide (cap = 0) then 64 else cap * 2).
Proof.
  intros [->|[k ->]]; [rewrite decide_True by done; right; by exists 0|].
  assert (64 * 2 ^ k <> 0) by (pose proof (Nat.pow_nonzero 2 k); lia).
  rewrite decide_False by done. right. exists (S k). simpl. lia.
Qed.

Lemma holds_put l es e : holds l es -> count l < length (items l) ->
  holds (mk_list (<[count l := Some e]> (items l)) (S (count l)) (capacity l)) (es ++ [e]).
Proof.
  intros [[rest Hi] Hc Hcap Hg] Hlt. split; simpl.
  - exists (drop 1 rest). rewrite Hi, Hc in *.
    rewrite insert_app_r_alt by len. rewrite length_fmap, Nat.sub_diag.
    rewrite fmap_app, <- app_assoc. f_equal.
    destruct rest; [rewrite length_app, length_fmap in Hlt; simpl in Hlt; lia|].
    simpl. by rewrite drop_0.
  - rewrite Hc. len.
  - by rewrite length_insert.
  - done.
Qed.

Lemma holds_grow l es newcap : holds l es -> capacity l <= newcap -> growth newcap ->
  holds (mk_list (resize newcap None (items l)) (count l) newcap) es.
Proof.
  intros [[rest Hi] Hc Hcap Hg] Hle Hg'. split; simpl; [|done|by rewrite length_resize|done].
  rewrite resize_ge by lia. rewrite Hi, <- app_assoc. eauto.
Qed.

(** Pushing appends, or reports -1 and leaves the list as it was. *)
Lemma list_push_spec realloc l es e : holds l es ->
  exists rc l', list_push realloc l e = Some (rc, l') /\
    ((rc = 0%Z /\ holds l' (es ++ [e])) \/
     (rc = (-1)%Z /\ l' = l /\ exists n, realloc n = false)).
Proof.
  intros Hl. pose proof Hl as [[rest Hi] Hc Hcap Hg].
  assert (length es <= length (items l)) by (rewrite Hi; len).
  unfold list_push. case_decide as Hfull.
  - set (newcap := if decide (capacity l = 0) then 64 else capacity l * 2).
    assert (capacity l < newcap) by (unfold newcap; case_decide; lia).
    destruct (realloc newcap) eqn:Er.
    + rewrite decide_True by (simpl; rewrite length_resize; lia).
      eexists _, _. split; [done|]. left. split; [done|].
      apply (holds_put (mk_list (resize newcap None (items l)) (count l) newcap)).
      * apply holds_grow; [done|lia|]. by apply growth_step.
      * simpl. rewrite length_resize. lia.
    + eexists _, _. split; [done|]. right. eauto.
  - rewrite decide_True by lia. eexists _, _. split; [done|]. left.
    split; [done|]. apply holds_put; [done|lia].
Qed.

Lemma list_push_alloc realloc l es e : (forall n, realloc n = true) -> holds l es ->
  exists l', list_push realloc l e = Some (0%Z, l') /\ holds l' (es ++ [e]).
Proof.
  intros Hr Hl. destruct (list_push_spec realloc l es e Hl) as (rc & l' & Hp & Ho).
  destruct Ho as [[-> Hh]|(_ & _ & n & Hn)]; [eauto|]. by rewrite Hr in Hn.
Qed.

Lemma holds_item_at l es i : holds l es -> i < count l -> item_at l i = es !! i.
Proof.
  intros [[rest Hi] Hc _ _] Hlt. unfold item_at. rewrite Hi.
  rewrite lookup_app_l by (rewrite length_fmap; lia).
  rewrite list_lookup_fmap. by destruct (es !! i).
Qed.

(** ** Sorting *)

Lemma cmp_by_size_desc_le a b :
  cmp_le cmp_by_size_desc a b <-> (e_size b <= e_size a)%Z.
Proof.
  unfold cmp_le, cmp_by_size_desc.
  destruct (e_size a <? e_size b)%Z eqn:E1; [apply Z.ltb_lt in E1|apply Z.ltb_ge in E1].
  - lia.
  - destruct (e_size b <? e_size a)%Z eqn:E2; lia.
Qed.

Lemma cmp_by_size_desc_ok : cmp_ok cmp_by_size_desc.
Proof. split; intros *; rewrite !cmp_by_size_desc_le; lia. Qed.

Lemma insert_by_perm cmp e l : insert_by cmp e l ≡ₚ e :: l.
Proof.
  induction l as [|x l IH]; simpl; [done|].
  destruct (cmp e x <=? 0)%Z; [done|]. rewrite IH. apply Permutation_swap.
Qed.

Lemma insert_by_sorted cmp e l : cmp_ok cmp ->
  StronglySorted (cmp_le cmp) l -> StronglySorted (cmp_le cmp) (insert_by cmp e l).
Proof.
  intros Hc. induction 1 as [|x l Hs IH Hx]; simpl; [by repeat constructor|].
  destruct (cmp e x <=? 0)%Z eqn:E.
  - apply Z.leb_le in E. constructor; [by constructor|]. constructor; [done|].
    eapply Forall_impl; [done|]. intros y Hy. by eapply (cmp_trans _ Hc).
  - apply Z.leb_gt in E. constructor; [done|].
    rewrite insert_by_perm. constructor; [|done].
    destruct (cmp_total _ Hc e x) as [H|]; [unfold cmp_le in H; lia|done].
Qed.

#[export] Instance insertion_qsort_laws : QsortLaws insertion_qsort.
Proof.
  split.
  - intros cmp l. unfold qsort, insertion_qsort, insertion_sort.
    induction l as [|x l IH]; simpl; [done|]. by rewrite insert_by_perm, IH.
  - intros cmp l Hc. unfold qsort, insertion_qsort, insertion_sort.
    induction l as [|x l IH]; simpl; [constructor|]. by apply insert_by_sorted.
Qed.

(** ** Properties *)

(** C31: [list_push] on a well-formed list never writes outside its array: it
    either appends the entry and keeps the list well formed (array, count,
    capacity, 64-doubling growth), or, only when [realloc] fails, returns -1
    with the list unchanged. *)
Theorem list_push_correct (realloc : nat -> bool) (l : hsed_list_t)
    (es : list hsed_entry_t) (e : hsed_entry_t) :
  holds l es ->
  exists rc l', list_push realloc l e = Some (rc, l') /\
    ((rc = 0%Z /\ holds l' (es ++ [e]) /\ item_at l' (length es) = Some e) \/
     (rc = (-1)%Z /\ l' = l /\ exists n, realloc n = false)).
Proof.
  intros Hl. destruct (list_push_spec realloc l es e Hl) as (rc & l' & Hp & Ho).
  exists rc, l'. split; [done|]. destruct Ho as [[-> Hh]|Ho]; [left|by right].
  split_and!; [done..|].
  rewrite (holds_item_at l' (es ++ [e])) by (done || (rewrite (holds_count _ _ Hh); len)).
  by rewrite list_lookup_middle.
Qed.

Definition sample_entry : hsed_entry_t :=
  mk_entry 7 3 (lit "w") 4096 0 (lit "root") (lit "sh") (lit "sh") (lit "/tmp/x") 12 8 1 0.

Lemma list_push_correct_witness :
  exists rc l', list_push (fun _ => true) hsed_list_init sample_entry = Some (rc, l') /\
    ((rc = 0%Z /\ holds l' ([] ++ [sample_entry]) /\ item_at l' 0 = Some sample_entry) \/
     (rc = (-1)%Z /\ l' = hsed_list_init /\ exists n : nat, true = false)).
Proof.
  apply (list_push_correct (fun _ => true) hsed_list_init [] sample_entry). exact holds_init.
Defined.
