(* ===== verification/Protocol.v ===== *)
(** * protocol.c: the JSON lines and the socket writer

    [hsed_json_escape] on its destination array, [hsed_format_entry],
    [hsed_send_line] over the kernel's partial and interrupted sends, and
    [hsed_send_linef] with its 2048-byte buffer. *)

From S2P Require Import Prelude CLib Kernel Json EntryList.

(** ** Sizes (proc_scan.h) *)

Definition HSED_PATH_MAX : nat := Z.to_nat 4096.
Definition HSED_NAME_MAX : nat := Z.to_nat 256.
Definition HSED_CMDLINE_MAX : nat := Z.to_nat 1024.

(** The [linebuf] a formatted entry goes to (server.c, hsed.c). *)
Definition LINEBUF : nat := HSED_PATH_MAX * 2 + HSED_CMDLINE_MAX * 2 + HSED_NAME_MAX * 4.

(** [EINTR] on Linux. *)
Definition EINTR : Z := 4.

(** ** hsed_json_escape *)

Definition put2 (dst : buf) (o : nat) (a b : ascii) : option buf :=
  dst ← store dst o a; store dst (o + 1) b.

(** One turn of the loop: the [switch] on [*p]. *)
Definition escape_char (c : ascii) (dstsize o : nat) (dst : buf) : option (nat * buf) :=
  let pair e :=
    if decide (o + 2 < dstsize) then dst ← put2 dst o BACKSLASH e; Some (o + 2, dst)
    else Some (o, dst) in
  if decide (c = DQUOTE) then pair DQUOTE
  else if decide (c = BACKSLASH) then pair BACKSLASH
  else if decide (c = NL) then pair "n"%char
  else if decide (c = CR) then pair "r"%char
  else if decide (c = TAB) then pair "t"%char
  else if (byte_val c <? 32)%Z then
    if decide (o + 6 < dstsize) then
      '(dst, n) ← snprintf_at dst o (dstsize - o) (lit "\u%04x") [AUInt (byte_val c)];
      Some (if decide (0 < n) then o + n else o, dst)
    else Some (o, dst)
  else dst ← store dst o c; Some (o + 1, dst).

(** [src] is the C string [p] walks; the loop stops at its end, at a NUL, or
    when fewer than three bytes are left. *)
Fixpoint escape_loop (src : bytes) (dstsize o : nat) (dst : buf) : option (nat * buf) :=
  match src with
  | [] => Some (o, dst)
  | c :: src' =>
      if decide (c <> NUL /\ o + 2 < dstsize) then
        '(o, dst) ← escape_char c dstsize o dst;
        escape_loop src' dstsize o dst
      else Some (o, dst)
  end.

Definition hsed_json_escape (dst : buf) (dstsize : nat) (src : bytes) : option buf :=
  if decide (dstsize = 0) then Some dst
  else
    '(o, dst) ← escape_loop src dstsize 0 dst;
    store dst (if decide (o < dstsize) then o else dstsize - 1) NUL.

(** The C string [hsed_json_escape] leaves in a local array of [size] bytes. *)
Definition escaped_local (size : nat) (src : bytes) : option bytes :=
  b ← hsed_json_escape (alloca size) size src; cstr b.

(** ** hsed_format_entry *)

Definition entry_format : bytes := jlit
  "{'type':'entry','pid':%d,'fd':%d,'mode':'%s','size':%lld,'uid':%u,'user':'%s','comm':'%s','cmdline':'%s','path':'%s','inode':%llu,'dev_major':%u,'dev_minor':%u,'mtime':%lld}".

Definition hsed_format_entry (e : hsed_entry_t) (out : buf) (outsize : nat) : option buf :=
  user_esc ← escaped_local (HSED_NAME_MAX * 2) (e_user e);
  comm_esc ← escaped_local (HSED_NAME_MAX * 2) (e_comm e);
  cmdline_esc ← escaped_local (HSED_CMDLINE_MAX * 2) (e_cmdline e);
  path_esc ← escaped_local (HSED_PATH_MAX * 2) (e_path e);
  '(out, _) ← snprintf out outsize entry_format
    [AInt (e_pid e); AInt (e_fd e); AStr (e_mode e); ALLong (e_size e);
     AUInt (e_uid e); AStr user_esc; AStr comm_esc; AStr cmdline_esc; AStr path_esc;
     AULLong (e_inode e); AUInt (e_dev_major e); AUInt (e_dev_minor e);
     ALLong (e_mtime e)];
  Some out.

(** ** hsed_send_line, hsed_send_linef *)

Section send.
Context {K : Kernel}.

(** The [for] loop over [sent]. *)
Fixpoint send_loop (fuel : nat) (sockfd : Z) (json : bytes) (sent : nat) : prog Z :=
  let len := length json in
  if decide (sent < len + 1) then
    match fuel with
    | O => out_of_fuel
    | S fuel' =>
        let chunk := if decide (sent < len) then drop sent json else [NL] in
        n ← syscall (CSend sockfd chunk);
        match n with
        | RErr errno =>
            if decide (errno = EINTR) then send_loop fuel' sockfd json sent
            else mret (-1)%Z
        | ROk n => send_loop fuel' sockfd json (sent + Z.to_nat n)
        end
    end
  else mret 0%Z.

Definition hsed_send_line (fuel : nat) (sockfd : Z) (json : bytes) : prog Z :=
  send_loop fuel sockfd json 0.

Definition LINEF_MAX : nat := Z.to_nat 2048.

Definition hsed_send_linef (fuel : nat) (sockfd : Z) (fmt : bytes) (args : list farg) : prog Z :=
  '(b, _) ← pure (snprintf (alloca LINEF_MAX) LINEF_MAX fmt args);
  json ← pure (cstr b);
  hsed_send_line fuel sockfd json.

End send.

(** ** What escaping computes *)

(** The escape of one byte, and of a whole string. *)
Definition json_char (c : ascii) : bytes :=
  if decide (c = DQUOTE) then [BACKSLASH; DQUOTE]
  else if decide (c = BACKSLASH) then [BACKSLASH; BACKSLASH]
  else if decide (c = NL) then [BACKSLASH; "n"%char]
  else if decide (c = CR) then [BACKSLASH; "r"%char]
  else if decide (c = TAB) then [BACKSLASH; "t"%char]
  else if (byte_val c <? 32)%Z then lit "\u" ++ print_04x (byte_val c)
  else [c].

Definition json_escaped (s : bytes) : bytes := s ≫= json_char.

(** What fits of it: the escape of a character is written whole or not at
    all, and nothing is read once fewer than three bytes are left. *)
Fixpoint clip (src : bytes) (dstsize o : nat) : bytes :=
  match src with
  | [] => []
  | c :: src' =>
      if decide (c <> NUL /\ o + 2 < dstsize) then
        let e := json_char c in
        if decide (o + length e < dstsize)
        then e ++ clip src' dstsize (o + length e)
        else clip src' dstsize o
      else []
  end.

(** A control character is escaped as four hexadecimal digits of its value. *)
Lemma print_04x_control c : (byte_val c <? 32)%Z = true ->
  exists x y, print_04x (byte_val c) = ["0"%char; "0"%char; x; y] /\
    exists vx vy, hex_val x = Some vx /\ hex_val y = Some vy /\ byte_of (vx * 16 + vy) = c
      /\ x <> NUL /\ y <> NUL.
Proof.
  set (f c := negb (byte_val c <? 32)%Z || match print_04x (byte_val c) with
    | [a; b; x; y] => bool_decide (a = "0"%char) && bool_decide (b = "0"%char) &&
        bool_decide (x <> NUL) && bool_decide (y <> NUL) &&
        match hex_val x, hex_val y with
        | Some vx, Some vy => bool_decide (byte_of (vx * 16 + vy) = c)
        | _, _ => false
        end
    | _ => false end).
  assert (f c = true) as H by (revert c; apply byte_cases; by vm_compute).
  unfold f in H. intros E. rewrite E in H. simpl in H.
  destruct (print_04x (byte_val c)) as [|a [|b [|x [|y [|]]]]]; try done.
  destruct (hex_val x) as [vx|] eqn:Ex, (hex_val y) as [vy|] eqn:Ey;
    rewrite ?andb_false_r in H; try done.
  rewrite !andb_true_iff, !bool_decide_eq_true in H.
  destruct H as ((((-> & ->) & ?) & ?) & ?). eauto 10.
Qed.

(** The reader of JSON strings undoes the escape of one byte. *)
Lemma json_char_read c s t r :
  json_string s = Some (t, r) -> json_string (json_char c ++ s) = Some (c :: t, r).
Proof.
  intros Hs. unfold json_char.
  case_decide as H1; [subst; simpl; by rewrite Hs|].
  case_decide as H2; [subst; simpl; by rewrite Hs|].
  case_decide; [subst; simpl; by rewrite Hs|].
  case_decide; [subst; simpl; by rewrite Hs|].
  case_decide; [subst; simpl; by rewrite Hs|].
  destruct (byte_val c <? 32)%Z eqn:E.
  - destruct (print_04x_control c E) as (x & y & -> & vx & vy & Hx & Hy & Hv & _).
    simpl. rewrite Hx, Hy. simpl. by rewrite Hs, Hv.
  - simpl. rewrite decide_False, decide_False, E by done. by rewrite Hs.
Qed.

Lemma json_char_no_nul c : c <> NUL -> no_nul (json_char c).
Proof.
  intros Hc. unfold json_char.
  do 5 (case_decide; [repeat constructor; done|]).
  destruct (byte_val c <? 32)%Z eqn:E; [|by repeat constructor].
  destruct (print_04x_control c E) as (x & y & -> & vx & vy & _ & _ & _ & ? & ?).
  repeat constructor; done.
Qed.

Lemma json_char_length c :
  length (json_char c) = 1 \/ length (json_char c) = 2 \/ length (json_char c) = 6.
Proof.
  unfold json_char. do 5 (case_decide; [simpl; lia|]).
  destruct (byte_val c <? 32)%Z eqn:E; [|simpl; lia].
  destruct (print_04x_control c E) as (x & y & -> & _). simpl. lia.
Qed.

Lemma clip_no_nul src : forall dstsize o, no_nul (clip src dstsize o).
Proof.
  induction src as [|c src IH]; intros dstsize o; simpl; [constructor|].
  case_decide as Hc; [|constructor]. destruct Hc as [Hc _].
  case_decide; [|done]. apply Forall_app. split; [by apply json_char_no_nul|done].
Qed.

Lemma clip_length src : forall dstsize o,
  o < dstsize -> o + length (clip src dstsize o) < dstsize.
Proof.
  induction src as [|c src IH]; intros dstsize o Ho; simpl; [lia|].
  case_decide; [|simpl; lia]. case_decide as Hfit; [|by apply IH].
  rewrite length_app. specialize (IH dstsize _ Hfit). lia.
Qed.

(** Clipping drops nothing from what fits with one byte to spare. *)
Lemma clip_all src : forall dstsize o, no_nul src ->
  o + length (json_escaped src) + 2 <= dstsize -> clip src dstsize o = json_escaped src.
Proof.
  induction src as [|c src IH]; intros dstsize o Hn Hfit; [done|].
  apply Forall_cons_1 in Hn as [Hc Hn].
  unfold json_escaped in *. csimpl in *. rewrite length_app in Hfit.
  pose proof (json_char_length c).
  rewrite decide_True by (split; [done|lia]). rewrite decide_True by lia.
  f_equal. apply IH; [done|lia].
Qed.

(** Whatever is dropped, what is left reads back as a subsequence of the source. *)
Lemma clip_read src : forall dstsize o r, exists t,
  json_string (clip src dstsize o ++ DQUOTE :: r) = Some (t, r) /\ t `sublist_of` src.
Proof.
  induction src as [|c src IH]; intros dstsize o r; simpl.
  - exists []. split; [done|constructor].
  - case_decide.
    + case_decide.
      * destruct (IH dstsize (o + length (json_char c)) r) as (t & Ht & Hs).
        exists (c :: t). rewrite <- app_assoc. split; [by apply json_char_read|].
        by constructor.
      * destruct (IH dstsize o r) as (t & Ht & Hs). exists t. split; [done|].
        by constructor.
    + exists []. split; [done|apply sublist_nil_l].
Qed.

Lemma json_escaped_read src r :
  json_string (json_escaped src ++ DQUOTE :: r) = Some (src, r).
Proof.
  induction src as [|c src IH]; [done|].
  unfold json_escaped in *. csimpl. rewrite <- app_assoc. by apply json_char_read.
Qed.

(** ** Refinement of the escaping loop *)

Lemma put2_run w r o a b : o = length w -> 2 <= length r ->
  put2 ((Some <$> w) ++ r) o a b = Some ((Some <$> (w ++ [a; b])) ++ drop 2 r).
Proof.
  intros -> Hr. destruct r as [|x [|y r]]; simpl in Hr; try lia.
  unfold put2. rewrite store_mid. cbn [mbind option_bind].
  replace (length w + 1) with (length (w ++ [a])) by len.
  rewrite store_mid. rewrite <- app_assoc. simpl. by rewrite drop_0.
Qed.

(** The format of a control character. *)
Lemma format_u04x z : format (lit "\u%04x") [AUInt z] = Some (lit "\u" ++ print_04x z).
Proof.
  unfold format. replace (lex_fmt [] None (lit "\u%04x")) with
    [PLit (lit "\u"); PConv (lit "04x")] by by vm_compute.
  transitivity (Some (lit "\u" ++ print_04x z ++ [])); [done|by rewrite app_nil_r].
Qed.

(** The destination of the loop: [w] written, then what is left of [dstsize]
    bytes (and anything after them). *)
Lemma escape_char_run c dstsize w r :
  c <> NUL -> length w + 2 < dstsize <= length w + length r ->
  exists r', escape_char c dstsize (length w) ((Some <$> w) ++ r)
    = (if decide (length w + length (json_char c) < dstsize)
       then Some (length (w ++ json_char c), (Some <$> (w ++ json_char c)) ++ r')
       else Some (length w, (Some <$> w) ++ r')) /\
    length r' = (if decide (length w + length (json_char c) < dstsize)
       then length r - length (json_char c) else length r).
Proof.
  intros Hc Hs.
  assert (forall e, exists r',
    (dst ← put2 ((Some <$> w) ++ r) (length w) BACKSLASH e; Some (length w + 2, dst))
    = Some (length (w ++ [BACKSLASH; e]), (Some <$> (w ++ [BACKSLASH; e])) ++ r')
    /\ length r' = length r - 2) as Hpair.
  { intros e. exists (drop 2 r).
    rewrite put2_run by lia. cbn [mbind option_bind]. rewrite length_app. split; [done|len]. }
  unfold escape_char, json_char. destruct (decide (length w + 2 < dstsize)); [|lia].
  let special x := (destruct (decide (c = x));
    [edestruct Hpair as (r' & E & Hl); exists r'; rewrite E; cbn [length];
     rewrite !decide_True by lia; done|]) in
  special DQUOTE; special BACKSLASH; special NL; special CR; special TAB.
  destruct (byte_val c <? 32)%Z eqn:E.
  - assert (length (lit "\u" ++ print_04x (byte_val c)) = 6) as Hl.
    { destruct (print_04x_control c E) as (x & y & -> & _). done. }
    rewrite Hl. case_decide as H6; [|by exists r].
    rewrite (snprintf_at_frontier w r _ _ _ _ (format_u04x _)) by lia.
    cbn [mbind option_bind]. rewrite Hl, decide_True by lia.
    rewrite take_ge by lia. rewrite (length_app w), !Hl.
    eexists (Some NUL :: drop 7 r). rewrite app_assoc, fmap_app, <- app_assoc.
    split; [done|]. simpl. rewrite length_drop. lia.
  - exists (drop 1 r). simpl. rewrite !decide_True by lia.
    rewrite store_frontier by lia. cbn [mbind option_bind]. rewrite length_app.
    split; [done|]. rewrite length_drop. lia.
Qed.

Lemma escape_loop_run src : forall dstsize w r,
  length w < dstsize <= length w + length r ->
  exists r', escape_loop src dstsize (length w) ((Some <$> w) ++ r)
    = Some (length (w ++ clip src dstsize (length w)),
            (Some <$> (w ++ clip src dstsize (length w))) ++ r') /\
    length (w ++ clip src dstsize (length w)) + length r' = length w + length r.
Proof.
  induction src as [|c src IH]; intros dstsize w r Hs; cbn [escape_loop clip].
  - exists r. rewrite app_nil_r. done.
  - destruct (decide (c <> NUL /\ length w + 2 < dstsize)) as [[Hc Ho]|];
      [|exists r; by rewrite app_nil_r].
    destruct (escape_char_run c dstsize w r Hc) as (r' & -> & Hr'); [lia|].
    case_decide as Hfit; cbn [mbind option_bind].
    + destruct (IH dstsize (w ++ json_char c) r') as (r'' & -> & Hr''); [len|].
      exists r''. rewrite <- !app_assoc, (length_app w (json_char c)) in *. split; [done|].
      rewrite Hr'', Hr'. lia.
    + destruct (IH dstsize w r') as (r'' & -> & Hr''); [lia|].
      exists r''. split; [done|]. lia.
Qed.

Lemma json_escape_run dst dstsize src :
  0 < dstsize <= length dst ->
  exists r, hsed_json_escape dst dstsize src
    = Some ((Some <$> (clip src dstsize 0 ++ [NUL])) ++ r) /\
    length (clip src dstsize 0) + 1 + length r = length dst.
Proof.
  intros Hs. unfold hsed_json_escape. rewrite decide_False by lia.
  destruct (escape_loop_run src dstsize [] dst) as (r & Hrun & Hl); [simpl; lia|].
  cbn [length fmap list_fmap app] in Hrun, Hl. rewrite Hrun. cbn [mbind option_bind].
  pose proof (clip_length src dstsize 0) as Hc.
  rewrite decide_True by lia. rewrite store_frontier by lia.
  exists (drop 1 r). split; [done|]. rewrite length_drop. lia.
Qed.

Lemma escaped_local_spec size src : 0 < size ->
  escaped_local size src = Some (clip src size 0).
Proof.
  intros Hs. unfold escaped_local.
  destruct (json_escape_run (alloca size) size src) as (r & -> & _);
    [rewrite length_alloca; lia|].
  cbn [mbind option_bind]. rewrite cstr_terminated.
  by rewrite nulcut_id by apply clip_no_nul.
Qed.

(** ** The line of an entry *)

(** Both sides of [format fmt args = Some (json_line members)] as right-nested
    concatenations, which then agree by computation on the literal parts. *)
Ltac format_as :=
  unfold format;
  match goal with |- render (lex_fmt ?a ?b ?f) _ = _ =>
    let ps := eval vm_compute in (lex_fmt a b f) in
    replace (lex_fmt a b f) with ps by (vm_compute; reflexivity)
  end;
  unfold json_line; cbn [json_body]; unfold json_member, quoted; cbn [fst snd];
  rewrite <- ?app_comm_cons, <- ?app_assoc, <- ?app_comm_cons;
  repeat (rewrite <- ?app_assoc; rewrite <- ?app_comm_cons);
  cbn [app]; reflexivity.

(** The members of the line, the four escaped strings given. *)
Definition entry_members (e : hsed_entry_t) (user comm cmdline path : bytes)
    : list (bytes * bytes) :=
  [ (lit "type", quoted (lit "entry"));
    (lit "pid", print_d (e_pid e));
    (lit "fd", print_d (e_fd e));
    (lit "mode", quoted (e_mode e));
    (lit "size", print_d (e_size e));
    (lit "uid", print_u 10 (e_uid e));
    (lit "user", quoted user);
    (lit "comm", quoted comm);
    (lit "cmdline", quoted cmdline);
    (lit "path", quoted path);
    (lit "inode", print_u 10 (e_inode e));
    (lit "dev_major", print_u 10 (e_dev_major e));
    (lit "dev_minor", print_u 10 (e_dev_minor e));
    (lit "mtime", print_d (e_mtime e)) ].

Definition entry_line (e : hsed_entry_t) : bytes :=
  json_line (entry_members e
    (clip (e_user e) (HSED_NAME_MAX * 2) 0) (clip (e_comm e) (HSED_NAME_MAX * 2) 0)
    (clip (e_cmdline e) (HSED_CMDLINE_MAX * 2) 0) (clip (e_path e) (HSED_PATH_MAX * 2) 0)).

Lemma format_entry_line e user comm cmdline path :
  format entry_format
    [AInt (e_pid e); AInt (e_fd e); AStr (e_mode e); ALLong (e_size e);
     AUInt (e_uid e); AStr user; AStr comm; AStr cmdline; AStr path;
     AULLong (e_inode e); AUInt (e_dev_major e); AUInt (e_dev_minor e);
     ALLong (e_mtime e)]
  = Some (json_line (entry_members e user comm cmdline path)).
Proof.
  unfold entry_members. format_as.
Qed.

Lemma entry_members_length e user comm cmdline path :
  length (json_line (entry_members e user comm cmdline path))
  = 141 + length (print_d (e_pid e)) + length (print_d (e_fd e)) + length (e_mode e)
    + length (print_d (e_size e)) + length (print_u 10 (e_uid e)) + length user
    + length comm + length cmdline + length path + length (print_u 10 (e_inode e))
    + length (print_u 10 (e_dev_major e)) + length (print_u 10 (e_dev_minor e))
    + length (print_d (e_mtime e)).
Proof.
  unfold json_line, entry_members. cbn [json_body]. unfold json_member, quoted.
  cbn [fst snd]. repeat (rewrite length_app || rewrite length_lit || cbn [length]).
  cbn [String.length]. lia.
Qed.

(** ** What survives escaping *)

(** The characters of the source whose escapes are in the output. *)
Fixpoint kept (src : bytes) (dstsize o : nat) : bytes :=
  match src with
  | [] => []
  | c :: src' =>
      if decide (c <> NUL /\ o + 2 < dstsize) then
        if decide (o + length (json_char c) < dstsize)
        then c :: kept src' dstsize (o + length (json_char c))
        else kept src' dstsize o
      else []
  end.

Lemma clip_kept src : forall dstsize o, clip src dstsize o = json_escaped (kept src dstsize o).
Proof.
  unfold json_escaped.
  induction src as [|c src IH]; intros dstsize o; cbn [clip kept]; [done|].
  destruct (decide (c <> NUL /\ o + 2 < dstsize)); [|done].
  case_decide; [|done]. csimpl. by rewrite IH.
Qed.

Lemma kept_sublist src : forall dstsize o, kept src dstsize o `sublist_of` src.
Proof.
  induction src as [|c src IH]; intros dstsize o; cbn [kept]; [constructor|].
  destruct (decide (c <> NUL /\ o + 2 < dstsize)); [|apply sublist_nil_l].
  case_decide; by constructor.
Qed.

Lemma kept_all src : forall dstsize o, no_nul src ->
  o + length (json_escaped src) + 2 <= dstsize -> kept src dstsize o = src.
Proof.
  unfold json_escaped.
  induction src as [|c src IH]; intros dstsize o Hn Hfit; cbn [kept]; [done|].
  apply Forall_cons_1 in Hn as [Hc Hn]. csimpl in *. rewrite length_app in Hfit.
  pose proof (json_char_length c).
  rewrite decide_True by (split; [done|lia]). rewrite decide_True by lia.
  f_equal. apply IH; [done|lia].
Qed.

(** A character whose escape takes at most two bytes. *)
Definition short_escape (c : ascii) : Prop := length (json_char c) <= 2.

#[export] Instance short_escape_dec c : Decision (short_escape c).
Proof. unfold short_escape. apply _. Defined.

Lemma json_escaped_length_short src :
  Forall short_escape src -> length (json_escaped src) <= 2 * length src.
Proof.
  unfold json_escaped. induction 1 as [|c src Hc _ IH]; csimpl; [lia|].
  rewrite length_app. unfold short_escape in Hc. lia.
Qed.

Lemma json_escaped_length src : length (json_escaped src) <= 6 * length src.
Proof.
  unfold json_escaped. induction src as [|c src IH]; csimpl; [lia|].
  rewrite length_app. pose proof (json_char_length c). lia.
Qed.

(** A string of printable characters that is shorter than its field always
    survives in the double-sized escape buffer. *)
Lemma kept_printable src n : no_nul src -> Forall short_escape src -> length src < n ->
  kept src (n * 2) 0 = src.
Proof.
  intros Hn Hs Hl. pose proof (json_escaped_length_short src Hs).
  apply kept_all; [done|lia].
Qed.

(** ** Entries as a scan builds them *)

Record entry_ok (e : hsed_entry_t) : Prop := {
  ok_pid : in_s 32 (e_pid e);
  ok_fd : in_s 32 (e_fd e);
  ok_mode : e_mode e ∈ [lit "?"; lit "r"; lit "w"; lit "rw"];
  ok_size : in_s 64 (e_size e);
  ok_uid : in_u 32 (e_uid e);
  ok_user : no_nul (e_user e) /\ length (e_user e) < HSED_NAME_MAX;
  ok_comm : no_nul (e_comm e) /\ length (e_comm e) < HSED_NAME_MAX;
  ok_cmdline : no_nul (e_cmdline e) /\ length (e_cmdline e) < HSED_CMDLINE_MAX;
  ok_path : no_nul (e_path e) /\ length (e_path e) < HSED_PATH_MAX;
  ok_inode : in_u 64 (e_inode e);
  ok_major : in_u 32 (e_dev_major e);
  ok_minor : in_u 32 (e_dev_minor e);
  ok_mtime : in_s 64 (e_mtime e) }.

(** The object the client reads from the line of an entry. *)
Definition entry_object (e : hsed_entry_t) : list (bytes * jval) :=
  [ (lit "type", JStr (lit "entry"));
    (lit "pid", JNum (e_pid e));
    (lit "fd", JNum (e_fd e));
    (lit "mode", JStr (e_mode e));
    (lit "size", JNum (e_size e));
    (lit "uid", JNum (e_uid e));
    (lit "user", JStr (kept (e_user e) (HSED_NAME_MAX * 2) 0));
    (lit "comm", JStr (kept (e_comm e) (HSED_NAME_MAX * 2) 0));
    (lit "cmdline", JStr (kept (e_cmdline e) (HSED_CMDLINE_MAX * 2) 0));
    (lit "path", JStr (kept (e_path e) (HSED_PATH_MAX * 2) 0));
    (lit "inode", JNum (e_inode e));
    (lit "dev_major", JNum (e_dev_major e));
    (lit "dev_minor", JNum (e_dev_minor e));
    (lit "mtime", JNum (e_mtime e)) ].

Lemma reads_as_unsigned z : (0 <= z)%Z -> reads_as (print_u 10 z) (JNum z).
Proof.
  intros Hz. pose proof (reads_as_number z) as H. unfold print_d in H.
  by rewrite (proj2 (Z.ltb_ge _ _)) in H.
Qed.

Lemma reads_as_escaped s : reads_as (quoted (json_escaped s)) (JStr s).
Proof. apply reads_as_string. apply json_escaped_read. Qed.

Lemma mode_plain e : entry_ok e -> Forall plain_char (e_mode e) /\ length (e_mode e) <= 2
  /\ no_nul (e_mode e).
Proof.
  intros Hok. pose proof (ok_mode e Hok) as Hm.
  repeat (apply elem_of_cons in Hm as [-> | Hm];
    [split_and!; [by apply (bool_decide_eq_true _); vm_compute|simpl; lia
                 |repeat constructor; done]|]).
  by apply elem_of_nil in Hm.
Qed.

#[export] Hint Resolve reads_as_unsigned reads_as_escaped : json.

Lemma entry_line_reads e : entry_ok e -> json_object (entry_line e) = Some (entry_object e).
Proof.
  intros Hok. unfold entry_line. rewrite !clip_kept.
  pose proof Hok as [? ? ? ? [? _] ? ? ? ? [? _] [? _] [? _] ?].
  unfold entry_members, entry_object. json_reads; auto with json.
  - apply reads_as_plain. by apply (bool_decide_unpack _); vm_compute.
  - apply reads_as_plain. by apply mode_plain.
Qed.

#[export] Hint Resolve clip_no_nul : no_nul.

Lemma entry_line_no_nul e : entry_ok e -> no_nul (entry_line e).
Proof.
  intros Hok. unfold entry_line, entry_members. line_no_nul.
  - by repeat constructor.
  - by apply quoted_no_nul, mode_plain.
Qed.

(** No field is wide enough to overflow the line buffer, given the 15 bytes
    the kernel keeps of a process's name. *)
Lemma entry_line_length e : entry_ok e -> length (e_comm e) <= 15 ->
  length (entry_line e) < LINEBUF.
Proof.
  intros Hok Hcomm. pose proof (mode_plain e Hok) as (_ & Hmode & _).
  destruct Hok as [Hpid Hfd _ Hsize Huid _ _ _ _ Hino Hmaj Hmin Hmt].
  unfold entry_line. rewrite entry_members_length. unfold in_s, in_u in *.
  change (32 - 1)%Z with 31%Z in *. change (64 - 1)%Z with 63%Z in *.
  pose proof (print_d_length (e_pid e) 10). pose proof (print_d_length (e_fd e) 10).
  pose proof (print_d_length (e_size e) 19). pose proof (print_d_length (e_mtime e) 19).
  pose proof (print_u_length (e_uid e) 10). pose proof (print_u_length (e_inode e) 20).
  pose proof (print_u_length (e_dev_major e) 10).
  pose proof (print_u_length (e_dev_minor e) 10).
  pose proof (clip_length (e_user e) (HSED_NAME_MAX * 2) 0).
  pose proof (clip_length (e_cmdline e) (HSED_CMDLINE_MAX * 2) 0).
  pose proof (clip_length (e_path e) (HSED_PATH_MAX * 2) 0).
  assert (length (clip (e_comm e) (HSED_NAME_MAX * 2) 0) <= 6 * 15).
  { rewrite clip_kept. pose proof (kept_sublist (e_comm e) (HSED_NAME_MAX * 2) 0) as Hs.
    apply sublist_length in Hs.
    etrans; [apply json_escaped_length|]. lia. }
  unfold LINEBUF, HSED_PATH_MAX, HSED_CMDLINE_MAX, HSED_NAME_MAX in *. lia.
Qed.

Lemma format_entry_run e out outsize :
  entry_ok e -> 0 < outsize <= length out ->
  exists out', hsed_format_entry e out outsize = Some out' /\ length out' = length out /\
    cstr out' = Some (take (outsize - 1) (entry_line e)).
Proof.
  intros Hok Hs. unfold hsed_format_entry.
  assert (0 < HSED_NAME_MAX * 2 /\ 0 < HSED_CMDLINE_MAX * 2 /\ 0 < HSED_PATH_MAX * 2) as (?&?&?)
    by (unfold HSED_NAME_MAX, HSED_CMDLINE_MAX, HSED_PATH_MAX; lia).
  rewrite !escaped_local_spec by done. cbn [mbind option_bind].
  erewrite snprintf_start; [|apply format_entry_line|done]. cbn [mbind option_bind].
  fold (entry_line e). eexists. split; [done|]. split.
  - rewrite length_app, length_fmap, length_app, length_drop. cbn [length].
    rewrite length_take. lia.
  - rewrite cstr_terminated, nulcut_id; [done|].
    by apply Forall_take, entry_line_no_nul.
Qed.

(** ** What is sent *)

(** The bytes the kernel accepted for [fd] during a run. *)
Definition sent_by (fd : Z) (e : event) : bytes :=
  match e with
  | Ev c r =>
      match c in call R return R -> bytes with
      | CSend fd' data => fun r =>
          match r with
          | ROk n => if decide (fd' = fd) then take (Z.to_nat n) data else []
          | RErr _ => []
          end
      | _ => fun _ => []
      end r
  end.

Definition sent_to (fd : Z) (evs : list event) : bytes := evs ≫= sent_by fd.

(** Whether an event is an interrupted send. *)
Definition is_interrupt (e : event) : bool :=
  match e with
  | Ev c r =>
      match c in call R return R -> bool with
      | CSend _ _ => fun r => match r with RErr e => bool_decide (e = EINTR) | _ => false end
      | _ => fun _ => false
      end r
  end.

Definition interrupts (evs : list event) : nat :=
  sum_list ((fun e => if is_interrupt e then 1 else 0) <$> evs).

(** Documented behaviour of [send] on a stream socket: it accepts between one
    byte and all of them, or fails. *)
Class SendLaws (K : Kernel) : Prop :=
  send_accepts fd data h n : data <> [] ->
    answer (CSend fd data) h = ROk n -> (1 <= n <= Z.of_nat (length data))%Z.

Lemma sent_to_ok fd data n evs :
  sent_to fd (Ev (CSend fd data) (ROk n) :: evs) = take (Z.to_nat n) data ++ sent_to fd evs.
Proof. unfold sent_to. csimpl. by rewrite decide_True. Qed.

Lemma sent_to_err fd data e evs :
  sent_to fd (Ev (CSend fd data) (RErr e) :: evs) = sent_to fd evs.
Proof. done. Qed.

Lemma interrupts_ok fd data n evs :
  interrupts (Ev (CSend fd data) (ROk n) :: evs) = interrupts evs.
Proof. done. Qed.

Lemma interrupts_err fd data e evs :
  interrupts (Ev (CSend fd data) (RErr e) :: evs)
  = (if decide (e = EINTR) then 1 else 0) + interrupts evs.
Proof. unfold interrupts. csimpl. by do 2 case_decide. Qed.

(** The chunk the loop sends next, and what is left of the line after [n]
    bytes of it. *)
Lemma next_chunk (json : bytes) sent : sent < length json + 1 ->
  let chunk := if decide (sent < length json) then drop sent json else [NL] in
  chunk <> [] /\ sent + length chunk <= length json + 1 /\
  forall n, n <= length chunk ->
    drop sent (json ++ [NL]) = take n chunk ++ drop (sent + n) (json ++ [NL]).
Proof.
  intros Hlt. simpl. case_decide.
  - assert (length (drop sent json) = length json - sent) as Hl by apply length_drop.
    split_and!; [intros E; rewrite E in Hl; simpl in Hl; lia|lia|].
    intros n Hn. rewrite Hl in Hn. rewrite !drop_app_le by lia.
    rewrite app_assoc. f_equal. rewrite <- drop_drop. by rewrite take_drop.
  - assert (sent = length json) as -> by lia. simpl.
    split_and!; [done|lia|]. intros n Hn. rewrite drop_app_length.
    destruct n as [|[|]]; [| |lia]; simpl.
    + by rewrite Nat.add_0_r, drop_app_length.
    + rewrite drop_ge; [done|]. rewrite length_app. simpl. lia.
Qed.

Section send_facts.
Context {K : Kernel} {L : SendLaws K}.

(** The loop sends the rest of the line and its newline, in order; it gives
    up after a prefix only on an error that is not an interrupt; and each turn
    either makes progress or was interrupted. *)
Lemma send_loop_wp fuel sockfd json : forall sent h,
  sent <= length json + 1 ->
  wp (send_loop fuel sockfd json sent) h
    (fun evs => fuel <= length json + 1 - sent + interrupts evs /\
                sent_to sockfd evs `prefix_of` drop sent (json ++ [NL]))
    (fun rc evs =>
       (rc = 0%Z /\ sent_to sockfd evs = drop sent (json ++ [NL])) \/
       (rc = (-1)%Z /\ sent_to sockfd evs `prefix_of` drop sent (json ++ [NL])
          /\ sent_to sockfd evs <> drop sent (json ++ [NL]))).
Proof.
  assert (forall h, wp (mret 0%Z) h (fun _ => True)
    (fun (rc : Z) evs => rc = 0%Z /\ sent_to sockfd evs = [])) as Hdone.
  { intros h. by apply wp_ret. }
  induction fuel as [|fuel IH]; intros sent h Hsent; cbn [send_loop];
    (case_decide as Hlt;
     [|apply wp_ret; left; split; [done|]; rewrite drop_ge; [done|len]]).
  - apply wp_fuel. split; [lia|apply prefix_nil].
  - destruct (next_chunk json sent Hlt) as (Hne & Hle & Hsplit).
    set (chunk := if decide (sent < length json) then drop sent json else [NL]) in *.
    apply wp_call_bind. intros r Hr. symmetry in Hr. destruct r as [n|errno].
    + apply (send_accepts sockfd chunk h n Hne) in Hr.
      rewrite (Hsplit (Z.to_nat n)) by lia.
      eapply wp_conseq; [apply IH; lia| |]; cbn beta.
      * intros evs [Hf Hp]. rewrite interrupts_ok, sent_to_ok.
        split; [lia|by apply prefix_app].
      * intros rc evs. rewrite sent_to_ok. intros [[-> ->]|(-> & Hp & Hn)]; [by left|].
        right. split_and!; [done|by apply prefix_app|]. by intros ?%app_inv_head.
    + case_decide as He.
      * eapply wp_conseq; [apply IH; lia| |]; cbn beta.
        -- intros evs [Hf Hp]. rewrite interrupts_err, sent_to_err, decide_True by done.
           split; [lia|done].
        -- intros rc evs. by rewrite sent_to_err.
      * apply wp_ret. right. rewrite sent_to_err. split_and!; [done|apply prefix_nil|].
        rewrite (Hsplit 1) by (destruct chunk; simpl; [done|lia]).
        by destruct chunk.
Qed.

Lemma send_line_run fuel sockfd json h :
  wp (hsed_send_line fuel sockfd json) h
    (fun evs => fuel <= length json + 1 + interrupts evs /\
                sent_to sockfd evs `prefix_of` json ++ [NL])
    (fun rc evs =>
       (rc = 0%Z /\ sent_to sockfd evs = json ++ [NL]) \/
       (rc = (-1)%Z /\ sent_to sockfd evs `prefix_of` json ++ [NL]
          /\ sent_to sockfd evs <> json ++ [NL])).
Proof.
  unfold hsed_send_line. pose proof (send_loop_wp fuel sockfd json 0 h) as Hwp.
  rewrite drop_0, Nat.sub_0_r in Hwp. apply Hwp. lia.
Qed.

(** [hsed_send_linef] is [hsed_send_line] of the text cut to the buffer. *)
Lemma send_linef_run fuel sockfd fmt args s h :
  format fmt args = Some s -> no_nul s ->
  hsed_send_linef fuel sockfd fmt args h
  = hsed_send_line fuel sockfd (take (LINEF_MAX - 1) s) h.
Proof.
  intros Hf Hn. unfold hsed_send_linef.
  assert (0 < LINEF_MAX) by (unfold LINEF_MAX; lia).
  erewrite run_pure; [|by apply snprintf_start; [done|rewrite length_alloca; lia]].
  cbn beta iota. erewrite run_pure; [done|].
  rewrite cstr_terminated, nulcut_id; [done|]. by apply Forall_take.
Qed.
End send_facts.

(** ** Properties *)

(** C15: [hsed_json_escape] never writes outside the [dstsize] bytes of its
    destination and always leaves a C string; that string is the escape of a
    subsequence of the source (escapes are never cut in the middle), which a
    JSON reader reads back exactly; and nothing is dropped when the full
    escape fits with one byte to spare. *)
Theorem json_escape_correct (dst : buf) (dstsize : nat) (src : bytes) :
  0 < dstsize <= length dst ->
  exists dst' e t,
    hsed_json_escape dst dstsize src = Some dst' /\ length dst' = length dst /\
    cstr dst' = Some e /\ length e < dstsize /\
    e = json_escaped t /\ t `sublist_of` src /\
    (forall r, json_string (e ++ DQUOTE :: r) = Some (t, r)) /\
    (no_nul src -> length (json_escaped src) + 2 <= dstsize -> t = src).
Proof.
  intros Hs. destruct (json_escape_run dst dstsize src Hs) as (r & Hrun & Hl).
  eexists _, (clip src dstsize 0), (kept src dstsize 0). split; [done|]. split_and!.
  - rewrite length_app, length_fmap, length_app. simpl. lia.
  - rewrite cstr_terminated. by rewrite nulcut_id by apply clip_no_nul.
  - apply (clip_length src dstsize 0). lia.
  - apply clip_kept.
  - apply kept_sublist.
  - rewrite clip_kept. apply json_escaped_read.
  - intros. by apply kept_all.
Qed.

Lemma json_escape_correct_witness :
  exists dst' e t,
    hsed_json_escape (alloca 8) 8 (lit "a\b") = Some dst' /\ length dst' = length (alloca 8) /\
    cstr dst' = Some e /\ length e < 8 /\
    e = json_escaped t /\ t `sublist_of` lit "a\b" /\
    (forall r, json_string (e ++ DQUOTE :: r) = Some (t, r)) /\
    (no_nul (lit "a\b") -> length (json_escaped (lit "a\b")) + 2 <= 8 -> t = lit "a\b").
Proof. apply (json_escape_correct (alloca 8) 8 (lit "a\b")). rewrite length_alloca. lia. Defined.

(** C14: The line of an entry with in-range fields and a kernel-sized process name
    always fits the line buffer, is one JSON object on one line, and reads
    back as the entry: every number exactly, and every string exactly when it
    holds printable characters only. *)
Theorem format_entry_correct (e : hsed_entry_t) (out : buf) :
  entry_ok e -> length (e_comm e) <= 15 -> length out = LINEBUF ->
  exists out' line,
    hsed_format_entry e out LINEBUF = Some out' /\ cstr out' = Some line /\
    json_object line = Some (entry_object e) /\
    (Forall short_escape (e_path e) -> kept (e_path e) (HSED_PATH_MAX * 2) 0 = e_path e) /\
    (Forall short_escape (e_cmdline e) ->
       kept (e_cmdline e) (HSED_CMDLINE_MAX * 2) 0 = e_cmdline e) /\
    (Forall short_escape (e_user e) -> kept (e_user e) (HSED_NAME_MAX * 2) 0 = e_user e) /\
    (Forall short_escape (e_comm e) -> kept (e_comm e) (HSED_NAME_MAX * 2) 0 = e_comm e).
Proof.
  intros Hok Hcomm Hout.
  assert (0 < LINEBUF) by (unfold LINEBUF, HSED_PATH_MAX; lia).
  destruct (format_entry_run e out LINEBUF Hok) as (out' & Hrun & _ & Hc); [lia|].
  exists out', (entry_line e). split; [done|]. pose proof (entry_line_length e Hok Hcomm).
  rewrite take_ge in Hc by lia. split; [done|]. split; [by apply entry_line_reads|].
  destruct Hok as [_ _ _ _ _ [] [] [] [] _ _ _ _].
  split_and!; intros; by apply kept_printable.
Qed.

Lemma sample_entry_ok : entry_ok sample_entry.
Proof.
  split; simpl; unfold in_s, in_u; try lia.
  - by apply (bool_decide_unpack _); vm_compute.
  - split; [repeat constructor; discriminate|unfold HSED_NAME_MAX; simpl; lia].
  - split; [repeat constructor; discriminate|unfold HSED_NAME_MAX; simpl; lia].
  - split; [repeat constructor; discriminate|unfold HSED_CMDLINE_MAX; simpl; lia].
  - split; [repeat constructor; discriminate|unfold HSED_PATH_MAX; simpl; lia].
Qed.

Lemma format_entry_correct_witness :
  exists out' line,
    hsed_format_entry sample_entry (alloca LINEBUF) LINEBUF = Some out' /\
    cstr out' = Some line /\ json_object line = Some (entry_object sample_entry).
Proof.
  destruct (format_entry_correct sample_entry (alloca LINEBUF) sample_entry_ok)
    as (out' & line & H1 & H2 & H3 & _).
  - simpl. lia.
  - apply length_alloca.
  - exists out', line. auto.
Defined.

(** C16: On every kernel whose [send] accepts at least a byte when it succeeds,
    [hsed_send_line] returns 0 having sent exactly the line and its newline,
    or -1 having sent a proper prefix of them; the run is cut short only when
    the fuel is used up by interrupted sends, and then too a prefix was sent. *)
Theorem send_line_correct {K : Kernel} {L : SendLaws K} (fuel : nat) (sockfd : Z)
    (json : bytes) (h : hist) :
  wp (hsed_send_line fuel sockfd json) h
    (fun evs => fuel <= length json + 1 + interrupts evs /\
                sent_to sockfd evs `prefix_of` json ++ [NL])
    (fun rc evs =>
       (rc = 0%Z /\ sent_to sockfd evs = json ++ [NL]) \/
       (rc = (-1)%Z /\ sent_to sockfd evs `prefix_of` json ++ [NL]
          /\ sent_to sockfd evs <> json ++ [NL])).
Proof.
  apply send_line_run.
Qed.

(** A kernel that interrupts the first send and then accepts three bytes at a time. *)
Definition choppy : Kernel := {|
  answer R c h :=
    match c in call R return R with
    | CSend _ data => match h with
                      | [] => RErr EINTR
                      | _ => ROk (Z.of_nat (Nat.min 3 (length data)))
                      end
    | c => quiet c
    end;
  strerror _ := lit "error" |}.

Lemma choppy_laws : SendLaws choppy.
Proof.
  intros fd data h n Hne H. destruct h; [done|].
  change (ROk (Z.of_nat (Nat.min 3 (length data))) = ROk n) in H.
  assert (n = Z.of_nat (Nat.min 3 (length data))) as -> by congruence.
  destruct data; [done|]. cbn [length]. lia.
Defined.

Lemma send_line_correct_witness :
  fst (@hsed_send_line choppy 9 4 (lit "hello") []) = Done 0%Z /\
  wp (@hsed_send_line choppy 9 4 (lit "hello")) []
    (fun evs => 9 <= length (lit "hello") + 1 + interrupts evs /\
                sent_to 4 evs `prefix_of` lit "hello" ++ [NL])
    (fun rc evs =>
       (rc = 0%Z /\ sent_to 4 evs = lit "hello" ++ [NL]) \/
       (rc = (-1)%Z /\ sent_to 4 evs `prefix_of` lit "hello" ++ [NL]
          /\ sent_to 4 evs <> lit "hello" ++ [NL])).
Proof.
  split; [vm_compute; reflexivity|].
  exact (@send_line_correct choppy choppy_laws 9 4 (lit "hello") []).
Defined.
