(* ===== verification/ProcRead.v ===== *)
(** * proc_scan.c, reading one process's files

    The helpers that fill fixed-size arrays from [/proc/<pid>]: the first line
    of a file, the command line, the owner's name, the open mode of an fd; and
    the tests on names and link targets.  Each is refined to a function on
    byte strings ([first_line], [cmdline_text], ...) that shows what it computes. *)

From S2P Require Import Prelude CLib Kernel Util.

(** ** Tests on names and targets *)

Fixpoint all_digits (s : bytes) : bool :=
  match s with [] => true | c :: s' => if isdigit c then all_digits s' else false end.

Definition is_all_digits (s : bytes) : bool :=
  match s with [] => false | _ => all_digits s end.

Definition starts_with (s prefix : bytes) : bool := strneq (length prefix) s prefix.

Definition is_virtual_target (path : bytes) : bool :=
  starts_with path (lit "pipe:") || starts_with path (lit "socket:") ||
  starts_with path (lit "anon_inode:") || starts_with path (lit "/memfd:") ||
  streq path (lit "/dev/zero").

Definition hsed_strlcpy_local (dst : buf) (src : bytes) (dstsize : nat) : option (buf * nat) :=
  let srclen := length src in
  if decide (0 < dstsize) then
    let copy := if decide (srclen < dstsize - 1) then srclen else dstsize - 1 in
    dst1 ← memcpy dst 0 (take copy src);
    dst2 ← store dst1 copy NUL;
    Some (dst2, srclen)
  else Some (dst, srclen).

(** ** read_first_line *)

Definition is_eol (c : ascii) : bool := bool_decide (c = NL) || bool_decide (c = CR).

(** [while (n > 0 && (buf[n-1] == '\n' || buf[n-1] == '\r')) buf[--n] = '\0';] *)
Fixpoint trim_loop (n : nat) (b : buf) : option buf :=
  match n with
  | O => Some b
  | S n' =>
      c ← load b n';
      if is_eol c then b ← store b n' NUL; trim_loop n' b else Some b
  end.

Definition read_first_line (P : procfs) (path : bytes) (b : buf) (buflen : nat) : option buf :=
  b ← store b 0 NUL;
  match p_read P path with
  | None => Some b
  | Some contents =>
      match fgets buflen contents with
      | None => Some b
      | Some (line, _) =>
          b ← memcpy b 0 (line ++ [NUL]);
          s ← cstr b;
          trim_loop (length s) b
      end
  end.

(** ** read_cmdline *)

Definition CMDLINE_RAW : nat := Z.to_nat 1024.

(** One argument: the separating space, then as much of it as fits. *)
Definition append_arg (arg : bytes) (out_pos : nat) (wrote_any : bool) (b : buf) (buflen : nat)
    : option (nat * buf) :=
  '(out_pos, b) ←
    (if decide (wrote_any = true /\ out_pos + 1 < buflen)
     then b ← store b out_pos SPACE; Some (out_pos + 1, b)
     else Some (out_pos, b));
  let copy := if decide (buflen <= out_pos + length arg)
              then buflen - out_pos - 1 else length arg in
  if decide (out_pos < buflen - 1)
  then b ← memcpy b out_pos (take copy arg); Some (out_pos + copy, b)
  else Some (out_pos, b).

(** The [for] loop over the NUL-separated arguments of [raw]; an empty one
    ends it.  [n] turns are enough fuel. *)
Fixpoint args_loop (fuel : nat) (raw : buf) (n i out_pos : nat) (wrote_any : bool)
    (b : buf) (buflen : nat) : option (nat * bool * buf) :=
  if decide (i < n) then
    match fuel with
    | O => None
    | S fuel' =>
        arg ← cstr (drop i raw);
        let arglen := length arg in
        '(out_pos, wrote_any, b) ←
          (if decide (0 < arglen)
           then '(out_pos, b) ← append_arg arg out_pos wrote_any b buflen;
                Some (out_pos, true, b)
           else Some (out_pos, wrote_any, b));
        let i := i + arglen + 1 in
        let i := if decide (arglen = 0) then n else i in
        args_loop fuel' raw n i out_pos wrote_any b buflen
    end
  else Some (out_pos, wrote_any, b).

(** The [fallback] label. *)
Definition cmdline_fallback (P : procfs) (pid : Z) (b : buf) (buflen : nat) : option buf :=
  comm_path ← sformat 64 (lit "/proc/%d/comm") [AInt pid];
  b ← read_first_line P comm_path b buflen;
  c ← load b 0;
  if decide (c = NUL) then '(b, _) ← hsed_strlcpy_local b (lit "?") buflen; Some b
  else Some b.

Definition read_cmdline (P : procfs) (pid : Z) (b : buf) (buflen : nat) : option buf :=
  path ← sformat 64 (lit "/proc/%d/cmdline") [AInt pid];
  b ← store b 0 NUL;
  match p_read P path with
  | None => cmdline_fallback P pid b buflen
  | Some contents =>
      let got := take (CMDLINE_RAW - 1) contents in   (* read(fd, raw, sizeof(raw) - 1) *)
      let n := length got in
      if decide (n = 0) then cmdline_fallback P pid b buflen
      else
        raw ← memcpy (alloca CMDLINE_RAW) 0 got;
        raw ← store raw n NUL;
        '(out_pos, wrote_any, b) ← args_loop n raw n 0 0 false b buflen;
        b ← store b (if decide (out_pos < buflen) then out_pos else buflen - 1) NUL;
        if (wrote_any : bool) then Some b else cmdline_fallback P pid b buflen
  end.

(** ** owner_name *)

Definition owner_name (P : procfs) (uid : Z) (b : buf) (buflen : nat) : option buf :=
  match p_getpwuid P uid with
  | Some pw_name => '(b, _) ← hsed_strlcpy_local b (nulcut pw_name) buflen; Some b
  | None => '(b, _) ← snprintf b buflen (lit "%u") [AUInt uid]; Some b
  end.

(** ** fd_mode *)

Definition strcpy (dst : buf) (src : bytes) : option buf := memcpy dst 0 (src ++ [NUL]).

(** The [while (fgets(...))] loop; every line read is at least one byte. *)
Fixpoint flags_loop (fuel : nat) (s : bytes) (out3 : buf) : option buf :=
  match fgets 128 s with
  | None => Some out3
  | Some (line, rest) =>
      match fuel with
      | O => None
      | S fuel' =>
          let line := nulcut line in
          if strneq 6 line (lit "flags:") then
            let flags := strtol 8 (drop 6 line) in
            let acc := Z.land flags 3 in
            if decide (acc = 0)%Z then strcpy out3 (lit "r")
            else if decide (acc = 1)%Z then strcpy out3 (lit "w")
            else if decide (acc = 2)%Z then strcpy out3 (lit "rw")
            else Some out3
          else flags_loop fuel' rest out3
      end
  end.

Definition fd_mode (P : procfs) (pid fdnum : Z) (out3 : buf) : option buf :=
  path ← sformat 64 (lit "/proc/%d/fdinfo/%d") [AInt pid; AInt fdnum];
  out3 ← strcpy out3 (lit "?");
  match p_read P path with
  | None => Some out3
  | Some contents => flags_loop (length contents) contents out3
  end.

(** ** Reference functions *)

(** A string without its trailing newlines and carriage returns. *)
Fixpoint skip_eol (s : bytes) : bytes :=
  match s with c :: s' => if is_eol c then skip_eol s' else s | [] => [] end.
Definition rtrim (s : bytes) : bytes := reverse (skip_eol (reverse s)).

Definition first_line (buflen : nat) (contents : option bytes) : bytes :=
  match contents with
  | None => []
  | Some s => rtrim (nulcut (fgets_go (buflen - 1) s).1)
  end.

(** The NUL-terminated arguments at the start of [s], up to the first empty one. *)
Fixpoint cmd_args (fuel : nat) (s : bytes) : list bytes :=
  match fuel with
  | O => []
  | S fuel' =>
      match nulcut s with
      | [] => []
      | a => a :: cmd_args fuel' (drop (length a + 1) s)
      end
  end.

Fixpoint join_space (args : list bytes) : bytes :=
  match args with
  | [] => []
  | [a] => a
  | a :: args' => a ++ SPACE :: join_space args'
  end.

Definition or_question (s : bytes) (buflen : nat) : bytes :=
  match s with [] => take (buflen - 1) (lit "?") | _ => s end.

Definition proc_file (P : procfs) (fmt : bytes) (pid : Z) : option bytes :=
  path ← format fmt [AInt pid]; p_read P path.

Definition comm_text (P : procfs) (pid : Z) (buflen : nat) : bytes :=
  or_question (first_line buflen (proc_file P (lit "/proc/%d/comm") pid)) buflen.

Definition cmdline_text (P : procfs) (pid : Z) (buflen : nat) : bytes :=
  match proc_file P (lit "/proc/%d/cmdline") pid with
  | None => comm_text P pid buflen
  | Some contents =>
      let got := take (CMDLINE_RAW - 1) contents in
      match cmd_args (length got) got with
      | [] => comm_text P pid buflen
      | args => take (buflen - 1) (join_space args)
      end
  end.

Definition owner_text (P : procfs) (uid : Z) (buflen : nat) : bytes :=
  take (buflen - 1) (match p_getpwuid P uid with
                     | Some name => nulcut name
                     | None => print_u 10 uid end).

Fixpoint flags_of (fuel : nat) (s : bytes) : option Z :=
  match fuel with
  | O => None
  | S fuel' =>
      match fgets 128 s with
      | None => None
      | Some (line, rest) =>
          if strneq 6 (nulcut line) (lit "flags:")
          then Some (strtol 8 (drop 6 (nulcut line)))
          else flags_of fuel' rest
      end
  end.

Definition mode_text (P : procfs) (pid fdnum : Z) : bytes :=
  match format (lit "/proc/%d/fdinfo/%d") [AInt pid; AInt fdnum] ≫= p_read P with
  | None => lit "?"
  | Some s =>
      match flags_of (length s) s with
      | None => lit "?"
      | Some flags =>
          if decide (Z.land flags 3 = 0)%Z then lit "r"
          else if decide (Z.land flags 3 = 1)%Z then lit "w"
          else if decide (Z.land flags 3 = 2)%Z then lit "rw" else lit "?"
      end
  end.

(** ** Lemmas *)

Lemma strlcpy_local_eq : hsed_strlcpy_local = hsed_strlcpy.
Proof. done. Qed.

Lemma strlcpy_local_run dst src dstsize :
  0 < dstsize <= length dst -> no_nul src ->
  exists dst', hsed_strlcpy_local dst src dstsize = Some (dst', length src) /\
    length dst' = length dst /\ cstr dst' = Some (take (dstsize - 1) src).
Proof. rewrite strlcpy_local_eq. apply strlcpy_cstr. Qed.

(** A format of literal text and numbers, by computation. *)
Ltac format_now :=
  unfold format;
  match goal with |- render (lex_fmt ?a ?b ?f) _ = _ =>
    let ps := eval vm_compute in (lex_fmt a b f) in
    replace (lex_fmt a b f) with ps by (vm_compute; reflexivity)
  end; reflexivity.

(** The same for a format that ends in a conversion. *)
Ltac format_tail :=
  match goal with |- format _ _ = Some ?s =>
    transitivity (Some (s ++ [])); [|by rewrite app_nil_r];
    rewrite <- ?app_assoc; format_now end.

Lemma format_comm pid : format (lit "/proc/%d/comm") [AInt pid]
  = Some (lit "/proc/" ++ print_d pid ++ lit "/comm").
Proof. format_now. Qed.

Lemma format_cmdline pid : format (lit "/proc/%d/cmdline") [AInt pid]
  = Some (lit "/proc/" ++ print_d pid ++ lit "/cmdline").
Proof. format_now. Qed.

Lemma format_fdinfo pid fd : format (lit "/proc/%d/fdinfo/%d") [AInt pid; AInt fd]
  = Some (lit "/proc/" ++ print_d pid ++ lit "/fdinfo/" ++ print_d fd).
Proof.
  transitivity (Some (lit "/proc/" ++ print_d pid ++ lit "/fdinfo/" ++ print_d fd ++ []));
    [format_now|by rewrite app_nil_r].
Qed.

Lemma format_proc pid : format (lit "/proc/%d") [AInt pid]
  = Some (lit "/proc/" ++ print_d pid).
Proof.
  transitivity (Some (lit "/proc/" ++ print_d pid ++ [])); [format_now|by rewrite app_nil_r].
Qed.

Lemma format_fd_dir pid : format (lit "/proc/%d/fd") [AInt pid]
  = Some (lit "/proc/" ++ print_d pid ++ lit "/fd").
Proof. format_now. Qed.

Lemma print_pid_length pid : in_s 32 pid -> length (print_d pid) <= 11.
Proof. intros [? ?]. apply print_d_length; simpl in *; lia. Qed.

Lemma lit_no_nul s : forallb (fun c => bool_decide (c <> NUL)) (lit s) = true -> no_nul (lit s).
Proof.
  intros H. rewrite forallb_forall in H. apply Forall_forall. intros c Hc.
  apply (bool_decide_eq_true _), H. by apply list_elem_of_In.
Qed.

(** The path formats never overflow their arrays. *)
Ltac sformat_now lemma :=
  erewrite sformat_fits; [reflexivity|apply lemma| |];
  [repeat (apply Forall_app; split); try (apply lit_no_nul; vm_compute; reflexivity);
   try apply print_d_no_nul
  |rewrite ?length_app, ?length_lit; cbn [String.length];
   repeat match goal with H : in_s 32 _ |- _ => apply print_pid_length in H end; lia].

Lemma sformat_comm pid : in_s 32 pid ->
  sformat 64 (lit "/proc/%d/comm") [AInt pid] = format (lit "/proc/%d/comm") [AInt pid].
Proof. intros H. rewrite format_comm. sformat_now format_comm. Qed.

Lemma sformat_cmdline pid : in_s 32 pid ->
  sformat 64 (lit "/proc/%d/cmdline") [AInt pid] = format (lit "/proc/%d/cmdline") [AInt pid].
Proof. intros H. rewrite format_cmdline. sformat_now format_cmdline. Qed.

Lemma sformat_proc pid : in_s 32 pid ->
  sformat 32 (lit "/proc/%d") [AInt pid] = format (lit "/proc/%d") [AInt pid].
Proof. intros H. rewrite format_proc. sformat_now format_proc. Qed.

Lemma sformat_fd_dir pid : in_s 32 pid ->
  sformat 64 (lit "/proc/%d/fd") [AInt pid] = format (lit "/proc/%d/fd") [AInt pid].
Proof. intros H. rewrite format_fd_dir. sformat_now format_fd_dir. Qed.

Lemma sformat_fdinfo pid fd : in_s 32 pid -> in_s 32 fd ->
  sformat 64 (lit "/proc/%d/fdinfo/%d") [AInt pid; AInt fd]
  = format (lit "/proc/%d/fdinfo/%d") [AInt pid; AInt fd].
Proof. intros H1 H2. rewrite format_fdinfo. sformat_now format_fdinfo. Qed.

Lemma rtrim_snoc s c : rtrim (s ++ [c]) = if is_eol c then rtrim s else s ++ [c].
Proof.
  unfold rtrim. rewrite reverse_app. simpl.
  destruct (is_eol c); [done|].
  change (c :: reverse s) with ([c] ++ reverse s).
  by rewrite reverse_app, reverse_involutive.
Qed.

Lemma rtrim_prefix s : rtrim s `prefix_of` s.
Proof.
  induction s as [|c s IH] using rev_ind; [done|].
  rewrite rtrim_snoc. destruct (is_eol c); [|done]. by apply prefix_app_r.
Qed.

Lemma rtrim_no_nul s : no_nul s -> no_nul (rtrim s).
Proof. intros Hs. destruct (rtrim_prefix s) as [k E]. rewrite E in Hs. by apply Forall_app in Hs as [? _]. Qed.

Lemma trim_loop_run s : forall rest, exists rest',
  trim_loop (length s) ((Some <$> s) ++ Some NUL :: rest)
  = Some ((Some <$> rtrim s) ++ Some NUL :: rest') /\
  length (rtrim s) + length rest' = length s + length rest.
Proof.
  induction s as [|c s IH] using rev_ind; intros rest.
  - by exists rest.
  - rewrite length_app, Nat.add_comm. cbn [length Nat.add trim_loop].
    rewrite fmap_app, <- app_assoc. cbn [app fmap list_fmap].
    unfold load. rewrite lookup_app_r, length_fmap, Nat.sub_diag by (rewrite length_fmap; lia).
    cbn [lookup list_lookup mbind option_bind]. rewrite rtrim_snoc. destruct (is_eol c).
    + rewrite store_mid. cbn [mbind option_bind]. rewrite fmap_app, <- app_assoc.
      cbn [app fmap list_fmap].
      destruct (IH (Some NUL :: rest)) as (rest' & -> & Hl). exists rest'.
      split; [done|]. simpl in Hl. lia.
    + exists rest. rewrite fmap_app, <- app_assoc. split; [done|].
      rewrite length_app. simpl. lia.
Qed.

Lemma read_first_line_run P path b buflen :
  0 < buflen <= length b ->
  fills b (first_line buflen (p_read P path)) (read_first_line P path b buflen).
Proof.
  intros Hb. unfold read_first_line, fills.
  rewrite (store_frontier [] b) by lia. cbn [mbind option_bind app fmap list_fmap].
  set (b0 := Some NUL :: drop 1 b).
  assert (length b0 = length b) as Hb0.
  { unfold b0. simpl. rewrite length_drop. lia. }
  assert (cstr b0 = Some []) as Hc0 by done.
  destruct (p_read P path) as [contents|]; [|by exists b0].
  destruct contents as [|x contents].
  { exists b0. split_and!; [done|done|]. rewrite Hc0. unfold first_line.
    by destruct (buflen - 1). }
  unfold first_line, fgets. destruct (fgets_go (buflen - 1) (x :: contents)) as [line rest] eqn:E.
  apply fgets_go_length in E. cbn [fst].
  rewrite memcpy_start by (rewrite Hb0, length_app; simpl; lia).
  cbn [mbind option_bind]. rewrite cstr_terminated. cbn [mbind option_bind].
  destruct (cstr_inv _ _ (cstr_terminated line (drop (length (line ++ [NUL])) b0)))
    as (r & Er & _).
  assert (length (nulcut line) + 1 + length r = length b) as Hr.
  { apply (f_equal length) in Er. rewrite !length_app, !length_fmap, length_drop, length_app, Hb0 in Er.
    simpl in Er.
    lia. }
  rewrite Er.
  destruct (trim_loop_run (nulcut line) r) as (r' & -> & Hr').
  eexists. split; [done|]. split.
  - rewrite length_app, length_fmap. simpl. lia.
  - rewrite cstr_written_no_nul; [done|]. by apply rtrim_no_nul, nulcut_no_nul.
Qed.

(** [b] holds what fits of [w] in [buflen - 1] bytes, at its start. *)
Definition partial (b : buf) (w : bytes) (buflen : nat) : Prop :=
  exists rest, b = (Some <$> take (buflen - 1) w) ++ rest /\
    buflen <= length (take (buflen - 1) w) + length rest.

Lemma partial_copy b w arg buflen :
  0 < buflen -> partial b w buflen ->
  let out_pos := length (take (buflen - 1) w) in
  let copy := if decide (buflen <= out_pos + length arg)
              then buflen - out_pos - 1 else length arg in
  exists b',
    (if decide (out_pos < buflen - 1)
     then b ← memcpy b out_pos (take copy arg); Some (out_pos + copy, b)
     else Some (out_pos, b))
    = Some (length (take (buflen - 1) (w ++ arg)), b') /\
    partial b' (w ++ arg) buflen /\ length b' = length b.
Proof.
  intros Hbl (rest & -> & Hlen) out_pos copy.
  assert (out_pos = Nat.min (buflen - 1) (length w)) as Eo by apply length_take.
  unfold partial. rewrite take_app.
  case_decide as Hlt.
  - assert (take (buflen - 1) w = w) as Ew by (apply take_ge; lia).
    assert (take copy arg = take (buflen - 1 - length w) arg
            /\ length (take (buflen - 1 - length w) arg) = copy) as [Et El].
    { rewrite length_take. unfold copy. case_decide.
      - split; [f_equal|]; lia.
      - split; [rewrite !take_ge by lia; done|lia]. }
    rewrite Et. unfold out_pos. rewrite memcpy_frontier by (rewrite El; unfold copy, out_pos in *; case_decide; lia).
    cbn [mbind option_bind]. eexists. split; [by rewrite length_app, El|].
    unfold copy, out_pos in *. clear Et. split; [eexists; split; [done|]|];
      autorewrite with hsed_len in *; case_decide; lia.
  - exists ((Some <$> take (buflen - 1) w) ++ rest).
    replace (buflen - 1 - length w) with 0 by lia. rewrite take_0, app_nil_r.
    split; [done|]. split; [|done]. by exists rest.
Qed.

Lemma partial_store_sep b w buflen : 0 < buflen -> partial b w buflen ->
  let out_pos := length (take (buflen - 1) w) in
  exists b',
    (if decide (true = true /\ out_pos + 1 < buflen)
     then b ← store b out_pos SPACE; Some (out_pos + 1, b)
     else Some (out_pos, b))
    = Some (length (take (buflen - 1) (w ++ [SPACE])), b') /\
    partial b' (w ++ [SPACE]) buflen /\ length b' = length b.
Proof.
  intros Hbl Hp out_pos.
  destruct (partial_copy b w [SPACE] buflen Hbl Hp) as (b' & Hrun & Hp' & Hl).
  exists b'. split; [|done]. fold out_pos in Hrun. rewrite <- Hrun. cbn [length].
  destruct (decide (out_pos < buflen - 1)) as [Hlt|Hge].
  - rewrite decide_True by lia. rewrite (decide_False (P := buflen <= out_pos + 1)) by lia.
    cbn [take memcpy]. by destruct (store b out_pos SPACE).
  - rewrite decide_False by lia. done.
Qed.

Lemma append_arg_run b w arg (wrote : bool) buflen :
  0 < buflen -> partial b w buflen ->
  let w' := (if wrote then w ++ [SPACE] else w) ++ arg in
  exists b', append_arg arg (length (take (buflen - 1) w)) wrote b buflen
    = Some (length (take (buflen - 1) w'), b') /\ partial b' w' buflen /\ length b' = length b.
Proof.
  intros Hbl Hp. unfold append_arg. destruct wrote.
  - destruct (partial_store_sep b w buflen Hbl Hp) as (b1 & -> & Hp1 & Hl1).
    cbn [mbind option_bind].
    destruct (partial_copy b1 _ arg buflen Hbl Hp1) as (b2 & -> & Hp2 & Hl2).
    exists b2. split; [done|]. split; [done|lia].
  - rewrite decide_False by (by intros [? _]). cbn [mbind option_bind].
    by apply partial_copy.
Qed.

(** The text after the arguments [args], [w] having been written before. *)
Definition joined (wrote : bool) (w : bytes) (args : list bytes) : bytes :=
  match args with
  | [] => w
  | _ => (if wrote then w ++ [SPACE] else w) ++ join_space args
  end.

Lemma joined_cons (wrote : bool) (w a : bytes) (args : list bytes) :
  joined true ((if wrote then w ++ [SPACE] else w) ++ a) args = joined wrote w (a :: args).
Proof.
  unfold joined. destruct args as [|a' args]; [done|].
  change (join_space (a :: a' :: args)) with (a ++ SPACE :: join_space (a' :: args)).
  by rewrite <- !app_assoc.
Qed.

Lemma cstr_drop raw i rest : i <= length raw ->
  cstr (drop i ((Some <$> raw) ++ Some NUL :: rest)) = Some (nulcut (drop i raw)).
Proof.
  intros Hi. rewrite drop_app_le by (rewrite length_fmap; lia).
  rewrite <- fmap_drop. apply cstr_written.
Qed.

Lemma args_loop_run fuel raw rest : forall i b w (wrote : bool) buflen,
  0 < buflen -> partial b w buflen -> length raw - i <= fuel ->
  exists b',
    args_loop fuel ((Some <$> raw) ++ Some NUL :: rest) (length raw) i
      (length (take (buflen - 1) w)) wrote b buflen
    = Some (length (take (buflen - 1) (joined wrote w (cmd_args fuel (drop i raw)))),
            match cmd_args fuel (drop i raw) with [] => wrote | _ => true end, b') /\
    partial b' (joined wrote w (cmd_args fuel (drop i raw))) buflen /\ length b' = length b.
Proof.
  induction fuel as [|fuel IH]; intros i b w wrote buflen Hbl Hp Hf; cbn [args_loop cmd_args].
  - rewrite decide_False by lia. eauto.
  - destruct (decide (i < length raw)) as [Hlt|Hge].
    2: { rewrite drop_ge by lia. simpl. eauto. }
    rewrite cstr_drop by lia. cbn [mbind option_bind].
    destruct (nulcut (drop i raw)) as [|x arg] eqn:Ea.
    + cbn [length]. rewrite (decide_False (P := 0 < 0)) by lia. cbn [mbind option_bind].
      rewrite (decide_True (P := 0 = 0)) by done.
      destruct fuel; cbn [args_loop]; rewrite decide_False by lia; eauto.
    + cbn [length]. rewrite (decide_True (P := 0 < S (length arg))) by lia.
      destruct (append_arg_run b w (x :: arg) wrote buflen Hbl Hp) as (b1 & -> & Hp1 & Hl1).
      cbn [mbind option_bind]. rewrite (decide_False (P := S (length arg) = 0)) by done.
      destruct (IH (i + S (length arg) + 1) b1
          ((if wrote then w ++ [SPACE] else w) ++ x :: arg) true buflen Hbl Hp1)
        as (b2 & Hrun & Hp2 & Hl2); [lia|].
      rewrite drop_drop.
      replace (i + (S (length arg) + 1)) with (i + S (length arg) + 1) by lia.
      rewrite Hrun, <- joined_cons. exists b2. split; [by destruct (cmd_args _ _)|].
      split; [done|lia].
Qed.

Lemma cmd_args_no_nul fuel : forall s, Forall no_nul (cmd_args fuel s).
Proof.
  induction fuel as [|fuel IH]; intros s; simpl; [constructor|].
  pose proof (nulcut_no_nul s). destruct (nulcut s); by constructor.
Qed.

Lemma join_space_no_nul args : Forall no_nul args -> no_nul (join_space args).
Proof.
  induction 1 as [|a args Ha _ IH]; [constructor|]. simpl.
  destruct args; [done|]. apply Forall_app. split; [done|]. by constructor.
Qed.

Lemma first_line_no_nul buflen c : no_nul (first_line buflen c).
Proof. destruct c; [apply rtrim_no_nul, nulcut_no_nul|constructor]. Qed.

Lemma fills_no_nul b s o : fills b s o -> no_nul s.
Proof. intros (b' & _ & _ & Hc). by eapply cstr_no_nul. Qed.

(** Fill an array, and put a question mark when nothing was read. *)
Lemma question_run b b1 s buflen :
  0 < buflen <= length b -> length b1 = length b -> cstr b1 = Some s ->
  fills b (or_question s buflen)
    (c ← load b1 0;
     if decide (c = NUL) then '(b2, _) ← hsed_strlcpy_local b1 (lit "?") buflen; Some b2
     else Some b1).
Proof.
  intros Hb Hl Hc. rewrite (cstr_load0 _ _ Hc). cbn [mbind option_bind].
  pose proof (cstr_no_nul _ _ Hc) as Hn. destruct s as [|c s].
  - rewrite decide_True by done.
    destruct (strlcpy_local_run b1 (lit "?") buflen) as (b2 & -> & Hl2 & Hc2);
      [lia|by repeat constructor|].
    exists b2. split; [done|]. split; [lia|done].
  - apply Forall_cons_1 in Hn as [? _]. rewrite decide_False by done. by exists b1.
Qed.

Lemma cmdline_fallback_run P pid b buflen :
  in_s 32 pid -> 0 < buflen <= length b ->
  fills b (comm_text P pid buflen) (cmdline_fallback P pid b buflen).
Proof.
  intros Hp Hb. unfold cmdline_fallback, comm_text, proc_file.
  rewrite sformat_comm, format_comm by done. cbn [mbind option_bind].
  destruct (read_first_line_run P (lit "/proc/" ++ print_d pid ++ lit "/comm") b buflen Hb)
    as (b1 & -> & Hl1 & Hc1). cbn [mbind option_bind]. by apply question_run.
Qed.

Lemma fills_weaken b b1 s o : length b1 = length b -> fills b1 s o -> fills b s o.
Proof. intros Hl (b' & ? & ? & ?). exists b'. split_and!; [done|congruence|done]. Qed.

Lemma read_cmdline_run P pid b buflen :
  in_s 32 pid -> 0 < buflen <= length b ->
  fills b (cmdline_text P pid buflen) (read_cmdline P pid b buflen).
Proof.
  intros Hp Hb. unfold read_cmdline, cmdline_text, proc_file.
  rewrite sformat_cmdline, format_cmdline by done. cbn [mbind option_bind].
  rewrite (store_frontier [] b) by lia. cbn [mbind option_bind app fmap list_fmap].
  set (b0 := Some NUL :: drop 1 b).
  assert (length b0 = length b) as Hb0 by (unfold b0; cbn [length]; rewrite length_drop; lia).
  assert (forall b1, length b1 = length b ->
    fills b (comm_text P pid buflen) (cmdline_fallback P pid b1 buflen)) as Hfall.
  { intros b1 Hl. apply (fills_weaken b b1); [done|]. apply cmdline_fallback_run; [done|lia]. }
  destruct (p_read P _) as [contents|]; [|by apply Hfall].
  set (got := take (CMDLINE_RAW - 1) contents).
  assert (length got < CMDLINE_RAW) as Hgot.
  { unfold got. rewrite length_take. unfold CMDLINE_RAW. lia. }
  case_decide as Hn; [rewrite Hn; by apply Hfall|].
  rewrite memcpy_start by (rewrite length_alloca; lia). cbn [mbind option_bind].
  rewrite store_frontier by (rewrite length_drop, length_alloca; lia).
  cbn [mbind option_bind]. rewrite fmap_app, <- app_assoc. cbn [app fmap list_fmap].
  set (rest := drop 1 _).
  destruct (args_loop_run (length got) got rest 0 b0 [] false buflen)
    as (b1 & Hrun & (rest1 & Hb1 & Hr1) & Hl1); [lia| |lia|].
  { exists b0. split; [by rewrite take_nil|]. rewrite take_nil. cbn [length Nat.add]. lia. }
  rewrite take_nil in Hrun. cbn [length] in Hrun. rewrite Hrun. cbn [mbind option_bind].
  rewrite drop_0 in *. set (args := cmd_args (length got) got) in *.
  set (w := joined false [] args) in *.
  assert (length (take (buflen - 1) w) < buflen) by (rewrite length_take; lia).
  rewrite decide_True by done. rewrite Hb1, store_frontier by lia. cbn [mbind option_bind].
  assert (length ((Some <$> (take (buflen - 1) w ++ [NUL])) ++ drop 1 rest1) = length b) as Hlen.
  { rewrite <- Hb0, <- Hl1, Hb1, !length_app, !length_fmap, length_app, length_drop.
    cbn [length]. lia. }
  destruct args as [|a args'] eqn:Ea; [by apply Hfall|].
  assert (no_nul (take (buflen - 1) (join_space (a :: args')))) as Hnn.
  { apply Forall_take, join_space_no_nul. rewrite <- Ea. apply cmd_args_no_nul. }
  eexists. split; [done|]. split; [done|].
  rewrite cstr_terminated. unfold w, joined. cbn [app]. by rewrite nulcut_id.
Qed.

Lemma owner_name_run P uid b buflen :
  0 < buflen <= length b -> fills b (owner_text P uid buflen) (owner_name P uid b buflen).
Proof.
  intros Hb. unfold owner_name, owner_text. destruct (p_getpwuid P uid) as [name|].
  - destruct (strlcpy_local_run b (nulcut name) buflen) as (b1 & -> & Hl & Hc);
      [done|apply nulcut_no_nul|]. by exists b1.
  - assert (format (lit "%u") [AUInt uid] = Some (print_u 10 uid)) as Hf.
    { transitivity (Some (print_u 10 uid ++ [])); [done|by rewrite app_nil_r]. }
    rewrite (snprintf_start _ _ _ _ _ Hf) by done. cbn [mbind option_bind].
    eexists. split; [done|]. split.
    + rewrite length_app, length_fmap, length_app, length_drop. cbn [length].
      rewrite length_take. lia.
    + rewrite cstr_terminated, nulcut_id; [done|]. apply Forall_take, print_u_no_nul.
Qed.

Lemma fgets_go_progress n c s l r : 0 < n -> fgets_go n (c :: s) = (l, r) -> length r <= length s.
Proof.
  intros Hn H. destruct n as [|n]; [lia|]. simpl in H. case_decide; simplify_eq; [done|].
  destruct (fgets_go n s) as [l' r'] eqn:E. simplify_eq.
  apply fgets_go_app in E. rewrite E, length_app. lia.
Qed.

Lemma strcpy_run (out : buf) s : length s < length out -> no_nul s -> fills out s (strcpy out s).
Proof.
  intros Hl Hn. unfold strcpy. rewrite memcpy_start by (rewrite length_app; simpl; lia).
  eexists. split; [done|]. split.
  - rewrite length_app, length_fmap, length_drop, length_app. simpl. lia.
  - rewrite cstr_terminated. by rewrite nulcut_id.
Qed.

Definition mode_of (flags : Z) : bytes :=
  if decide (Z.land flags 3 = 0)%Z then lit "r"
  else if decide (Z.land flags 3 = 1)%Z then lit "w"
  else if decide (Z.land flags 3 = 2)%Z then lit "rw" else lit "?".

Lemma flags_loop_run fuel : forall s out3,
  length s <= fuel -> length out3 = 3 -> cstr out3 = Some (lit "?") ->
  fills out3 (match flags_of fuel s with None => lit "?" | Some f => mode_of f end)
    (flags_loop fuel s out3).
Proof.
  induction fuel as [|fuel IH]; intros s out3 Hs H3 Hc; cbn [flags_loop flags_of].
  - destruct s; [by exists out3|simpl in Hs; lia].
  - destruct s as [|c s]; [by exists out3|]. cbn [fgets].
    destruct (fgets_go (128 - 1) (c :: s)) as [line rest] eqn:E.
    apply fgets_go_progress in E; [|lia].
    destruct (strneq 6 (nulcut line) (lit "flags:")).
    + unfold mode_of. repeat case_decide;
        try (apply strcpy_run; [rewrite H3, length_lit; cbn [String.length]; lia
                               |apply lit_no_nul; reflexivity]).
      by exists out3.
    + apply IH; [|done..]. simpl in Hs. lia.
Qed.

Lemma fd_mode_run P pid fd out3 :
  in_s 32 pid -> in_s 32 fd -> length out3 = 3 ->
  fills out3 (mode_text P pid fd) (fd_mode P pid fd out3).
Proof.
  intros Hp Hf H3. unfold fd_mode, mode_text.
  rewrite sformat_fdinfo, format_fdinfo by done. cbn [mbind option_bind].
  destruct (strcpy_run out3 (lit "?")) as (b & -> & Hl & Hc);
    [rewrite H3, length_lit; cbn; lia|by repeat constructor|].
  cbn [mbind option_bind]. destruct (p_read P _) as [s|]; [|by exists b].
  apply (fills_weaken out3 b); [done|]. apply flags_loop_run; [done|lia|done].
Qed.

Lemma mode_text_cases P pid fd : mode_text P pid fd ∈ [lit "?"; lit "r"; lit "w"; lit "rw"].
Proof.
  unfold mode_text.
  destruct (_ ≫= p_read P) as [s|]; [|left]. destruct (flags_of _ _); [|left].
  repeat case_decide; rewrite !elem_of_cons; tauto.
Qed.

(** ** Bounds of the texts *)

Lemma first_line_length buflen c : 0 < buflen -> length (first_line buflen c) < buflen.
Proof.
  intros Hb. destruct c as [s|]; [|done]. unfold first_line.
  pose proof (rtrim_prefix (nulcut (fgets_go (buflen - 1) s).1)) as Hp.
  apply prefix_length in Hp. pose proof (nulcut_length (fgets_go (buflen - 1) s).1).
  pose proof (fgets_go_length (buflen - 1) s _ _ (surjective_pairing _)). lia.
Qed.

Lemma or_question_length s buflen :
  0 < buflen -> length s < buflen -> length (or_question s buflen) < buflen.
Proof. intros Hb Hs. destruct s; [|done]. unfold or_question. rewrite length_take. lia. Qed.

Lemma or_question_no_nul s buflen : no_nul s -> no_nul (or_question s buflen).
Proof. intros Hs. destruct s; [|done]. apply Forall_take. by repeat constructor. Qed.

Lemma comm_text_length P pid buflen : 0 < buflen -> length (comm_text P pid buflen) < buflen.
Proof. intros. by apply or_question_length, first_line_length. Qed.

Lemma comm_text_no_nul P pid buflen : no_nul (comm_text P pid buflen).
Proof. apply or_question_no_nul, first_line_no_nul. Qed.

Lemma cmdline_text_ok P pid buflen : 0 < buflen ->
  length (cmdline_text P pid buflen) < buflen /\ no_nul (cmdline_text P pid buflen).
Proof.
  intros Hb. unfold cmdline_text.
  pose proof (comm_text_length P pid buflen Hb). pose proof (comm_text_no_nul P pid buflen).
  destruct (proc_file P _ pid) as [contents|]; [|done].
  pose proof (cmd_args_no_nul (length (take (CMDLINE_RAW - 1) contents))
                (take (CMDLINE_RAW - 1) contents)) as Hargs.
  destruct (cmd_args _ _); [done|]. split; [rewrite length_take; lia|].
  by apply Forall_take, join_space_no_nul.
Qed.

Lemma owner_text_ok P uid buflen : 0 < buflen ->
  length (owner_text P uid buflen) < buflen /\ no_nul (owner_text P uid buflen).
Proof.
  intros Hb. unfold owner_text. split; [rewrite length_take; lia|]. apply Forall_take.
  destruct (p_getpwuid P uid); [apply nulcut_no_nul|apply print_u_no_nul].
Qed.

(** ** The arguments of a process *)

(** [/proc/<pid>/cmdline] of a process started with [args]. *)
Definition cmdline_file (args : list bytes) : bytes := args ≫= fun a => a ++ [NUL].

Lemma cmd_args_file args : forall fuel,
  length (cmdline_file args) <= fuel -> Forall (fun a => a <> [] /\ no_nul a) args ->
  cmd_args fuel (cmdline_file args) = args.
Proof.
  unfold cmdline_file. induction args as [|a args IH]; intros fuel Hf Hargs.
  - by destruct fuel.
  - apply Forall_cons_1 in Hargs as [[Hne Hn] Hargs]. csimpl in *.
    rewrite !length_app in Hf. cbn [length] in Hf.
    destruct fuel as [|fuel]; [lia|]. cbn [cmd_args].
    rewrite <- app_assoc. cbn [app]. rewrite nulcut_app_nul, nulcut_id by done.
    destruct a as [|x a]; [done|]. f_equal.
    rewrite (cons_middle NUL), app_assoc, drop_app_length'; [|len].
    apply IH; [lia|done].
Qed.

Lemma join_space_length args : args <> [] ->
  length (join_space args) + 1 = length (cmdline_file args).
Proof.
  intros Hne. unfold cmdline_file. induction args as [|a args IH]; [done|].
  csimpl. destruct args as [|a' args]; [csimpl; len|].
  change (join_space (a :: a' :: args)) with (a ++ SPACE :: join_space (a' :: args)).
  rewrite !length_app. cbn [length]. specialize (IH ltac:(done)). lia.
Qed.

(** ** Properties *)

(** C32: Whatever [/proc/<pid>/cmdline] and [comm] hold, [read_cmdline] stays in
    its array and leaves a non-empty C string; and the command line of a
    process with non-empty arguments, when it is shorter than the 1024-byte
    array, is shown whole, the arguments separated by spaces. *)
Theorem read_cmdline_correct (P : procfs) (pid : Z) (b : buf) :
  in_s 32 pid -> length b = 1024 ->
  (exists s, fills b s (read_cmdline P pid b 1024) /\ s <> []) /\
  (forall args, args <> [] -> Forall (fun a => a <> [] /\ no_nul a) args ->
     p_read P (lit "/proc/" ++ print_d pid ++ lit "/cmdline") = Some (cmdline_file args) ->
     length (cmdline_file args) < 1024 ->
     fills b (join_space args) (read_cmdline P pid b 1024)).
Proof.
  intros Hp Hb. pose proof (read_cmdline_run P pid b 1024 Hp) as Hrun.
  rewrite Hb in Hrun. specialize (Hrun ltac:(lia)). split.
  - exists (cmdline_text P pid 1024). split; [done|]. unfold cmdline_text.
    assert (comm_text P pid 1024 <> []) as Hc by (unfold comm_text; by destruct (first_line _ _)).
    destruct (proc_file _ _ _) as [contents|]; [|done].
    pose proof (cmd_args_no_nul (length (take (CMDLINE_RAW - 1) contents))
                  (take (CMDLINE_RAW - 1) contents)) as _.
    destruct (take (CMDLINE_RAW - 1) contents) as [|c l] eqn:E; [done|].
    cbn [length cmd_args]. destruct (nulcut (c :: l)) as [|x a]; [done|].
    destruct (cmd_args _ _); done.
  - intros args Hne Hargs Hfile Hlen.
    enough (cmdline_text P pid 1024 = join_space args) as <- by done.
    unfold cmdline_text, proc_file. rewrite format_cmdline. cbn [mbind option_bind].
    rewrite Hfile.
    assert (1024 = CMDLINE_RAW) as Er by (unfold CMDLINE_RAW; lia).
    rewrite (take_ge (cmdline_file args)) by lia. rewrite cmd_args_file by done.
    pose proof (join_space_length args Hne).
    destruct args; [done|]. rewrite take_ge by lia. done.
Qed.

(** The files of one process, for the examples. *)
Definition example_procfs (files : list (bytes * bytes)) : procfs := {|
  p_opendir _ := None; p_stat _ := None; p_readlink _ := None;
  p_read path := snd <$> List.find (fun f => bool_decide (fst f = path)) files;
  p_getpwuid _ := None; p_nprocs := 1; p_calloc _ := true; p_realloc _ _ := true;
  p_spawn _ := true |}.

Definition nginx_procfs : procfs := example_procfs
  [(lit "/proc/7/cmdline", cmdline_file [lit "nginx"; lit "-g"; lit "daemon off"]);
   (lit "/proc/7/fdinfo/5", lit "pos:" ++ TAB :: lit "0" ++ NL :: lit "flags:" ++ TAB ::
                            lit "0" ++ print_u 8 33793 ++ NL :: lit "mnt_id: 29")].

Lemma read_cmdline_correct_witness :
  (exists s, fills (alloca 1024) s (read_cmdline nginx_procfs 7 (alloca 1024) 1024) /\ s <> []) /\
  fills (alloca 1024) (lit "nginx -g daemon off")
    (read_cmdline nginx_procfs 7 (alloca 1024) 1024).
Proof.
  destruct (read_cmdline_correct nginx_procfs 7 (alloca 1024)) as [H1 H2].
  - unfold in_s. lia.
  - apply length_alloca.
  - split; [exact H1|]. apply (H2 [lit "nginx"; lit "-g"; lit "daemon off"]).
    + discriminate.
    + repeat constructor; discriminate.
    + reflexivity.
    + vm_compute. lia.
Defined.

(** ** The open mode *)

Lemma fgets_go_line l : forall n r, Forall (fun c => c <> NL) l -> length l < n ->
  fgets_go n (l ++ NL :: r) = (l ++ [NL], r).
Proof.
  induction l as [|c l IH]; intros n r Hl Hn; destruct n as [|n]; simpl in Hn; try lia.
  - done.
  - apply Forall_cons_1 in Hl as [Hc Hl]. simpl. rewrite decide_False by done.
    by rewrite IH by (done || lia).
Qed.

(** A line of fdinfo other than the flags. *)
Definition other_line (l : bytes) : Prop :=
  Forall (fun c => c <> NL) l /\ no_nul l /\ length l < 127 /\
  strneq 6 (l ++ [NL]) (lit "flags:") = false.

Definition unlines (ls : list bytes) : bytes := ls ≫= fun l => l ++ [NL].

(** The flags line, as the kernel prints it: a tab, a zero, octal digits. *)
Definition flags_line (flags : Z) : bytes := lit "flags:" ++ TAB :: lit "0" ++ print_u 8 flags.

Lemma octal_digit_ok c : digit_in 8 c = true -> c <> NL /\ c <> NUL.
Proof. intros H. split; intros ->; by vm_compute in H. Qed.

Lemma print_octal_digits z : Forall (fun c => digit_in 8 c = true) (print_u 8 z).
Proof. by apply digits_go_digits. Qed.

Lemma strtol_flags flags : (0 <= flags < 2 ^ 63)%Z ->
  strtol 8 (TAB :: lit "0" ++ print_u 8 flags ++ [NL]) = flags.
Proof.
  intros Hf. unfold strtol, strtol_end, scan_number. cbn [skip_space].
  replace (isspace TAB) with true by done. cbn [lit String.list_ascii_of_string app skip_space].
  replace (isspace "0") with false by done. rewrite !decide_False by done.
  replace (digit_in 8 "0") with true by done.
  rewrite app_comm_cons, (read_digits_all 8 ("0"%char :: print_u 8 flags) 0 [NL]);
    [|constructor; [done|apply print_octal_digits]|done].
  cbn [fst]. unfold digits_val. cbn [foldl].
  replace (0 * 8 + (byte_val "0" - 48))%Z with 0%Z by done.
  fold (digits_val 8 0 (print_u 8 flags)). unfold print_u.
  rewrite digits_go_val; [|lia|split; [lia|apply print_u_fuel; lia]].
  unfold LONG_MAX, LONG_MIN. lia.
Qed.

Lemma flags_of_file pre flags post fuel :
  (0 <= flags < 2 ^ 63)%Z -> length (flags_line flags) < 127 -> Forall other_line pre ->
  length pre < fuel ->
  flags_of fuel (unlines pre ++ flags_line flags ++ NL :: post) = Some flags.
Proof.
  intros Hf Hlen Hpre. revert fuel.
  induction Hpre as [|l pre (Hnl & Hn & Hl & Hne) _ IH]; intros fuel Hfuel;
    (destruct fuel as [|fuel]; [cbn [length] in Hfuel; lia|]); cbn [flags_of].
  - change (unlines []) with ([] : bytes). cbn [app].
    assert (Forall (fun c => c <> NL /\ c <> NUL) (flags_line flags)) as Hc.
    { unfold flags_line. apply Forall_app. split; [repeat constructor; discriminate|].
      constructor; [split; discriminate|]. apply Forall_app.
      split; [repeat constructor; discriminate|].
      eapply Forall_impl; [apply print_octal_digits|]. apply octal_digit_ok. }
    assert (fgets 128 (flags_line flags ++ NL :: post)
      = Some (flags_line flags ++ [NL], post)) as ->.
    { rewrite <- (fgets_go_line (flags_line flags) (128 - 1) post); [done| |lia].
      eapply Forall_impl; [done|]. by intros c [? _]. }
    rewrite nulcut_id.
    2: { apply Forall_app. split; [|by repeat constructor].
         eapply Forall_impl; [done|]. by intros c [_ ?]. }
    replace (strneq 6 (flags_line flags ++ [NL]) (lit "flags:")) with true by done.
    f_equal. by apply strtol_flags.
  - change (unlines (l :: pre)) with ((l ++ [NL]) ++ unlines pre). rewrite <- !app_assoc. cbn [app].
    set (rest := unlines pre ++ flags_line flags ++ NL :: post).
    assert (fgets 128 (l ++ NL :: rest) = Some (l ++ [NL], rest)) as ->.
    { rewrite <- (fgets_go_line l (128 - 1)) by (done || lia). by destruct l. }
    rewrite nulcut_id by (apply Forall_app; split; [done|by repeat constructor]).
    rewrite Hne. apply IH. cbn [length] in Hfuel. lia.
Qed.

(** C33: [fd_mode] never writes outside the three bytes of [mode], always leaves
    one of the four modes in them, and reports the access mode of the flags
    line the kernel prints, wherever it stands in the file. *)
Theorem fd_mode_correct (P : procfs) (pid fd : Z) (out3 : buf) :
  in_s 32 pid -> in_s 32 fd -> length out3 = 3 ->
  (exists s, fills out3 s (fd_mode P pid fd out3) /\
             s ∈ [lit "?"; lit "r"; lit "w"; lit "rw"]) /\
  (forall pre flags post,
     p_read P (lit "/proc/" ++ print_d pid ++ lit "/fdinfo/" ++ print_d fd)
       = Some (unlines pre ++ flags_line flags ++ NL :: post) ->
     Forall other_line pre -> (0 <= flags < 2 ^ 63)%Z -> length (flags_line flags) < 127 ->
     fills out3 (mode_of flags) (fd_mode P pid fd out3)).
Proof.
  intros Hp Hf H3. pose proof (fd_mode_run P pid fd out3 Hp Hf H3) as Hrun. split.
  - exists (mode_text P pid fd). split; [done|apply mode_text_cases].
  - intros pre flags post Hfile Hpre Hflags Hlen.
    enough (mode_text P pid fd = mode_of flags) as <- by done.
    unfold mode_text. rewrite format_fdinfo. cbn [mbind option_bind]. rewrite Hfile.
    rewrite flags_of_file; [done..|].
    rewrite length_app. assert (length pre <= length (unlines pre)).
    { clear. unfold unlines. induction pre as [|l pre IH]; csimpl; [done|].
      rewrite !length_app. simpl. lia. }
    rewrite length_app. simpl. lia.
Qed.

Lemma fd_mode_correct_witness :
  (exists s, fills (zeroed 3) s (fd_mode nginx_procfs 7 5 (zeroed 3)) /\
             s ∈ [lit "?"; lit "r"; lit "w"; lit "rw"]) /\
  fills (zeroed 3) (lit "w") (fd_mode nginx_procfs 7 5 (zeroed 3)).
Proof.
  destruct (fd_mode_correct nginx_procfs 7 5 (zeroed 3)) as [H1 H2].
  - unfold in_s. lia.
  - unfold in_s. lia.
  - reflexivity.
  - split; [exact H1|].
    apply (H2 [lit "pos:" ++ TAB :: lit "0"] 33793%Z (lit "mnt_id: 29")).
    + vm_compute. reflexivity.
    + repeat constructor; try discriminate; vm_compute; lia.
    + lia.
    + vm_compute. lia.
Defined.
