(* ===== verification/ProcScan.v ===== *)
(** * proc_scan.c, scanning one process

    [scan_one_pid] walks [/proc/<pid>/fd] and appends an entry to a list, or
    adds to a count and a total, for each deleted file that is still open.
    It is refined to [pid_entries], the list of the entries of one process,
    whichever of the two it fills, and that list to [listed], which says what
    an open deleted file is; [gather_pids] is refined to the numeric
    names of [/proc]. *)

From stdpp Require Import sets.
From S2P Require Import Prelude CLib Kernel Util EntryList Protocol ProcRead.

(** ** Constants *)

Definition HSED_UID_ANY : Z := 2 ^ 32 - 1.
Definition DELETED_SUFFIX : bytes := lit " (deleted)".
Definition DELETED_SUFFIX_LEN : nat := 10.
Definition LINK_PATH : nat := 64 + 256 + 2.

(** [major] and [minor] of <sys/sysmacros.h>. *)
Definition major (dev : Z) : Z :=
  u32 (Z.lor (Z.shiftr (Z.land dev 0xfff00) 8) (Z.shiftr (Z.land dev 0xfffff00000000000) 32)).
Definition minor (dev : Z) : Z :=
  u32 (Z.lor (Z.land dev 0xff) (Z.shiftr (Z.land dev 0xffffff00000) 12)).

(** ** State *)

(** [out] or [stats]: callers pass exactly one that is not [NULL]. *)
Inductive sink := ToList (l : hsed_list_t) | ToStats (s : hsed_stats_t).

(** The local variables that live across the turns of the loop. *)
Record scan_vars := mk_vars {
  v_sink : sink;
  v_comm : buf; v_comm_loaded : bool;
  v_cmdline : buf; v_cmdline_loaded : bool;
  v_owner : buf; v_owner_loaded : bool }.

Definition with_sink (s : sink) (v : scan_vars) : scan_vars :=
  mk_vars s (v_comm v) (v_comm_loaded v) (v_cmdline v) (v_cmdline_loaded v)
    (v_owner v) (v_owner_loaded v).

Definition scan_vars_init (s : sink) : scan_vars :=
  mk_vars s (alloca HSED_NAME_MAX) false (alloca HSED_CMDLINE_MAX) false
    (alloca HSED_NAME_MAX) false.

(** ** scan_one_pid *)

Section scan.
Context (P : procfs) (realloc : nat -> bool) (pid : Z) (owner_uid : Z) (min_size : Z).

(** The three [if (!..._loaded)] blocks. *)
Definition load_comm (v : scan_vars) : option scan_vars :=
  if v_comm_loaded v then Some v else
    comm_path ← sformat 64 (lit "/proc/%d/comm") [AInt pid];
    comm ← read_first_line P comm_path (v_comm v) HSED_NAME_MAX;
    c ← load comm 0;
    comm ← (if decide (c = NUL)
            then '(b, _) ← hsed_strlcpy_local comm (lit "?") HSED_NAME_MAX; Some b
            else Some comm);
    Some (mk_vars (v_sink v) comm true (v_cmdline v) (v_cmdline_loaded v)
            (v_owner v) (v_owner_loaded v)).

Definition load_cmdline (v : scan_vars) : option scan_vars :=
  if v_cmdline_loaded v then Some v else
    cmdline ← read_cmdline P pid (v_cmdline v) HSED_CMDLINE_MAX;
    Some (mk_vars (v_sink v) (v_comm v) (v_comm_loaded v) cmdline true
            (v_owner v) (v_owner_loaded v)).

Definition load_owner (v : scan_vars) : option scan_vars :=
  if v_owner_loaded v then Some v else
    owner_buf ← owner_name P owner_uid (v_owner v) HSED_NAME_MAX;
    Some (mk_vars (v_sink v) (v_comm v) (v_comm_loaded v) (v_cmdline v)
            (v_cmdline_loaded v) owner_buf true).

(** [hsed_strlcpy_local(e.field, src, sizeof(e.field))] into the zeroed entry. *)
Definition copy_field (n : nat) (src : buf) : option bytes :=
  s ← cstr src;
  '(b, _) ← hsed_strlcpy_local (zeroed n) s n;
  cstr b.

Definition make_entry (v : scan_vars) (fdnum : Z) (target : buf) (st : stat_t)
    : option hsed_entry_t :=
  mode ← fd_mode P pid fdnum (zeroed 3);
  mode ← cstr mode;
  user ← copy_field HSED_NAME_MAX (v_owner v);
  comm ← copy_field HSED_NAME_MAX (v_comm v);
  cmdline ← copy_field HSED_CMDLINE_MAX (v_cmdline v);
  path ← copy_field HSED_PATH_MAX target;
  Some {| e_pid := pid; e_fd := fdnum; e_mode := mode; e_size := st_size st;
          e_uid := owner_uid; e_user := user; e_comm := comm; e_cmdline := cmdline;
          e_path := path; e_inode := st_ino st; e_dev_major := major (st_dev st);
          e_dev_minor := minor (st_dev st); e_mtime := st_mtime st |}.

(** The last part of a turn: the fd is a deleted file of at least [min_size]. *)
Definition record_fd (fdnum : Z) (target : buf) (st : stat_t) (v : scan_vars)
    : option (Z * scan_vars) :=
  match v_sink v with
  | ToStats stats =>
      total ← add_i64 (s_total stats) (st_size st);
      Some (0%Z, with_sink (ToStats (mk_stats (u64 (s_count stats + 1)) total)) v)
  | ToList out =>
      v ← load_comm v;
      v ← load_cmdline v;
      v ← load_owner v;
      e ← make_entry v fdnum target st;
      '(rc, out) ← list_push realloc out e;
      Some (if decide (rc <> 0)%Z then (-1)%Z else 0%Z, with_sink (ToList out) v)
  end.

(** One turn of the [readdir] loop; the status -1 leaves the function. *)
Definition scan_fd (fd_dir d_name : bytes) (v : scan_vars) : option (Z * scan_vars) :=
  let continue := Some (0%Z, v) in
  if decide (head d_name = Some "."%char) then continue else
  if negb (is_all_digits d_name) then continue else
  let fdnum := atoi d_name in
  link_path ← sformat LINK_PATH (lit "%s/%s") [AStr fd_dir; AStr d_name];
  match p_readlink P link_path with
  | None => continue
  | Some whole =>
      let got := take (HSED_PATH_MAX - 1) whole in   (* readlink(.., sizeof(target) - 1) *)
      let tlen := length got in
      target ← memcpy (alloca HSED_PATH_MAX) 0 got;
      target ← store target tlen NUL;
      if decide (tlen < DELETED_SUFFIX_LEN) then continue else
      suffix ← cstr (drop (tlen - DELETED_SUFFIX_LEN) target);
      if negb (streq suffix DELETED_SUFFIX) then continue else
      target ← store target (tlen - DELETED_SUFFIX_LEN) NUL;
      path ← cstr target;
      if is_virtual_target path then continue else
      match p_stat P link_path with
      | None => continue
      | Some st =>
          if (st_size st <? min_size)%Z then continue else record_fd fdnum target st v
      end
  end.

Fixpoint readdir_loop (fd_dir : bytes) (names : list bytes) (v : scan_vars)
    : option (Z * scan_vars) :=
  match names with
  | [] => Some (0%Z, v)
  | d_name :: names =>
      '(rc, v) ← scan_fd fd_dir d_name v;
      if decide (rc <> 0)%Z then Some ((-1)%Z, v) else readdir_loop fd_dir names v
  end.
End scan.

Definition scan_one_pid (P : procfs) (realloc : nat -> bool) (s : sink) (pid min_size : Z)
    (uid_filter : Z) : option (Z * sink) :=
  proc_path ← sformat 32 (lit "/proc/%d") [AInt pid];
  match p_stat P proc_path with
  | None => Some (0%Z, s)
  | Some pst =>
      let owner_uid := st_uid pst in
      if decide (uid_filter <> HSED_UID_ANY /\ owner_uid <> uid_filter) then Some (0%Z, s) else
      fd_dir ← sformat 64 (lit "/proc/%d/fd") [AInt pid];
      match p_opendir P fd_dir with
      | None => Some (0%Z, s)
      | Some names =>
          '(rc, v) ← readdir_loop P realloc pid owner_uid min_size fd_dir names (scan_vars_init s);
          Some (rc, v_sink v)
      end
  end.

(** ** gather_pids *)

(** [pids] and [cap]; [count] is the length of the first. *)
Definition push_pid (realloc : nat -> bool) (st : list Z * nat) (pid : Z)
    : option (list Z * nat) :=
  let '(pids, cap) := st in
  if decide (length pids = cap) then
    let newcap := if decide (cap = 0) then 256 else cap * 2 in
    if realloc newcap then Some (pids ++ [pid], newcap) else None
  else Some (pids ++ [pid], cap).

Fixpoint gather_loop (realloc : nat -> bool) (names : list bytes) (st : list Z * nat)
    : option (list Z * nat) :=
  match names with
  | [] => Some st
  | d_name :: names =>
      if negb (is_all_digits d_name) then gather_loop realloc names st
      else st ← push_pid realloc st (i32 (atol d_name)); gather_loop realloc names st
  end.

(** [None] is the return value -1. *)
Definition gather_pids (P : procfs) : option (list Z) :=
  match p_opendir P (lit "/proc") with
  | None => None
  | Some names => fst <$> gather_loop (p_realloc P AtPids) names ([], 0)
  end.

(** ** Reference functions *)

Definition proc_path (pid : Z) : bytes := lit "/proc/" ++ print_d pid.
Definition fd_dir_path (pid : Z) : bytes := lit "/proc/" ++ print_d pid ++ lit "/fd".
Definition fd_path (pid : Z) (name : bytes) : bytes := fd_dir_path pid ++ "/"%char :: name.

(** The path of a deleted file, from its link target. *)
Definition deleted_path (whole : bytes) : option bytes :=
  let got := take (HSED_PATH_MAX - 1) whole in
  let n := length got - DELETED_SUFFIX_LEN in
  if decide (DELETED_SUFFIX_LEN <= length got /\ nulcut (drop n got) = DELETED_SUFFIX)
  then Some (nulcut (take n got)) else None.

(** The path and the attributes of the deleted file of at least [min_size]
    bytes behind a name of the fd directory, if it is one. *)
Definition fd_deleted (P : procfs) (pid min_size : Z) (name : bytes) : option (bytes * stat_t) :=
  if is_all_digits name then
    whole ← p_readlink P (fd_path pid name);
    path ← deleted_path whole;
    if is_virtual_target path then None else
    st ← p_stat P (fd_path pid name);
    if (st_size st <? min_size)%Z then None else Some (path, st)
  else None.

Definition entry_of (P : procfs) (pid owner_uid : Z) (name path : bytes) (st : stat_t)
    : hsed_entry_t :=
  {| e_pid := pid; e_fd := atoi name; e_mode := mode_text P pid (atoi name);
     e_size := st_size st; e_uid := owner_uid;
     e_user := owner_text P owner_uid HSED_NAME_MAX;
     e_comm := comm_text P pid HSED_NAME_MAX;
     e_cmdline := cmdline_text P pid HSED_CMDLINE_MAX;
     e_path := path; e_inode := st_ino st; e_dev_major := major (st_dev st);
     e_dev_minor := minor (st_dev st); e_mtime := st_mtime st |}.

(** The entry of one name of the fd directory. *)
Definition fd_entry (P : procfs) (pid owner_uid min_size : Z) (name : bytes)
    : option hsed_entry_t :=
  '(path, st) ← fd_deleted P pid min_size name; Some (entry_of P pid owner_uid name path st).

Definition uid_selected (uid_filter uid : Z) : Prop :=
  uid_filter = HSED_UID_ANY \/ uid = uid_filter.

#[export] Instance uid_selected_dec f u : Decision (uid_selected f u).
Proof. unfold uid_selected. apply _. Defined.

(** The entries of one process, in the order of its fd directory. *)
Definition pid_entries (P : procfs) (min_size uid_filter pid : Z) : list hsed_entry_t :=
  match p_stat P (proc_path pid) with
  | None => []
  | Some pst =>
      if decide (uid_selected uid_filter (st_uid pst)) then
        match p_opendir P (fd_dir_path pid) with
        | None => []
        | Some names => omap (fd_entry P pid (st_uid pst) min_size) names
        end
      else []
  end.

Definition proc_pids (names : list bytes) : list Z :=
  (fun name => i32 (atol name)) <$> List.filter is_all_digits names.

(** ** What the code relies on of the system

    Directory names are C strings of at most [NAME_MAX] bytes, and the fields
    of [struct stat] have their types, sizes not negative. *)
Record stat_ok (st : stat_t) : Prop := {
  stat_uid : in_u 32 (st_uid st);
  stat_ino : in_u 64 (st_ino st);
  stat_size : (0 <= st_size st < 2 ^ 63)%Z;
  stat_mtime : in_s 64 (st_mtime st) }.

Record procfs_ok (P : procfs) : Prop := {
  names_ok path names : p_opendir P path = Some names ->
    Forall (fun name => no_nul name /\ length name <= 255) names;
  stats_ok path st : p_stat P path = Some st -> stat_ok st }.

(** ** The sinks *)

Definition sum_sizes (es : list hsed_entry_t) : Z := foldr Z.add 0%Z (e_size <$> es).

(** What a sink that received [es] looks like. *)
Definition sink_holds (s : sink) (es : list hsed_entry_t) : Prop :=
  match s with
  | ToList l => holds l es
  | ToStats st => st = mk_stats (u64 (Z.of_nat (length es))) (sum_sizes es)
  end.

Definition is_list (s : sink) : bool := match s with ToList _ => true | ToStats _ => false end.

(** A total that [long long] holds. *)
Definition sink_room (s : sink) (es : list hsed_entry_t) : Prop :=
  is_list s = false -> (sum_sizes es < 2 ^ 63)%Z.

(** The result of feeding [es'] to a sink that held [es]: all of it, or,
    for a list that could not be grown, a failure. *)
Definition fed (realloc : nat -> bool) (s : sink) (es es' : list hsed_entry_t)
    (rc : Z) (s' : sink) : Prop :=
  is_list s' = is_list s /\
  (rc = 0%Z /\ sink_holds s' (es ++ es') \/
   rc = (-1)%Z /\ is_list s = true /\ exists n, realloc n = false).

(** ** Lemmas *)

Lemma sum_sizes_app es es' : sum_sizes (es ++ es') = (sum_sizes es + sum_sizes es')%Z.
Proof. unfold sum_sizes. induction es; csimpl; lia. Qed.

#[export] Instance sum_sizes_proper : Proper ((≡ₚ) ==> eq) sum_sizes.
Proof. unfold sum_sizes. induction 1; csimpl; lia. Qed.

Lemma sum_sizes_nonneg es : Forall (fun e => 0 <= e_size e)%Z es -> (0 <= sum_sizes es)%Z.
Proof. unfold sum_sizes. induction 1; csimpl; lia. Qed.

Lemma u64_succ z : u64 (u64 z + 1) = u64 (z + 1).
Proof. unfold u64, wrap_u. apply Zplus_mod_idemp_l. Qed.

Lemma omap_cons_app {A B} (f : A -> option B) x l :
  omap f (x :: l) = option_list (f x) ++ omap f l.
Proof. cbn [omap list_omap]. by destruct (f x). Qed.

(** ** Feeding a sink *)

Lemma sink_room_mono s es es' :
  sink_room s es' -> (sum_sizes es <= sum_sizes es')%Z -> sink_room s es.
Proof. unfold sink_room. intros H Hle E. specialize (H E). lia. Qed.

Lemma sink_room_kind s s' es : is_list s' = is_list s -> sink_room s es -> sink_room s' es.
Proof. unfold sink_room. by intros ->. Qed.

Lemma fed_nil realloc s es : sink_holds s es -> fed realloc s es [] 0 s.
Proof. intros Hs. split; [done|]. left. by rewrite app_nil_r. Qed.

Lemma fed_trans realloc s es es1 es2 s1 rc s2 :
  fed realloc s es es1 0 s1 -> fed realloc s1 (es ++ es1) es2 rc s2 ->
  fed realloc s es (es1 ++ es2) rc s2.
Proof.
  intros [Hk _] [Hk2 H]. split; [congruence|].
  destruct H as [[-> Hh]|(-> & Hl & Hn)]; [left|right; split_and!; [done|congruence|done]].
  by rewrite app_assoc.
Qed.

Lemma format_link dir name : format (lit "%s/%s") [AStr dir; AStr name]
  = Some (dir ++ "/"%char :: name).
Proof.
  transitivity (Some (dir ++ "/"%char :: name ++ [])); [format_now|by rewrite app_nil_r].
Qed.

Lemma fd_dir_no_nul pid : no_nul (fd_dir_path pid).
Proof.
  unfold fd_dir_path. rewrite !Forall_app. split_and!;
    [by apply lit_no_nul|apply print_d_no_nul|by apply lit_no_nul].
Qed.

Lemma sformat_link pid name : in_s 32 pid -> no_nul name -> length name <= 255 ->
  sformat LINK_PATH (lit "%s/%s") [AStr (fd_dir_path pid); AStr name] = Some (fd_path pid name).
Proof.
  intros Hp Hn Hl. pose proof (fd_dir_no_nul pid). apply print_pid_length in Hp.
  apply sformat_fits; [apply format_link| |].
  - apply Forall_app. split; [done|by constructor].
  - unfold fd_path, fd_dir_path, LINK_PATH. rewrite !length_app, !length_lit. cbn. lia.
Qed.

Lemma copy_field_run n src s : 0 < n -> cstr src = Some s -> length s < n ->
  copy_field n src = Some s.
Proof.
  intros Hn Hs Hl. unfold copy_field. rewrite Hs. cbn [mbind option_bind].
  destruct (strlcpy_local_run (zeroed n) s n) as (b & -> & _ & Hc);
    [rewrite length_zeroed; lia|by eapply cstr_no_nul|].
  cbn [mbind option_bind]. rewrite Hc, take_ge by lia. done.
Qed.

(** Cutting a written string short. *)
Lemma store_cut s n rest : n < length s ->
  exists b, store ((Some <$> s) ++ rest) n NUL = Some b /\ cstr b = Some (nulcut (take n s)).
Proof.
  intros Hn.
  replace (Some <$> s) with ((Some <$> take n s) ++ (Some <$> drop n s))
    by (rewrite <- fmap_app; by rewrite take_drop).
  rewrite <- app_assoc.
  pose proof (store_frontier (take n s) ((Some <$> drop n s) ++ rest) NUL) as H.
  rewrite length_take_le in H by lia. rewrite H by (rewrite length_app, length_fmap, length_drop; lia).
  eexists. split; [done|]. apply cstr_terminated.
Qed.

(** ** The cached texts *)

Section cached.
Context (P : procfs) (pid owner_uid : Z).

(** The arrays have their sizes, and hold their texts once loaded. *)
Definition caches (b : buf) (loaded : bool) (n : nat) (s : bytes) : Prop :=
  length b = n /\ (loaded = true -> cstr b = Some s).

Record cached (v : scan_vars) : Prop := {
  cached_comm : caches (v_comm v) (v_comm_loaded v) HSED_NAME_MAX
    (comm_text P pid HSED_NAME_MAX);
  cached_cmdline : caches (v_cmdline v) (v_cmdline_loaded v) HSED_CMDLINE_MAX
    (cmdline_text P pid HSED_CMDLINE_MAX);
  cached_owner : caches (v_owner v) (v_owner_loaded v) HSED_NAME_MAX
    (owner_text P owner_uid HSED_NAME_MAX) }.

Lemma cached_init s : cached (scan_vars_init s).
Proof. split; (split; [apply length_alloca|done]). Qed.

Lemma cached_sink s v : cached v -> cached (with_sink s v).
Proof. intros [? ? ?]. by split. Qed.

Lemma caches_fills b n s o : length b = n -> fills b s o ->
  exists b', o = Some b' /\ caches b' true n s.
Proof. intros <- (b' & -> & Hl & Hc). by exists b'. Qed.

Lemma load_comm_run v : in_s 32 pid -> cached v ->
  exists v', load_comm P pid v = Some v' /\ cached v' /\ v_comm_loaded v' = true /\
    v_sink v' = v_sink v /\ v_cmdline_loaded v' = v_cmdline_loaded v.
Proof.
  intros Hp Hv. unfold load_comm. destruct (v_comm_loaded v) eqn:El; [by exists v|].
  destruct Hv as [[Hl _] Hcmd Hown]. rewrite sformat_comm, format_comm by done.
  cbn [mbind option_bind].
  assert (0 < HSED_NAME_MAX) as Hpos by (unfold HSED_NAME_MAX; lia).
  destruct (read_first_line_run P (lit "/proc/" ++ print_d pid ++ lit "/comm") (v_comm v)
    HSED_NAME_MAX) as (b1 & -> & Hl1 & Hc1); [lia|]. cbn [mbind option_bind].
  pose proof (question_run (v_comm v) b1 _ HSED_NAME_MAX ltac:(lia) Hl1 Hc1) as (b2 & Hb2 & Hl2 & Hc2).
  destruct (load b1 0) as [c|]; cbn [mbind option_bind] in *; [|done].
  rewrite Hb2. cbn [mbind option_bind]. eexists. split; [done|]. split_and!; try done.
  split; [|done..]. split; simpl; [congruence|]. intros _. rewrite Hc2.
  unfold comm_text, proc_file. rewrite format_comm. done.
Qed.

Lemma load_cmdline_run v : in_s 32 pid -> cached v ->
  exists v', load_cmdline P pid v = Some v' /\ cached v' /\ v_cmdline_loaded v' = true /\
    v_sink v' = v_sink v /\ v_comm_loaded v' = v_comm_loaded v.
Proof.
  intros Hp Hv. unfold load_cmdline. destruct (v_cmdline_loaded v) eqn:El; [by exists v|].
  destruct Hv as [Hcomm [Hl _] Hown].
  destruct (read_cmdline_run P pid (v_cmdline v) HSED_CMDLINE_MAX Hp) as (b & -> & Hb & Hc).
  { rewrite Hl. unfold HSED_CMDLINE_MAX. lia. }
  eexists. split; [done|]. split_and!; try done.
  split; [done|split; simpl; [congruence|done]|done].
Qed.

Lemma load_owner_run v : cached v ->
  exists v', load_owner P owner_uid v = Some v' /\ cached v' /\ v_owner_loaded v' = true /\
    v_sink v' = v_sink v /\ v_comm_loaded v' = v_comm_loaded v /\
    v_cmdline_loaded v' = v_cmdline_loaded v.
Proof.
  intros Hv. unfold load_owner. destruct (v_owner_loaded v) eqn:El; [by exists v|].
  destruct Hv as [Hcomm Hcmd [Hl _]].
  destruct (owner_name_run P owner_uid (v_owner v) HSED_NAME_MAX) as (b & -> & Hb & Hc).
  { rewrite Hl. unfold HSED_NAME_MAX. lia. }
  eexists. split; [done|]. split_and!; try done.
  split; [done..|split; simpl; [congruence|done]].
Qed.
End cached.

(** ** One turn of the loop *)

Section turn.
Context (P : procfs) (HP : procfs_ok P) (realloc : nat -> bool).
Context (pid owner_uid min_size : Z) (Hpid : in_s 32 pid).

Lemma make_entry_run v name target path st :
  cached P pid owner_uid v -> v_comm_loaded v = true -> v_cmdline_loaded v = true ->
  v_owner_loaded v = true -> cstr target = Some path -> length path < HSED_PATH_MAX ->
  make_entry P pid owner_uid v (atoi name) target st = Some (entry_of P pid owner_uid name path st).
Proof.
  intros [[_ Hcomm] [_ Hcmd] [_ Hown]] E1 E2 E3 Ht Hl. unfold make_entry.
  assert (0 < HSED_NAME_MAX) by (unfold HSED_NAME_MAX; lia).
  assert (0 < HSED_CMDLINE_MAX) by (unfold HSED_CMDLINE_MAX; lia).
  destruct (fd_mode_run P pid (atoi name) (zeroed 3)) as (m & -> & _ & Hm);
    [done|apply atoi_range|done|]. cbn [mbind option_bind]. rewrite Hm. cbn [mbind option_bind].
  rewrite (copy_field_run _ (v_owner v) (owner_text P owner_uid HSED_NAME_MAX)) by (done || by apply Hown || by apply owner_text_ok).
  cbn [mbind option_bind].
  rewrite (copy_field_run _ (v_comm v) (comm_text P pid HSED_NAME_MAX))
    by (done || by apply Hcomm || by apply comm_text_length).
  cbn [mbind option_bind].
  rewrite (copy_field_run _ (v_cmdline v) (cmdline_text P pid HSED_CMDLINE_MAX))
    by (done || by apply Hcmd || by apply cmdline_text_ok).
  cbn [mbind option_bind].
  rewrite (copy_field_run _ target path) by (done || unfold HSED_PATH_MAX; lia). done.
Qed.

Lemma record_fd_run v es name target path st :
  cached P pid owner_uid v -> sink_holds (v_sink v) es ->
  sink_room (v_sink v) (es ++ [entry_of P pid owner_uid name path st]) ->
  Forall (fun e => 0 <= e_size e)%Z es -> (0 <= st_size st)%Z ->
  cstr target = Some path -> length path < HSED_PATH_MAX ->
  exists rc v', record_fd P realloc pid owner_uid (atoi name) target st v = Some (rc, v') /\
    cached P pid owner_uid v' /\
    fed realloc (v_sink v) es [entry_of P pid owner_uid name path st] rc (v_sink v').
Proof.
  intros Hv Hs Hroom Hes Hst Ht Hl. unfold record_fd, fed, sink_room in *.
  destruct (v_sink v) as [l|stats] eqn:Es; cbn [sink_holds is_list] in *.
  - destruct (load_comm_run P pid owner_uid v Hpid Hv) as (v1 & -> & H1 & L1 & E1 & F1).
    cbn [mbind option_bind].
    destruct (load_cmdline_run P pid owner_uid v1 Hpid H1) as (v2 & -> & H2 & L2 & E2 & F2).
    cbn [mbind option_bind].
    destruct (load_owner_run P pid owner_uid v2 H2) as (v3 & -> & H3 & L3 & E3 & F3 & G3).
    cbn [mbind option_bind].
    rewrite (make_entry_run v3 name target path st) by (done || congruence).
    cbn [mbind option_bind].
    destruct (list_push_spec realloc l es (entry_of P pid owner_uid name path st) Hs)
      as (rc & l' & -> & Ho). cbn [mbind option_bind]. eexists _, _. split; [done|].
    split; [by apply cached_sink|]. split; [done|].
    destruct Ho as [[-> Hh]|(-> & -> & Hn)]; [left|right]; done.
  - subst stats. cbn [s_total s_count].
    specialize (Hroom eq_refl). rewrite sum_sizes_app in Hroom.
    unfold sum_sizes at 2 in Hroom. csimpl in *. apply sum_sizes_nonneg in Hes.
    unfold add_i64. rewrite decide_True by (unfold in_s; lia). cbn [mbind option_bind].
    eexists _, _. split; [done|]. split; [by apply cached_sink|]. split; [done|]. left.
    split; [done|]. cbn [v_sink with_sink sink_holds]. f_equal.
    + rewrite u64_succ, length_app. f_equal. simpl. lia.
    + rewrite sum_sizes_app. unfold sum_sizes at 3. csimpl. lia.
Qed.

Lemma deleted_path_ok whole path : deleted_path whole = Some path ->
  no_nul path /\ length path < HSED_PATH_MAX.
Proof.
  unfold deleted_path. intros H. case_decide; simplify_eq. split; [apply nulcut_no_nul|].
  eapply Nat.le_lt_trans; [apply nulcut_length|]. rewrite !length_take.
  unfold HSED_PATH_MAX. lia.
Qed.

Lemma target_length (whole : bytes) : length (take (HSED_PATH_MAX - 1) whole) < HSED_PATH_MAX.
Proof. rewrite length_take. unfold HSED_PATH_MAX. lia. Qed.

#[local] Opaque HSED_PATH_MAX alloca.

(** The turn ends early, or goes on with the path and the attributes of a
    deleted file. *)
Lemma scan_fd_cases name v : no_nul name -> length name <= 255 ->
  match fd_deleted P pid min_size name with
  | None => scan_fd P realloc pid owner_uid min_size (fd_dir_path pid) name v = Some (0%Z, v)
  | Some (path, st) =>
      exists target, cstr target = Some path /\
        scan_fd P realloc pid owner_uid min_size (fd_dir_path pid) name v
        = record_fd P realloc pid owner_uid (atoi name) target st v
  end.
Proof.
  intros Hn Hl. unfold scan_fd, fd_deleted.
  destruct (is_all_digits name) eqn:Ed; cbn [negb].
  2: by destruct (decide (head name = Some "."%char)).
  rewrite decide_False by (intros Hh; destruct name; simplify_eq/=).
  rewrite sformat_link by done. rewrite some_bind.
  destruct (p_readlink P (fd_path pid name)) as [whole|]; [|done]. rewrite some_bind.
  unfold deleted_path. cbv zeta. set (got := take (HSED_PATH_MAX - 1) whole).
  pose proof (target_length whole : length got < HSED_PATH_MAX) as Hgot.
  rewrite memcpy_start by (rewrite length_alloca; lia). rewrite some_bind.
  rewrite store_frontier by (rewrite length_drop, length_alloca; lia).
  rewrite some_bind. rewrite drop_drop.
  destruct (decide (length got < DELETED_SUFFIX_LEN)) as [Hshort|Hlong].
  { rewrite decide_False by lia. done. }
  set (n := length got - DELETED_SUFFIX_LEN).
  set (rest := drop (length got + 1) (alloca HSED_PATH_MAX)).
  rewrite fmap_app, <- app_assoc. cbn [fmap list_fmap app].
  rewrite (cstr_drop got n rest) by lia. rewrite some_bind.
  unfold streq. destruct (decide (nulcut (drop n got) = DELETED_SUFFIX)) as [Hsuf|Hsuf].
  2: { rewrite bool_decide_eq_false_2, decide_False by (done || tauto). done. }
  rewrite bool_decide_eq_true_2 by done. rewrite decide_True by (split; [lia|done]).
  rewrite some_bind. cbn [negb].
  destruct (store_cut got n (Some NUL :: rest)) as (target & -> & Ht);
    [unfold n, DELETED_SUFFIX_LEN in *; lia|].
  rewrite some_bind. rewrite Ht. rewrite some_bind.
  destruct (is_virtual_target _); [done|].
  destruct (p_stat P (fd_path pid name)) as [st|]; [|done]. rewrite some_bind.
  destruct (st_size st <? min_size)%Z; [done|].
  by exists target.
Qed.
Lemma fd_entry_nonneg name e : fd_entry P pid owner_uid min_size name = Some e ->
  (0 <= e_size e)%Z.
Proof.
  unfold fd_entry, fd_deleted. intros H. destruct (is_all_digits name); [|done].
  destruct (p_readlink P _) as [w|]; [|done]. rewrite some_bind in H.
  destruct (deleted_path w); [|done]. rewrite some_bind in H.
  destruct (is_virtual_target _); [done|].
  destruct (p_stat P _) as [st|] eqn:Est; [|done]. rewrite some_bind in H.
  destruct (st_size st <? min_size)%Z; simplify_eq/=.
  apply (stats_ok _ HP) in Est as [_ _ ? _]. lia.
Qed.

Lemma fd_entries_nonneg names :
  Forall (fun e => 0 <= e_size e)%Z (omap (fd_entry P pid owner_uid min_size) names).
Proof.
  induction names as [|name names IH]; [constructor|]. cbn [omap list_omap].
  destruct (fd_entry P pid owner_uid min_size name) eqn:E; [|done].
  constructor; [by eapply fd_entry_nonneg|done].
Qed.

Lemma fd_deleted_ok name path st : fd_deleted P pid min_size name = Some (path, st) ->
  stat_ok st /\ no_nul path /\ length path < HSED_PATH_MAX /\ (min_size <= st_size st)%Z /\
  is_virtual_target path = false /\ is_all_digits name = true /\
  p_stat P (fd_path pid name) = Some st /\
  exists whole, p_readlink P (fd_path pid name) = Some whole /\ deleted_path whole = Some path.
Proof.
  unfold fd_deleted. intros H. destruct (is_all_digits name); [|done].
  destruct (p_readlink P _) as [w|] eqn:Ew; [|done]. rewrite some_bind in H.
  destruct (deleted_path w) eqn:Ed; [|done]. rewrite some_bind in H.
  destruct (is_virtual_target _) eqn:Ev; [done|].
  destruct (p_stat P _) as [st'|] eqn:Est; [|done]. rewrite some_bind in H.
  destruct (st_size st' <? min_size)%Z eqn:Es; simplify_eq. apply Z.ltb_ge in Es.
  pose proof (deleted_path_ok _ _ Ed) as []. apply (stats_ok _ HP) in Est as ?. eauto 10.
Qed.

Lemma scan_fd_run name v es :
  no_nul name -> length name <= 255 ->
  cached P pid owner_uid v -> sink_holds (v_sink v) es -> Forall (fun e => 0 <= e_size e)%Z es ->
  sink_room (v_sink v) (es ++ option_list (fd_entry P pid owner_uid min_size name)) ->
  exists rc v', scan_fd P realloc pid owner_uid min_size (fd_dir_path pid) name v = Some (rc, v') /\
    cached P pid owner_uid v' /\
    fed realloc (v_sink v) es (option_list (fd_entry P pid owner_uid min_size name)) rc (v_sink v').
Proof.
  intros Hn Hl Hv Hs Hes Hroom. pose proof (scan_fd_cases name v Hn Hl) as Hc.
  unfold fd_entry in *. destruct (fd_deleted P pid min_size name) as [[path st]|] eqn:E.
  - destruct Hc as (target & Ht & ->). rewrite some_bind in *. cbn [option_list] in *.
    apply fd_deleted_ok in E as ([_ _ ? _] & _ & ? & _). apply record_fd_run; try done. lia.
  - eexists _, _. split; [done|]. split; [done|]. split; [done|]. left. split; [done|].
    cbn. by rewrite app_nil_r.
Qed.

Lemma readdir_loop_run names : forall v es,
  Forall (fun name => no_nul name /\ length name <= 255) names ->
  cached P pid owner_uid v -> sink_holds (v_sink v) es -> Forall (fun e => 0 <= e_size e)%Z es ->
  sink_room (v_sink v) (es ++ omap (fd_entry P pid owner_uid min_size) names) ->
  exists rc v',
    readdir_loop P realloc pid owner_uid min_size (fd_dir_path pid) names v = Some (rc, v') /\
    fed realloc (v_sink v) es (omap (fd_entry P pid owner_uid min_size) names) rc (v_sink v').
Proof.
  induction names as [|name names IH]; intros v es Hnames Hv Hs Hes Hroom.
  - exists 0%Z, v. split; [done|]. by apply fed_nil.
  - apply Forall_cons_1 in Hnames as [[Hn Hl] Hnames]. cbn [readdir_loop].
    pose proof (fd_entries_nonneg [name]) as H1. rewrite omap_cons_app in *.
    pose proof (fd_entries_nonneg names) as H2.
    change (omap _ []) with ([] : list hsed_entry_t) in H1. rewrite app_nil_r in H1.
    set (es1 := option_list (fd_entry P pid owner_uid min_size name)) in *.
    destruct (scan_fd_run name v es) as (rc & v1 & -> & Hv1 & Hf); try done.
    { eapply sink_room_mono; [done|]. fold es1. rewrite !sum_sizes_app.
      apply sum_sizes_nonneg in H2. lia. }
    rewrite some_bind. pose proof Hf as [Hk [[-> Hh]|(-> & Hl' & Hr)]].
    + rewrite decide_False by lia.
      destruct (IH v1 (es ++ es1)) as (rc & v2 & -> & Hf2); try done.
      { by apply Forall_app. }
      { rewrite <- app_assoc. eapply sink_room_kind; [|done]. done. }
      eexists _, _. split; [done|]. by eapply fed_trans.
    + rewrite decide_True by lia. eexists _, _. split; [done|]. split; [done|]. right. done.
Qed.
End turn.

(** ** One process *)

Lemma pid_entries_nonneg P min_size uid_filter pid : procfs_ok P ->
  Forall (fun e => 0 <= e_size e)%Z (pid_entries P min_size uid_filter pid).
Proof.
  intros HP. unfold pid_entries. destruct (p_stat P _) as [pst|]; [|constructor].
  case_decide; [|constructor]. destruct (p_opendir P _) as [names|]; [|constructor].
  by apply fd_entries_nonneg.
Qed.

Lemma scan_one_pid_run P realloc s es pid min_size uid_filter :
  procfs_ok P -> in_s 32 pid -> sink_holds s es -> Forall (fun e => 0 <= e_size e)%Z es ->
  sink_room s (es ++ pid_entries P min_size uid_filter pid) ->
  exists rc s', scan_one_pid P realloc s pid min_size uid_filter = Some (rc, s') /\
    fed realloc s es (pid_entries P min_size uid_filter pid) rc s'.
Proof.
  intros HP Hpid Hs Hes Hroom. unfold scan_one_pid, pid_entries in *.
  rewrite sformat_proc, format_proc by done. rewrite some_bind. fold (proc_path pid).
  destruct (p_stat P (proc_path pid)) as [pst|].
  2: { eexists _, _. split; [done|]. by apply fed_nil. }
  cbv zeta. destruct (decide (uid_selected uid_filter (st_uid pst))) as [Hu|Hu].
  2: { rewrite decide_True by (unfold uid_selected in Hu; tauto).
       eexists _, _. split; [done|]. by apply fed_nil. }
  rewrite decide_False by (unfold uid_selected in Hu; tauto).
  rewrite sformat_fd_dir, format_fd_dir by done. rewrite some_bind. fold (fd_dir_path pid).
  destruct (p_opendir P (fd_dir_path pid)) as [names|] eqn:Ed.
  2: { eexists _, _. split; [done|]. by apply fed_nil. }
  destruct (readdir_loop_run P HP realloc pid (st_uid pst) min_size Hpid names
    (scan_vars_init s) es) as (rc & v' & -> & Hf); try done.
  - by apply (names_ok _ HP) in Ed.
  - eexists _, _. split; [done|]. done.
Qed.

Lemma fd_entry_ok P pid uid min_size name e :
  procfs_ok P -> in_s 32 pid -> in_u 32 uid ->
  fd_entry P pid uid min_size name = Some e ->
  entry_ok e /\ e_pid e = pid /\ e_uid e = uid /\ (min_size <= e_size e)%Z /\
  is_virtual_target (e_path e) = false.
Proof.
  intros HP Hpid Huid H. unfold fd_entry in H.
  destruct (fd_deleted P pid min_size name) as [[path st]|] eqn:E; [|done].
  apply (fd_deleted_ok P HP pid) in E
    as ([Hu Hi Hsz Hm] & Hn & Hl & Hmin & Hv & _).
  rewrite some_bind in H. injection H as <-. unfold entry_of.
  assert (0 < HSED_NAME_MAX) by (unfold HSED_NAME_MAX; lia).
  assert (0 < HSED_CMDLINE_MAX) by (unfold HSED_CMDLINE_MAX; lia).
  split_and!; try done. split; cbn [e_pid e_fd e_mode e_size e_uid e_user e_comm e_cmdline e_path
    e_inode e_dev_major e_dev_minor e_mtime]; try done.
  - apply atoi_range.
  - apply mode_text_cases.
  - unfold in_s. lia.
  - apply and_comm. by apply owner_text_ok.
  - split; [apply comm_text_no_nul|by apply comm_text_length].
  - apply and_comm. by apply cmdline_text_ok.
  - apply u32_range.
  - apply u32_range.
Qed.

Lemma pid_entries_ok P min_size uid_filter pid :
  procfs_ok P -> in_s 32 pid ->
  Forall (fun e => entry_ok e /\ e_pid e = pid /\ (min_size <= e_size e)%Z /\
    uid_selected uid_filter (e_uid e) /\ is_virtual_target (e_path e) = false)
    (pid_entries P min_size uid_filter pid).
Proof.
  intros HP Hpid. unfold pid_entries. destruct (p_stat P _) as [pst|] eqn:Ep; [|constructor].
  apply (stats_ok _ HP) in Ep as [Hu _ _ _].
  case_decide; [|constructor]. destruct (p_opendir P _) as [names|]; [|constructor].
  apply Forall_forall. intros e He. apply list_elem_of_omap in He as (name & _ & He).
  eapply fd_entry_ok in He as (? & ? & Eu & ? & ?); [|done..]. rewrite Eu. eauto 10.
Qed.

(** ** The pids of /proc *)

Lemma gather_loop_run realloc names : forall pids cap,
  match gather_loop realloc names (pids, cap) with
  | Some (pids', _) => pids' = pids ++ proc_pids names
  | None => exists n, realloc n = false
  end.
Proof.
  unfold proc_pids. induction names as [|name names IH]; intros pids cap; cbn [gather_loop].
  - by rewrite app_nil_r.
  - cbn [List.filter]. destruct (is_all_digits name); cbn [negb]; [|apply IH].
    unfold push_pid. rewrite fmap_cons.
    assert (forall cap', match gather_loop realloc names (pids ++ [i32 (atol name)], cap') with
      | Some (pids', _) => pids' = pids ++ i32 (atol name) ::
          ((fun name => i32 (atol name)) <$> List.filter is_all_digits names)
      | None => exists n, realloc n = false end) as Hgo.
    { intros cap'. specialize (IH (pids ++ [i32 (atol name)]) cap').
      destruct (gather_loop _ _ _) as [[]|]; [|done]. rewrite IH. by rewrite <- app_assoc. }
    case_decide; [|apply Hgo].
    destruct (realloc (if decide (cap = 0) then 256 else cap * 2)) eqn:Er; [apply Hgo|].
    by exists (if decide (cap = 0) then 256 else cap * 2).
Qed.

Lemma gather_pids_run P :
  match gather_pids P with
  | Some pids => exists names, p_opendir P (lit "/proc") = Some names /\ pids = proc_pids names
  | None => p_opendir P (lit "/proc") = None \/ exists n, p_realloc P AtPids n = false
  end.
Proof.
  unfold gather_pids. destruct (p_opendir P (lit "/proc")) as [names|]; [|by left].
  pose proof (gather_loop_run (p_realloc P AtPids) names [] 0) as H.
  destruct (gather_loop _ _ _) as [[pids cap]|]; cbn; [|by right].
  exists names. by split.
Qed.

Lemma proc_pids_range names : Forall (in_s 32) (proc_pids names).
Proof.
  unfold proc_pids. apply Forall_fmap, Forall_true. intros x. by apply wrap_s_range.
Qed.

Lemma all_digits_print_u s : Forall (fun c => digit_in 10 c = true) s -> all_digits s = true.
Proof.
  assert (forall c, implb (digit_in 10 c) (isdigit c) = true) as H
    by (apply byte_cases; vm_compute; reflexivity).
  induction 1 as [|c s Hc _ IH]; [done|]. cbn [all_digits].
  specialize (H c). rewrite Hc in H. cbn in H. by rewrite H.
Qed.

Lemma is_all_digits_print_u z : is_all_digits (print_u 10 z) = true.
Proof.
  pose proof (print_u_digits z) as H. destruct (print_u_cons z) as (c & s & E & _).
  unfold is_all_digits. rewrite E in *. by apply all_digits_print_u.
Qed.

Lemma atol_print_pid z : (0 <= z < 2 ^ 31)%Z -> i32 (atol (print_u 10 z)) = z.
Proof.
  intros Hz. assert (print_u 10 z = print_d z) as ->.
  { unfold print_d. by rewrite (proj2 (Z.ltb_ge z 0)) by lia. }
  unfold atol, strtol. rewrite <- (app_nil_r (print_d z)), strtol_print_d by (done || unfold in_s; lia). cbn [fst].
  apply wrap_s_small; [lia|]. unfold in_s. lia.
Qed.

(** ** Properties *)

(** C13: Whichever of the list and the totals it fills, [scan_one_pid] has no
    undefined behaviour, and it adds exactly the entries of the process to
    what the sink held, or fails for want of memory; those entries are well
    formed, at least [min_size] large, of the requested user, and never the
    name of a pipe, socket or memfd. *)
Theorem scan_one_pid_correct (P : procfs) (realloc : nat -> bool) (s : sink)
    (es : list hsed_entry_t) (pid min_size uid_filter : Z) :
  procfs_ok P -> in_s 32 pid -> sink_holds s es -> Forall (fun e => 0 <= e_size e)%Z es ->
  sink_room s (es ++ pid_entries P min_size uid_filter pid) ->
  exists rc s', scan_one_pid P realloc s pid min_size uid_filter = Some (rc, s') /\
    fed realloc s es (pid_entries P min_size uid_filter pid) rc s' /\
    Forall (fun e => entry_ok e /\ e_pid e = pid /\ (min_size <= e_size e)%Z /\
      uid_selected uid_filter (e_uid e) /\ is_virtual_target (e_path e) = false)
      (pid_entries P min_size uid_filter pid).
Proof.
  intros HP Hpid Hs Hes Hroom.
  destruct (scan_one_pid_run P realloc s es pid min_size uid_filter) as (rc & s' & H1 & H2);
    try done.
  exists rc, s'. split_and!; try done. by apply pid_entries_ok.
Qed.

(** A process with a deleted file and a live one open. *)
Definition shell_procfs : procfs := {|
  p_opendir path :=
    if decide (path = lit "/proc/7/fd") then Some [lit "."; lit ".."; lit "0"; lit "3"]
    else if decide (path = lit "/proc") then Some [lit "."; lit "7"; lit "self"]
    else None;
  p_stat path :=
    if decide (path = lit "/proc/7") then
      Some {| st_dev := 5; st_ino := 70; st_uid := 1000; st_size := 0; st_mtime := 1 |}
    else if decide (path = lit "/proc/7/fd/3") then
      Some {| st_dev := 2049; st_ino := 12; st_uid := 1000; st_size := 4096; st_mtime := 2 |}
    else None;
  p_readlink path :=
    if decide (path = lit "/proc/7/fd/0") then Some (lit "/dev/null")
    else if decide (path = lit "/proc/7/fd/3") then Some (lit "/tmp/x (deleted)")
    else None;
  p_read _ := None; p_getpwuid _ := None; p_nprocs := 1; p_calloc _ := true;
  p_realloc _ _ := true; p_spawn _ := true |}.

Lemma shell_procfs_ok : procfs_ok shell_procfs.
Proof.
  split; intros path; cbn.
  - intros names H. repeat case_decide; simplify_eq;
      repeat constructor; try discriminate; vm_compute; lia.
  - intros st H. repeat case_decide; simplify_eq; split; cbn; unfold in_u, in_s; lia.
Qed.

Lemma scan_one_pid_correct_witness :
  exists rc s', scan_one_pid shell_procfs (fun _ => true) (ToStats (mk_stats 0 0)) 7 1
      HSED_UID_ANY = Some (rc, s') /\
    fed (fun _ => true) (ToStats (mk_stats 0 0)) []
      (pid_entries shell_procfs 1 HSED_UID_ANY 7) rc s' /\
    Forall (fun e => entry_ok e /\ e_pid e = 7%Z /\ (1 <= e_size e)%Z /\
      uid_selected HSED_UID_ANY (e_uid e) /\ is_virtual_target (e_path e) = false)
      (pid_entries shell_procfs 1 HSED_UID_ANY 7).
Proof.
  apply (scan_one_pid_correct shell_procfs (fun _ => true) (ToStats (mk_stats 0 0)) [] 7 1
    HSED_UID_ANY).
  - exact shell_procfs_ok.
  - unfold in_s. lia.
  - reflexivity.
  - constructor.
  - intros _. vm_compute. reflexivity.
Defined.

(** Link targets are C strings that fit the array of [readlink]. *)
Definition links_fit (P : procfs) : Prop :=
  forall path w, p_readlink P path = Some w -> no_nul w /\ length w < HSED_PATH_MAX.

Lemma deleted_path_iff whole path : no_nul whole -> length whole < HSED_PATH_MAX ->
  deleted_path whole = Some path <-> whole = path ++ DELETED_SUFFIX.
Proof.
  intros Hn Hl. unfold deleted_path. rewrite take_ge by lia. cbv zeta.
  rewrite !nulcut_id by (by apply Forall_drop || by apply Forall_take). split.
  - intros H. case_decide as Hd; simplify_eq. destruct Hd as [_ <-].
    by rewrite take_drop.
  - intros ->. assert (length (path ++ DELETED_SUFFIX) - DELETED_SUFFIX_LEN = length path) as ->.
    { rewrite length_app. change (length DELETED_SUFFIX) with 10. unfold DELETED_SUFFIX_LEN. lia. }
    rewrite decide_True.
    + by rewrite take_app_length.
    + rewrite drop_app_length. split; [|done]. rewrite length_app.
      change (length DELETED_SUFFIX) with 10. unfold DELETED_SUFFIX_LEN. lia.
Qed.

(** A file name that is a number, and the targets that are no files. *)
Definition decimal (name : bytes) : Prop :=
  name <> [] /\ Forall (fun c => 48 <= byte_val c <= 57)%Z name.

Definition virtual_target (path : bytes) : Prop :=
  path = lit "/dev/zero" \/
  exists kind rest, kind ∈ [lit "pipe:"; lit "socket:"; lit "anon_inode:"; lit "/memfd:"] /\
    path = kind ++ rest.

Lemma is_all_digits_iff name : is_all_digits name = true <-> decimal name.
Proof.
  unfold decimal. destruct name as [|c name]; [by split; [|intros []]|].
  change (is_all_digits (c :: name)) with (all_digits (c :: name)).
  transitivity (Forall (fun c => 48 <= byte_val c <= 57)%Z (c :: name)); [|by split; [|intros []]].
  generalize (c :: name). clear c name. intros s.
  induction s as [|c s IH]; cbn [all_digits]; [by split|]. rewrite Forall_cons, <- IH.
  assert (isdigit c = true <-> (48 <= byte_val c <= 57)%Z) as Hc
    by (unfold isdigit; rewrite andb_true_iff, !Z.leb_le; done).
  destruct (isdigit c); [tauto|]. split; [done|]. intros [H _]. by apply Hc in H.
Qed.

Lemma starts_with_iff s p : starts_with s p = true <-> exists rest, s = p ++ rest.
Proof.
  unfold starts_with, strneq. rewrite bool_decide_eq_true, (take_ge p) by done. split.
  - intros H. exists (drop (length p) s). by rewrite <- H at 1; rewrite take_drop.
  - intros [rest ->]. by rewrite take_app_length.
Qed.

Lemma is_virtual_target_iff path : is_virtual_target path = true <-> virtual_target path.
Proof.
  unfold is_virtual_target, virtual_target, streq.
  rewrite !orb_true_iff, !starts_with_iff, bool_decide_eq_true. split.
  - intros H. destruct_or! H; [right..|by left]; destruct H as [rest ->];
      (eexists _, rest; split; [|reflexivity]); set_unfold; tauto.
  - intros [->|(kind & rest & Hk & ->)]; [by right|].
    set_unfold. destruct_or! Hk; subst; eauto 10.
Qed.

(** The entry of an open deleted file of the process: a number in its fd
    directory, whose link is a path and the kernel's mark, that is not the
    name of a pipe, a socket or shared memory, and is large enough. *)
Definition listed (P : procfs) (min_size uid_filter pid : Z) (e : hsed_entry_t) : Prop :=
  exists pst names name path st,
    p_stat P (proc_path pid) = Some pst /\
    (uid_filter = HSED_UID_ANY \/ st_uid pst = uid_filter) /\
    p_opendir P (fd_dir_path pid) = Some names /\ name ∈ names /\ decimal name /\
    p_readlink P (fd_path pid name) = Some (path ++ lit " (deleted)") /\
    ~ virtual_target path /\
    p_stat P (fd_path pid name) = Some st /\ (min_size <= st_size st)%Z /\
    e = entry_of P pid (st_uid pst) name path st.

Lemma pid_entries_listed (P : procfs) (min_size uid_filter pid : Z) (e : hsed_entry_t) :
  links_fit P ->
  e ∈ pid_entries P min_size uid_filter pid <-> listed P min_size uid_filter pid e.
Proof.
  intros HL. unfold pid_entries, listed. split.
  - intros H. destruct (p_stat P (proc_path pid)) as [pst|]; [|by apply elem_of_nil in H].
    case_decide; [|by apply elem_of_nil in H].
    destruct (p_opendir P (fd_dir_path pid)) as [names|]; [|by apply elem_of_nil in H].
    apply list_elem_of_omap in H as (name & Hin & He). unfold fd_entry, fd_deleted in He.
    destruct (is_all_digits name) eqn:Edig; [|done].
    destruct (p_readlink P _) as [w|] eqn:Ew; [|done]. rewrite some_bind in He.
    destruct (deleted_path w) as [path|] eqn:Ep; [|done]. rewrite some_bind in He.
    destruct (HL _ _ Ew) as [Hn Hl]. apply deleted_path_iff in Ep; [|done..].
    destruct (is_virtual_target path) eqn:Ev; [done|].
    destruct (p_stat P (fd_path pid name)) as [st|] eqn:Es; [|done]. rewrite some_bind in He.
    destruct (st_size st <? min_size)%Z eqn:Em; [done|]. apply Z.ltb_ge in Em.
    rewrite some_bind in He. injection He as <-. subst w.
    exists pst, names, name, path, st. rewrite <- is_all_digits_iff, <- is_virtual_target_iff, Ev. done.
  - intros (pst & names & name & path & st & -> & Hu & -> & Hin & Hd & Hr & Hv & Hst & Hm & ->).
    rewrite <- is_all_digits_iff in Hd. rewrite <- is_virtual_target_iff, not_true_iff_false in Hv.
    rewrite decide_True by done. apply list_elem_of_omap. exists name. split; [done|].
    unfold fd_entry, fd_deleted. rewrite Hd, Hr, some_bind.
    destruct (HL _ _ Hr) as [Hn Hl].
    rewrite (proj2 (deleted_path_iff _ path Hn Hl) eq_refl), some_bind, Hv, Hst, some_bind.
    rewrite (proj2 (Z.ltb_ge _ _)) by lia. done.
Qed.

(** C22: [scan_one_pid], filling a list, adds the entries of exactly the open
    deleted files of the process to it, unless memory runs out. *)
Theorem scan_one_pid_iff (P : procfs) (realloc : nat -> bool) (l : hsed_list_t)
    (es : list hsed_entry_t) (pid min_size uid_filter : Z) :
  procfs_ok P -> links_fit P -> in_s 32 pid -> holds l es -> Forall (fun e => 0 <= e_size e)%Z es ->
  (exists l' new, scan_one_pid P realloc (ToList l) pid min_size uid_filter = Some (0%Z, ToList l') /\
     holds l' (es ++ new) /\ forall e, e ∈ new <-> listed P min_size uid_filter pid e) \/
  (exists s', scan_one_pid P realloc (ToList l) pid min_size uid_filter = Some ((-1)%Z, s') /\
     exists n, realloc n = false).
Proof.
  intros HP HL Hpid Hl Hes.
  destruct (scan_one_pid_run P realloc (ToList l) es pid min_size uid_filter) as (rc & s' & Hscan & Hk & Ho);
    [done..|].
  destruct Ho as [[-> Hh]|(-> & _ & Hn)]; [left|right; by exists s'].
  destruct s' as [l'|]; [|done]. exists l', (pid_entries P min_size uid_filter pid).
  split_and!; [done|done|]. intros e. by apply pid_entries_listed.
Qed.

Lemma shell_links_fit : links_fit shell_procfs.
Proof.
  intros path w H. cbn in H. repeat case_decide; simplify_eq;
    (split; [repeat constructor; discriminate|vm_compute; lia]).
Qed.

Lemma scan_one_pid_iff_witness :
  (exists l' new, scan_one_pid shell_procfs (fun _ => true) (ToList hsed_list_init) 7 1 1000
       = Some (0%Z, ToList l') /\
     holds l' ([] ++ new) /\ forall e, e ∈ new <-> listed shell_procfs 1 1000 7 e) \/
  (exists s', scan_one_pid shell_procfs (fun _ => true) (ToList hsed_list_init) 7 1 1000
       = Some ((-1)%Z, s') /\
     exists n : nat, true = false).
Proof.
  apply (scan_one_pid_iff shell_procfs (fun _ => true) hsed_list_init [] 7 1 1000).
  - exact shell_procfs_ok.
  - exact shell_links_fit.
  - unfold in_s. lia.
  - apply holds_init.
  - constructor.
Defined.

(** C30: [gather_pids] fails only when [/proc] cannot be opened or memory runs
    out; otherwise it returns the pids whose decimal names [/proc] lists, in
    that order, however the other names are mixed in. *)
Theorem gather_pids_correct (P : procfs) (names : list bytes) (pids : list Z) :
  p_opendir P (lit "/proc") = Some names ->
  List.filter is_all_digits names = print_u 10 <$> pids ->
  Forall (fun pid => 0 <= pid < 2 ^ 31)%Z pids ->
  gather_pids P = Some pids \/
  (gather_pids P = None /\ exists n, p_realloc P AtPids n = false).
Proof.
  intros Hd Hf Hp. pose proof (gather_pids_run P) as H.
  destruct (gather_pids P) as [pids'|]; [left|right].
  - destruct H as (names' & Hd' & ->). rewrite Hd in Hd'. injection Hd' as <-.
    unfold proc_pids. rewrite Hf. f_equal. clear -Hp.
    induction Hp as [|pid pids Hpid _ IH]; csimpl; [done|]. by rewrite atol_print_pid, IH.
  - split; [done|]. destruct H as [H|]; [congruence|done].
Qed.

Lemma gather_pids_correct_witness :
  gather_pids shell_procfs = Some [7%Z] \/
  (gather_pids shell_procfs = None /\ exists n : nat, true = false).
Proof.
  apply (gather_pids_correct shell_procfs [lit "."; lit "7"; lit "self"] [7%Z]).
  - reflexivity.
  - reflexivity.
  - repeat constructor; lia.
Defined.
