(* ===== verification/Parallel.v ===== *)
(** * proc_scan.c, the parallel scan

    The pids of [/proc] are cut into contiguous chunks, one per worker; each
    worker scans its chunk into a list or totals of its own; the results are
    merged in the order of the workers.  Here each worker's run is one
    function; Threads.v interleaves their turns. *)

From stdpp Require Import sorting.
From S2P Require Import Prelude CLib Kernel Util EntryList Protocol ProcRead ProcScan.

(** ** Definitions *)

Definition HSED_MAX_AUTO_SCAN_THREADS : Z := 32.

Definition pick_thread_count (P : procfs) (requested : Z) (npids : nat) : Z :=
  let n :=
    if decide (0 < requested)%Z then requested
    else
      let n := p_nprocs P in
      let n := if decide (n < 1)%Z then 1%Z else n in
      if decide (HSED_MAX_AUTO_SCAN_THREADS < n)%Z then HSED_MAX_AUTO_SCAN_THREADS else n in
  if decide (npids = 0) then 1%Z else
  let n := if decide (Z.of_nat npids < u64 n)%Z then Z.of_nat npids else n in
  let n := if decide (n < 1)%Z then 1%Z else n in
  i32 n.

(** [w_pids] is the array from the pointer [pids] on. *)
Record scan_worker_t := mk_worker {
  w_pids : list Z;
  w_count : nat;
  w_min_size : Z;
  w_uid_filter : Z;
  w_use_stats : bool;
  w_list : hsed_list_t;
  w_stats : hsed_stats_t;
  w_failed : bool }.

(** The sink a worker fills. *)
Definition w_sink (w : scan_worker_t) : sink :=
  if w_use_stats w then ToStats (w_stats w) else ToList (w_list w).

Definition with_result (w : scan_worker_t) (failed : bool) (s : sink) : scan_worker_t :=
  match s with
  | ToList l => mk_worker (w_pids w) (w_count w) (w_min_size w) (w_uid_filter w)
                  (w_use_stats w) l (w_stats w) failed
  | ToStats st => mk_worker (w_pids w) (w_count w) (w_min_size w) (w_uid_filter w)
                    (w_use_stats w) (w_list w) st failed
  end.

(** The sink [scan_worker_fn] starts from. *)
Definition worker_start (w : scan_worker_t) : sink :=
  if w_use_stats w then ToStats (mk_stats 0 0) else ToList hsed_list_init.

(** One turn of the [for] loop, on the [i]-th pid. *)
Definition worker_turn (P : procfs) (id : nat) (w : scan_worker_t) (i : nat) (s : sink)
    : option (Z * sink) :=
  pid ← w_pids w !! i;
  scan_one_pid P (p_realloc P (AtWorker id)) s pid (w_min_size w) (w_uid_filter w).

(** The remaining [n] turns of the loop from index [i]. *)
Fixpoint worker_loop (P : procfs) (id : nat) (w : scan_worker_t) (n i : nat) (s : sink)
    : option scan_worker_t :=
  match n with
  | O => Some (with_result w (w_failed w) s)
  | S n' =>
      '(rc, s) ← worker_turn P id w i s;
      if decide (rc <> 0)%Z then Some (with_result w true s)
      else worker_loop P id w n' (S i) s
  end.

Definition scan_worker_fn (P : procfs) (id : nat) (w : scan_worker_t) : option scan_worker_t :=
  worker_loop P id w (w_count w) 0 (worker_start w).

(** The loop that cuts [pids] into chunks: [n] workers from the [i]-th on. *)
Fixpoint make_workers (pids : list Z) (min_size uid_filter : Z) (use_stats : bool)
    (base rem : nat) (n i offset : nat) : list scan_worker_t :=
  match n with
  | O => []
  | S n' =>
      let chunk := base + (if decide (i < rem) then 1 else 0) in
      mk_worker (drop offset pids) chunk min_size uid_filter use_stats
        hsed_list_init (mk_stats 0 0) false
      :: make_workers pids min_size uid_filter use_stats base rem n' (S i) (offset + chunk)
  end.

(** Every worker runs [scan_worker_fn], in a thread or in the caller. *)
Fixpoint run_workers (P : procfs) (id : nat) (ws : list scan_worker_t)
    : option (list scan_worker_t) :=
  match ws with
  | [] => Some []
  | w :: ws' => w' ← scan_worker_fn P id w; ws'' ← run_workers P (S id) ws'; Some (w' :: ws'')
  end.

(** The totals of the workers. *)
Fixpoint sum_stats (ws : list scan_worker_t) (st : hsed_stats_t) : option hsed_stats_t :=
  match ws with
  | [] => Some st
  | w :: ws' =>
      total ← add_i64 (s_total st) (s_total (w_stats w));
      sum_stats ws' (mk_stats (u64 (s_count st + s_count (w_stats w))) total)
  end.

(** The inner loop of the merge: the [n] items of [l] from the [j]-th on. *)
Fixpoint merge_items (realloc : nat -> bool) (l : hsed_list_t) (n j : nat) (out : hsed_list_t)
    : option (bool * hsed_list_t) :=
  match n with
  | O => Some (false, out)
  | S n' =>
      e ← item_at l j;
      '(rc, out) ← list_push realloc out e;
      if decide (rc <> 0)%Z then Some (true, out) else merge_items realloc l n' (S j) out
  end.

Fixpoint merge_lists (realloc : nat -> bool) (ws : list scan_worker_t) (out : hsed_list_t)
    : option (bool * hsed_list_t) :=
  match ws with
  | [] => Some (false, out)
  | w :: ws' =>
      '(failed, out) ← merge_items realloc (w_list w) (count (w_list w)) 0 out;
      if (failed : bool) then Some (true, out) else merge_lists realloc ws' out
  end.

(** The return value and the object [out] points to ([out_list] or [out_stats]). *)
Definition run_parallel_scan (P : procfs) (pids : list Z) (min_size uid_filter num_threads : Z)
    (use_stats : bool) (out : sink) : option (Z * sink) :=
  let nthreads := Z.to_nat (pick_thread_count P num_threads (length pids)) in
  if negb (p_calloc P nthreads) then Some ((-1)%Z, out) else
  let base := length pids / nthreads in
  let rem := length pids mod nthreads in
  let workers := make_workers pids min_size uid_filter use_stats base rem nthreads 0 0 in
  workers ← run_workers P 0 workers;
  if existsb w_failed workers then Some ((-1)%Z, out)
  else if use_stats then
    st ← sum_stats workers (mk_stats 0 0);
    Some (0%Z, ToStats st)
  else
    '(failed, l) ← merge_lists (p_realloc P AtMerge) workers hsed_list_init;
    if (failed : bool) then Some ((-1)%Z, ToList (hsed_list_free l)) else Some (0%Z, ToList l).

(** [qsort(out->items, out->count, ...)]. *)
Definition sort_list `{Q : Qsort} (l : hsed_list_t) : option hsed_list_t :=
  es ← mapM id (take (count l) (items l));
  Some (mk_list ((Some <$> qsort cmp_by_size_desc es) ++ drop (count l) (items l))
          (count l) (capacity l)).

Definition sort_if_many `{Q : Qsort} (l : hsed_list_t) : option hsed_list_t :=
  if decide (1 < count l) then sort_list l else Some l.

Definition hsed_scan `{Q : Qsort} (P : procfs) (out : hsed_list_t)
    (min_size only_pid uid_filter num_threads : Z) : option (Z * hsed_list_t) :=
  if decide (0 < only_pid)%Z then
    '(rc, s) ← scan_one_pid P (p_realloc P AtMerge) (ToList hsed_list_init) only_pid
                 min_size uid_filter;
    match s with
    | ToStats _ => None
    | ToList out =>
        if decide (rc <> 0)%Z then Some ((-1)%Z, out)
        else out ← sort_if_many out; Some (0%Z, out)
    end
  else
    match gather_pids P with
    | None => Some ((-1)%Z, out)
    | Some pids =>
        '(rc, s) ← run_parallel_scan P pids min_size uid_filter num_threads false (ToList out);
        match s with
        | ToStats _ => None
        | ToList out =>
            if decide (rc <> 0)%Z then Some ((-1)%Z, out)
            else out ← sort_if_many out; Some (0%Z, out)
        end
    end.

Definition hsed_scan_stats (P : procfs) (out : hsed_stats_t)
    (min_size uid_filter num_threads : Z) : option (Z * hsed_stats_t) :=
  match gather_pids P with
  | None => Some ((-1)%Z, out)
  | Some pids =>
      '(rc, s) ← run_parallel_scan P pids min_size uid_filter num_threads true (ToStats out);
      match s with ToList _ => None | ToStats st => Some (rc, st) end
  end.

(** ** The reference: all the entries of the system *)

Definition all_entries (P : procfs) (min_size uid_filter : Z) (pids : list Z)
    : list hsed_entry_t := pids ≫= pid_entries P min_size uid_filter.

(** What the scan reports, from the directory [/proc]. *)
Definition system_entries (P : procfs) (min_size only_pid uid_filter : Z)
    : list hsed_entry_t :=
  if decide (0 < only_pid)%Z then pid_entries P min_size uid_filter only_pid
  else match p_opendir P (lit "/proc") with
       | None => []
       | Some names => all_entries P min_size uid_filter (proc_pids names)
       end.

(** Memory ran out somewhere, or [/proc] could not be opened. *)
Definition scan_can_fail (P : procfs) : Prop :=
  p_opendir P (lit "/proc") = None \/ (exists n, p_calloc P n = false) \/
  (exists site n, p_realloc P site n = false).

(** ** The chunks *)

Definition slice (w : scan_worker_t) : list Z := take (w_count w) (w_pids w).

(** The pids the next [n] workers take, and its closed form. *)
Fixpoint chunks (base rem n i : nat) : nat :=
  match n with
  | O => 0
  | S n' => base + (if decide (i < rem) then 1 else 0) + chunks base rem n' (S i)
  end.

Lemma chunks_eq base rem n : forall i,
  chunks base rem n i = n * base + (Nat.min rem (i + n) - Nat.min rem i).
Proof. induction n as [|n IH]; intros i; cbn [chunks]; [lia|]. rewrite IH. case_decide; lia. Qed.

Lemma chunks_all len n : 0 < n -> chunks (len / n) (len mod n) n 0 = len.
Proof.
  intros Hn. rewrite chunks_eq. pose proof (Nat.mod_upper_bound len n).
  pose proof (Nat.div_mod_eq len n). rewrite (Nat.min_l _ (0 + n)) by lia. lia.
Qed.

Section make.
Context (pids : list Z) (min_size uid_filter : Z) (use_stats : bool) (base rem : nat).
Abbreviation make := (make_workers pids min_size uid_filter use_stats base rem).

Lemma make_workers_length n : forall i offset, length (make n i offset) = n.
Proof. induction n as [|n IH]; intros i offset; cbn [make_workers length]; auto. Qed.

Lemma make_workers_slices n : forall i offset,
  make n i offset ≫= slice = take (chunks base rem n i) (drop offset pids).
Proof.
  induction n as [|n IH]; intros i offset; cbn [make_workers chunks]; [done|].
  rewrite bind_cons, IH. unfold slice at 1. cbn [w_count w_pids].
  set (chunk := base + _). rewrite <- drop_drop, take_take_drop. done.
Qed.

Lemma make_workers_counts n : forall i offset,
  offset + chunks base rem n i <= length pids ->
  Forall (fun w => length (slice w) = w_count w /\ w_failed w = false /\
    w_use_stats w = use_stats /\ w_min_size w = min_size /\ w_uid_filter w = uid_filter /\
    base <= w_count w <= S base) (make n i offset).
Proof.
  induction n as [|n IH]; intros i offset Hb; cbn [make_workers chunks] in *; [constructor|].
  constructor; [|apply IH; lia]. unfold slice. cbn [w_count w_pids w_failed w_use_stats
    w_min_size w_uid_filter]. rewrite length_take, length_drop. split_and!; try done; case_decide; lia.
Qed.
End make.

(** ** The number of threads *)

Lemma pick_thread_count_range P requested npids : in_s 32 requested ->
  (Z.of_nat npids < 2 ^ 31)%Z ->
  (1 <= pick_thread_count P requested npids <= Z.max 1 (Z.of_nat npids))%Z.
Proof.
  intros Hr Hn. unfold pick_thread_count, HSED_MAX_AUTO_SCAN_THREADS.
  unfold in_s in Hr. change (32 - 1)%Z with 31%Z in Hr.
  set (n0 := if decide (0 < requested)%Z then requested else _).
  assert (1 <= n0 < 2 ^ 31)%Z as H0 by (unfold n0; repeat case_decide; lia).
  destruct (decide (npids = 0)) as [->|Hne]; [lia|]. cbv zeta.
  assert (u64 n0 = n0) as -> by (apply wrap_u_small; unfold in_u; lia).
  repeat case_decide; unfold i32; rewrite wrap_s_small; unfold in_s; lia.
Qed.

(** ** One worker *)

Definition worker_entries (P : procfs) (w : scan_worker_t) : list hsed_entry_t :=
  all_entries P (w_min_size w) (w_uid_filter w) (slice w).

(** A worker ready to run. *)
Record worker_ok (P : procfs) (w : scan_worker_t) : Prop := {
  wok_slice : length (slice w) = w_count w;
  wok_pids : Forall (in_s 32) (slice w);
  wok_room : w_use_stats w = true -> (sum_sizes (worker_entries P w) < 2 ^ 63)%Z;
  wok_failed : w_failed w = false }.

(** A worker that ran: its sink holds its entries, or it failed. *)
Definition worker_done (P : procfs) (w w' : scan_worker_t) : Prop :=
  w_use_stats w' = w_use_stats w /\
  (w_failed w' = false /\ sink_holds (w_sink w') (worker_entries P w) \/
   w_failed w' = true /\ w_use_stats w = false /\ exists site n, p_realloc P site n = false).

Lemma all_entries_nonneg P min_size uid_filter pids : procfs_ok P ->
  Forall (fun e => 0 <= e_size e)%Z (all_entries P min_size uid_filter pids).
Proof.
  intros HP. unfold all_entries. induction pids as [|pid pids IH]; [constructor|].
  rewrite bind_cons. apply Forall_app. split; [by apply pid_entries_nonneg|done].
Qed.

Lemma with_result_sink w failed s : is_list s = negb (w_use_stats w) ->
  w_sink (with_result w failed s) = s /\ w_failed (with_result w failed s) = failed /\
  w_use_stats (with_result w failed s) = w_use_stats w.
Proof. destruct s; cbn; unfold w_sink; cbn; by destruct (w_use_stats w). Qed.

Section worker.
Context (P : procfs) (HP : procfs_ok P) (id : nat) (w : scan_worker_t) (Hw : worker_ok P w).

Lemma all_entries_snoc pids pid :
  all_entries P (w_min_size w) (w_uid_filter w) (pids ++ [pid])
  = all_entries P (w_min_size w) (w_uid_filter w) pids
    ++ pid_entries P (w_min_size w) (w_uid_filter w) pid.
Proof. unfold all_entries. rewrite bind_app, bind_cons. cbn. by rewrite app_nil_r. Qed.

Lemma slice_prefix_room i :
  w_use_stats w = true ->
  (sum_sizes (all_entries P (w_min_size w) (w_uid_filter w) (take i (slice w))) < 2 ^ 63)%Z.
Proof.
  intros Hs. pose proof (wok_room _ _ Hw Hs) as H. unfold worker_entries in H.
  rewrite <- (take_drop i (slice w)) in H. unfold all_entries in *.
  rewrite bind_app, sum_sizes_app in H.
  pose proof (sum_sizes_nonneg _ (all_entries_nonneg P (w_min_size w) (w_uid_filter w)
    (drop i (slice w)) HP)) as Hn. unfold all_entries in Hn. lia.
Qed.

(** One turn of the loop, from a sink that holds the entries of the pids
    scanned so far. *)
Lemma worker_turn_run i s :
  i < w_count w -> is_list s = negb (w_use_stats w) ->
  sink_holds s (all_entries P (w_min_size w) (w_uid_filter w) (take i (slice w))) ->
  exists rc s', worker_turn P id w i s = Some (rc, s') /\ is_list s' = negb (w_use_stats w) /\
    (rc = 0%Z /\
     sink_holds s' (all_entries P (w_min_size w) (w_uid_filter w) (take (S i) (slice w))) \/
     rc = (-1)%Z /\ w_use_stats w = false /\ exists site n, p_realloc P site n = false).
Proof.
  intros Hi Hk Hs. unfold worker_turn.
  assert (exists pid, w_pids w !! i = Some pid /\ slice w !! i = Some pid) as (pid & -> & Hpid).
  { destruct (lookup_lt_is_Some_2 (slice w) i) as [pid Hpid]; [by rewrite (wok_slice _ _ Hw)|].
    exists pid. split; [|done]. unfold slice in Hpid. by apply lookup_take_Some in Hpid as [? _]. }
  rewrite some_bind. rewrite (take_S_r _ _ _ Hpid), all_entries_snoc.
  destruct (scan_one_pid_run P (p_realloc P (AtWorker id)) s
    (all_entries P (w_min_size w) (w_uid_filter w) (take i (slice w))) pid
    (w_min_size w) (w_uid_filter w)) as (rc & s' & Hrun & Hk' & Ho); try done.
  - pose proof (wok_pids _ _ Hw) as Hall. by eapply Forall_lookup in Hall.
  - by apply all_entries_nonneg.
  - intros El. rewrite <- all_entries_snoc, <- (take_S_r _ _ _ Hpid).
    apply slice_prefix_room. by destruct (w_use_stats w), (is_list s).
  - exists rc, s'. split; [done|]. split; [congruence|].
    destruct Ho as [[-> Hh]|(-> & Hl & n & Hn)]; [by left|right].
    split; [done|]. split; [by destruct (w_use_stats w), (is_list s)|]. eauto.
Qed.

Lemma worker_loop_run n : forall i s,
  i + n = w_count w -> is_list s = negb (w_use_stats w) ->
  sink_holds s (all_entries P (w_min_size w) (w_uid_filter w) (take i (slice w))) ->
  exists w', worker_loop P id w n i s = Some w' /\ worker_done P w w'.
Proof.
  induction n as [|n IH]; intros i s Hi Hk Hs; cbn [worker_loop].
  - eexists. split; [done|]. destruct (with_result_sink w (w_failed w) s Hk) as (E1 & E2 & E3).
    split; [done|]. left. rewrite E1, E2, (wok_failed _ _ Hw). split; [done|].
    rewrite take_ge in Hs; [done|]. rewrite (wok_slice _ _ Hw). lia.
  - destruct (worker_turn_run i s) as (rc & s' & -> & Hk' & Ho); [lia|done..|].
    rewrite some_bind. destruct Ho as [[-> Hh]|(-> & Hu & Hf)].
    + rewrite decide_False by lia. apply IH; [lia|done..].
    + rewrite decide_True by lia. eexists. split; [done|].
      destruct (with_result_sink w true s' Hk') as (E1 & E2 & E3). split; [done|]. right. done.
Qed.

Lemma worker_start_ok :
  is_list (worker_start w) = negb (w_use_stats w) /\ sink_holds (worker_start w) [].
Proof. unfold worker_start. destruct (w_use_stats w); split; try done. apply holds_init. Qed.

Lemma scan_worker_run : exists w', scan_worker_fn P id w = Some w' /\ worker_done P w w'.
Proof. destruct worker_start_ok. by apply worker_loop_run. Qed.
End worker.

Lemma run_workers_run P ws : procfs_ok P -> forall id, Forall (worker_ok P) ws ->
  exists ws', run_workers P id ws = Some ws' /\ Forall2 (worker_done P) ws ws'.
Proof.
  intros HP id Hws. revert id. induction Hws as [|w ws Hw _ IH]; intros id; cbn [run_workers].
  { by exists []. }
  destruct (scan_worker_run P HP id w Hw) as (w' & -> & Hd). rewrite some_bind.
  destruct (IH (S id)) as (ws' & -> & Hds). rewrite some_bind.
  eexists. split; [done|]. by constructor.
Qed.

(** ** Merging *)

Lemma worker_entries_nonneg P w : procfs_ok P ->
  Forall (fun e => 0 <= e_size e)%Z (worker_entries P w).
Proof. apply all_entries_nonneg. Qed.

Lemma workers_entries_nonneg P ws : procfs_ok P ->
  Forall (fun e => 0 <= e_size e)%Z (ws ≫= worker_entries P).
Proof.
  intros HP. induction ws as [|w ws IH]; [constructor|]. rewrite bind_cons.
  apply Forall_app. split; [by apply worker_entries_nonneg|done].
Qed.

Lemma u64_add a b : u64 (u64 a + u64 b) = u64 (a + b).
Proof. unfold u64, wrap_u. by rewrite <- Zplus_mod. Qed.

Lemma sum_stats_run P ws ws' : procfs_ok P -> Forall2 (worker_done P) ws ws' -> forall es,
  existsb w_failed ws' = false -> Forall (fun w => w_use_stats w = true) ws ->
  Forall (fun e => 0 <= e_size e)%Z es ->
  (sum_sizes (es ++ (ws ≫= worker_entries P)) < 2 ^ 63)%Z ->
  sum_stats ws' (mk_stats (u64 (Z.of_nat (length es))) (sum_sizes es))
  = Some (mk_stats (u64 (Z.of_nat (length (es ++ (ws ≫= worker_entries P)))))
            (sum_sizes (es ++ (ws ≫= worker_entries P)))).
Proof.
  intros HP Hd. induction Hd as [|w w' ws ws' [Hu Ho] _ IH]; intros es Hf Hs Hes Hsum;
    cbn [sum_stats].
  { cbn. by rewrite app_nil_r. }
  cbn [existsb] in Hf. apply orb_false_iff in Hf as [Hfw Hf].
  apply Forall_cons_1 in Hs as [Hsw Hs].
  destruct Ho as [[_ Hh]|(? & _)]; [|congruence].
  unfold w_sink in Hh. rewrite Hu, Hsw in Hh. cbn [sink_holds] in Hh. rewrite Hh.
  cbn [s_total s_count]. rewrite bind_cons, app_assoc in *.
  pose proof (worker_entries_nonneg P w HP) as Hw.
  assert (Forall (fun e => 0 <= e_size e)%Z (es ++ worker_entries P w)) as Hes' by (by apply Forall_app).
  pose proof (sum_sizes_nonneg _ Hes') as Hpos. rewrite sum_sizes_app in Hpos.
  pose proof (workers_entries_nonneg P ws HP) as Hrest. apply sum_sizes_nonneg in Hrest.
  rewrite sum_sizes_app in Hsum. rewrite sum_sizes_app in Hsum.
  unfold add_i64. rewrite decide_True by (unfold in_s; lia). rewrite some_bind.
  rewrite u64_add, <- Nat2Z.inj_add, <- length_app, <- sum_sizes_app.
  apply IH; try done. rewrite !sum_sizes_app. lia.
Qed.

Lemma merge_items_run realloc l els n : forall j out es,
  holds l els -> holds out es -> j + n = count l ->
  exists failed out', merge_items realloc l n j out = Some (failed, out') /\
    (failed = false /\ holds out' (es ++ drop j els) \/
     failed = true /\ exists n, realloc n = false).
Proof.
  induction n as [|n IH]; intros j out es Hl Ho Hj; cbn [merge_items].
  - exists false, out. split; [done|]. left. split; [done|].
    rewrite drop_ge, app_nil_r by (rewrite <- (holds_count _ _ Hl); lia). done.
  - rewrite (holds_item_at l els) by (done || lia).
    destruct (lookup_lt_is_Some_2 els j) as [e He]; [rewrite <- (holds_count _ _ Hl); lia|].
    rewrite He, some_bind.
    destruct (list_push_spec realloc out es e Ho) as (rc & out1 & -> & Hp). rewrite some_bind.
    destruct Hp as [[-> Hh]|(-> & _ & Hn)].
    + rewrite decide_False by lia.
      destruct (IH (S j) out1 (es ++ [e])) as (failed & out' & -> & Hf); [done|done|lia|].
      exists failed, out'. split; [done|]. by rewrite (drop_S _ _ _ He), cons_middle, app_assoc.
    + rewrite decide_True by lia. exists true, out1. split; [done|]. by right.
Qed.

Lemma merge_lists_run P realloc ws ws' : Forall2 (worker_done P) ws ws' -> forall out es,
  existsb w_failed ws' = false -> Forall (fun w => w_use_stats w = false) ws ->
  holds out es ->
  exists failed out', merge_lists realloc ws' out = Some (failed, out') /\
    (failed = false /\ holds out' (es ++ (ws ≫= worker_entries P)) \/
     failed = true /\ exists n, realloc n = false).
Proof.
  induction 1 as [|w w' ws ws' [Hu Ho] _ IH]; intros out es Hf Hs Hout; cbn [merge_lists].
  { exists false, out. split; [done|]. left. cbn. by rewrite app_nil_r. }
  cbn [existsb] in Hf. apply orb_false_iff in Hf as [Hfw Hf].
  apply Forall_cons_1 in Hs as [Hsw Hs].
  destruct Ho as [[_ Hh]|(? & _)]; [|congruence].
  unfold w_sink in Hh. rewrite Hu, Hsw in Hh. cbn [sink_holds] in Hh.
  destruct (merge_items_run realloc (w_list w') (worker_entries P w) (count (w_list w')) 0 out es)
    as (failed & out1 & -> & Hm); [done..|]. rewrite some_bind. rewrite drop_0 in Hm.
  destruct Hm as [[-> Hm]|[-> Hn]].
  - destruct (IH out1 (es ++ worker_entries P w)) as (failed & out' & -> & Hr); [done..|].
    exists failed, out'. split; [done|]. by rewrite bind_cons, app_assoc.
  - exists true, out1. split; [done|]. by right.
Qed.

(** ** The whole scan *)

Lemma workers_entries_slices P min_size uid_filter ws :
  Forall (fun w => w_min_size w = min_size /\ w_uid_filter w = uid_filter) ws ->
  ws ≫= worker_entries P = all_entries P min_size uid_filter (ws ≫= slice).
Proof.
  unfold all_entries. induction 1 as [|w ws [E1 E2] _ IH]; [done|].
  rewrite !bind_cons, IH, bind_app. unfold worker_entries, all_entries. by rewrite E1, E2.
Qed.

Lemma sum_sizes_member P ws w : procfs_ok P -> w ∈ ws ->
  (sum_sizes (worker_entries P w) <= sum_sizes (ws ≫= worker_entries P))%Z.
Proof.
  intros HP Hin. apply list_elem_of_split in Hin as (ws1 & ws2 & ->).
  rewrite bind_app, bind_cons, !sum_sizes_app.
  pose proof (sum_sizes_nonneg _ (workers_entries_nonneg P ws1 HP)).
  pose proof (sum_sizes_nonneg _ (workers_entries_nonneg P ws2 HP)). lia.
Qed.

(** The workers the code makes are ready, and together they have every pid once. *)
Lemma made_workers P pids min_size uid_filter use_stats nthreads :
  procfs_ok P -> Forall (in_s 32) pids -> 0 < nthreads ->
  (use_stats = true -> (sum_sizes (all_entries P min_size uid_filter pids) < 2 ^ 63)%Z) ->
  let ws := make_workers pids min_size uid_filter use_stats (length pids / nthreads)
              (length pids mod nthreads) nthreads 0 0 in
  Forall (worker_ok P) ws /\ Forall (fun w => w_use_stats w = use_stats) ws /\
  ws ≫= worker_entries P = all_entries P min_size uid_filter pids.
Proof.
  intros HP Hpids Hn Hroom ws.
  pose proof (chunks_all (length pids) nthreads Hn) as Hc.
  pose proof (make_workers_slices pids min_size uid_filter use_stats (length pids / nthreads)
    (length pids mod nthreads) nthreads 0 0) as Hsl. fold ws in Hsl.
  rewrite Hc, drop_0, take_ge in Hsl by done.
  pose proof (make_workers_counts pids min_size uid_filter use_stats (length pids / nthreads)
    (length pids mod nthreads) nthreads 0 0) as Hcnt. fold ws in Hcnt.
  specialize (Hcnt ltac:(lia)).
  assert (ws ≫= worker_entries P = all_entries P min_size uid_filter pids) as He.
  { rewrite (workers_entries_slices P min_size uid_filter ws), Hsl; [done|].
    eapply Forall_impl; [done|]. intros w (_ & _ & _ & ? & ? & _). done. }
  split_and!; [|eapply Forall_impl; [done|]; by intros w (_ & _ & ? & _)|done].
  rewrite Forall_forall in *. intros w Hw. destruct (Hcnt w Hw) as (? & Hf & Hu & Em & Eu & _).
  split; [done| | |done].
  - apply Forall_forall. intros pid Hpid. apply (proj1 (Forall_forall _ _) Hpids). rewrite <- Hsl.
    apply list_elem_of_bind. by exists w.
  - rewrite Hu. intros ->. pose proof (sum_sizes_member P ws w HP Hw). rewrite He in *.
    specialize (Hroom eq_refl). lia.
Qed.

Lemma existsb_false_Forall {A} (f : A -> bool) l :
  existsb f l = true -> exists x, x ∈ l /\ f x = true.
Proof. rewrite existsb_exists. intros (x & Hx & Hf). exists x. by rewrite list_elem_of_In. Qed.

Lemma run_parallel_scan_run P pids min_size uid_filter num_threads use_stats out :
  procfs_ok P -> Forall (in_s 32) pids -> in_s 32 num_threads ->
  (Z.of_nat (length pids) < 2 ^ 31)%Z ->
  (use_stats = true -> (sum_sizes (all_entries P min_size uid_filter pids) < 2 ^ 63)%Z) ->
  is_list out = negb use_stats ->
  exists rc s, run_parallel_scan P pids min_size uid_filter num_threads use_stats out
    = Some (rc, s) /\ is_list s = negb use_stats /\
    (rc = 0%Z /\ sink_holds s (all_entries P min_size uid_filter pids) \/
     rc = (-1)%Z /\ scan_can_fail P /\
     (use_stats = true -> exists n, p_calloc P n = false)).
Proof.
  intros HP Hpids Ht Hlen Hroom Hout. unfold run_parallel_scan.
  pose proof (pick_thread_count_range P num_threads (length pids) Ht Hlen) as Hr.
  set (nthreads := Z.to_nat _) in *.
  destruct (p_calloc P nthreads) eqn:Ec; cbn [negb].
  2: { eexists _, _. split; [done|]. split; [done|]. right. split; [done|].
       split; [|by eauto]. right. left. by eauto. }
  destruct (made_workers P pids min_size uid_filter use_stats nthreads) as (Hok & Hu & He);
    [done..|unfold nthreads; lia|done|].
  set (ws := make_workers _ _ _ _ _ _ _ _ _) in *.
  destruct (run_workers_run P ws HP 0 Hok) as (ws' & -> & Hd). rewrite some_bind.
  destruct (existsb w_failed ws') eqn:Ef.
  - eexists _, _. split; [done|]. split; [done|]. right. split; [done|].
    apply existsb_false_Forall in Ef as (w' & Hw' & Hf).
    apply list_elem_of_lookup in Hw' as [i Hi].
    eapply Forall2_lookup_r in Hd as (w & Hw & Hus & Ho); [|done].
    destruct Ho as [[? _]|(_ & Hns & Hfail)]; [congruence|]. split; [by right; right|].
    intros ->. eapply Forall_lookup in Hu; [|done]. cbn in Hu. congruence.
  - destruct use_stats.
    + pose proof (sum_stats_run P ws ws' HP Hd []) as Hs. cbn [app] in Hs.
      change (mk_stats (u64 (Z.of_nat (length []))) (sum_sizes [])) with (mk_stats 0 0) in Hs.
      rewrite Hs; [|done|done|constructor|rewrite He; by apply Hroom].
      rewrite some_bind, He. eexists _, _. split; [done|]. split; [done|]. by left.
    + destruct (merge_lists_run P (p_realloc P AtMerge) ws ws' Hd hsed_list_init [])
        as (failed & l & -> & Hm); [done|done|apply holds_init|]. rewrite some_bind.
      destruct Hm as [[-> Hm]|[-> [n Hn]]].
      * eexists _, _. split; [done|]. split; [done|]. left. by rewrite He in Hm.
      * eexists _, _. split; [done|]. split; [done|]. right. split; [done|].
        split; [|done]. right. right. by eauto.
Qed.

(** ** Sorting the result *)

Definition size_desc (a b : hsed_entry_t) : Prop := (e_size b <= e_size a)%Z.

Lemma sort_list_run {Q : Qsort} {QL : QsortLaws Q} l es : holds l es ->
  exists l' es', sort_list l = Some l' /\ holds l' es' /\ es' ≡ₚ es /\ StronglySorted size_desc es'.
Proof.
  intros [[rest Hi] Hc Hcap Hg]. unfold sort_list. rewrite Hc, Hi.
  rewrite take_app_length', drop_app_length' by len. rewrite mapM_written, some_bind.
  pose proof (qsort_perm cmp_by_size_desc es) as Hp.
  eexists _, (qsort cmp_by_size_desc es). split; [done|]. split_and!; [|done|].
  - apply Permutation_length in Hp as Hlen.
    split; cbn [items count capacity]; [by exists rest|congruence| |done].
    rewrite Hcap, Hi. len.
  - eapply sorted_weaken, qsort_sorted, cmp_by_size_desc_ok.
    intros a b. by rewrite cmp_by_size_desc_le.
Qed.

Lemma sort_if_many_run {Q : Qsort} {QL : QsortLaws Q} l es : holds l es ->
  exists l' es', sort_if_many l = Some l' /\ holds l' es' /\ es' ≡ₚ es /\
    StronglySorted size_desc es'.
Proof.
  intros Hl. unfold sort_if_many. case_decide as Hc; [by apply sort_list_run|].
  exists l, es. split_and!; [done..|]. rewrite (holds_count _ _ Hl) in Hc.
  destruct es as [|e [|e' es]]; cbn [length] in Hc; [constructor|by repeat constructor|lia].
Qed.

(** ** Properties of the scan *)

(** Fewer than 2^31 processes. *)
Definition few_pids (P : procfs) : Prop :=
  forall names, p_opendir P (lit "/proc") = Some names -> (Z.of_nat (length names) < 2 ^ 31)%Z.

Lemma proc_pids_length names : length (proc_pids names) <= length names.
Proof.
  unfold proc_pids. rewrite length_fmap. induction names as [|x names IH]; cbn; [lia|].
  destruct (is_all_digits x); cbn; lia.
Qed.

Lemma gather_pids_few P pids : few_pids P -> gather_pids P = Some pids ->
  Forall (in_s 32) pids /\ (Z.of_nat (length pids) < 2 ^ 31)%Z /\
  exists names, p_opendir P (lit "/proc") = Some names /\ pids = proc_pids names.
Proof.
  intros Hf Hg. pose proof (gather_pids_run P) as H. rewrite Hg in H.
  destruct H as (names & Hd & ->). split; [apply proc_pids_range|]. split; [|eauto].
  pose proof (proc_pids_length names). specialize (Hf _ Hd). lia.
Qed.

Lemma gather_pids_fail P : gather_pids P = None -> scan_can_fail P.
Proof.
  intros Hg. pose proof (gather_pids_run P) as H. rewrite Hg in H.
  destruct H as [H|[n Hn]]; [by left|]. right. right. eauto.
Qed.

Lemma entries_ok_all P min_size uid_filter pids : procfs_ok P -> Forall (in_s 32) pids ->
  Forall (fun e => entry_ok e /\ (min_size <= e_size e)%Z /\ uid_selected uid_filter (e_uid e) /\
    is_virtual_target (e_path e) = false) (all_entries P min_size uid_filter pids).
Proof.
  intros HP. unfold all_entries. induction 1 as [|pid pids Hp _ IH]; [constructor|].
  rewrite bind_cons. apply Forall_app. split; [|done].
  eapply Forall_impl; [by apply pid_entries_ok|]. intros e (? & _ & ? & ? & ?). done.
Qed.

Lemma system_entries_ok P min_size only_pid uid_filter : procfs_ok P -> in_s 32 only_pid ->
  Forall (fun e => entry_ok e /\ (min_size <= e_size e)%Z /\ uid_selected uid_filter (e_uid e) /\
    is_virtual_target (e_path e) = false) (system_entries P min_size only_pid uid_filter).
Proof.
  intros HP Hp. unfold system_entries. case_decide.
  - eapply Forall_impl; [by apply pid_entries_ok|]. intros e (? & _ & ? & ? & ?). done.
  - destruct (p_opendir P (lit "/proc")) as [names|]; [|constructor].
    apply entries_ok_all; [done|apply proc_pids_range].
Qed.

Lemma hsed_scan_run {Q : Qsort} {QL : QsortLaws Q} P out min_size only_pid uid_filter num_threads :
  procfs_ok P -> few_pids P -> in_s 32 only_pid -> in_s 32 num_threads ->
  exists rc out', hsed_scan P out min_size only_pid uid_filter num_threads = Some (rc, out') /\
    (rc = 0%Z /\ (exists es, holds out' es /\
       es ≡ₚ system_entries P min_size only_pid uid_filter /\ StronglySorted size_desc es) \/
     rc = (-1)%Z /\ scan_can_fail P).
Proof.
  intros HP Hf Hp Ht. unfold hsed_scan, system_entries. case_decide as Ho.
  - destruct (scan_one_pid_run P (p_realloc P AtMerge) (ToList hsed_list_init) [] only_pid
      min_size uid_filter) as (rc & s & -> & Hk & Hd); [done|done|apply holds_init|done..|].
    rewrite some_bind. destruct s as [l|]; [|done].
    destruct Hd as [[-> Hh]|(-> & _ & n & Hn)].
    + rewrite decide_False by lia.
      destruct (sort_if_many_run l _ Hh) as (l' & es & -> & H1 & H2 & H3).
      eexists _, _. split; [done|]. left. eauto.
    + rewrite decide_True by lia. eexists _, _. split; [done|]. right. split; [done|].
      right. right. eauto.
  - destruct (gather_pids P) as [pids|] eqn:Eg.
    2: { eexists _, _. split; [done|]. right. split; [done|]. by apply gather_pids_fail. }
    apply gather_pids_few in Eg as (Hr & Hl & names & -> & ->); [|done].
    destruct (run_parallel_scan_run P (proc_pids names) min_size uid_filter num_threads false
      (ToList out)) as (rc & s & -> & Hk & Hd); try done.
    rewrite some_bind. destruct s as [l|]; [|done].
    destruct Hd as [[-> Hh]|(-> & Hfail & _)].
    + rewrite decide_False by lia.
      destruct (sort_if_many_run l _ Hh) as (l' & es & -> & H1 & H2 & H3).
      eexists _, _. split; [done|]. left. eauto.
    + rewrite decide_True by lia. eexists _, _. split; [done|]. by right.
Qed.

Lemma hsed_scan_stats_run P out min_size uid_filter num_threads :
  procfs_ok P -> few_pids P -> in_s 32 num_threads ->
  (sum_sizes (system_entries P min_size 0 uid_filter) < 2 ^ 63)%Z ->
  exists rc out', hsed_scan_stats P out min_size uid_filter num_threads = Some (rc, out') /\
    (rc = 0%Z /\ out' = mk_stats
       (u64 (Z.of_nat (length (system_entries P min_size 0 uid_filter))))
       (sum_sizes (system_entries P min_size 0 uid_filter)) \/
     rc = (-1)%Z /\ scan_can_fail P).
Proof.
  intros HP Hf Ht Hroom. unfold hsed_scan_stats, system_entries in *.
  rewrite (decide_False (P := (0 < 0)%Z)) in * by lia.
  destruct (gather_pids P) as [pids|] eqn:Eg.
  2: { eexists _, _. split; [done|]. right. split; [done|]. by apply gather_pids_fail. }
  apply gather_pids_few in Eg as (Hr & Hl & names & Hd & ->); [|done]. rewrite Hd in *.
  destruct (run_parallel_scan_run P (proc_pids names) min_size uid_filter num_threads true
    (ToStats out)) as (rc & s & -> & Hk & Ho); try done.
  rewrite some_bind. destruct s as [|st]; [done|]. eexists _, _. split; [done|].
  destruct Ho as [[-> ->]|(-> & Hfail & _)]; [by left|by right].
Qed.

(** C4: [hsed_scan] has no undefined behaviour and reports every open deleted
    file of the selected processes exactly once, largest first, each a well
    formed entry, whatever the number of threads; it fails only when memory
    runs out or [/proc] cannot be opened. *)
Theorem hsed_scan_correct {Q : Qsort} {QL : QsortLaws Q} (P : procfs) (out : hsed_list_t)
    (min_size only_pid uid_filter num_threads : Z) :
  procfs_ok P -> few_pids P -> in_s 32 only_pid -> in_s 32 num_threads ->
  exists rc out', hsed_scan P out min_size only_pid uid_filter num_threads = Some (rc, out') /\
    (rc = 0%Z /\ (exists es, holds out' es /\
       es ≡ₚ system_entries P min_size only_pid uid_filter /\
       StronglySorted size_desc es /\
       Forall (fun e => entry_ok e /\ (min_size <= e_size e)%Z /\
         uid_selected uid_filter (e_uid e) /\ is_virtual_target (e_path e) = false) es) \/
     rc = (-1)%Z /\ scan_can_fail P).
Proof.
  intros HP Hf Hp Ht.
  destruct (hsed_scan_run P out min_size only_pid uid_filter num_threads)
    as (rc & out' & -> & Ho); [done..|].
  exists rc, out'. split; [done|].
  destruct Ho as [[-> (es & H1 & H2 & H3)]|Ho]; [left|by right].
  split; [done|]. exists es. split_and!; [done..|]. rewrite H2. by apply system_entries_ok.
Qed.

Lemma shell_few_pids : few_pids shell_procfs.
Proof. intros names H. injection H as <-. vm_compute. reflexivity. Qed.

Lemma hsed_scan_correct_witness :
  exists rc out', hsed_scan shell_procfs hsed_list_init 1 0 HSED_UID_ANY 4 = Some (rc, out') /\
    (rc = 0%Z /\ (exists es, holds out' es /\
       es ≡ₚ system_entries shell_procfs 1 0 HSED_UID_ANY /\
       StronglySorted size_desc es /\
       Forall (fun e => entry_ok e /\ (1 <= e_size e)%Z /\
         uid_selected HSED_UID_ANY (e_uid e) /\ is_virtual_target (e_path e) = false) es) \/
     rc = (-1)%Z /\ scan_can_fail shell_procfs).
Proof.
  apply (hsed_scan_correct shell_procfs hsed_list_init 1 0 HSED_UID_ANY 4).
  - exact shell_procfs_ok.
  - exact shell_few_pids.
  - unfold in_s. lia.
  - unfold in_s. lia.
Defined.

(** C21: STATS agrees with SCAN: when both succeed on the same system, with any
    numbers of threads, the count and the total of [hsed_scan_stats] are the
    length and the sum of the sizes of the list of [hsed_scan]. *)
Theorem scan_stats_agree {Q : Qsort} {QL : QsortLaws Q} (P : procfs) (out out' : hsed_list_t)
    (st st' : hsed_stats_t) (min_size uid_filter nt1 nt2 : Z) :
  procfs_ok P -> few_pids P -> in_s 32 nt1 -> in_s 32 nt2 ->
  (sum_sizes (system_entries P min_size 0 uid_filter) < 2 ^ 63)%Z ->
  hsed_scan P out min_size 0 uid_filter nt1 = Some (0%Z, out') ->
  hsed_scan_stats P st min_size uid_filter nt2 = Some (0%Z, st') ->
  exists es, holds out' es /\ s_count st' = u64 (Z.of_nat (length es)) /\
    s_total st' = sum_sizes es.
Proof.
  intros HP Hf H1 H2 Hroom Hscan Hstats.
  destruct (hsed_scan_run P out min_size 0 uid_filter nt1) as (rc & l & Hl & Ho);
    [done|done|unfold in_s; lia|done|].
  rewrite Hscan in Hl. injection Hl as <- <-.
  destruct Ho as [[_ (es & Hh & Hperm & _)]|[? _]]; [|done].
  destruct (hsed_scan_stats_run P st min_size uid_filter nt2) as (rc & s & Hs & Ho); [done..|].
  rewrite Hstats in Hs. injection Hs as <- <-. destruct Ho as [[_ ->]|[? _]]; [|done].
  exists es. split; [done|]. cbn [s_count s_total]. split; [by rewrite Hperm|].
  by rewrite Hperm.
Qed.

Lemma scan_stats_agree_witness :
  exists es, s_count (mk_stats 1 4096) = u64 (Z.of_nat (length es)) /\
    s_total (mk_stats 1 4096) = sum_sizes es.
Proof.
  destruct (hsed_scan shell_procfs hsed_list_init 1 0 HSED_UID_ANY 4) as [[rc out]|] eqn:E;
    [|vm_compute in E; discriminate].
  assert (rc = 0%Z) as Hrc by (vm_compute in E; injection E; congruence). rewrite Hrc in E.
  destruct (scan_stats_agree shell_procfs hsed_list_init out (mk_stats 0 0) (mk_stats 1 4096)
    1 HSED_UID_ANY 4 2) as (es & _ & H1 & H2).
  - exact shell_procfs_ok.
  - exact shell_few_pids.
  - unfold in_s. lia.
  - unfold in_s. lia.
  - vm_compute. reflexivity.
  - exact E.
  - vm_compute. reflexivity.
  - exists es. split; assumption.
Defined.
