(* ===== verification/Threads.v ===== *)
(** * proc_scan.c, the threads of the scan

    The part of [run_parallel_scan] between the two loops over [pthread_create]
    and [pthread_join], as a step relation: the caller's position, and each
    worker not begun, at an index of its loop, or returned.  A step is one
    move of the caller or one turn of any running worker, so every
    interleaving of the threads is a sequence of steps.  Whatever the
    schedule, the run ends, and with the workers [run_workers] computes. *)

From stdpp Require Import relations.
From S2P Require Import Prelude CLib Kernel Util EntryList Protocol ProcRead ProcScan Parallel.

(** ** Definitions *)

Inductive thread :=
  | Fresh
  | Running (i : nat) (s : sink)
  | Returned (w : scan_worker_t).

(** Where the caller is: creating thread [i], running worker [i] inline
    because it could not be created, running worker 0, or joining [i]. *)
Inductive position :=
  | Create (i : nat)
  | Inline (i : nat)
  | Own
  | Join (i : nat).

Record config := mk_config { position_of : position; threads : list thread }.

Section steps.
Context (P : procfs) (ws : list scan_worker_t).

Definition begin (w : scan_worker_t) : thread := Running 0 (worker_start w).

Inductive step : config -> config -> Prop :=
  | step_create i w ths :
      ws !! i = Some w -> p_spawn P i = true ->
      step (mk_config (Create i) ths) (mk_config (Create (S i)) (<[i := begin w]> ths))
  | step_inline i w ths :
      ws !! i = Some w -> p_spawn P i = false ->
      step (mk_config (Create i) ths) (mk_config (Inline i) (<[i := begin w]> ths))
  | step_inline_end i w' ths :
      ths !! i = Some (Returned w') ->
      step (mk_config (Inline i) ths) (mk_config (Create (S i)) ths)
  | step_own w ths :
      ws !! 0 = Some w ->
      step (mk_config (Create (length ws)) ths) (mk_config Own (<[0 := begin w]> ths))
  | step_own_end w' ths :
      ths !! 0 = Some (Returned w') ->
      step (mk_config Own ths) (mk_config (Join 1) ths)
  | step_join i ths :
      i < length ws ->
      (p_spawn P i = true -> exists w', ths !! i = Some (Returned w')) ->
      step (mk_config (Join i) ths) (mk_config (Join (S i)) ths)
  | step_turn pos i w k s rc s' ths :
      ws !! i = Some w -> ths !! i = Some (Running k s) -> k < w_count w ->
      worker_turn P i w k s = Some (rc, s') ->
      step (mk_config pos ths)
        (mk_config pos (<[i := if decide (rc <> 0)%Z then Returned (with_result w true s')
                               else Running (S k) s']> ths))
  | step_return pos i w k s ths :
      ws !! i = Some w -> ths !! i = Some (Running k s) -> w_count w <= k ->
      step (mk_config pos ths)
        (mk_config pos (<[i := Returned (with_result w (w_failed w) s)]> ths)).

Definition initial : config := mk_config (Create 1) (replicate (length ws) Fresh).
Definition finished (c : config) : Prop := position_of c = Join (length ws).

(** ** The invariant *)

(** The threads the caller knows to have begun, and to have returned. *)
Definition begun (pos : position) (i : nat) : Prop :=
  match pos with
  | Create j => 1 <= i < j
  | Inline j => 1 <= i <= j
  | Own | Join _ => True
  end.

Definition ended (pos : position) (i : nat) : Prop :=
  match pos with
  | Create j | Inline j => 1 <= i < j /\ p_spawn P i = false
  | Own => 1 <= i /\ p_spawn P i = false
  | Join j => i = 0 \/ i < j \/ p_spawn P i = false
  end.

Definition in_range (pos : position) : Prop :=
  match pos with
  | Create j | Join j => 1 <= j <= length ws
  | Inline j => 1 <= j < length ws
  | Own => True
  end.

(** A worker is on its way to the result of [scan_worker_fn]. *)
Definition on_track (i : nat) (w : scan_worker_t) (t : thread) : Prop :=
  match t with
  | Fresh => True
  | Running k s => k <= w_count w /\
      worker_loop P i w (w_count w - k) k s = scan_worker_fn P i w
  | Returned w' => scan_worker_fn P i w = Some w'
  end.

Definition thread_ok (pos : position) (i : nat) (t : thread) : Prop :=
  match t with
  | Fresh => ~ begun pos i
  | Running _ _ => begun pos i /\ ~ ended pos i
  | Returned _ => begun pos i
  end.

Record inv (c : config) : Prop := {
  inv_length : length (threads c) = length ws;
  inv_range : in_range (position_of c);
  inv_thread i w t : ws !! i = Some w -> threads c !! i = Some t ->
    on_track i w t /\ thread_ok (position_of c) i t }.

(** Facts about positions: split everything, then arithmetic, then the one
    negated fact. *)
Ltac positions :=
  repeat match goal with
  | H : _ /\ _ |- _ => destruct H
  | H : _ \/ _ |- _ => destruct H
  | |- _ /\ _ => split
  | |- ~ _ => intro
  end; subst; try lia; try congruence;
  match goal with
  | H : ~ _ |- False => apply H; first [split; [lia|done] | lia | left; lia | right; left; lia | tauto]
  end.

Lemma begin_on_track i w : on_track i w (begin w).
Proof. cbn. split; [lia|]. by rewrite Nat.sub_0_r. Qed.

Lemma turn_on_track i w k s rc s' : k < w_count w ->
  worker_turn P i w k s = Some (rc, s') -> on_track i w (Running k s) ->
  on_track i w (if decide (rc <> 0)%Z then Returned (with_result w true s') else Running (S k) s').
Proof.
  intros Hk Ht [_ Hr]. destruct (w_count w - k) as [|n] eqn:En; [lia|].
  cbn [worker_loop] in Hr. rewrite Ht, some_bind in Hr.
  case_decide; [done|]. split; [lia|]. by replace (w_count w - S k) with n by lia.
Qed.

Lemma return_on_track i w k s : w_count w <= k -> on_track i w (Running k s) ->
  on_track i w (Returned (with_result w (w_failed w) s)).
Proof. intros Hk [Hk' Hr]. by replace (w_count w - k) with 0 in Hr by lia. Qed.

(** Updating one thread and the position of a configuration. *)
Lemma inv_update pos ths pos' i w t : inv (mk_config pos ths) ->
  ws !! i = Some w -> in_range pos' -> on_track i w t -> thread_ok pos' i t ->
  (forall j t', j <> i -> j < length ws -> thread_ok pos j t' -> thread_ok pos' j t') ->
  inv (mk_config pos' (<[i := t]> ths)).
Proof.
  intros [Hl _ Ht] Hi Hr Ho Hok Hothers. split; cbn [threads position_of] in *.
  - by rewrite length_insert.
  - done.
  - intros j w' t' Hw Hj. apply list_lookup_insert_Some in Hj as [(-> & -> & _)|[Hne Hj]].
    + by simplify_eq.
    + destruct (Ht j w' t' Hw Hj). split; [done|]. apply Hothers; [done| |done].
      by apply lookup_lt_Some in Hw.
Qed.

Lemma inv_move pos ths pos' : inv (mk_config pos ths) -> in_range pos' ->
  (forall j t, ths !! j = Some t -> j < length ws -> thread_ok pos j t -> thread_ok pos' j t) ->
  inv (mk_config pos' ths).
Proof.
  intros [Hl _ Ht] Hr Hothers. split; cbn [threads position_of] in *; [done|done|].
  intros j w' t' Hw Hj. destruct (Ht j w' t' Hw Hj). split; [done|].
  apply (Hothers j t'); [done| |done]. by apply lookup_lt_Some in Hw.
Qed.

Lemma inv_initial : 0 < length ws -> inv initial.
Proof.
  intros Hn. split; cbn; [apply length_replicate|lia|].
  intros i w t _ Ht. apply lookup_replicate_1 in Ht as [-> _]. cbn. split; [done|]. lia.
Qed.

Lemma inv_step c c' : step c c' -> inv c -> inv c'.
Proof.
  intros Hs Hinv. pose proof (inv_range c Hinv) as Hr.
  destruct Hs as [i w ths Hw Hsp|i w ths Hw Hsp|i w' ths Hret|w ths Hw|w' ths Hret
    |i ths Hi Hj|pos i w k s rc s' ths Hw Ht Hk Hturn|pos i w k s ths Hw Ht Hk];
    cbn [position_of threads in_range] in Hr.
  - pose proof (lookup_lt_Some _ _ _ Hw). eapply inv_update; try done.
    + cbn. lia.
    + apply begin_on_track.
    + cbn. split; [lia|]. intros [? ?]. congruence.
    + intros j [] ? ?; cbn; intros; try lia. positions.
  - pose proof (lookup_lt_Some _ _ _ Hw). eapply inv_update; try done.
    + cbn. lia.
    + apply begin_on_track.
    + cbn. split; [lia|]. lia.
    + intros j [] ? ?; cbn; intros; try lia. positions.
  - eapply inv_move; [done|cbn; lia|]. intros j t Ht Hj.
    destruct t; cbn; intros; try lia. split; [lia|].
    intros [? ?]. assert (j <> i) by congruence. positions.
  - eapply inv_update; try done.
    + apply begin_on_track.
    + cbn. split; [done|lia].
    + intros j [] ? ?; cbn; intros; try lia; try done. split; [done|]. positions.
  - eapply inv_move; [done|cbn|].
    { pose proof (inv_length _ Hinv) as Hl. cbn in Hl.
      apply lookup_lt_Some in Hret. lia. }
    intros j t Ht Hj. destruct t; cbn; intros; try done. split; [done|].
    assert (j <> 0) by congruence. positions.
  - eapply inv_move; [done|cbn; lia|]. intros j t Ht Hj'.
    destruct t; cbn; intros; try done. split; [done|].
    destruct (decide (j = i)) as [->|]; [|positions].
    destruct (p_spawn P i) eqn:Es; [|positions].
    destruct (Hj eq_refl) as (w' & Hw'). congruence.
  - destruct (inv_thread _ Hinv i w _ Hw Ht) as [Ho [Hb He]].
    eapply inv_update; try done; [by eapply turn_on_track|]. by case_decide.
  - destruct (inv_thread _ Hinv i w _ Hw Ht) as [Ho [Hb He]].
    eapply inv_update; try done. by eapply return_on_track.
Qed.

Lemma inv_reachable c : 0 < length ws -> rtc step initial c -> inv c.
Proof.
  intros Hn Hr. assert (inv initial) as Hi by (by apply inv_initial).
  induction Hr as [|c1 c2 c3 Hs _ IH]; [done|]. apply IH. by eapply inv_step.
Qed.

(** ** Progress *)

Lemma running_progress pos ths i w k s w' :
  ws !! i = Some w -> ths !! i = Some (Running k s) ->
  on_track i w (Running k s) -> scan_worker_fn P i w = Some w' ->
  exists c', step (mk_config pos ths) c'.
Proof.
  intros Hw Ht [Hk Hr] Hf. destruct (decide (k < w_count w)).
  - destruct (w_count w - k) as [|n] eqn:En; [lia|]. cbn [worker_loop] in Hr.
    rewrite Hf in Hr. destruct (worker_turn P i w k s) as [[rc s']|] eqn:Et; [|done].
    eexists. by eapply step_turn.
  - eexists. eapply step_return; try done. lia.
Qed.

(** A thread that has begun runs or has returned. *)
Lemma begun_cases c i w : inv c -> ws !! i = Some w -> begun (position_of c) i ->
  (exists k s, threads c !! i = Some (Running k s) /\ on_track i w (Running k s)) \/
  (exists w', threads c !! i = Some (Returned w')).
Proof.
  intros Hinv Hw Hb. destruct (lookup_lt_is_Some_2 (threads c) i) as [t Ht].
  { rewrite (inv_length _ Hinv). by eapply lookup_lt_Some. }
  destruct (inv_thread _ Hinv i w t Hw Ht) as [Ho Hok]. destruct t; [done| |]; eauto 10.
Qed.

Lemma inv_progress c : 0 < length ws -> inv c ->
  (forall i w, ws !! i = Some w -> exists w', scan_worker_fn P i w = Some w') ->
  ~ finished c -> exists c', step c c'.
Proof.
  intros Hn Hinv Hfn Hnf. pose proof (inv_range _ Hinv) as Hr.
  assert (forall i, i < length ws -> begun (position_of c) i ->
    (exists w', threads c !! i = Some (Returned w')) \/ exists c', step c c') as Hrun.
  { intros i Hi Hb. destruct (lookup_lt_is_Some_2 ws i Hi) as [w Hw].
    destruct (begun_cases c i w Hinv Hw Hb) as [(k & s & Ht & Ho)|]; [right|by left].
    destruct (Hfn i w Hw) as [w' Hw']. destruct c as [pos ths]. by eapply running_progress. }
  destruct c as [[i|i| |i] ths]; cbn in *.
  - destruct (decide (i = length ws)) as [->|].
    + destruct (lookup_lt_is_Some_2 ws 0 Hn) as [w Hw]. eexists. by eapply step_own.
    + destruct (lookup_lt_is_Some_2 ws i) as [w Hw]; [lia|].
      destruct (p_spawn P i) eqn:Es; eexists; [by eapply step_create|by eapply step_inline].
  - destruct (Hrun i) as [[w' Hw']|]; [lia..| |done]. eexists. by eapply step_inline_end.
  - destruct (Hrun 0) as [[w' Hw']|]; [lia|done| |done]. eexists. by eapply step_own_end.
  - assert (i <> length ws) by (intros ->; by apply Hnf).
    destruct (Hrun i) as [[w' Hw']|]; [lia|done| |done]. eexists. apply step_join; [lia|]. eauto.
Qed.

(** ** Termination *)

Definition thread_measure (w : scan_worker_t) (t : thread) : nat :=
  match t with
  | Fresh => w_count w + 2
  | Running k _ => w_count w - k + 1
  | Returned _ => 0
  end.

Definition position_measure (pos : position) : nat :=
  match pos with
  | Create i => 2 * (length ws - i) + length ws + 3
  | Inline i => 2 * (length ws - i) + length ws + 2
  | Own => length ws + 1
  | Join i => length ws - i
  end.

Definition measure (c : config) : nat :=
  position_measure (position_of c) + sum_list (zip_with thread_measure ws (threads c)).

Lemma sum_list_zip_insert l : forall ths i w t t', l !! i = Some w -> ths !! i = Some t ->
  sum_list (zip_with thread_measure l (<[i := t']> ths)) + thread_measure w t
  = sum_list (zip_with thread_measure l ths) + thread_measure w t'.
Proof.
  induction l as [|w0 l IH]; intros ths i w t t' Hw Ht; [done|].
  destruct ths as [|t0 ths]; [done|]. destruct i as [|i]; simplify_eq/=; [lia|].
  specialize (IH ths i w t t' Hw Ht). lia.
Qed.

Lemma measure_step c c' : inv c -> step c c' -> measure c' < measure c.
Proof.
  intros Hinv Hs. pose proof (inv_range _ Hinv) as Hr. pose proof (inv_length _ Hinv) as Hl.
  assert (forall i w, ws !! i = Some w -> ~ begun (position_of c) i ->
    threads c !! i = Some Fresh) as Hfresh.
  { intros i w Hw Hb. destruct (lookup_lt_is_Some_2 (threads c) i) as [t Ht].
    { rewrite Hl. by eapply lookup_lt_Some. }
    destruct (inv_thread _ Hinv i w t Hw Ht) as [_ Hok]. destruct t; [done|cbn in *; tauto..]. }
  unfold measure.
  destruct Hs as [i w ths Hw Hsp|i w ths Hw Hsp|i w' ths Hret|w ths Hw|w' ths Hret
    |i ths Hi Hj|pos i w k s rc s' ths Hw Ht Hk Hturn|pos i w k s ths Hw Ht Hk];
    cbn [position_of threads in_range position_measure] in *.
  - specialize (Hfresh i w Hw ltac:(cbn; lia)). apply lookup_lt_Some in Hw as Hi.
    pose proof (sum_list_zip_insert ws ths i w Fresh (begin w) Hw Hfresh) as E. cbn in E. lia.
  - specialize (Hfresh i w Hw ltac:(cbn; lia)). apply lookup_lt_Some in Hw as Hi.
    pose proof (sum_list_zip_insert ws ths i w Fresh (begin w) Hw Hfresh) as E. cbn in E. lia.
  - lia.
  - specialize (Hfresh 0 w Hw ltac:(cbn; lia)).
    pose proof (sum_list_zip_insert ws ths 0 w Fresh (begin w) Hw Hfresh) as E. cbn in E. lia.
  - lia.
  - lia.
  - pose proof (sum_list_zip_insert ws ths i w _
      (if decide (rc <> 0)%Z then Returned (with_result w true s') else Running (S k) s') Hw Ht) as E.
    case_decide; cbn [thread_measure] in E; lia.
  - pose proof (sum_list_zip_insert ws ths i w _
      (Returned (with_result w (w_failed w) s)) Hw Ht) as E. cbn [thread_measure] in E. lia.
Qed.

Lemma inv_terminates c : inv c -> Acc (flip step) c.
Proof.
  remember (measure c) as n eqn:En. revert c En.
  induction (lt_wf n) as [n _ IH]. intros c -> Hinv. constructor. intros c' Hs.
  cbn in Hs. eapply IH; [|done|by eapply inv_step]. by apply measure_step.
Qed.
End steps.

(** ** The result *)

Lemma run_workers_lookup P ws ws' : forall id, run_workers P id ws = Some ws' ->
  length ws' = length ws /\
  forall i w, ws !! i = Some w ->
    exists w', ws' !! i = Some w' /\ scan_worker_fn P (id + i) w = Some w'.
Proof.
  revert ws'. induction ws as [|w ws IH]; intros ws' id H; cbn [run_workers] in H; [by simplify_eq|].
  destruct (scan_worker_fn P id w) as [w'|] eqn:Ew; [|done]. rewrite some_bind in H.
  destruct (run_workers P (S id) ws) as [ws''|] eqn:Es; [|done]. rewrite some_bind in H.
  injection H as <-. destruct (IH ws'' (S id) Es) as [Hl Hall]. split; [cbn; lia|].
  intros [|i] w0 Hw; simplify_eq/=.
  - exists w'. by rewrite Nat.add_0_r.
  - destruct (Hall i w0 Hw) as (w1 & ? & ?). exists w1. by rewrite Nat.add_succ_r.
Qed.

(** C8: However the scheduler interleaves the turns of the workers and the moves
    of the caller, and whichever threads could be created: no reachable
    configuration is stuck before the last join, every run ends, and when it
    ends the workers hold exactly what running them one after another gives. *)
Theorem schedule_independent (P : procfs) (ws ws' : list scan_worker_t) (c : config) :
  0 < length ws -> run_workers P 0 ws = Some ws' -> rtc (step P ws) (initial ws) c ->
  Acc (flip (step P ws)) c /\
  (~ finished ws c -> exists c', step P ws c c') /\
  (finished ws c -> threads c = Returned <$> ws').
Proof.
  intros Hn Hrun Hreach. pose proof (inv_reachable P ws c Hn Hreach) as Hinv.
  destruct (run_workers_lookup P ws ws' 0 Hrun) as [Hlen Hall]. cbn [Nat.add] in Hall.
  split_and!.
  - by eapply inv_terminates.
  - apply (inv_progress P ws c Hn Hinv). intros i w Hw.
    destruct (Hall i w Hw) as (w' & _ & ?). eauto.
  - intros Hf. apply list_eq. intros i. rewrite list_lookup_fmap.
    destruct (ws !! i) as [w|] eqn:Hw.
    + destruct (Hall i w Hw) as (w' & -> & Hw'). cbn.
      apply lookup_lt_Some in Hw as Hi.
      destruct (lookup_lt_is_Some_2 (threads c) i) as [t Ht]; [by rewrite (inv_length _ _ _ Hinv)|].
      destruct (inv_thread _ _ _ Hinv i w t Hw Ht) as [Ho Hok]. rewrite Ht. rewrite Hf in Hok.
      destruct t as [|k s|w'']; cbn in Hok; [by destruct Hok| |].
      * destruct Hok as [_ []]. lia.
      * cbn in Ho. congruence.
    + apply lookup_ge_None in Hw. rewrite !lookup_ge_None_2; [done|lia|].
      rewrite (inv_length _ _ _ Hinv). lia.
Qed.

(** Two workers on the one process of the example. *)
Definition two_workers : list scan_worker_t :=
  make_workers [7%Z; 8%Z] 1 HSED_UID_ANY false 1 0 2 0 0.

Lemma schedule_independent_witness :
  exists ws', run_workers shell_procfs 0 two_workers = Some ws' /\
    Acc (flip (step shell_procfs two_workers)) (initial two_workers) /\
    (~ finished two_workers (initial two_workers) ->
     exists c', step shell_procfs two_workers (initial two_workers) c') /\
    (finished two_workers (initial two_workers) ->
     threads (initial two_workers) = Returned <$> ws').
Proof.
  destruct (run_workers shell_procfs 0 two_workers) as [ws'|] eqn:E.
  - exists ws'. split; [reflexivity|].
    apply (schedule_independent shell_procfs two_workers ws' (initial two_workers)).
    + vm_compute. lia.
    + exact E.
    + apply rtc_refl.
  - exfalso. vm_compute in E. discriminate.
Defined.
