(* ===== verification/Reclaim.v ===== *)
(** * reclaim.c

    Truncating an open deleted file through its /proc link, and sending a
    signal: the only two operations of the daemon that change another
    process. *)

From S2P Require Import Prelude CLib Kernel Util ProcRead ProcScan.

Definition O_WRONLY : Z := 1.

Section reclaim.
Context {K : Kernel}.

(** The return value, and what [*freed_out] and [errbuf] hold afterwards. *)
Definition hsed_truncate_fd (pid fd freed : Z) (errbuf : buf) (errlen : nat)
    : prog (Z * Z * buf) :=
  fd_path ← pure (sformat 64 (lit "/proc/%d/fd/%d") [AInt pid; AInt fd]);
  r ← syscall (CStat fd_path);
  match r with
  | RErr errno =>
      '(errbuf, _) ← pure (snprintf errbuf errlen (lit "could not stat %s: %s")
                             [AStr fd_path; AStr (strerror errno)]);
      mret ((-1)%Z, freed, errbuf)
  | ROk st =>
      r ← syscall (COpen fd_path O_WRONLY);
      match r with
      | RErr errno =>
          '(errbuf, _) ← pure (snprintf errbuf errlen
             (lit "could not open %s for writing: %s (need root or the file owner's permission)")
             [AStr fd_path; AStr (strerror errno)]);
          mret ((-1)%Z, freed, errbuf)
      | ROk raw_fd =>
          r ← syscall (CFtruncate raw_fd 0);
          match r with
          | RErr errno =>
              '(errbuf, _) ← pure (snprintf errbuf errlen (lit "ftruncate failed on %s: %s")
                                     [AStr fd_path; AStr (strerror errno)]);
              _ ← syscall (CClose raw_fd);
              mret ((-1)%Z, freed, errbuf)
          | ROk _ =>
              _ ← syscall (CClose raw_fd);
              mret (0%Z, st_size st, errbuf)
          end
      end
  end.

Definition hsed_send_signal (pid sig : Z) (errbuf : buf) (errlen : nat) : prog (Z * buf) :=
  r ← syscall (CKill pid sig);
  match r with
  | RErr errno =>
      '(errbuf, _) ← pure (snprintf errbuf errlen (lit "kill(%d, %d) failed: %s")
                             [AInt pid; AInt sig; AStr (strerror errno)]);
      mret ((-1)%Z, errbuf)
  | ROk _ => mret (0%Z, errbuf)
  end.

(** ** Lemmas *)

Definition proc_fd (pid fd : Z) : bytes := lit "/proc/" ++ print_d pid ++ lit "/fd/" ++ print_d fd.

Lemma format_proc_fd pid fd : format (lit "/proc/%d/fd/%d") [AInt pid; AInt fd]
  = Some (proc_fd pid fd).
Proof.
  transitivity (Some (lit "/proc/" ++ print_d pid ++ lit "/fd/" ++ print_d fd ++ []));
    [format_now|by rewrite app_nil_r].
Qed.

Lemma proc_fd_no_nul pid fd : no_nul (proc_fd pid fd).
Proof.
  unfold proc_fd. rewrite !Forall_app.
  split_and!; (by apply lit_no_nul) || apply print_d_no_nul.
Qed.

Lemma sformat_proc_fd pid fd : in_s 32 pid -> in_s 32 fd ->
  sformat 64 (lit "/proc/%d/fd/%d") [AInt pid; AInt fd] = Some (proc_fd pid fd).
Proof.
  intros Hp Hf. apply sformat_fits; [apply format_proc_fd|apply proc_fd_no_nul|].
  apply print_pid_length in Hp, Hf. unfold proc_fd. rewrite !length_app, !length_lit. cbn. lia.
Qed.

(** The message left in [errbuf]. *)
Definition message (errbuf : buf) (errlen : nat) (msg : bytes) (errbuf' : buf) : Prop :=
  length errbuf' = length errbuf /\ cstr errbuf' = Some (nulcut (take (errlen - 1) msg)).

Lemma snprintf_message errbuf errlen fmt args msg : format fmt args = Some msg ->
  0 < errlen <= length errbuf ->
  exists errbuf', snprintf errbuf errlen fmt args = Some (errbuf', length msg) /\
    message errbuf errlen msg errbuf'.
Proof.
  intros Hf Hl. rewrite (snprintf_start _ _ _ _ msg Hf Hl). eexists. split; [done|]. split.
  - rewrite length_app, length_fmap, length_app, length_drop. cbn [length].
    rewrite length_take. lia.
  - apply cstr_terminated.
Qed.

(** The text of each failure. *)
Definition stat_failed (pid fd errno : Z) : bytes :=
  lit "could not stat " ++ proc_fd pid fd ++ lit ": " ++ strerror errno.
Definition open_failed (pid fd errno : Z) : bytes :=
  lit "could not open " ++ proc_fd pid fd ++ lit " for writing: " ++ strerror errno
  ++ lit " (need root or the file owner's permission)".
Definition ftruncate_failed (pid fd errno : Z) : bytes :=
  lit "ftruncate failed on " ++ proc_fd pid fd ++ lit ": " ++ strerror errno.
Definition kill_failed (pid sig errno : Z) : bytes :=
  lit "kill(" ++ print_d pid ++ lit ", " ++ print_d sig ++ lit ") failed: " ++ strerror errno.

Lemma format_stat_failed pid fd e :
  format (lit "could not stat %s: %s") [AStr (proc_fd pid fd); AStr (strerror e)]
  = Some (stat_failed pid fd e).
Proof. unfold stat_failed. format_tail. Qed.

Lemma format_open_failed pid fd e :
  format (lit "could not open %s for writing: %s (need root or the file owner's permission)")
    [AStr (proc_fd pid fd); AStr (strerror e)] = Some (open_failed pid fd e).
Proof. unfold open_failed. format_now. Qed.

Lemma format_ftruncate_failed pid fd e :
  format (lit "ftruncate failed on %s: %s") [AStr (proc_fd pid fd); AStr (strerror e)]
  = Some (ftruncate_failed pid fd e).
Proof. unfold ftruncate_failed. format_tail. Qed.

Lemma format_kill_failed pid sig e :
  format (lit "kill(%d, %d) failed: %s") [AInt pid; AInt sig; AStr (strerror e)]
  = Some (kill_failed pid sig e).
Proof. unfold kill_failed. format_tail. Qed.

(** What a call of [hsed_truncate_fd] does, in each of its four outcomes. *)
Inductive truncated (pid fd freed : Z) (errbuf : buf) (errlen : nat)
    : Z * Z * buf -> list event -> Prop :=
  | truncated_ok st raw :
      truncated pid fd freed errbuf errlen (0%Z, st_size st, errbuf)
        [Ev (CStat (proc_fd pid fd)) (ROk st); Ev (COpen (proc_fd pid fd) O_WRONLY) (ROk raw);
         Ev (CFtruncate raw 0) (ROk tt); Ev (CClose raw) tt]
  | truncated_no_stat e errbuf' :
      message errbuf errlen (stat_failed pid fd e) errbuf' ->
      truncated pid fd freed errbuf errlen ((-1)%Z, freed, errbuf')
        [Ev (CStat (proc_fd pid fd)) (RErr e)]
  | truncated_no_open st e errbuf' :
      message errbuf errlen (open_failed pid fd e) errbuf' ->
      truncated pid fd freed errbuf errlen ((-1)%Z, freed, errbuf')
        [Ev (CStat (proc_fd pid fd)) (ROk st); Ev (COpen (proc_fd pid fd) O_WRONLY) (RErr e)]
  | truncated_failed st raw e errbuf' :
      message errbuf errlen (ftruncate_failed pid fd e) errbuf' ->
      truncated pid fd freed errbuf errlen ((-1)%Z, freed, errbuf')
        [Ev (CStat (proc_fd pid fd)) (ROk st); Ev (COpen (proc_fd pid fd) O_WRONLY) (ROk raw);
         Ev (CFtruncate raw 0) (RErr e); Ev (CClose raw) tt].

Lemma truncate_fd_run pid fd freed errbuf errlen h I :
  in_s 32 pid -> in_s 32 fd -> 0 < errlen <= length errbuf ->
  wp (hsed_truncate_fd pid fd freed errbuf errlen) h I (truncated pid fd freed errbuf errlen).
Proof.
  intros Hp Hf Hl. unfold hsed_truncate_fd.
  eapply wp_pure_bind; [by apply sformat_proc_fd|].
  apply wp_call_bind. intros [st|e] _.
  2: { destruct (snprintf_message errbuf errlen _ _ _ (format_stat_failed pid fd e) Hl)
         as (b & Hb & Hm). eapply wp_pure_bind; [exact Hb|]. apply wp_ret. by constructor. }
  apply wp_call_bind. intros [raw|e] _.
  2: { destruct (snprintf_message errbuf errlen _ _ _ (format_open_failed pid fd e) Hl)
         as (b & Hb & Hm). eapply wp_pure_bind; [exact Hb|]. apply wp_ret. by constructor. }
  apply wp_call_bind. intros [[]|e] _.
  - apply wp_call_bind. intros [] _. apply wp_ret. constructor.
  - destruct (snprintf_message errbuf errlen _ _ _ (format_ftruncate_failed pid fd e) Hl)
      as (b & Hb & Hm). eapply wp_pure_bind; [exact Hb|].
    apply wp_call_bind. intros [] _. apply wp_ret. by constructor.
Qed.

Inductive signalled (pid sig : Z) (errbuf : buf) (errlen : nat)
    : Z * buf -> list event -> Prop :=
  | signalled_ok : signalled pid sig errbuf errlen (0%Z, errbuf) [Ev (CKill pid sig) (ROk tt)]
  | signalled_failed e errbuf' :
      message errbuf errlen (kill_failed pid sig e) errbuf' ->
      signalled pid sig errbuf errlen ((-1)%Z, errbuf') [Ev (CKill pid sig) (RErr e)].

Lemma send_signal_run pid sig errbuf errlen h I :
  0 < errlen <= length errbuf ->
  wp (hsed_send_signal pid sig errbuf errlen) h I (signalled pid sig errbuf errlen).
Proof.
  intros Hl. unfold hsed_send_signal. apply wp_call_bind. intros [[]|e] _.
  - apply wp_ret. constructor.
  - destruct (snprintf_message errbuf errlen _ _ _ (format_kill_failed pid sig e) Hl)
      as (b & Hb & Hm). eapply wp_pure_bind; [exact Hb|]. apply wp_ret. by constructor.
Qed.
End reclaim.

(** ** Properties *)

(** The descriptors a run opened, and those it closed. *)
Definition opened_by (e : event) : list Z :=
  match e with
  | Ev c r =>
      match c in call R return R -> list Z with
      | COpen _ _ => fun r => match r with ROk fd => [fd] | RErr _ => [] end
      | _ => fun _ => []
      end r
  end.

Definition closed_by (e : event) : list Z :=
  match e with
  | Ev c r => match c in call R return R -> list Z with CClose fd => fun _ => [fd] | _ => fun _ => [] end r
  end.

Definition opened (evs : list event) : list Z := evs ≫= opened_by.
Definition closed (evs : list event) : list Z := evs ≫= closed_by.

(** Whether a run truncated a file to zero length. *)
Definition emptied_by (e : event) : list Z :=
  match e with
  | Ev c r =>
      match c in call R return R -> list Z with
      | CFtruncate fd len =>
          fun r => match r with ROk _ => if decide (len = 0)%Z then [fd] else [] | RErr _ => [] end
      | _ => fun _ => []
      end r
  end.
Definition emptied (evs : list event) : list Z := evs ≫= emptied_by.

(** C17: On every kernel, [hsed_truncate_fd] touches only the /proc link of the
    descriptor it was given: it either empties that file and returns its
    former size, or empties nothing, leaves the size alone and a message that
    says which call failed and why; and it closes every descriptor it opened. *)
Theorem truncate_fd_correct {K : Kernel} (pid fd freed : Z) (errbuf : buf) (errlen : nat)
    (h : hist) (I : list event -> Prop) :
  in_s 32 pid -> in_s 32 fd -> 0 < errlen <= length errbuf ->
  wp (hsed_truncate_fd pid fd freed errbuf errlen) h I (fun '(rc, freed', errbuf') evs =>
    truncated pid fd freed errbuf errlen (rc, freed', errbuf') evs /\
    closed evs = opened evs /\
    (rc = 0%Z /\ length (emptied evs) = 1 /\ emptied evs = opened evs /\
       (exists st, head evs = Some (Ev (CStat (proc_fd pid fd)) (ROk st)) /\
                   freed' = st_size st) \/
     rc = (-1)%Z /\ emptied evs = [] /\ freed' = freed)).
Proof.
  intros Hp Hf Hl. eapply wp_conseq; [by apply truncate_fd_run|done|].
  intros [[rc freed'] errbuf'] evs Ht. split; [done|].
  inversion Ht; subst; (split; [done|]).
  - left. split_and!; eauto.
  - by right.
  - by right.
  - by right.
Qed.

Definition file_kernel : Kernel := {|
  answer R c h :=
    match c in call R return R with
    | CStat _ => ROk {| st_dev := 5; st_ino := 9; st_uid := 0; st_size := 4096; st_mtime := 1 |}
    | c => quiet c
    end;
  strerror _ := lit "error" |}.

Lemma truncate_fd_correct_witness :
  fst (@hsed_truncate_fd file_kernel 7 3 0 (alloca 256) 256 [])
    = Done (0%Z, 4096%Z, alloca 256) /\
  wp (@hsed_truncate_fd file_kernel 7 3 0 (alloca 256) 256) [] (fun _ => False)
    (fun '(rc, freed', errbuf') evs =>
      @truncated file_kernel 7 3 0 (alloca 256) 256 (rc, freed', errbuf') evs /\
      closed evs = opened evs /\
      (rc = 0%Z /\ length (emptied evs) = 1 /\ emptied evs = opened evs /\
         (exists st, head evs = Some (Ev (CStat (proc_fd 7 3)) (ROk st)) /\
                     freed' = st_size st) \/
       rc = (-1)%Z /\ emptied evs = [] /\ freed' = 0%Z)).
Proof.
  split; [vm_compute; reflexivity|].
  apply (@truncate_fd_correct file_kernel 7 3 0 (alloca 256) 256).
  - unfold in_s. lia.
  - unfold in_s. lia.
  - rewrite length_alloca. lia.
Defined.
