(* ===== verification/Tids.v ===== *)
(** * tracer.c, the table of traced threads

    The unordered array [tids] of a tracing session with its lookup, insertion
    and swap-with-last removal, refined to a finite map from thread ids to
    their state. *)

From stdpp Require Import gmap.
From S2P Require Import Prelude.

Definition MAX_TRACKED_TIDS : nat := 512.

Record tid_state_t := mk_tid {
  t_tid : Z;
  t_in_syscall : bool;
  t_capturing : bool;
  t_pending_is_writev : bool;
  t_pending_buf_addr : Z;
  t_pending_iovcnt : Z }.

(** ** Operations

    The array is the list of its first [*ntids] cells. *)

Fixpoint find_tid (tids : list tid_state_t) (tid : Z) (i : nat) : option nat :=
  match tids with
  | [] => None
  | t :: tids => if decide (t_tid t = tid) then Some i else find_tid tids tid (S i)
  end.

(** [memset(t, 0, sizeof( *t)); t->tid = tid;] *)
Definition new_tid (tid : Z) : tid_state_t := mk_tid tid false false false 0 0.

(** The index the returned pointer designates, [*was_new] and the table. *)
Definition find_or_add_tid (tids : list tid_state_t) (tid : Z)
    : option nat * bool * list tid_state_t :=
  match find_tid tids tid 0 with
  | Some i => (Some i, false, tids)
  | None =>
      if decide (MAX_TRACKED_TIDS <= length tids) then (None, false, tids)
      else (Some (length tids), true, tids ++ [new_tid tid])
  end.

(** [tids[i] = tids[*ntids - 1]; ( *ntids)--;] *)
Definition remove_tid (tids : list tid_state_t) (tid : Z) : list tid_state_t :=
  match find_tid tids tid 0, last tids with
  | Some i, Some t => take (length tids - 1) (<[i := t]> tids)
  | _, _ => tids
  end.

(** Writing through the pointer into the table. *)
Definition set_tid (tids : list tid_state_t) (i : nat) (t : tid_state_t) : list tid_state_t :=
  <[i := t]> tids.

(** ** The map the table stands for *)

Abbreviation keyed := (fmap (fun t => (t_tid t, t))).
Definition table_map (tids : list tid_state_t) : gmap Z tid_state_t :=
  list_to_map (keyed tids).

Record table_ok (tids : list tid_state_t) : Prop := {
  table_nodup : NoDup (t_tid <$> tids);
  table_bound : length tids <= MAX_TRACKED_TIDS }.

Lemma keyed_fst tids : (keyed tids).*1 = t_tid <$> tids.
Proof. rewrite <- list_fmap_compose. done. Qed.

Lemma table_lookup tids i t : NoDup (t_tid <$> tids) ->
  tids !! i = Some t -> table_map tids !! t_tid t = Some t.
Proof.
  intros Hn Hi. apply elem_of_list_to_map_1; [by rewrite keyed_fst|].
  apply list_elem_of_fmap. exists t. split; [done|]. by eapply list_elem_of_lookup_2.
Qed.

Lemma table_lookup_none tids tid :
  table_map tids !! tid = None <-> tid ∉ (t_tid <$> tids).
Proof.
  unfold table_map. rewrite <- not_elem_of_list_to_map, keyed_fst. done.
Qed.

Lemma table_size tids : NoDup (t_tid <$> tids) -> size (table_map tids) = length tids.
Proof.
  intros Hn. unfold table_map. rewrite map_size_list_to_map by (by rewrite keyed_fst).
  by rewrite length_fmap.
Qed.

Lemma find_tid_some tids tid : forall i j, find_tid tids tid i = Some j ->
  i <= j /\ exists t, tids !! (j - i) = Some t /\ t_tid t = tid.
Proof.
  induction tids as [|t tids IH]; intros i j H; cbn [find_tid] in H; [done|].
  case_decide as Ht.
  - injection H as <-. split; [lia|]. rewrite Nat.sub_diag. by exists t.
  - apply IH in H as (Hle & t' & Ht' & Heq). split; [lia|]. exists t'.
    replace (j - i) with (S (j - S i)) by lia. done.
Qed.

Lemma find_tid_none tids tid : forall i,
  find_tid tids tid i = None <-> tid ∉ (t_tid <$> tids).
Proof.
  induction tids as [|t tids IH]; intros i; cbn [find_tid]; csimpl.
  - split; [intros _ H; by apply elem_of_nil in H|done].
  - rewrite not_elem_of_cons. case_decide as Ht; [split; [done|intros [Hne _]; congruence]|].
    rewrite IH. split; [intros H; split; [congruence|done]|by intros [_ H]].
Qed.

(** The index of a thread in the table. *)
Lemma find_tid_index tids i t : NoDup (t_tid <$> tids) -> tids !! i = Some t ->
  find_tid tids (t_tid t) 0 = Some i.
Proof.
  intros Hn Hi. destruct (find_tid tids (t_tid t) 0) as [j|] eqn:E.
  - apply find_tid_some in E as (_ & t' & Hj & He). rewrite Nat.sub_0_r in Hj. f_equal.
    eapply NoDup_lookup; [exact Hn|rewrite list_lookup_fmap, Hj; cbn; by rewrite He|].
    by rewrite list_lookup_fmap, Hi.
  - apply find_tid_none in E. destruct E. apply list_elem_of_fmap. exists t.
    split; [done|]. by eapply list_elem_of_lookup_2.
Qed.

Lemma table_set tids i t t' : NoDup (t_tid <$> tids) ->
  tids !! i = Some t -> t_tid t' = t_tid t ->
  t_tid <$> set_tid tids i t' = t_tid <$> tids /\
  table_map (set_tid tids i t') = <[t_tid t := t']> (table_map tids).
Proof.
  intros Hn Hi Ht. assert (t_tid <$> set_tid tids i t' = t_tid <$> tids) as E.
  { unfold set_tid. rewrite list_fmap_insert, Ht. apply list_insert_id.
    by rewrite list_lookup_fmap, Hi. }
  split; [done|]. apply lookup_lt_Some in Hi as Hlt. apply map_eq. intros k.
  destruct (decide (k = t_tid t)) as [->|Hk].
  - rewrite lookup_insert_eq, <- Ht. apply (table_lookup _ i); [by rewrite E|].
    unfold set_tid. by apply list_lookup_insert_eq.
  - rewrite lookup_insert_ne by done.
    destruct (table_map tids !! k) as [u|] eqn:Eu.
    + apply elem_of_list_to_map_2, list_elem_of_fmap in Eu as (u' & [= -> ->] & Hin).
      apply list_elem_of_lookup in Hin as [j Hj].
      apply (table_lookup _ j); [by rewrite E|]. unfold set_tid.
      rewrite list_lookup_insert_ne; [done|]. intros ->. congruence.
    + apply table_lookup_none. rewrite E. by apply table_lookup_none.
Qed.

Lemma table_add tids tid : NoDup (t_tid <$> tids) -> tid ∉ (t_tid <$> tids) ->
  NoDup (t_tid <$> tids ++ [new_tid tid]) /\
  table_map (tids ++ [new_tid tid]) = <[tid := new_tid tid]> (table_map tids).
Proof.
  intros Hn Hin.
  assert (tids ++ [new_tid tid] ≡ₚ new_tid tid :: tids) as Hp by (by rewrite Permutation_app_comm).
  assert (NoDup (t_tid <$> tids ++ [new_tid tid])) as Hn'.
  { rewrite Hp. csimpl. by constructor. }
  split; [done|]. unfold table_map.
  rewrite (list_to_map_proper (keyed (tids ++ [new_tid tid])) (keyed (new_tid tid :: tids))).
  - done.
  - by rewrite keyed_fst.
  - by rewrite Hp.
Qed.

(** Removal leaves the other threads. *)
Lemma remove_perm tids i t : tids !! i = Some t -> NoDup (t_tid <$> tids) ->
  remove_tid tids (t_tid t) ≡ₚ delete i tids.
Proof.
  intros Hi Hn. unfold remove_tid. rewrite (find_tid_index tids i t) by done.
  destruct tids as [|t0 l _] using rev_ind; [done|]. rewrite last_snoc.
  rewrite length_app. cbn [length]. replace (length l + 1 - 1) with (length l) by lia.
  apply lookup_lt_Some in Hi as Hlt. rewrite length_app in Hlt. cbn [length] in Hlt.
  destruct (decide (i = length l)) as [->|Hne].
  - rewrite (list_insert_id (l ++ [t0])) by apply list_lookup_middle, eq_refl.
    rewrite take_app_length. rewrite delete_take_drop, take_app_length.
    rewrite drop_ge by (rewrite length_app; cbn; lia). by rewrite app_nil_r.
  - rewrite insert_app_l, take_app_length' by (rewrite ?length_insert; lia).
    rewrite delete_take_drop, take_app_le, drop_app_le by lia.
    rewrite (insert_take_drop l i t0) by lia.
    rewrite (app_assoc (take i l)), (Permutation_app_comm _ [t0]). cbn [app].
    by rewrite Permutation_middle.
Qed.

Lemma table_remove tids tid t : NoDup (t_tid <$> tids) -> table_map tids !! tid = Some t ->
  NoDup (t_tid <$> remove_tid tids tid) /\
  table_map (remove_tid tids tid) = delete tid (table_map tids) /\
  length (remove_tid tids tid) = length tids - 1.
Proof.
  intros Hn Hl. apply elem_of_list_to_map_2, list_elem_of_fmap in Hl as (u & [= -> ->] & Hin).
  apply list_elem_of_lookup in Hin as [i Hi].
  pose proof (remove_perm tids i u Hi Hn) as Hp.
  assert (tids ≡ₚ u :: delete i tids) as Hd by (by apply delete_Permutation).
  assert (NoDup (t_tid <$> u :: delete i tids)) as Hn2 by (by rewrite <- Hd).
  csimpl in Hn2. apply NoDup_cons in Hn2 as [Hnotin Hn3].
  assert (NoDup (t_tid <$> remove_tid tids (t_tid u))) as Hn1 by (by rewrite Hp).
  split; [done|]. split.
  - unfold table_map.
    rewrite (list_to_map_proper (keyed (remove_tid tids (t_tid u))) (keyed (delete i tids)))
      by (by rewrite ?keyed_fst, ?Hp).
    rewrite (list_to_map_proper (keyed tids) (keyed (u :: delete i tids)))
      by (by rewrite ?keyed_fst, <- ?Hd).
    csimpl. rewrite delete_insert_id; [done|]. by apply table_lookup_none.
  - rewrite Hp, (length_delete tids i) by eauto. done.
Qed.

Lemma remove_absent tids tid : table_map tids !! tid = None -> remove_tid tids tid = tids.
Proof.
  intros H. apply table_lookup_none, (find_tid_none tids tid 0) in H.
  unfold remove_tid. by rewrite H.
Qed.

Lemma remove_ok tids tid : table_ok tids ->
  table_ok (remove_tid tids tid) /\ table_map (remove_tid tids tid) = delete tid (table_map tids).
Proof.
  intros [Hn Hb]. destruct (table_map tids !! tid) as [t|] eqn:E.
  - destruct (table_remove tids tid t Hn E) as (H1 & H2 & H3).
    split; [split; [done|lia]|done].
  - rewrite remove_absent, delete_id by done. done.
Qed.

Lemma set_ok tids i t t' : table_ok tids -> tids !! i = Some t -> t_tid t' = t_tid t ->
  table_ok (set_tid tids i t') /\
  table_map (set_tid tids i t') = <[t_tid t := t']> (table_map tids).
Proof.
  intros [Hn Hb] Hi Ht. destruct (table_set tids i t t' Hn Hi Ht) as [E Hm].
  split; [|done]. split; [by rewrite E|]. unfold set_tid. by rewrite length_insert.
Qed.

(** The three outcomes of [find_or_add_tid]. *)
Inductive found (tids : list tid_state_t) (tid : Z) : option nat * bool * list tid_state_t -> Prop :=
  | found_old i t : tids !! i = Some t -> t_tid t = tid ->
      table_map tids !! tid = Some t -> found tids tid (Some i, false, tids)
  | found_full : table_map tids !! tid = None -> size (table_map tids) = MAX_TRACKED_TIDS ->
      found tids tid (None, false, tids)
  | found_new i tids' : table_map tids !! tid = None -> size (table_map tids) < MAX_TRACKED_TIDS ->
      tids' !! i = Some (new_tid tid) -> table_ok tids' ->
      table_map tids' = <[tid := new_tid tid]> (table_map tids) ->
      found tids tid (Some i, true, tids').

Lemma find_or_add_found tids tid : table_ok tids -> found tids tid (find_or_add_tid tids tid).
Proof.
  intros [Hn Hb]. unfold find_or_add_tid. destruct (find_tid tids tid 0) as [i|] eqn:E.
  - apply find_tid_some in E as (_ & t & Hi & <-). rewrite Nat.sub_0_r in Hi.
    apply (found_old _ _ i t); [done|done|]. by eapply table_lookup.
  - apply find_tid_none in E as Hin. apply table_lookup_none in Hin as Hm.
    pose proof (table_size tids Hn) as Hs. case_decide.
    + apply found_full; [done|]. lia.
    + destruct (table_add tids tid Hn Hin) as [Hn' Hm'].
      apply found_new; [done|lia| | |done].
      * by apply list_lookup_middle.
      * split; [done|]. rewrite length_app. cbn. lia.
Qed.

(** ** Properties *)

(** C28: The array of a session is a finite map of at most 512 threads: looking a
    thread up finds its state, an unknown one is added with an idle state
    while there is room and refused, leaving the table alone, when there is
    none, and removal deletes that thread and no other. *)
Theorem tid_table_correct (tids : list tid_state_t) (tid : Z) : table_ok tids ->
  found tids tid (find_or_add_tid tids tid) /\
  table_ok (find_or_add_tid tids tid).2 /\
  table_ok (remove_tid tids tid) /\
  table_map (remove_tid tids tid) = delete tid (table_map tids).
Proof.
  intros Hok. pose proof (find_or_add_found tids tid Hok) as Hf.
  destruct (remove_ok tids tid Hok) as [H1 H2]. split_and!; [done| |done|done].
  by inversion Hf.
Qed.

Lemma tid_table_correct_witness :
  found [new_tid 7; new_tid 8] 7 (Some 0, false, [new_tid 7; new_tid 8]) /\
  table_ok [new_tid 7; new_tid 8] /\
  table_ok [new_tid 8] /\
  table_map [new_tid 8] = delete 7%Z (table_map [new_tid 7; new_tid 8]).
Proof.
  apply (tid_table_correct [new_tid 7; new_tid 8] 7). split.
  - apply (bool_decide_unpack _). vm_compute. exact I.
  - vm_compute. lia.
Defined.
