(* ===== verification/Tracer.v ===== *)
(** * tracer.c, following the writes to one descriptor

    [hsed_trace_fd] attaches to every thread of a process with ptrace, stops
    each at the entry and at the exit of its system calls, and hands the data
    of every write to the traced descriptor to a callback.  The registers of
    the two supported processors are instances of the interface [Arch]. *)

From stdpp Require Import gmap.
From S2P Require Import Prelude CLib Kernel Tids.

(** ** Constants *)

Definition MAX_CAPTURE_HARD_LIMIT : Z := 65536.
Definition MAX_WRITEV_IOVECS : nat := 16.
Definition POLL_SLEEP_US : Z := 15000.

Definition EPERM : Z := 1.
Definition ECHILD : Z := 10.
Definition SIGTRAP : Z := 5.
Definition SIGSTOP : Z := 19.
Definition PTRACE_O_TRACESYSGOOD : Z := 1.
Definition PTRACE_O_TRACECLONE : Z := 8.
Definition PTRACE_EVENT_CLONE : Z := 3.

(** The status macros of <sys/wait.h>. *)
Definition WIFEXITED (status : Z) : bool := (Z.land status 0x7f =? 0)%Z.
Definition WIFSIGNALED (status : Z) : bool :=
  (0 <? Z.shiftr (wrap_s 8 (Z.land status 0x7f + 1)) 1)%Z.
Definition WIFSTOPPED (status : Z) : bool := (Z.land status 0xff =? 0x7f)%Z.
Definition WSTOPSIG (status : Z) : Z := Z.shiftr (Z.land status 0xff00) 8.

(** ** Registers *)

(** The registers are 64-bit words in the order of [struct user_regs_struct]. *)
Class Arch := {
  nregs : nat;
  nr_ix : nat; arg1_ix : nat; arg2_ix : nat; arg3_ix : nat; ret_ix : nat;
  SYS_write : Z; SYS_pwrite64 : Z; SYS_writev : Z }.

Class ArchLaws (A : Arch) : Prop := {
  nr_in : nr_ix < nregs; arg1_in : arg1_ix < nregs; arg2_in : arg2_ix < nregs;
  arg3_in : arg3_ix < nregs; ret_in : ret_ix < nregs }.

(** orig_rax, rdi, rsi, rdx, rax. *)
Definition x86_64 : Arch := {|
  nregs := 27; nr_ix := 15; arg1_ix := 14; arg2_ix := 13; arg3_ix := 12; ret_ix := 10;
  SYS_write := 1; SYS_pwrite64 := 18; SYS_writev := 20 |}.

(** x8, x0, x1, x2, x0. *)
Definition aarch64 : Arch := {|
  nregs := 34; nr_ix := 8; arg1_ix := 0; arg2_ix := 1; arg3_ix := 2; ret_ix := 0;
  SYS_write := 64; SYS_pwrite64 := 68; SYS_writev := 66 |}.

#[export] Instance x86_64_laws : ArchLaws x86_64.
Proof. split; cbn; lia. Qed.
#[export] Instance aarch64_laws : ArchLaws aarch64.
Proof. split; cbn; lia. Qed.

Section trace.
Context {K : Kernel} {A : Arch}.

Definition reg_syscall_nr (r : list Z) : option Z := i64 <$> r !! nr_ix.
Definition reg_arg1 (r : list Z) : option Z := i64 <$> r !! arg1_ix.
Definition reg_arg2 (r : list Z) : option Z := u64 <$> r !! arg2_ix.
Definition reg_arg3 (r : list Z) : option Z := u64 <$> r !! arg3_ix.
Definition reg_ret (r : list Z) : option Z := i64 <$> r !! ret_ix.

Definition get_regs (tid : Z) : prog (sysres (list Z)) := syscall (CGetRegs tid).

Definition read_remote (tid addr : Z) (len : nat) : prog (sysres bytes) :=
  syscall (CReadVm tid addr len).

(** ** capture_writev *)

(** A little-endian word at the start of [s]. *)
Fixpoint le_word (s : bytes) : Z :=
  match s with [] => 0 | c :: s' => byte_val c + 256 * le_word s' end.

(** The [i]-th [struct remote_iovec] of the bytes read. *)
Definition remote_iovec (data : bytes) (i : nat) : Z * Z :=
  (le_word (take 8 (drop (16 * i) data)), le_word (take 8 (drop (16 * i + 8) data))).

(** The loop over [iovs], from [total] bytes captured. *)
Fixpoint capture_loop (tid : Z) (iovs : list (Z * Z)) (total : nat) (capture : buf)
    (max_capture : nat) : prog (nat * buf) :=
  match iovs with
  | [] => mret (total, capture)
  | (base, len) :: iovs =>
      if decide (total < max_capture) then
        let space := max_capture - total in
        let want := if decide (Z.of_nat space < len)%Z then space else Z.to_nat len in
        if decide (want = 0) then capture_loop tid iovs total capture max_capture
        else
          r ← read_remote tid base want;
          match r with
          | ROk (c :: got) =>
              capture ← pure (memcpy capture total (c :: got));
              capture_loop tid iovs (total + length (c :: got)) capture max_capture
          | _ => capture_loop tid iovs total capture max_capture
          end
      else mret (total, capture)
  end.

Definition capture_writev (tid iov_addr iovcnt : Z) (capture : buf) (max_capture : nat)
    : prog (nat * buf) :=
  if decide (iovcnt = 0)%Z then mret (0, capture) else
  let iovcnt := if decide (Z.of_nat MAX_WRITEV_IOVECS < iovcnt)%Z
                then MAX_WRITEV_IOVECS else Z.to_nat iovcnt in
  r ← read_remote tid iov_addr (iovcnt * 16);
  match r with
  | ROk (c :: data) =>
      let got_iovs := length (c :: data) / 16 in
      capture_loop tid (remote_iovec (c :: data) <$> seq 0 got_iovs) 0 capture max_capture
  | _ => mret (0, capture)
  end.

(** ** Attaching *)

(** [None] is the return value -1. *)
Fixpoint discover_loop (names : list bytes) (out : list Z) (max_out : nat) : list Z :=
  match names with
  | [] => out
  | d_name :: names =>
      if decide (head d_name = Some "."%char) then discover_loop names out max_out else
      let '(v, rest) := strtol_end 10 d_name in
      if decide (length rest = length d_name \/ rest <> []) then discover_loop names out max_out
      else discover_loop names (if decide (length out < max_out) then out ++ [i32 v] else out) max_out
  end.

Definition discover_tids (pid : Z) (max_out : nat) : prog (option (list Z)) :=
  path ← pure (sformat 64 (lit "/proc/%d/task") [AInt pid]);
  r ← syscall (COpendir path);
  match r with
  | RErr _ => mret None
  | ROk names => mret (Some (discover_loop names [] max_out))
  end.

(** [attempts] tries of PTRACE_SEIZE; the last return value. *)
Fixpoint seize_loop (tid : Z) (attempts : nat) : prog Z :=
  match attempts with
  | O => mret (-1)%Z
  | S attempts =>
      r ← syscall (CSeize tid (Z.lor PTRACE_O_TRACESYSGOOD PTRACE_O_TRACECLONE));
      match r with
      | ROk _ => mret 0%Z
      | RErr errno =>
          if decide (errno <> EPERM) then mret (-1)%Z
          else _ ← syscall (CUsleep 5000); seize_loop tid attempts
      end
  end.

(** One turn of the loop over the discovered threads. *)
Definition attach_tid (tids : list tid_state_t) (tid : Z) : prog (list tid_state_t) :=
  let detach tids := _ ← syscall (CDetach tid); mret tids in
  seize_rc ← seize_loop tid 5;
  if decide (seize_rc <> 0)%Z then mret tids else
  r ← syscall (CInterrupt tid);
  match r with
  | RErr _ => detach tids
  | ROk _ =>
      w ← syscall (CWaitpid tid);
      let stopped :=
        match w with
        | ROk (r, status) => bool_decide (r = tid) && WIFSTOPPED status
        | RErr _ => false
        end in
      if negb stopped then detach tids else
      let '(ts, _, tids) := find_or_add_tid tids tid in
      match ts with
      | None => detach tids
      | Some _ =>
          r ← syscall (CSyscall tid 0);
          match r with
          | ROk _ => mret tids
          | RErr _ => detach (remove_tid tids tid)
          end
      end
  end.

Fixpoint attach_loop (discovered : list Z) (tids : list tid_state_t)
    : prog (list tid_state_t) :=
  match discovered with
  | [] => mret tids
  | tid :: discovered => tids ← attach_tid tids tid; attach_loop discovered tids
  end.

(** The loop that lets every traced thread go. *)
Fixpoint detach_loop (tids : list tid_state_t) : prog unit :=
  match tids with
  | [] => mret tt
  | t :: tids =>
      r ← syscall (CInterrupt (t_tid t));
      _ ← (match r with
           | ROk _ => _ ← syscall (CWaitpid (t_tid t)); mret tt
           | RErr _ => mret tt
           end);
      _ ← syscall (CDetach (t_tid t));
      detach_loop tids
  end.

(** ** The system-call stops *)

Definition with_in_syscall (b : bool) (t : tid_state_t) : tid_state_t :=
  mk_tid (t_tid t) b (t_capturing t) (t_pending_is_writev t)
    (t_pending_buf_addr t) (t_pending_iovcnt t).
Definition with_capturing (b : bool) (t : tid_state_t) : tid_state_t :=
  mk_tid (t_tid t) (t_in_syscall t) b (t_pending_is_writev t)
    (t_pending_buf_addr t) (t_pending_iovcnt t).

Definition is_write_call (scno : Z) : bool :=
  bool_decide (scno = SYS_write) || bool_decide (scno = SYS_pwrite64) ||
  bool_decide (scno = SYS_writev).

(** What the registers of an entry stop make of the thread's state. *)
Definition note_entry (fd : Z) (regs : list Z) (ts : tid_state_t) : option tid_state_t :=
  scno ← reg_syscall_nr regs;
  arg1 ← reg_arg1 regs;
  if is_write_call scno && bool_decide (arg1 = fd) then
    addr ← reg_arg2 regs;
    arg3 ← reg_arg3 regs;
    let is_writev := bool_decide (scno = SYS_writev) in
    Some (mk_tid (t_tid ts) (t_in_syscall ts) true is_writev addr
            (if is_writev then arg3 else 0%Z))
  else Some ts.

Definition enter_stop (fd r : Z) (ts : tid_state_t) : prog tid_state_t :=
  let ts := with_capturing false ts in
  g ← get_regs r;
  ts ← (match g with
        | ROk regs => pure (note_entry fd regs ts)
        | RErr _ => mret ts
        end);
  mret (with_in_syscall true ts).

Definition write_fn := Z -> Z -> buf -> nat -> bool -> prog unit.

(** [got] and the [capture] array, for a call that returned [ret]. *)
Definition fetch_data (r ret : Z) (ts : tid_state_t) (capture : buf) (max_capture : nat)
    : prog (nat * buf) :=
  if decide (0 < ret)%Z then
    if t_pending_is_writev ts then
      capture_writev r (t_pending_buf_addr ts) (t_pending_iovcnt ts) capture max_capture
    else
      let want := if decide (ret < Z.of_nat max_capture)%Z then Z.to_nat ret else max_capture in
      n ← read_remote r (t_pending_buf_addr ts) want;
      match n with
      | ROk (c :: data) =>
          capture ← pure (memcpy capture 0 (c :: data));
          mret (length (c :: data), capture)
      | _ => mret (0, capture)
      end
  else mret (0, capture).

(** The [if (ts->capturing)] block. *)
Definition report_write (write_cb : write_fn) (r : Z) (ts : tid_state_t) (capture : buf)
    (max_capture : nat) : prog buf :=
  if t_capturing ts then
    g ← get_regs r;
    match g with
    | ROk regs =>
        ret ← pure (reg_ret regs);
        '(got, capture) ← fetch_data r ret ts capture max_capture;
        _ ← write_cb r ret capture got (t_pending_is_writev ts);
        mret capture
    | RErr _ => mret capture
    end
  else mret capture.

Definition exit_stop (write_cb : write_fn) (r : Z) (ts : tid_state_t) (capture : buf)
    (max_capture : nat) : prog (tid_state_t * buf) :=
  capture ← report_write write_cb r ts capture max_capture;
  mret (with_capturing false (with_in_syscall false ts), capture).

(** ** The main loop *)

Inductive turn := Return (rc : Z) | Again (tids : list tid_state_t) (capture : buf).

Definition resume (r sig : Z) : prog unit := _ ← syscall (CSyscall r sig); mret tt.

(** What follows [WSTOPSIG] for a thread at index [i] of the table. *)
Definition handle_stop (write_cb : write_fn) (fd : Z) (max_capture : nat) (r status : Z)
    (tids : list tid_state_t) (i : nat) (capture : buf) : prog turn :=
  ts ← pure (tids !! i);
  let stopsig := WSTOPSIG status in
  if decide (stopsig = Z.lor SIGTRAP 0x80) then
    '(ts, capture) ←
      (if negb (t_in_syscall ts)
       then ts ← enter_stop fd r ts; mret (ts, capture)
       else exit_stop write_cb r ts capture max_capture);
    _ ← resume r 0;
    mret (Again (set_tid tids i ts) capture)
  else if decide (stopsig = SIGTRAP) then
    tids ←
      (if decide (Z.shiftr status 16 = PTRACE_EVENT_CLONE) then
         g ← syscall (CGetEventMsg r);
         match g with
         | ROk new_tid_ul => mret (find_or_add_tid tids (i32 new_tid_ul)).2
         | RErr _ => mret tids
         end
       else mret tids);
    _ ← resume r 0;
    mret (Again tids capture)
  else if decide (stopsig = SIGSTOP) then
    _ ← resume r 0; mret (Again tids capture)
  else
    _ ← resume r stopsig; mret (Again tids capture).

(** One turn of [for (;;)]. *)
Definition trace_turn (write_cb : write_fn) (poll_cb : prog bool) (fd : Z) (max_capture : nat)
    (tids : list tid_state_t) (capture : buf) : prog turn :=
  w ← syscall CWaitAny;
  match w with
  | RErr errno => if decide (errno = ECHILD) then mret (Return 0) else mret (Again tids capture)
  | ROk (r, status) =>
      if decide (r = 0)%Z then
        go ← poll_cb;
        if negb go then _ ← detach_loop tids; mret (Return 0)
        else _ ← syscall (CUsleep POLL_SLEEP_US); mret (Again tids capture)
      else
        let '(ts, was_new, tids) := find_or_add_tid tids r in
        match ts with
        | None => _ ← syscall (CCont r); mret (Again tids capture)
        | Some i =>
            if WIFEXITED status || WIFSIGNALED status then
              let tids := remove_tid tids r in
              if decide (length tids = 0) then mret (Return 0) else mret (Again tids capture)
            else if negb (WIFSTOPPED status) then mret (Again tids capture)
            else if was_new then _ ← resume r 0; mret (Again tids capture)
            else handle_stop write_cb fd max_capture r status tids i capture
        end
  end.

(** [fuel] turns; a session ends when the client or the process does, so no
    number of them is enough for every run. *)
Fixpoint trace_loop (fuel : nat) (write_cb : write_fn) (poll_cb : prog bool) (fd : Z)
    (max_capture : nat) (tids : list tid_state_t) (capture : buf) : prog Z :=
  match fuel with
  | O => out_of_fuel
  | S fuel =>
      t ← trace_turn write_cb poll_cb fd max_capture tids capture;
      match t with
      | Return rc => mret rc
      | Again tids capture => trace_loop fuel write_cb poll_cb fd max_capture tids capture
      end
  end.

(** The return value and what [errbuf] holds. *)
Definition hsed_trace_fd (fuel : nat) (pid fd max_capture : Z)
    (attached_cb : prog unit) (poll_cb : prog bool) (write_cb : write_fn)
    (errbuf : buf) (errlen : nat) : prog (Z * buf) :=
  let max_capture := if decide (max_capture = 0)%Z then 200%Z else max_capture in
  let max_capture := if decide (MAX_CAPTURE_HARD_LIMIT < max_capture)%Z
                     then MAX_CAPTURE_HARD_LIMIT else max_capture in
  d ← discover_tids pid MAX_TRACKED_TIDS;
  match d with
  | None | Some [] =>
      errno ← syscall CErrno;
      '(errbuf, _) ← pure (snprintf errbuf errlen (lit "could not list threads for %d: %s")
                             [AInt pid; AStr (strerror errno)]);
      mret ((-1)%Z, errbuf)
  | Some discovered =>
      tids ← attach_loop discovered [];
      if decide (length tids = 0) then
        errno ← syscall CErrno;
        '(errbuf, _) ← pure (snprintf errbuf errlen
          (lit "PTRACE_SEIZE failed for every thread of %d: %s (need root/CAP_SYS_PTRACE, "
           ++ lit "and /proc/sys/kernel/yama/ptrace_scope must allow it)")
          [AInt pid; AStr (strerror errno)]);
        mret ((-1)%Z, errbuf)
      else
        _ ← attached_cb;
        ok ← syscall (CMalloc max_capture);
        if (ok : bool) then
          rc ← trace_loop fuel write_cb poll_cb fd (Z.to_nat max_capture) tids
                  (alloca (Z.to_nat max_capture));
          mret (rc, errbuf)
        else
          '(errbuf, _) ← pure (snprintf errbuf errlen
             (lit "out of memory allocating a %zu-byte capture buffer")
             [ASize max_capture]);
          _ ← detach_loop tids;
          mret ((-1)%Z, errbuf)
  end.
End trace.

(** On any other architecture, the function of the other branch of the [#if]. *)
Definition unsupported : bytes :=
  lit "live streaming is only implemented for x86_64 and aarch64 in this version".

Definition hsed_trace_fd_unsupported (pid fd max_capture : Z)
    (attached_cb : prog unit) (poll_cb : prog bool) (write_cb : write_fn)
    (errbuf : buf) (errlen : nat) : prog (Z * buf) :=
  '(errbuf, _) ← pure (snprintf errbuf errlen unsupported []);
  mret ((-1)%Z, errbuf).
