(* ===== verification/Session.v ===== *)
(** * tracer.c, what a tracing session does

    The session as an abstract transition system: a finite map from the
    traced threads to their states, and one labelled transition per turn of
    the loop, with the system calls that turn makes.  [trace_turn] and
    [trace_loop] refine it on every kernel, and the properties of a session
    (every stop is answered, a report follows the entry it reports) are
    proved of the transition system by induction. *)

From stdpp Require Import gmap.
From S2P Require Import Prelude CLib Kernel Tids Tracer.

(** ** What the tracer relies on of the kernel

    PTRACE_GETREGS fills the whole structure; [process_vm_readv] returns no
    more bytes than it was asked for. *)
Class TraceLaws (K : Kernel) (A : Arch) : Prop := {
  regs_filled tid h r : answer (CGetRegs tid) h = ROk r -> length r = nregs;
  readv_bound tid addr len h data :
    answer (CReadVm tid addr len) h = ROk data -> length data <= len }.

(** ** Events *)

(** The calls only the tracer makes. *)
Definition tracer_event (e : event) : bool :=
  match e with
  | Ev c _ =>
      match c with
      | CSeize _ _ | CInterrupt _ | CDetach _ | CSyscall _ _ | CCont _ | CGetRegs _
      | CGetEventMsg _ | CWaitpid _ | CWaitAny | CReadVm _ _ _ => true
      | _ => false
      end
  end.

(** Events of the callbacks. *)
Definition outside (evs : list event) : Prop := Forall (fun e => tracer_event e = false) evs.

Definition is_wait (e : event) : bool :=
  match e with Ev c _ => match c with CWaitAny => true | _ => false end end.

Definition waits (evs : list event) : nat := length (List.filter is_wait evs).

Record report := mk_report { rp_tid : Z; rp_ret : Z; rp_data : bytes; rp_is_writev : bool }.

(** What a read of remote memory gave. *)
Definition read_of (r : sysres bytes) : bytes := match r with ROk data => data | RErr _ => [] end.

(** ** One turn, abstractly *)

Inductive label :=
  | LIdle                                  (* no thread involved *)
  | LThread (r : Z)                        (* a thread came, went, was signalled *)
  | LEntry (r : Z) (regs : option (list Z))
  | LExit (r : Z) (rep : option report)
  | LDetach (l : list Z).

Section spec.
Context {A : Arch} (fd : Z) (max_capture : nat) (reported : report -> list event -> Prop).

(** The reads of the segments of a [writev], from [total] bytes on. *)
Inductive segments (r : Z) : list (Z * Z) -> nat -> list event -> bytes -> Prop :=
  | segments_end iovs total : iovs = [] \/ max_capture <= total -> segments r iovs total [] []
  | segments_empty base len iovs total evs data :
      total < max_capture -> (len <= 0)%Z -> segments r iovs total evs data ->
      segments r ((base, len) :: iovs) total evs data
  | segments_read base len iovs total x evs data :
      total < max_capture -> (0 < len)%Z ->
      segments r iovs (total + length (read_of x)) evs data ->
      segments r ((base, len) :: iovs) total
        (Ev (CReadVm r base (Nat.min (max_capture - total) (Z.to_nat len))) x :: evs)
        (read_of x ++ data).

(** The data captured at an exit stop, and the reads that fetch it. *)
Inductive payload (r ret : Z) (ts : tid_state_t) : list event -> bytes -> Prop :=
  | payload_failed : (ret <= 0)%Z -> payload r ret ts [] []
  | payload_write x :
      (0 < ret)%Z -> t_pending_is_writev ts = false ->
      payload r ret ts
        [Ev (CReadVm r (t_pending_buf_addr ts) (Nat.min (Z.to_nat ret) max_capture)) x]
        (read_of x)
  | payload_writev_none :
      (0 < ret)%Z -> t_pending_is_writev ts = true -> (t_pending_iovcnt ts = 0)%Z ->
      payload r ret ts [] []
  | payload_writev x evs data :
      (0 < ret)%Z -> t_pending_is_writev ts = true -> (t_pending_iovcnt ts <> 0)%Z ->
      segments r (remote_iovec (read_of x) <$> seq 0 (length (read_of x) / 16)) 0 evs data ->
      payload r ret ts
        (Ev (CReadVm r (t_pending_buf_addr ts)
               (Nat.min MAX_WRITEV_IOVECS (Z.to_nat (t_pending_iovcnt ts)) * 16)) x :: evs)
        data.

(** The calls that let the threads [l] go. *)
Inductive let_go : list Z -> list event -> Prop :=
  | let_go_nil : let_go [] []
  | let_go_stopped tid l w evs : let_go l evs ->
      let_go (tid :: l) (Ev (CInterrupt tid) (ROk tt) :: Ev (CWaitpid tid) w
                         :: Ev (CDetach tid) tt :: evs)
  | let_go_gone tid l e evs : let_go l evs ->
      let_go (tid :: l) (Ev (CInterrupt tid) (RErr e) :: Ev (CDetach tid) tt :: evs).

(** [track m r] is [m] with the thread [r] known. *)
Definition track (m : gmap Z tid_state_t) (r : Z) : gmap Z tid_state_t :=
  match m !! r with Some _ => m | None => <[r := new_tid r]> m end.

Definition room (m : gmap Z tid_state_t) (r : Z) : Prop :=
  is_Some (m !! r) \/ size m < MAX_TRACKED_TIDS.

(** The signal a stop is resumed with: a real one is passed on. *)
Definition forwarded (stopsig : Z) : Z :=
  if decide (stopsig = Z.lor SIGTRAP 0x80 \/ stopsig = SIGTRAP \/ stopsig = SIGSTOP)
  then 0%Z else stopsig.

Abbreviation waited r status := (Ev CWaitAny (ROk (r, status))).
Abbreviation resumed r sig x := (Ev (CSyscall r sig) x).

(** The new map is [None] when the session ends. *)
Inductive turn_spec (m : gmap Z tid_state_t)
    : list event -> label -> option (gmap Z tid_state_t) -> Prop :=
  | turn_no_children : turn_spec m [Ev CWaitAny (RErr ECHILD)] LIdle None
  | turn_interrupted e : e <> ECHILD -> turn_spec m [Ev CWaitAny (RErr e)] LIdle (Some m)
  | turn_idle status poll : outside poll ->
      turn_spec m (waited 0%Z status :: poll ++ [Ev (CUsleep POLL_SLEEP_US) tt]) LIdle (Some m)
  | turn_stopped status poll l evs : outside poll -> l ≡ₚ (map_to_list m).*1 -> let_go l evs ->
      turn_spec m (waited 0%Z status :: poll ++ evs) (LDetach l) None
  | turn_untracked r status : r <> 0%Z -> m !! r = None -> size m = MAX_TRACKED_TIDS ->
      turn_spec m [waited r status; Ev (CCont r) tt] LIdle (Some m)
  | turn_gone r status : r <> 0%Z -> room m r ->
      WIFEXITED status || WIFSIGNALED status = true ->
      turn_spec m [waited r status] (LThread r)
        (if decide (delete r m = ∅) then None else Some (delete r m))
  | turn_continued r status : r <> 0%Z -> room m r ->
      WIFEXITED status || WIFSIGNALED status = false -> WIFSTOPPED status = false ->
      turn_spec m [waited r status] (LThread r) (Some (track m r))
  | turn_new r status x : r <> 0%Z -> m !! r = None -> size m < MAX_TRACKED_TIDS ->
      WIFEXITED status || WIFSIGNALED status = false -> WIFSTOPPED status = true ->
      turn_spec m [waited r status; resumed r 0%Z x] (LThread r) (Some (<[r := new_tid r]> m))
  | turn_entry r status ts g ts' x :
      r <> 0%Z -> WIFEXITED status || WIFSIGNALED status = false -> WIFSTOPPED status = true ->
      WSTOPSIG status = Z.lor SIGTRAP 0x80 ->
      m !! r = Some ts -> t_in_syscall ts = false ->
      match g with
      | ROk regs => note_entry fd regs (with_capturing false ts) = Some ts'
      | RErr _ => ts' = with_capturing false ts
      end ->
      turn_spec m [waited r status; Ev (CGetRegs r) g; resumed r 0%Z x]
        (LEntry r (match g with ROk regs => Some regs | RErr _ => None end))
        (Some (<[r := with_in_syscall true ts']> m))
  | turn_exit_quiet r status ts evs x :
      r <> 0%Z -> WIFEXITED status || WIFSIGNALED status = false -> WIFSTOPPED status = true ->
      WSTOPSIG status = Z.lor SIGTRAP 0x80 ->
      m !! r = Some ts -> t_in_syscall ts = true ->
      (t_capturing ts = false /\ evs = [] \/
       t_capturing ts = true /\ exists e, evs = [Ev (CGetRegs r) (RErr e)]) ->
      turn_spec m (waited r status :: evs ++ [resumed r 0%Z x]) (LExit r None)
        (Some (<[r := with_capturing false (with_in_syscall false ts)]> m))
  | turn_exit_report r status ts regs ret reads data cb x :
      r <> 0%Z -> WIFEXITED status || WIFSIGNALED status = false -> WIFSTOPPED status = true ->
      WSTOPSIG status = Z.lor SIGTRAP 0x80 ->
      m !! r = Some ts -> t_in_syscall ts = true -> t_capturing ts = true ->
      reg_ret regs = Some ret -> payload r ret ts reads data -> length data <= max_capture ->
      outside cb -> reported (mk_report r ret data (t_pending_is_writev ts)) cb ->
      turn_spec m
        (waited r status :: Ev (CGetRegs r) (ROk regs) :: reads ++ cb ++ [resumed r 0%Z x])
        (LExit r (Some (mk_report r ret data (t_pending_is_writev ts))))
        (Some (<[r := with_capturing false (with_in_syscall false ts)]> m))
  | turn_clone r status g x :
      r <> 0%Z -> WIFEXITED status || WIFSIGNALED status = false -> WIFSTOPPED status = true ->
      WSTOPSIG status = SIGTRAP -> Z.shiftr status 16 = PTRACE_EVENT_CLONE -> is_Some (m !! r) ->
      turn_spec m [waited r status; Ev (CGetEventMsg r) g; resumed r 0%Z x] (LThread r)
        (Some (match g with
               | ROk new => if decide (room m (i32 new)) then track m (i32 new) else m
               | RErr _ => m
               end))
  | turn_signal r status x :
      r <> 0%Z -> WIFEXITED status || WIFSIGNALED status = false -> WIFSTOPPED status = true ->
      WSTOPSIG status <> Z.lor SIGTRAP 0x80 ->
      ~ (WSTOPSIG status = SIGTRAP /\ Z.shiftr status 16 = PTRACE_EVENT_CLONE) ->
      is_Some (m !! r) ->
      turn_spec m [waited r status; resumed r (forwarded (WSTOPSIG status)) x] (LThread r) (Some m).

(** A run of turns: the calls and the label of each. *)
Inductive session (m0 : gmap Z tid_state_t)
    : list (list event * label) -> option (gmap Z tid_state_t) -> Prop :=
  | session_start : session m0 [] (Some m0)
  | session_turn turns m evs l m' :
      session m0 turns (Some m) -> turn_spec m evs l m' ->
      session m0 (turns ++ [(evs, l)]) m'.
End spec.

(** ** The tracer refines it *)

Section refinement.
Context {K : Kernel} {A : Arch} {AL : ArchLaws A} {TL : TraceLaws K A}.
Context (fd : Z) (max_capture : nat) (reported : report -> list event -> Prop).
Context (write_cb : write_fn) (poll_cb : prog bool).

(** A run cut short inside a callback. *)
Definition cut : list event -> Prop := outside.

(** The callbacks leave the tracees alone; [write_cb] is given [data] in the
    first cells of the capture array. *)
Context (write_cb_ok : forall h r ret capture data w rest,
  capture = (Some <$> data) ++ rest -> length capture = max_capture ->
  wp (write_cb r ret capture (length data) w) h cut
    (fun _ evs => outside evs /\ reported (mk_report r ret data w) evs)).
Context (poll_cb_ok : forall h, wp poll_cb h cut (fun _ evs => outside evs)).

Lemma outside_waits evs : outside evs -> waits evs = 0.
Proof.
  unfold waits. induction 1 as [|[R c x] evs He _ IH]; [done|]. cbn [List.filter].
  destruct c; done.
Qed.

(** The capture array with [data] in front. *)
Definition captured (capture : buf) (data : bytes) : Prop :=
  length capture = max_capture /\ exists rest, capture = (Some <$> data) ++ rest.

Lemma captured_more capture data more : captured capture data ->
  length data + length more <= max_capture ->
  exists capture', memcpy capture (length data) more = Some capture' /\
    captured capture' (data ++ more).
Proof.
  intros [Hl [rest ->]] Hm. rewrite length_app, length_fmap in Hl.
  rewrite memcpy_frontier by lia. eexists. split; [done|]. split; [|eauto].
  rewrite !length_app, length_fmap, length_app, length_drop. lia.
Qed.

Lemma capture_loop_run r iovs : forall capture data h I,
  captured capture data ->
  wp (capture_loop r iovs (length data) capture max_capture) h I
    (fun '(total, capture') evs => exists more,
       segments max_capture r iovs (length data) evs more /\
       captured capture' (data ++ more) /\ total = length (data ++ more)).
Proof.
  induction iovs as [|[base len] iovs IH]; intros capture data h I Hc; cbn [capture_loop].
  { apply wp_ret. exists []. rewrite app_nil_r. split_and!; [|done|done]. by constructor; left. }
  case_decide as Hlt.
  2: { apply wp_ret. exists []. rewrite app_nil_r. split_and!; [|done|done].
       constructor. right. lia. }
  cbv zeta.
  set (want := if decide (Z.of_nat (max_capture - length data) < len)%Z
               then max_capture - length data else Z.to_nat len).
  assert (want = Nat.min (max_capture - length data) (Z.to_nat len)) as Hwant
    by (unfold want; case_decide; lia).
  case_decide as Hz.
  { eapply wp_mono; [by apply IH|]. intros [total capture'] evs (more & Hs & Hr).
    exists more. split; [|done]. constructor; [done|lia|done]. }
  rewrite Hwant in *. apply wp_call_bind. intros x Hx.
  assert (length (read_of x) <= max_capture - length data) as Hb.
  { destruct x as [got|]; cbn [read_of length]; [|lia].
    symmetry in Hx. apply readv_bound in Hx. lia. }
  assert (wp (capture_loop r iovs (length data + 0) capture max_capture)
    (h ++ [Ev (CReadVm r base (Nat.min (max_capture - length data) (Z.to_nat len))) x])
    (fun evs => I (Ev (CReadVm r base (Nat.min (max_capture - length data) (Z.to_nat len))) x :: evs))
    (fun '(total, capture') evs => exists more,
       segments max_capture r iovs (length data + 0) evs more /\
       captured capture' (data ++ more) /\ total = length (data ++ more))) as Hnone.
  { rewrite Nat.add_0_r. by apply IH. }
  destruct x as [[|c got]|e]; rewrite ?Nat.add_0_r in Hnone.
  - eapply wp_mono; [exact Hnone|]. intros [total capture'] evs (more & Hs & Hr).
    exists more. split; [|done]. apply (segments_read _ _ _ _ _ _ (ROk [])); [done|lia|].
    cbn. by rewrite Nat.add_0_r.
  - destruct (captured_more capture data (c :: got) Hc) as (capture1 & Hm & Hc1);
      [cbn [read_of] in Hb; lia|].
    eapply wp_pure_bind; [exact Hm|]. rewrite <- length_app.
    eapply wp_mono; [by apply IH|]. intros [total capture'] evs (more & Hs & Hr).
    exists ((c :: got) ++ more). rewrite app_assoc. split; [|done].
    apply (segments_read _ _ _ _ _ _ (ROk (c :: got))); [done|lia|].
    by rewrite length_app in Hs.
  - eapply wp_mono; [exact Hnone|]. intros [total capture'] evs (more & Hs & Hr).
    exists more. split; [|done]. apply (segments_read _ _ _ _ _ _ (RErr e)); [done|lia|].
    cbn. by rewrite Nat.add_0_r.
Qed.

Lemma captured_nil capture : length capture = max_capture -> captured capture [].
Proof. intros Hl. split; [done|]. by exists capture. Qed.

Lemma capture_writev_run r ret ts capture h I :
  (0 < ret)%Z -> t_pending_is_writev ts = true -> length capture = max_capture ->
  wp (capture_writev r (t_pending_buf_addr ts) (t_pending_iovcnt ts) capture max_capture) h I
    (fun '(got, capture') evs => exists data,
       payload max_capture r ret ts evs data /\ captured capture' data /\ got = length data).
Proof.
  intros Hr Hw Hl. unfold capture_writev. case_decide as Hz.
  { apply wp_ret. exists []. split_and!; [|by apply captured_nil|done].
    by apply payload_writev_none. }
  cbv zeta. set (n := if decide _ then MAX_WRITEV_IOVECS else _).
  assert (n = Nat.min MAX_WRITEV_IOVECS (Z.to_nat (t_pending_iovcnt ts))) as ->
    by (unfold n; case_decide; lia).
  apply wp_call_bind. intros x Hx.
  assert (forall y, read_of y = [] -> payload max_capture r ret ts
    [Ev (CReadVm r (t_pending_buf_addr ts)
      (Nat.min MAX_WRITEV_IOVECS (Z.to_nat (t_pending_iovcnt ts)) * 16)) y] []) as Hnone.
  { intros y Hy. apply payload_writev; try done. rewrite Hy. constructor. by left. }
  destruct x as [[|c data0]|e].
  - apply wp_ret. exists []. split_and!; [by apply Hnone|by apply captured_nil|done].
  - eapply wp_mono; [apply (capture_loop_run r _ capture []); by apply captured_nil|].
    intros [total capture'] evs (more & Hs & Hc & Ht). exists more.
    split_and!; [|done|done]. by apply payload_writev.
  - apply wp_ret. exists []. split_and!; [by apply Hnone|by apply captured_nil|done].
Qed.

Lemma reg_read (regs : list Z) (ix : nat) : length regs = nregs -> ix < nregs ->
  exists v, regs !! ix = Some v.
Proof. intros Hl Hi. apply lookup_lt_is_Some_2. by rewrite Hl. Qed.

Lemma note_entry_some regs ts : length regs = nregs ->
  exists ts', note_entry fd regs ts = Some ts' /\ t_tid ts' = t_tid ts.
Proof.
  intros Hl. unfold note_entry, reg_syscall_nr, reg_arg1, reg_arg2, reg_arg3.
  destruct (reg_read regs nr_ix Hl nr_in) as [v1 ->].
  destruct (reg_read regs arg1_ix Hl arg1_in) as [v2 ->].
  destruct (reg_read regs arg2_ix Hl arg2_in) as [v3 ->].
  destruct (reg_read regs arg3_ix Hl arg3_in) as [v4 ->]. cbn [fmap option_fmap option_map].
  rewrite !some_bind. destruct (_ && _); eauto.
Qed.

Lemma enter_stop_run r ts h I :
  wp (enter_stop fd r ts) h I (fun ts' evs => exists g ts1,
    evs = [Ev (CGetRegs r) g] /\ ts' = with_in_syscall true ts1 /\ t_tid ts1 = t_tid ts /\
    match g with
    | ROk regs => note_entry fd regs (with_capturing false ts) = Some ts1
    | RErr _ => ts1 = with_capturing false ts
    end).
Proof.
  unfold enter_stop. apply wp_call_bind. intros [regs|e] Hg.
  - symmetry in Hg. apply regs_filled in Hg.
    destruct (note_entry_some regs (with_capturing false ts) Hg) as (ts' & Hn & Ht).
    eapply wp_pure_bind; [exact Hn|]. apply wp_ret. exists (ROk regs), ts'. done.
  - apply (run_mret_bind). apply wp_ret. by exists (RErr e), (with_capturing false ts).
Qed.

Lemma detach_loop_run l : forall h I,
  wp (detach_loop l) h I (fun _ evs => let_go (t_tid <$> l) evs).
Proof.
  induction l as [|t l IH]; intros h I; cbn [detach_loop]; [apply wp_ret; constructor|].
  apply wp_call_bind. intros [[]|e] _.
  - apply (wp_bind _ _ _ _ (fun _ evs => exists w, evs = [Ev (CWaitpid (t_tid t)) w])).
    { apply wp_call_bind. intros w _. apply wp_ret. by exists w. }
    intros _ evs (w & ->). apply wp_call_bind. intros [] _.
    eapply wp_mono; [apply IH|]. intros [] evs Hl. by apply let_go_stopped.
  - apply run_mret_bind. apply wp_call_bind. intros [] _.
    eapply wp_mono; [apply IH|]. intros [] evs Hl. by apply let_go_gone.
Qed.

Lemma fetch_data_run r ret ts capture h I : length capture = max_capture ->
  wp (fetch_data r ret ts capture max_capture) h I (fun '(got, capture') evs =>
    exists data, payload max_capture r ret ts evs data /\ captured capture' data /\
      got = length data).
Proof.
  intros Hl. unfold fetch_data. case_decide as Hr.
  2: { apply wp_ret. exists []. split_and!; [|by apply captured_nil|done].
       apply payload_failed. lia. }
  destruct (t_pending_is_writev ts) eqn:Hw; [by apply capture_writev_run|].
  cbv zeta. set (want := if decide _ then Z.to_nat ret else _).
  assert (want = Nat.min (Z.to_nat ret) max_capture) as -> by (unfold want; case_decide; lia).
  apply wp_call_bind. intros x Hx.
  pose proof (payload_write max_capture r ret ts x Hr Hw) as Hp.
  destruct x as [[|c data]|e].
  - apply wp_ret. exists []. split_and!; [done|by apply captured_nil|done].
  - symmetry in Hx. apply readv_bound in Hx.
    destruct (captured_more capture [] (c :: data)) as (capture' & Hm & Hc);
      [by apply captured_nil|cbn [length] in *; lia|].
    eapply wp_pure_bind; [exact Hm|]. apply wp_ret. exists (c :: data). done.
  - apply wp_ret. exists []. split_and!; [done|by apply captured_nil|done].
Qed.

(** What [report_write] did: nothing, or a report of the data it read. *)
Definition write_reported (r : Z) (ts : tid_state_t) (evs : list event) : Prop :=
  (t_capturing ts = false /\ evs = [] \/
   t_capturing ts = true /\ exists e, evs = [Ev (CGetRegs r) (RErr e)]) \/
  exists regs ret reads data cb,
    t_capturing ts = true /\ evs = Ev (CGetRegs r) (ROk regs) :: reads ++ cb /\
    reg_ret regs = Some ret /\ payload max_capture r ret ts reads data /\
    length data <= max_capture /\ outside cb /\
    reported (mk_report r ret data (t_pending_is_writev ts)) cb.

Lemma segments_waits r iovs total evs data :
  segments max_capture r iovs total evs data -> waits evs = 0.
Proof. induction 1; done. Qed.

Lemma payload_waits r ret ts evs data : payload max_capture r ret ts evs data -> waits evs = 0.
Proof.
  intros H. inversion H as [| | |x evs' data' ? ? ? Hs]; subst; try done.
  by apply segments_waits in Hs.
Qed.

Lemma waits_app evs evs' : waits (evs ++ evs') = waits evs + waits evs'.
Proof. unfold waits. by rewrite List.filter_app, length_app. Qed.

Lemma report_write_run r ts capture h (I : list event -> Prop) :
  (forall evs, waits evs = 0 -> I evs) -> length capture = max_capture ->
  wp (report_write write_cb r ts capture max_capture) h I (fun capture' evs =>
    length capture' = max_capture /\ write_reported r ts evs).
Proof.
  intros HI Hl. unfold report_write, write_reported. destruct (t_capturing ts) eqn:Hc.
  2: { apply wp_ret. split; [done|]. left. by left. }
  apply wp_call_bind. intros [regs|e] Hg.
  2: { apply wp_ret. split; [done|]. left. right. split; [done|]. by exists e. }
  symmetry in Hg. apply regs_filled in Hg.
  destruct (reg_read regs ret_ix Hg ret_in) as [v Hv].
  eapply wp_pure_bind; [unfold reg_ret; rewrite Hv; reflexivity|].
  eapply wp_bind; [by apply fetch_data_run|]. cbn beta.
  intros [got capture'] reads (data & Hp & [Hl' [rest Hcap]] & ->).
  apply (wp_bind _ _ _ _ (fun _ cb => outside cb /\
    reported (mk_report r (i64 v) data (t_pending_is_writev ts)) cb)).
  { eapply wp_conseq; [by eapply write_cb_ok| |done].
    intros evs Hcut. apply HI. apply payload_waits in Hp.
    change (waits (reads ++ evs) = 0). rewrite waits_app, Hp. by rewrite outside_waits. }
  cbn beta. intros [] cb [Hcb Hrep]. apply wp_ret. split; [done|]. right.
  exists regs, (i64 v), reads, data, cb. rewrite app_nil_r. split_and!; try done.
  - unfold reg_ret. by rewrite Hv.
  - rewrite Hcap in Hl'. rewrite length_app, length_fmap in Hl'. lia.
Qed.

(** ** One turn *)

Abbreviation turn_spec := (turn_spec fd max_capture reported).

(** The outcome of a turn that began with the table [tids]. *)
Definition turn_post (tids : list tid_state_t) (t : turn) (evs : list event) : Prop :=
  match t with
  | Return rc => rc = 0%Z /\ exists l, turn_spec (table_map tids) evs l None
  | Again tids' capture' =>
      table_ok tids' /\ length capture' = max_capture /\
      exists l, turn_spec (table_map tids) evs l (Some (table_map tids'))
  end.

Lemma clone_table tids new : table_ok tids ->
  table_ok (find_or_add_tid tids new).2 /\
  table_map (find_or_add_tid tids new).2
  = (if decide (room (table_map tids) new) then track (table_map tids) new else table_map tids).
Proof.
  intros Hok. unfold room, track.
  destruct (find_or_add_found tids new Hok) as [i t Hi Ht Hm|Hm Hs|i tids' Hm Hs Hi Hok' Hm'];
    cbn [snd]; (split; [done|]).
  - rewrite Hm. rewrite decide_True by eauto. done.
  - rewrite decide_False; [done|]. rewrite Hm, Hs. intros [[? ?]|?]; [done|lia].
  - rewrite decide_True by (right; done). by rewrite Hm.
Qed.

Section stop.
Context (tids : list tid_state_t) (i : nat) (r status : Z) (ts : tid_state_t) (capture : buf).
Context (Hok : table_ok tids) (Hi : tids !! i = Some ts) (Htid : t_tid ts = r).
Context (Hm : table_map tids !! r = Some ts) (Hl : length capture = max_capture).
Context (Hr : r <> 0%Z) (Hgone : WIFEXITED status || WIFSIGNALED status = false).
Context (Hstop : WIFSTOPPED status = true).

Abbreviation after evs := (Ev CWaitAny (ROk (r, status)) :: evs).

Lemma resume_again sig tids' capture' h I evs l : table_ok tids' -> length capture' = max_capture ->
  (forall x, turn_spec (table_map tids) (after (evs ++ [Ev (CSyscall r sig) x])) l
     (Some (table_map tids'))) ->
  wp (_ ← resume r sig; mret (Again tids' capture')) h I
    (fun t evs' => turn_post tids t (after (evs ++ evs'))).
Proof.
  intros Hok' Hl' Hspec. unfold resume. eapply wp_bind.
  { apply (wp_call_bind (CSyscall r sig) _ h I
      (fun (_ : unit) evs' => exists x, evs' = [Ev (CSyscall r sig) x])).
    intros x _. apply wp_ret. by exists x. }
  cbn beta. intros [] evs' [x ->]. apply wp_ret. rewrite app_nil_r.
  split; [done|]. split; [done|]. exists l. apply Hspec.
Qed.

(** A stop for anything but a system call or a clone: the thread goes on with
    the signal it was stopped for, except SIGTRAP and SIGSTOP. *)
Lemma signal_again sig h I : sig = forwarded (WSTOPSIG status) ->
  WSTOPSIG status <> Z.lor SIGTRAP 0x80 ->
  ~ (WSTOPSIG status = SIGTRAP /\ Z.shiftr status 16 = PTRACE_EVENT_CLONE) ->
  wp (_ ← resume r sig; mret (Again tids capture)) h I
    (fun t evs => turn_post tids t (after evs)).
Proof.
  intros -> H80 Hev. apply (resume_again _ tids capture h I [] (LThread r)); [done|done|].
  intros x. apply (turn_signal fd max_capture reported (table_map tids) r status x); eauto.
Qed.

(** The end of a system call: what was written is reported, if the entry said so. *)
Lemma exit_stop_again h (I : list event -> Prop) : (forall evs, waits evs = 0 -> I evs) ->
  WSTOPSIG status = Z.lor SIGTRAP 0x80 -> t_in_syscall ts = true ->
  wp ('(ts, capture) ← exit_stop write_cb r ts capture max_capture;
      _ ← resume r 0; mret (Again (set_tid tids i ts) capture)) h I
    (fun t evs => turn_post tids t (after evs)).
Proof.
  intros HI H80 Hin. apply (wp_bind _ _ _ _ (fun '(ts', capture') evs => length capture' = max_capture /\
    ts' = with_capturing false (with_in_syscall false ts) /\ write_reported r ts evs)).
  { unfold exit_stop. eapply wp_bind; [by apply report_write_run|]. cbn beta.
    intros capture' evs [Hl' Hw]. apply wp_ret. by rewrite app_nil_r. }
  cbn beta. intros [ts' capture'] evs (Hl' & -> & Hw).
  destruct (set_ok tids i ts (with_capturing false (with_in_syscall false ts)) Hok Hi eq_refl)
    as [Hok' Hmap].
  destruct Hw as [Hq|(regs & ret & reads & data & cb & Hc & -> & Hret & Hp & Hd & Hcb & Hrep)].
  - apply (resume_again _ _ _ _ _ _ (LExit r None)); [done|done|]. intros x. rewrite Hmap, Htid.
    by eapply turn_exit_quiet.
  - eapply resume_again; [done|done|]. intros x. rewrite Hmap, Htid. cbn [app].
    rewrite <- app_assoc. by eapply turn_exit_report.
Qed.

Lemma handle_stop_run h (I : list event -> Prop) :
  (forall evs, waits evs = 0 -> I evs) ->
  wp (handle_stop write_cb fd max_capture r status tids i capture) h I
    (fun t evs => turn_post tids t (after evs)).
Proof.
  intros HI. unfold handle_stop. eapply wp_pure_bind; [exact Hi|]. cbv zeta.
  case_decide as H80; [destruct (t_in_syscall ts) eqn:Hin; cbn [negb]|].
  - by apply exit_stop_again.
  - apply (wp_bind _ _ _ _ (fun '(ts', capture') evs => capture' = capture /\ exists g ts1,
      evs = [Ev (CGetRegs r) g] /\ ts' = with_in_syscall true ts1 /\ t_tid ts1 = t_tid ts /\
      match g with
      | ROk regs => note_entry fd regs (with_capturing false ts) = Some ts1
      | RErr _ => ts1 = with_capturing false ts
      end)).
    { eapply wp_bind; [apply enter_stop_run|]. cbn beta. intros ts' evs Hg.
      apply wp_ret. by rewrite app_nil_r. }
    cbn beta. intros [ts' capture'] evs (-> & g & ts1 & -> & -> & Ht1 & Hg).
    destruct (set_ok tids i ts (with_in_syscall true ts1) Hok Hi Ht1) as [Hok' Hmap].
    eapply resume_again; [done|done|]. intros x. rewrite Hmap, Htid. by eapply turn_entry.
  - case_decide as Htrap; [|case_decide as Hsigstop].
    + case_decide as Hev.
      * apply (wp_bind _ _ _ _ (fun tids' evs => exists g, evs = [Ev (CGetEventMsg r) g] /\
          tids' = match g with ROk new => (find_or_add_tid tids (i32 new)).2 | RErr _ => tids end)).
        { apply wp_call_bind. intros g _. destruct g; apply wp_ret; eauto. }
        cbn beta. intros tids' evs (g & -> & ->).
        assert (table_ok (match g with ROk new => (find_or_add_tid tids (i32 new)).2
          | RErr _ => tids end) /\
          table_map (match g with ROk new => (find_or_add_tid tids (i32 new)).2 | RErr _ => tids end)
          = match g with
            | ROk new => if decide (room (table_map tids) (i32 new))
                         then track (table_map tids) (i32 new) else table_map tids
            | RErr _ => table_map tids end) as [Hok' Hmap].
        { destruct g; [by apply clone_table|done]. }
        eapply resume_again; [done|done|]. intros x. rewrite Hmap. apply turn_clone; eauto.
      * apply run_mret_bind. apply signal_again; [|done|tauto].
        unfold forwarded. rewrite decide_True by tauto. done.
    + apply signal_again; [|done|tauto]. unfold forwarded. rewrite decide_True by tauto. done.
    + apply signal_again; [|done|tauto]. unfold forwarded. rewrite decide_False by tauto. done.
Qed.
End stop.

Definition one_wait (evs : list event) : Prop := waits evs <= 1.

Lemma detach_perm tids : table_ok tids -> t_tid <$> tids ≡ₚ (map_to_list (table_map tids)).*1.
Proof.
  intros [Hn _]. unfold table_map. rewrite map_to_list_to_map by (by rewrite keyed_fst).
  by rewrite keyed_fst.
Qed.

Lemma delete_empty_iff tids r : table_ok tids ->
  length (remove_tid tids r) = 0 <-> delete r (table_map tids) = ∅.
Proof.
  intros Hok. destruct (remove_ok tids r Hok) as [[Hn _] <-].
  rewrite <- table_size by done. by rewrite map_size_empty_iff.
Qed.

(** The table after [find_or_add_tid] found room. *)
Lemma found_room tids r i new tids' : table_ok tids ->
  find_or_add_tid tids r = (Some i, new, tids') ->
  table_ok tids' /\ room (table_map tids) r /\ table_map tids' = track (table_map tids) r /\
  delete r (table_map tids') = delete r (table_map tids) /\
  exists t, tids' !! i = Some t /\ t_tid t = r /\
    (new = false /\ tids' = tids /\ table_map tids !! r = Some t \/
     new = true /\ table_map tids !! r = None /\ size (table_map tids) < MAX_TRACKED_TIDS).
Proof.
  intros Hok Hf. pose proof (find_or_add_found tids r Hok) as H. rewrite Hf in H. unfold room, track.
  inversion H as [i' t Hi Ht Hm|Hm Hs|i' t' Hm Hs Hi Hok' Hm']; subst.
  - rewrite Hm. split_and!; eauto 10.
  - rewrite Hm, Hm'. split_and!; eauto 10. by rewrite delete_insert_eq.
Qed.

Lemma turn_ends t tids capture r status :
  table_ok tids -> length capture = max_capture -> r <> 0%Z ->
  room (table_map t) r -> table_map tids = delete r (table_map t) ->
  WIFEXITED status || WIFSIGNALED status = true ->
  turn_post t (if decide (length tids = 0) then Return 0 else Again tids capture)
    [Ev CWaitAny (ROk (r, status))].
Proof.
  intros Hok Hl Hr Hroom Hm Hg.
  pose proof (turn_gone fd max_capture reported (table_map t) r status Hr Hroom Hg) as Hspec.
  rewrite <- Hm in Hspec. pose proof (table_size tids (table_nodup _ Hok)) as Hs.
  unfold turn_post. destruct (decide (length tids = 0)) as [Hz|Hz].
  - split; [done|]. exists (LThread r). rewrite decide_True in Hspec; [done|].
    apply map_size_empty_iff. lia.
  - split; [done|]. split; [done|]. exists (LThread r). rewrite decide_False in Hspec; [done|].
    intros E. apply map_size_empty_iff in E. lia.
Qed.

Lemma trace_turn_run tids capture h : table_ok tids -> length capture = max_capture ->
  wp (trace_turn write_cb poll_cb fd max_capture tids capture) h one_wait (turn_post tids).
Proof.
  intros Hok Hl. unfold trace_turn. apply wp_call_bind. intros [[r status]|e] _.
  2: { case_decide as He; apply wp_ret; cbn.
       - subst e. split; [done|]. exists LIdle. constructor.
       - split; [done|]. split; [done|]. exists LIdle. by constructor. }
  assert (forall evs, waits evs = 0 -> one_wait (Ev CWaitAny (ROk (r, status)) :: evs)) as HI.
  { intros evs He. unfold one_wait. change (S (waits evs) <= 1). lia. }
  case_decide as Hr.
  - subst r. eapply wp_bind.
    { eapply wp_conseq; [apply poll_cb_ok| |intros go evs Hgo; exact Hgo].
      intros evs Hc. by apply HI, outside_waits. }
    cbn beta. intros [|] poll Hpoll; cbn [negb].
    + apply wp_call_bind. intros [] _. apply wp_ret. split; [done|]. split; [done|].
      exists LIdle. by constructor.
    + eapply wp_bind; [apply detach_loop_run|]. cbn beta. intros [] evs Hgo.
      apply wp_ret. rewrite app_nil_r. split; [done|]. exists (LDetach (t_tid <$> tids)).
      constructor; [done| |done]. by apply detach_perm.
  - destruct (find_or_add_tid tids r) as [[[i|] new] tids'] eqn:Ef.
    2: { apply wp_call_bind. intros [] _. apply wp_ret.
         pose proof (find_or_add_found tids r Hok) as Hf. rewrite Ef in Hf.
         inversion Hf; subst. split; [done|]. split; [done|]. exists LIdle. by constructor. }
    destruct (found_room tids r i new tids' Hok Ef)
      as (Hok' & Hroom & Hm & Hdel & t & Ht & Htid & Hnew).
    destruct (WIFEXITED status || WIFSIGNALED status) eqn:Hg.
    { destruct (remove_ok tids' r Hok') as [Hok2 Hm2]. rewrite Hdel in Hm2.
      pose proof (turn_ends tids (remove_tid tids' r) capture r status Hok2 Hl Hr Hroom
        Hm2 Hg) as Hpost.
      case_decide; by apply wp_ret. }
    destruct (WIFSTOPPED status) eqn:Hs; cbn [negb].
    2: { apply wp_ret. split; [done|]. split; [done|]. exists (LThread r). rewrite Hm.
         by constructor. }
    destruct Hnew as [(-> & -> & Hmt)|(-> & Hmt & Hsize)].
    + apply (handle_stop_run tids i r status t capture); eauto.
    + unfold track in Hm. rewrite Hmt in Hm.
      apply (resume_again tids r status 0 tids' capture _ _ [] (LThread r)); [done|done|].
      intros x. cbn [app]. rewrite Hm. by apply turn_new.
Qed.

(** ** The session *)

Abbreviation session := (session fd max_capture reported).

(** The calls of a list of turns. *)
Definition calls (turns : list (list event * label)) : list event := turns ≫= fst.

(** A session cut short: whole turns, then part of one turn. *)
Definition cut_session (m : gmap Z tid_state_t) (evs : list event) : Prop :=
  exists turns m' rest, session m turns (Some m') /\ evs = calls turns ++ rest /\ one_wait rest.

Lemma calls_snoc turns evs l : calls (turns ++ [(evs, l)]) = calls turns ++ evs.
Proof. unfold calls. rewrite bind_app. cbn. by rewrite app_nil_r. Qed.

Lemma trace_loop_from m0 fuel : forall tids capture turns h,
  table_ok tids -> length capture = max_capture ->
  session m0 turns (Some (table_map tids)) ->
  wp (trace_loop fuel write_cb poll_cb fd max_capture tids capture) h
    (fun evs => cut_session m0 (calls turns ++ evs))
    (fun rc evs => rc = 0%Z /\ exists turns', session m0 (turns ++ turns') None /\
                   evs = calls turns').
Proof.
  induction fuel as [|fuel IH]; intros tids capture turns h Hok Hl Hsession; cbn [trace_loop].
  { apply wp_fuel. exists turns, (table_map tids), []. split_and!; [done..|]. unfold one_wait. cbn. lia. }
  eapply wp_bind.
  { eapply wp_conseq; [by apply trace_turn_run| |intros t evs Ht; exact Ht].
    intros evs Hone. exists turns, (table_map tids), evs. done. }
  cbn beta. intros [rc|tids' capture'] evs Ht.
  - destruct Ht as [-> [l Hturn]]. apply wp_ret. rewrite app_nil_r. split; [done|].
    exists [(evs, l)]. split; [by eapply session_turn|]. cbn. by rewrite app_nil_r.
  - destruct Ht as (Hok' & Hl' & l & Hturn).
    pose proof (session_turn _ _ _ _ _ _ _ _ _ Hsession Hturn) as Hsession'.
    eapply wp_conseq; [apply (IH tids' capture' _ _ Hok' Hl' Hsession')| |].
    + intros evs' Hc. rewrite calls_snoc, <- app_assoc in Hc. done.
    + intros rc evs' (-> & turns' & Hs & ->). split; [done|].
      exists ((evs, l) :: turns'). split; [|done]. by rewrite <- app_assoc in Hs.
Qed.
End refinement.

(** ** Every stop is answered *)

(** Checks that no wait happens while a stopped thread has not been resumed,
    and that only the thread that stopped is resumed; the result is the
    thread still stopped at the end. *)
Fixpoint answered (pending : option Z) (evs : list event) : option (option Z) :=
  match evs with
  | [] => Some pending
  | Ev c x :: evs =>
      match c in call R return R -> option (option Z) with
      | CWaitAny => fun x =>
          match pending with
          | Some _ => None
          | None => match x with
                    | ROk (r, status) =>
                        answered (if decide (r <> 0%Z /\ WIFSTOPPED status = true)
                                  then Some r else None) evs
                    | RErr _ => answered None evs
                    end
          end
      | CSyscall r _ => fun _ =>
          if decide (pending = Some r) then answered None evs else None
      | CCont r => fun _ =>
          if decide (pending = Some r \/ pending = None) then answered None evs else None
      | _ => fun _ => answered pending evs
      end x
  end.

Definition neutral (e : event) : bool :=
  match e with
  | Ev c _ => match c with CWaitAny | CSyscall _ _ | CCont _ => false | _ => true end
  end.

Lemma answered_app evs : forall pending evs',
  answered pending (evs ++ evs') = pending' ← answered pending evs; answered pending' evs'.
Proof.
  induction evs as [|[R c x] evs IH]; intros pending evs'; [done|]. cbn [app answered].
  destruct c; try apply IH.
  - by case_decide.
  - by case_decide.
  - destruct pending; [done|]. destruct x as [[r status]|]; apply IH.
Qed.

Lemma answered_neutral evs pending : Forall (fun e => neutral e = true) evs ->
  answered pending evs = Some pending.
Proof. induction 1 as [|[R c x] evs He _ IH]; [done|]. destruct c; done. Qed.

Lemma outside_neutral evs : outside evs -> Forall (fun e => neutral e = true) evs.
Proof. intros H. eapply Forall_impl; [done|]. intros [R c x] He. by destruct c. Qed.

Lemma stopped_not_gone status : WIFSTOPPED status = true ->
  WIFEXITED status || WIFSIGNALED status = false.
Proof.
  unfold WIFSTOPPED, WIFEXITED, WIFSIGNALED. intros H. apply Z.eqb_eq in H.
  assert (Z.land status 0x7f = 0x7f)%Z as ->.
  { change 0x7f%Z with (Z.land 0xff 0x7f) at 1. by rewrite Z.land_assoc, H. }
  done.
Qed.

Section answered.
Context {A : Arch} (fd : Z) (max_capture : nat) (reported : report -> list event -> Prop).

Lemma segments_neutral r iovs total evs data :
  segments max_capture r iovs total evs data -> Forall (fun e => neutral e = true) evs.
Proof. induction 1; [constructor|done|by constructor]. Qed.

Lemma payload_neutral r ret ts evs data :
  payload max_capture r ret ts evs data -> Forall (fun e => neutral e = true) evs.
Proof.
  intros H. inversion H as [| | |x evs' data' ? ? ? Hs]; subst; try by repeat constructor.
  apply segments_neutral in Hs. by constructor.
Qed.

Lemma let_go_neutral l evs : let_go l evs -> Forall (fun e => neutral e = true) evs.
Proof. induction 1; by repeat constructor. Qed.

(** One turn takes a stop and answers it. *)
Lemma turn_answered m evs l m' : turn_spec fd max_capture reported m evs l m' ->
  answered None evs = Some None.
Proof.
  intros H.
  assert (forall r status mid sig x, r <> 0%Z -> WIFSTOPPED status = true ->
    Forall (fun e => neutral e = true) mid ->
    answered None (Ev CWaitAny (ROk (r, status)) :: mid ++ [Ev (CSyscall r sig) x]) = Some None)
    as Hstop.
  { intros r status mid sig x Hr Hs Hmid. cbn [answered]. rewrite decide_True by done.
    rewrite answered_app, answered_neutral by done. cbn. by rewrite decide_True. }
  inversion H as [|e|status poll Hp|status poll l' evs' Hp Hl Hgo|r status Hr Hm|r status Hr Hro Hg
    |r status Hr Hro Hg Hs|r status x Hr Hm Hsz Hg Hs|r status ts g ts' x Hr Hg Hs
    |r status ts evs' x Hr Hg Hs H80 Hm Hin Hc
    |r status ts regs ret reads data cb x Hr Hg Hs H80 Hm Hin Hc Hret Hpay Hd Hcb Hrep
    |r status g x Hr Hg Hs|r status x Hr Hg Hs]; subst.
  - done.
  - done.
  - cbn [answered]. rewrite decide_False by tauto.
    apply answered_neutral, Forall_app. split; [by apply outside_neutral|by repeat constructor].
  - cbn [answered]. rewrite decide_False by tauto.
    apply answered_neutral, Forall_app. split; [by apply outside_neutral|by eapply let_go_neutral].
  - cbn [answered]. rewrite decide_True; [done|]. case_decide; auto.
  - cbn [answered]. rewrite decide_False; [done|]. intros [_ Hs].
    apply stopped_not_gone in Hs. congruence.
  - cbn [answered]. rewrite decide_False; [done|]. intros [_ ?]. congruence.
  - by apply (Hstop r status []).
  - apply (Hstop r status [Ev (CGetRegs r) g]); [done|done|by repeat constructor].
  - apply Hstop; [done|done|]. destruct Hc as [[_ ->]|(_ & e & ->)]; by repeat constructor.
  - rewrite (app_assoc reads), app_comm_cons. apply Hstop; [done|done|].
    constructor; [done|]. apply Forall_app.
    split; [by eapply payload_neutral|by apply outside_neutral].
  - apply (Hstop r status [Ev (CGetEventMsg r) g]); [done|done|by repeat constructor].
  - by apply (Hstop r status []).
Qed.

Lemma session_answered m0 turns m : session fd max_capture reported m0 turns m ->
  answered None (calls turns) = Some None.
Proof.
  induction 1 as [|turns m evs l m' _ IH Ht]; [done|].
  rewrite calls_snoc, answered_app, IH. by eapply turn_answered.
Qed.
End answered.
