(* ===== verification/TraceProps.v ===== *)
(** * tracer.c, the properties of a session

    The run of [hsed_trace_fd] from the first attachment on: it refines the
    transition system of Session.v, answers every stop, reports a write only
    after the entry stop of that write, and leaves no thread behind when the
    attachment of one fails. *)

From stdpp Require Import gmap.
From S2P Require Import Prelude CLib Kernel ProcRead Reclaim Tids Tracer Session.

(** ** A report follows its entry *)

Section reports.
Context {A : Arch} (fd : Z) (max_capture : nat) (reported : report -> list event -> Prop).

Abbreviation session := (session fd max_capture reported).

Definition syscall_stop (r : Z) (l : label) : Prop :=
  match l with
  | LEntry r' _ => r' = r
  | LExit r' _ => r' = r
  | _ => False
  end.

(** The last system-call stop of [r] in [turns] is an entry whose registers
    name a write to [fd], and [ts] remembers its arguments. *)
Definition entered (turns : list (list event * label)) (r : Z) (ts : tid_state_t) : Prop :=
  exists pre evs regs mid scno,
    turns = pre ++ (evs, LEntry r (Some regs)) :: mid /\
    Forall (fun t => ~ syscall_stop r t.2) mid /\
    reg_syscall_nr regs = Some scno /\ is_write_call scno = true /\
    reg_arg1 regs = Some fd /\ reg_arg2 regs = Some (t_pending_buf_addr ts) /\
    t_pending_is_writev ts = bool_decide (scno = SYS_writev) /\
    (t_pending_is_writev ts = true -> reg_arg3 regs = Some (t_pending_iovcnt ts)).

Lemma entered_later turns r ts evs l : ~ syscall_stop r l -> entered turns r ts ->
  entered (turns ++ [(evs, l)]) r ts.
Proof.
  intros Hl (pre & evs1 & regs & mid & scno & -> & Hmid & Hrest).
  exists pre, evs1, regs, (mid ++ [(evs, l)]), scno. rewrite <- app_assoc. split; [done|].
  split; [|done]. apply Forall_app. split; [done|]. by constructor.
Qed.

Lemma note_entry_capturing regs ts ts' : t_capturing ts = false ->
  note_entry fd regs ts = Some ts' -> t_capturing ts' = true ->
  exists scno, reg_syscall_nr regs = Some scno /\ is_write_call scno = true /\
    reg_arg1 regs = Some fd /\ reg_arg2 regs = Some (t_pending_buf_addr ts') /\
    t_pending_is_writev ts' = bool_decide (scno = SYS_writev) /\
    (t_pending_is_writev ts' = true -> reg_arg3 regs = Some (t_pending_iovcnt ts')).
Proof.
  intros Hc H Hc'. unfold note_entry in H.
  destruct (reg_syscall_nr regs) as [scno|]; [|done]. rewrite some_bind in H.
  destruct (reg_arg1 regs) as [arg1|]; [|done]. rewrite some_bind in H.
  destruct (is_write_call scno) eqn:Hw; cbn [andb] in H; [|congruence].
  destruct (bool_decide_reflect (arg1 = fd)) as [->|]; [|congruence].
  destruct (reg_arg2 regs) as [addr|]; [|done]. rewrite some_bind in H.
  destruct (reg_arg3 regs) as [arg3|]; [|done]. rewrite some_bind in H.
  injection H as <-. cbn. exists scno. split_and!; try done. by intros ->.
Qed.

(** Every capturing thread entered its write. *)
Definition history_ok (turns : list (list event * label)) (m : gmap Z tid_state_t) : Prop :=
  forall r ts, m !! r = Some ts -> t_capturing ts = true -> entered turns r ts.

Lemma history_track turns m r evs l : (forall r, ~ syscall_stop r l) ->
  history_ok turns m -> history_ok (turns ++ [(evs, l)]) (track m r).
Proof.
  intros Hl Hh r' ts Hm Hc. apply entered_later; [done|]. unfold track in Hm.
  destruct (m !! r) eqn:E; [by apply Hh|].
  apply lookup_insert_Some in Hm as [[<- <-]|[_ Hm]]; [done|by apply Hh].
Qed.

Lemma history_same turns m evs l : (forall r, ~ syscall_stop r l) ->
  history_ok turns m -> history_ok (turns ++ [(evs, l)]) m.
Proof. intros Hl Hh r ts Hm Hc. apply entered_later; [done|]. by apply Hh. Qed.

Lemma history_set turns m r evs l ts : (forall r', r' <> r -> ~ syscall_stop r' l) ->
  history_ok turns m -> (t_capturing ts = true -> entered (turns ++ [(evs, l)]) r ts) ->
  history_ok (turns ++ [(evs, l)]) (<[r := ts]> m).
Proof.
  intros Hl Hh Hts r' ts' Hm Hc. apply lookup_insert_Some in Hm as [[<- <-]|[Hne Hm]].
  - by apply Hts.
  - apply entered_later; [by apply Hl|]. by apply Hh.
Qed.

Lemma session_history m0 turns m : history_ok [] m0 ->
  session m0 turns (Some m) -> history_ok turns m.
Proof.
  intros H0 Hs. remember (Some m) as om eqn:Em. revert m Em.
  induction Hs as [|turns m1 evs l m' Hs IH Ht]; intros m Em; [by simplify_eq|]. subst m'.
  specialize (IH m1 eq_refl).
  inversion Ht as [|e|status poll Hp|status poll l' evs' Hp Hl Hgo|r status Hr Hm|r status Hr Hro Hg Eg
    |r status Hr Hro Hg Hsp|r status x Hr Hm Hsz Hg Hsp|r status ts g ts' x Hr Hg Hsp H80 Hm Hin Hn
    |r status ts evs' x Hr Hg Hsp H80 Hm Hin Hc
    |r status ts regs ret reads data cb x Hr Hg Hsp H80 Hm Hin Hc Hret Hpay Hd Hcb Hrep
    |r status g x Hr Hg Hsp|r status x Hr Hg Hsp]; subst;
    try (by apply history_same; [intros ? []|]).
  - case_decide; simplify_eq. intros r' ts Hm Hc. apply lookup_delete_Some in Hm as [_ Hm].
    apply entered_later; [by intros []|]. by apply IH.
  - by apply history_track; [intros ? []|].
  - apply history_set; [by intros ? ? []|done|done].
  - apply history_set; [by intros r' Hne <-|done|]. intros Hc. cbn in Hc.
    destruct g as [regs|e]; [|subst ts'; done].
    destruct (note_entry_capturing _ _ _ (eq_refl : t_capturing (with_capturing false ts) = false)
      Hn Hc) as (scno & Hrest).
    eexists turns, _, regs, [], scno. done.
  - apply history_set; [by intros r' Hne <-|done|done].
  - apply history_set; [by intros r' Hne <-|done|done].
  - destruct g as [new|e]; [|by apply history_same; [intros ? []|]].
    case_decide; [by apply history_track; [intros ? []|]|by apply history_same; [intros ? []|]].
Qed.

(** The entry a reported write was announced by. *)
Definition report_ok (turns : list (list event * label)) (r : Z) (evs : list event)
    (rep : report) : Prop :=
  exists ts regs reads cb rest status,
    entered turns r ts /\ rp_tid rep = r /\ rp_is_writev rep = t_pending_is_writev ts /\
    evs = Ev CWaitAny (ROk (r, status)) :: Ev (CGetRegs r) (ROk regs) :: reads ++ cb ++ rest /\
    reg_ret regs = Some (rp_ret rep) /\
    payload max_capture r (rp_ret rep) ts reads (rp_data rep) /\
    length (rp_data rep) <= max_capture /\ reported rep cb.

Lemma session_reports m0 turns m pre evs r rep post : history_ok [] m0 ->
  session m0 turns m -> turns = pre ++ (evs, LExit r (Some rep)) :: post ->
  report_ok pre r evs rep.
Proof.
  intros H0 Hs. revert pre evs r rep post.
  induction Hs as [|turns m1 evs1 l m' Hs IH Ht]; intros pre evs r rep post E.
  { by destruct pre. }
  destruct post as [|t post _] using rev_ind.
  - apply app_inj_tail in E as [-> [= -> ->]].
    inversion Ht as [| | | | | | | | |
      |r' status ts regs ret reads data cb x Hr Hg Hsp H80 Hm Hin Hc Hret Hpay Hd Hcb Hrep
      | |]; subst.
    pose proof (session_history _ _ _ H0 Hs r ts Hm Hc) as He.
    exists ts, regs, reads, cb, [Ev (CSyscall r 0) x], status. done.
  - rewrite app_comm_cons, app_assoc in E. apply app_inj_tail in E as [-> _].
    by eapply IH.
Qed.
End reports.

(** ** Attaching *)

(** The threads seized and not yet detached. *)
Definition tracee_step (S : gset Z) (e : event) : gset Z :=
  match e with
  | Ev c x =>
      match c in call R return R -> gset Z with
      | CSeize tid _ => fun x => match x with ROk _ => {[tid]} ∪ S | RErr _ => S end
      | CDetach tid => fun _ => S ∖ {[tid]}
      | _ => fun _ => S
      end x
  end.

Definition tracees (S : gset Z) (evs : list event) : gset Z := foldl tracee_step S evs.

Lemma tracees_app S evs evs' : tracees S (evs ++ evs') = tracees (tracees S evs) evs'.
Proof. apply foldl_app. Qed.

Lemma tracees_outside S evs : outside evs -> tracees S evs = S.
Proof.
  unfold tracees. revert S. induction evs as [|[R c x] evs IH]; intros S H; [done|].
  apply Forall_cons_1 in H as [He H]. cbn [foldl]. destruct c; try done; by apply IH.
Qed.

Definition idle (m : gmap Z tid_state_t) : Prop := forall r ts, m !! r = Some ts -> ts = new_tid r.

Definition known (tids : list tid_state_t) : gset Z := dom (table_map tids).

Section attach.
Context {K : Kernel}.

Lemma seize_loop_run tid n : forall h I,
  wp (seize_loop tid n) h I (fun rc evs => forall S,
    rc = 0%Z /\ tracees S evs = {[tid]} ∪ S \/ rc = (-1)%Z /\ tracees S evs = S).
Proof.
  induction n as [|n IH]; intros h I; cbn [seize_loop]; [apply wp_ret; by right|].
  apply wp_call_bind. intros [[]|e] _; [apply wp_ret; by left|].
  case_decide; [apply wp_ret; by right|].
  apply wp_call_bind. intros [] _. apply IH.
Qed.

(** A table of idle threads and the threads it keeps attached. *)
Definition attached (tids : list tid_state_t) (S : gset Z) : Prop :=
  table_ok tids /\ idle (table_map tids) /\ S = known tids.

Lemma attach_tid_run tids tid h I : attached tids (known tids) -> tid ∉ known tids ->
  wp (attach_tid tids tid) h I (fun tids' evs =>
    attached tids' (tracees (known tids) evs) /\ known tids' ⊆ {[tid]} ∪ known tids).
Proof.
  intros (Hok & Hidle & _) Hnew.
  assert (({[tid]} ∪ known tids) ∖ {[tid]} = known tids) as Hback by set_solver.
  unfold attach_tid. eapply wp_bind; [apply seize_loop_run|]. cbn beta. intros rc evs Hseize.
  destruct (Hseize (known tids)) as [[-> Hin]|[-> Hout]].
  2: { rewrite decide_True by lia. apply wp_ret. rewrite app_nil_r, Hout. split; [done|set_solver]. }
  rewrite decide_False by lia.
  assert (forall h I evs' tids', attached tids' (known tids') -> known tids' = known tids ->
    (forall S, tracees S evs' = S) ->
    wp (_ ← syscall (CDetach tid); mret tids') h I (fun tids'' evs'' =>
      attached tids'' (tracees (known tids) (evs ++ evs' ++ evs'')) /\
      known tids'' ⊆ {[tid]} ∪ known tids)) as Hdetach.
  { clear h I. intros h I evs' tids' (? & ? & _) Hk Hneutral. apply wp_call_bind. intros x _.
    apply wp_ret. rewrite !tracees_app, Hin, Hneutral. cbn. rewrite Hback.
    split; [done|]. set_solver. }
  apply wp_call_bind. intros [[]|e] _; [|by apply (Hdetach _ _ [_])].
  apply wp_call_bind. intros w _. cbv zeta.
  match goal with |- context [negb ?b] => destruct b; cbn [negb] end;
    [|by apply (Hdetach _ _ [_; _])].
  assert (table_map tids !! tid = None) as Hnone by (by apply not_elem_of_dom).
  pose proof (find_or_add_found tids tid Hok) as Hf.
  destruct Hf as [i t Hi Ht Hm|Hm Hs|i tids' Hm Hs Hi Hok' Hm']; [congruence| |].
  - by apply (Hdetach _ _ [_; _]).
  - assert (idle (table_map tids')) as Hidle'.
    { rewrite Hm'. intros r ts Hr. apply lookup_insert_Some in Hr as [[<- <-]|[_ Hr]]; [done|].
      by apply Hidle. }
    apply wp_call_bind. intros [[]|e] _.
    + apply wp_ret. rewrite !tracees_app, Hin. cbn. unfold known. rewrite Hm', dom_insert_L.
      split; [|done]. split; [done|]. split; [done|]. unfold known.
      by rewrite Hm', dom_insert_L.
    + destruct (remove_ok tids' tid Hok') as [Hok2 Hm2].
      rewrite Hm', delete_insert_id in Hm2 by done.
      apply (Hdetach _ _ [_; _; _]).
      * split; [done|]. split; [by rewrite Hm2|done].
      * unfold known. by rewrite Hm2.
      * done.
Qed.

Lemma attach_loop_run discovered : forall tids h I,
  NoDup discovered -> attached tids (known tids) ->
  (forall tid, tid ∈ discovered -> tid ∉ known tids) ->
  wp (attach_loop discovered tids) h I (fun tids' evs =>
    attached tids' (tracees (known tids) evs)).
Proof.
  induction discovered as [|tid l IH]; intros tids h I Hn Hat Hnew; cbn [attach_loop].
  { by apply wp_ret. }
  apply NoDup_cons in Hn as [Hnotin Hn].
  eapply wp_bind; [apply attach_tid_run; [done|]; apply Hnew; by left|]. cbn beta.
  intros tids' evs [Hat' Hsub]. pose proof Hat' as (Hok' & Hidle' & HS).
  eapply wp_mono; [apply IH; [done|done|]|].
  - intros t Ht Hin. apply Hsub, elem_of_union in Hin as [Hin%elem_of_singleton|Hin].
    + by subst t.
    + eapply Hnew; [|done]. by right.
  - cbn beta. intros tids'' evs' Hat''. by rewrite tracees_app, HS.
Qed.

Lemma detach_loop_tracees l S evs : let_go l evs -> tracees S evs = S ∖ list_to_set l.
Proof.
  intros H. revert S. induction H as [|tid l w evs _ IH|tid l e evs _ IH]; intros S; cbn.
  - set_solver.
  - change (tracees (S ∖ {[tid]}) evs = S ∖ ({[tid]} ∪ list_to_set l)). rewrite IH. set_solver.
  - change (tracees (S ∖ {[tid]}) evs = S ∖ ({[tid]} ∪ list_to_set l)). rewrite IH. set_solver.
Qed.
End attach.

(** ** The whole of [hsed_trace_fd] *)

(** The names in a task directory are the decimal numbers of distinct threads. *)
Class TaskLaws (K : Kernel) : Prop :=
  task_names path h names : answer (COpendir path) h = ROk names ->
    NoDup (discover_loop names [] MAX_TRACKED_TIDS).

(** The size of the capture array. *)
Definition capture_limit (max_capture : Z) : Z :=
  if decide (max_capture = 0)%Z then 200%Z
  else if decide (MAX_CAPTURE_HARD_LIMIT < max_capture)%Z
  then MAX_CAPTURE_HARD_LIMIT else max_capture.
Definition capture_size (max_capture : Z) : nat := Z.to_nat (capture_limit max_capture).

Lemma idle_history m : idle m -> forall fd `{Arch}, history_ok fd [] m.
Proof. intros Hi fd HA r ts Hm Hc. apply Hi in Hm. by subst ts. Qed.

Section whole.
Context {K : Kernel} {A : Arch} {AL : ArchLaws A} {TL : TraceLaws K A} {TK : TaskLaws K}.
Context (fd max_capture : Z) (reported : report -> list event -> Prop).
Context (write_cb : write_fn) (poll_cb : prog bool) (attached_cb : prog unit).
Context (write_cb_ok : forall h r ret capture data w rest,
  capture = (Some <$> data) ++ rest -> length capture = capture_size max_capture ->
  wp (write_cb r ret capture (length data) w) h cut
    (fun _ evs => outside evs /\ reported (mk_report r ret data w) evs)).
Context (poll_cb_ok : forall h, wp poll_cb h cut (fun _ evs => outside evs)).
Context (attached_cb_ok : forall h, wp attached_cb h cut (fun _ evs => outside evs)).

Abbreviation session := (session fd (capture_size max_capture) reported).

Definition no_threads (pid e : Z) : bytes :=
  lit "could not list threads for " ++ print_d pid ++ lit ": " ++ strerror e.
Definition no_seize (pid e : Z) : bytes :=
  lit "PTRACE_SEIZE failed for every thread of " ++ print_d pid ++ lit ": " ++ strerror e
  ++ lit " (need root/CAP_SYS_PTRACE, and /proc/sys/kernel/yama/ptrace_scope must allow it)".
Definition no_memory (n : Z) : bytes :=
  lit "out of memory allocating a " ++ print_u 10 n ++ lit "-byte capture buffer".

(** The reasons it gives for a failure. *)
Inductive trace_failure (pid : Z) : bytes -> Prop :=
  | failed_threads e : trace_failure pid (no_threads pid e)
  | failed_seize e : trace_failure pid (no_seize pid e)
  | failed_memory : trace_failure pid (no_memory (capture_limit max_capture)).

(** The attachment: calls that leave exactly the threads of [m] attached. *)
Definition attachment (pre : list event) (m : gmap Z tid_state_t) : Prop :=
  waits pre = 0 /\ idle m /\ m <> ∅ /\ tracees ∅ pre = dom m.

(** How it ends: a session; or no thread attached and the reason in the
    caller's array. *)
Definition trace_done (pid : Z) (errbuf : buf) (errlen : nat) (res : Z * buf)
    (evs : list event) : Prop :=
  res.1 = 0%Z /\ (exists pre m turns, attachment pre m /\ session m turns None /\
                   evs = pre ++ calls turns) \/
  res.1 = (-1)%Z /\ tracees ∅ evs = ∅ /\
    exists msg, trace_failure pid msg /\ message errbuf errlen msg res.2.

Definition trace_cut (evs : list event) : Prop :=
  waits evs = 0 \/ exists pre m rest, attachment pre m /\ evs = pre ++ rest /\
    cut_session fd (capture_size max_capture) reported m rest.

Lemma discover_run pid n h I : n = MAX_TRACKED_TIDS -> in_s 32 pid ->
  wp (discover_tids pid n) h I (fun d evs => outside evs /\
    match d with Some l => NoDup l | None => True end).
Proof.
  intros -> Hp. unfold discover_tids.
  assert (sformat 64 (lit "/proc/%d/task") [AInt pid]
    = Some (lit "/proc/" ++ print_d pid ++ lit "/task")) as Hs.
  { assert (format (lit "/proc/%d/task") [AInt pid]
      = Some (lit "/proc/" ++ print_d pid ++ lit "/task")) as Hf by format_now.
    apply sformat_fits; [done| |].
    - rewrite !Forall_app. split_and!; (by apply lit_no_nul) || apply print_d_no_nul.
    - apply print_pid_length in Hp. rewrite !length_app, !length_lit. cbn. lia. }
  eapply wp_pure_bind; [exact Hs|]. apply wp_call_bind. intros [names|e] Hx; apply wp_ret.
  - split; [by repeat constructor|]. eapply task_names. symmetry. exact Hx.
  - split; [by repeat constructor|done].
Qed.

Lemma attach_loop_waits l : forall tids h I,
  wp (attach_loop l tids) h I (fun _ evs => waits evs = 0).
Proof.
  assert (forall tid n h I, wp (seize_loop tid n) h I (fun _ evs => waits evs = 0)) as Hseize.
  { intros tid n. induction n as [|n IH]; intros h I; cbn [seize_loop]; [by apply wp_ret|].
    apply wp_call_bind. intros [[]|e] _; [by apply wp_ret|]. case_decide; [by apply wp_ret|].
    apply wp_call_bind. intros [] _. apply IH. }
  induction l as [|tid l IH]; intros tids h I; cbn [attach_loop]; [by apply wp_ret|].
  apply (wp_bind _ _ _ _ (fun _ evs => waits evs = 0)).
  - unfold attach_tid. eapply wp_bind; [apply Hseize|]. cbn beta. intros rc evs Hevs.
    assert (forall evs', waits evs' = 0 -> waits (evs ++ evs') = 0) as Hadd
      by (intros; rewrite waits_app; lia).
    case_decide; [apply wp_ret; by apply Hadd|].
    apply wp_call_bind. intros [[]|e] _;
      [|apply wp_call_bind; intros [] _; apply wp_ret; by apply Hadd].
    apply wp_call_bind. intros w _. cbv zeta.
    match goal with |- context [negb ?b] => destruct b; cbn [negb] end;
      [|apply wp_call_bind; intros [] _; apply wp_ret; by apply Hadd].
    destruct (find_or_add_tid tids tid) as [[[i|] new] tids'];
      [|apply wp_call_bind; intros [] _; apply wp_ret; by apply Hadd].
    apply wp_call_bind. intros [[]|e] _; [apply wp_ret; by apply Hadd|].
    apply wp_call_bind. intros [] _. apply wp_ret. by apply Hadd.
  - cbn beta. intros tids' evs Hevs. eapply wp_mono; [apply IH|]. cbn beta.
    intros tids'' evs' Hevs'. rewrite waits_app. lia.
Qed.

Lemma message_written errbuf errlen fmt args msg h I : format fmt args = Some msg ->
  0 < errlen <= length errbuf ->
  wp ('(errbuf, _) ← pure (snprintf errbuf errlen fmt args); mret ((-1)%Z, errbuf)) h I
    (fun res evs => res.1 = (-1)%Z /\ message errbuf errlen msg res.2 /\ evs = []).
Proof.
  intros Hf Hl. destruct (snprintf_message errbuf errlen fmt args msg Hf Hl) as (b & Hb & Hm).
  eapply wp_pure_bind; [exact Hb|]. by apply wp_ret.
Qed.

Lemma format_no_threads pid e :
  format (lit "could not list threads for %d: %s") [AInt pid; AStr (strerror e)]
  = Some (no_threads pid e).
Proof. unfold no_threads. format_tail. Qed.

Lemma format_no_seize pid e :
  format (lit "PTRACE_SEIZE failed for every thread of %d: %s (need root/CAP_SYS_PTRACE, "
          ++ lit "and /proc/sys/kernel/yama/ptrace_scope must allow it)")
    [AInt pid; AStr (strerror e)]
  = Some (no_seize pid e).
Proof. unfold no_seize. format_now. Qed.

Lemma format_no_memory n :
  format (lit "out of memory allocating a %zu-byte capture buffer") [ASize n]
  = Some (no_memory n).
Proof. unfold no_memory. format_now. Qed.

Lemma capture_limit_eq :
  (let max_capture := if decide (max_capture = 0)%Z then 200%Z else max_capture in
   if decide (MAX_CAPTURE_HARD_LIMIT < max_capture)%Z then MAX_CAPTURE_HARD_LIMIT else max_capture)
  = capture_limit max_capture.
Proof. unfold capture_limit, MAX_CAPTURE_HARD_LIMIT. cbv zeta. repeat case_decide; lia. Qed.

(** From the attached threads on. *)
Lemma traced_run fuel tids pre pid errbuf errlen h size :
  size = capture_limit max_capture -> 0 < errlen <= length errbuf ->
  attached tids (tracees ∅ pre) -> waits pre = 0 -> length tids <> 0 ->
  wp (_ ← attached_cb;
      ok ← syscall (CMalloc size);
      if (ok : bool) then
        rc ← trace_loop fuel write_cb poll_cb fd (Z.to_nat size) tids (alloca (Z.to_nat size));
        mret (rc, errbuf)
      else
        '(errbuf, _) ← pure (snprintf errbuf errlen
           (lit "out of memory allocating a %zu-byte capture buffer") [ASize size]);
        _ ← detach_loop tids;
        mret ((-1)%Z, errbuf)) h
    (fun evs => trace_cut (pre ++ evs))
    (fun res evs => trace_done pid errbuf errlen res (pre ++ evs)).
Proof.
  intros Hlim Hl (Hok & Hidle & HS) Hpre Hne.
  assert (Z.to_nat size = capture_size max_capture) as Hsize by (by rewrite Hlim). rewrite Hsize.
  assert (table_map tids <> ∅) as Hne'.
  { intros E. apply Hne. rewrite <- table_size by apply Hok. by rewrite E. }
  assert (forall evs, outside evs -> forall x, attachment (pre ++ evs ++ [Ev (CMalloc size) x])
    (table_map tids)) as Hatt.
  { intros evs Ho x. unfold attachment. rewrite !waits_app, !tracees_app, HS.
    rewrite (outside_waits evs), (tracees_outside _ evs) by done. rewrite Hpre. done. }
  apply (wp_bind _ _ _ _ (fun _ evs => outside evs)).
  { eapply wp_conseq; [apply attached_cb_ok| |done].
    intros evs Hc. left. rewrite waits_app, (outside_waits evs) by exact Hc. lia. }
  cbn beta. intros [] cb Hcb. apply wp_call_bind. intros [|] _.
  - apply (wp_bind _ _ _ _ (fun rc evs => rc = 0%Z /\ exists turns,
      session (table_map tids) turns None /\ evs = calls turns)).
    { eapply wp_conseq;
        [apply (trace_loop_from fd (capture_size max_capture) reported write_cb poll_cb
           write_cb_ok poll_cb_ok (table_map tids) fuel tids _ []);
         [done|apply length_alloca|constructor]| |done].
      intros evs Hc. right. exists (pre ++ cb ++ [Ev (CMalloc size) true]), (table_map tids), evs.
      split_and!; [by apply Hatt| |exact Hc]. by rewrite <- !app_assoc. }
    cbn beta. intros rc evs (-> & turns & Hs & ->). apply wp_ret. left. split; [done|].
    exists (pre ++ cb ++ [Ev (CMalloc size) true]), (table_map tids), turns.
    split_and!; [by apply Hatt|done|]. rewrite app_nil_r, <- !app_assoc. done.
  - destruct (snprintf_message errbuf errlen _ _ _ (format_no_memory size) Hl) as (b & Hb & Hm).
    eapply wp_pure_bind; [exact Hb|].
    eapply wp_bind; [apply detach_loop_run|]. cbn beta. intros [] evs Hgo.
    apply wp_ret. right. split; [done|]. rewrite app_nil_r.
    split; [|eexists; split; [constructor|by rewrite <- Hlim]].
    rewrite !tracees_app, HS, (tracees_outside _ cb) by done. cbn [app tracees foldl tracee_step].
    change (tracees (known tids) evs = ∅). rewrite (detach_loop_tracees _ _ _ Hgo).
    apply set_eq. intros t. rewrite elem_of_difference, elem_of_list_to_set. unfold known.
    rewrite elem_of_dom, <- not_eq_None_Some, table_lookup_none.
    destruct (decide (t ∈ (t_tid <$> tids))); set_solver.
Qed.

Lemma trace_fd_run fuel pid errbuf errlen h : in_s 32 pid -> 0 < errlen <= length errbuf ->
  wp (hsed_trace_fd fuel pid fd max_capture attached_cb poll_cb write_cb errbuf errlen) h
    trace_cut (trace_done pid errbuf errlen).
Proof.
  intros Hp Hl. unfold hsed_trace_fd. cbv zeta.
  eapply wp_bind; [by apply discover_run|]. cbn beta. intros d pre [Hout Hd].
  assert (wp (errno ← syscall CErrno;
     '(errbuf, _) ← pure (snprintf errbuf errlen (lit "could not list threads for %d: %s")
                            [AInt pid; AStr (strerror errno)]); mret ((-1)%Z, errbuf)) (h ++ pre)
     (fun evs => trace_cut (pre ++ evs))
     (fun res evs => trace_done pid errbuf errlen res (pre ++ evs))) as Hnone.
  { apply wp_call_bind. intros errno _.
    eapply wp_mono; [eapply message_written; [apply format_no_threads|done]|].
    cbn beta. intros [rc b] evs (Hrc & Hm & ->). right. split; [done|].
    split; [by rewrite tracees_app, (tracees_outside _ pre)|]. eauto using trace_failure. }
  destruct d as [[|tid l]|]; [exact Hnone| |exact Hnone].
  assert (attached [] (known [])) as H0.
  { split; [split; [constructor|cbn; lia]|]. split; [|done]. intros r ts Hr. by destruct (lookup_empty_Some r ts). }
  eapply wp_bind.
  { eapply wp_and; [|apply (attach_loop_waits _ _ _ (fun _ => True))].
    apply attach_loop_run; [done|done|]. intros t _ Hin. by apply elem_of_empty in Hin. }
  cbn beta. intros tids evs [Hat Hw].
  assert (waits (pre ++ evs) = 0) as Hpre by (by rewrite waits_app, (outside_waits pre)).
  assert (attached tids (tracees ∅ (pre ++ evs))) as Hat'
    by (by rewrite tracees_app, (tracees_outside _ pre)).
  destruct (decide (length tids = 0)) as [Hz|Hz].
  - apply wp_call_bind. intros errno _.
    eapply wp_mono; [eapply message_written; [apply format_no_seize|done]|].
    cbn beta. intros [rc b] evs' (Hrc & Hm & ->). right. split; [done|].
    split; [|eauto using trace_failure]. destruct Hat' as (_ & _ & HS). apply nil_length_inv in Hz. subst tids.
    rewrite (app_assoc pre), tracees_app, HS. done.
  - eapply wp_conseq; [by apply (traced_run fuel tids (pre ++ evs) pid errbuf errlen _ _
                                   capture_limit_eq)| |].
    + intros evs' Hc. cbn beta in *. by rewrite (app_assoc pre).
    + intros res evs' Hc. cbn beta in *. by rewrite (app_assoc pre).
Qed.
End whole.

(** ** Properties *)

(** A run cut short by the fuel: the stops of its whole turns are answered. *)
Definition stops_answered (evs : list event) : Prop :=
  exists pre mid rest, evs = pre ++ mid ++ rest /\ waits pre = 0 /\ one_wait rest /\
    answered None mid = Some None.

Definition reports_ok `{Arch} (fd : Z) (size : nat) (reported : report -> list event -> Prop)
    (turns : list (list event * label)) : Prop :=
  forall pre evs r rep post, turns = pre ++ (evs, LExit r (Some rep)) :: post ->
    report_ok fd size reported pre r evs rep.

Section properties.
Context {K : Kernel} {A : Arch}.

(** The callbacks a session is given: they make no ptrace call, and
    [reported rep evs] says that [evs] are the calls that report [rep]. *)
Record callbacks_ok (size : nat) (reported : report -> list event -> Prop)
    (attached_cb : prog unit) (poll_cb : prog bool) (write_cb : write_fn) : Prop := {
  cb_write h r ret capture data w rest :
    capture = (Some <$> data) ++ rest -> length capture = size ->
    wp (write_cb r ret capture (length data) w) h cut
      (fun _ evs => outside evs /\ reported (mk_report r ret data w) evs);
  cb_poll h : wp poll_cb h cut (fun _ evs => outside evs);
  cb_attached h : wp attached_cb h cut (fun _ evs => outside evs) }.

(** C7: On every kernel, [hsed_trace_fd] has no undefined behaviour.  It fails
    with no thread left attached; or it attaches to a set of threads, all of
    whose attached threads are in its table, and from then on every turn of
    its loop is a transition of the session of Session.v, up to the one that
    ends it, where it returns 0.  A failure leaves its reason in the caller's
    array. *)
Theorem trace_fd_correct {AL : ArchLaws A} {TL : TraceLaws K A} {TK : TaskLaws K}
    (fuel : nat) (pid fd max_capture : Z) (reported : report -> list event -> Prop)
    (attached_cb : prog unit) (poll_cb : prog bool) (write_cb : write_fn)
    (errbuf : buf) (errlen : nat) (h : hist) :
  callbacks_ok (capture_size max_capture) reported attached_cb poll_cb write_cb ->
  in_s 32 pid -> 0 < errlen <= length errbuf ->
  wp (hsed_trace_fd fuel pid fd max_capture attached_cb poll_cb write_cb errbuf errlen) h
    (trace_cut fd max_capture reported) (trace_done fd max_capture reported pid errbuf errlen).
Proof. intros [H1 H2 H3] Hp Hl. by apply trace_fd_run. Qed.

(** C5: Whatever the threads, the client and the kernel do, every stop the loop
    takes off the queue is answered by resuming exactly that thread, once,
    before the next one is taken. *)
Theorem trace_stops_answered {AL : ArchLaws A} {TL : TraceLaws K A} {TK : TaskLaws K}
    (fuel : nat) (pid fd max_capture : Z) (reported : report -> list event -> Prop)
    (attached_cb : prog unit) (poll_cb : prog bool) (write_cb : write_fn)
    (errbuf : buf) (errlen : nat) (h : hist) :
  callbacks_ok (capture_size max_capture) reported attached_cb poll_cb write_cb ->
  in_s 32 pid -> 0 < errlen <= length errbuf ->
  wp (hsed_trace_fd fuel pid fd max_capture attached_cb poll_cb write_cb errbuf errlen) h
    stops_answered (fun res evs => res.1 = 0%Z -> stops_answered evs).
Proof.
  intros [H1 H2 H3] Hp Hl.
  eapply wp_conseq; [by apply (trace_fd_run fd max_capture reported)| |].
  - intros evs [Hw|(pre & m & rest & (Hw & _) & -> & turns & m' & last & Hs & -> & Hone)].
    + exists evs, [], []. split_and!; [by rewrite !app_nil_r|done| |done]. unfold one_wait. cbn. lia.
    + exists pre, (calls turns), last. split_and!; try done. by eapply session_answered.
  - intros [rc b] evs [[_ (pre & m & turns & (Hw & _) & Hs & ->)]|[Hrc _]] Hz;
      [|cbn in *; lia].
    exists pre, (calls turns), []. split_and!; [by rewrite app_nil_r|done| |].
    + unfold one_wait. cbn. lia.
    + by eapply session_answered.
Qed.

(** C6: In the session that follows the attachment, which began with every
    thread of it idle and before any stop was waited for, a write is reported
    only at an exit stop of a thread whose last system-call stop was the entry
    of write, pwrite64 or writev on the traced descriptor; what is reported is
    that thread, the value the exit registers hold, and the data read at the
    address the entry registers named, never more than the capture limit. *)
Theorem trace_reports_entered {AL : ArchLaws A} {TL : TraceLaws K A} {TK : TaskLaws K}
    (fuel : nat) (pid fd max_capture : Z) (reported : report -> list event -> Prop)
    (attached_cb : prog unit) (poll_cb : prog bool) (write_cb : write_fn)
    (errbuf : buf) (errlen : nat) (h : hist) :
  callbacks_ok (capture_size max_capture) reported attached_cb poll_cb write_cb ->
  in_s 32 pid -> 0 < errlen <= length errbuf ->
  wp (hsed_trace_fd fuel pid fd max_capture attached_cb poll_cb write_cb errbuf errlen) h
    (fun evs => waits evs = 0 \/
       exists pre m turns m' rest, attachment pre m /\ evs = pre ++ calls turns ++ rest /\
         one_wait rest /\
         session fd (capture_size max_capture) reported m turns (Some m') /\
         reports_ok fd (capture_size max_capture) reported turns)
    (fun res evs => res.1 = 0%Z ->
       exists pre m turns, attachment pre m /\ evs = pre ++ calls turns /\
         session fd (capture_size max_capture) reported m turns None /\
         reports_ok fd (capture_size max_capture) reported turns).
Proof.
  intros [H1 H2 H3] Hp Hl.
  eapply wp_conseq; [by apply (trace_fd_run fd max_capture reported)| |].
  - intros evs [Hw|(pre & m & rest & Hat & -> & turns & m' & last & Hs & -> & Hone)];
      [by left|right].
    exists pre, m, turns, m', last. split_and!; try done.
    intros p e r rep post E. eapply session_reports; [by apply idle_history, Hat|done|done].
  - intros [rc b] evs [[_ (pre & m & turns & Hat & Hs & ->)]|[Hrc _]] Hz;
      [|cbn in *; lia].
    exists pre, m, turns. split_and!; try done.
    intros p e r rep post E. eapply session_reports; [by apply idle_history, Hat|done|done].
Qed.
End properties.

(** ** A session *)

(** The one thread 7 of a process enters and leaves a write of five bytes to
    descriptor 3; then the client has had enough. *)
Definition write_regs : list Z :=
  <[10 := 5%Z]> (<[12 := 5%Z]> (<[13 := 4096%Z]> (<[14 := 3%Z]> (<[15 := 1%Z]>
    (replicate 27 0%Z))))).

Definition session_kernel : Kernel := {|
  answer R c h :=
    match c in call R return R with
    | COpendir _ => ROk [lit "."; lit ".."; lit "7"]
    | CWaitpid tid => ROk (tid, 0x57f)%Z
    | CWaitAny => if decide (waits h < 2) then ROk (7, 0x857f)%Z else ROk (0, 0)%Z
    | CGetRegs _ => ROk write_regs
    | CReadVm _ _ len => ROk (take len (lit "hello"))
    | c => quiet c
    end;
  strerror _ := lit "error" |}.

#[export] Instance session_trace_laws : TraceLaws session_kernel x86_64.
Proof.
  split.
  - intros tid h r H. cbn in H. injection H as <-. reflexivity.
  - intros tid addr len h data H. cbn in H. injection H as <-. rewrite length_take. lia.
Defined.

#[export] Instance session_task_laws : TaskLaws session_kernel.
Proof.
  intros path h names H. cbn in H. injection H as <-.
  replace (discover_loop _ _ _) with [7%Z] by (vm_compute; reflexivity).
  constructor; [by intros ?%elem_of_nil|constructor].
Defined.

(** Callbacks that print what they are given. *)
Definition print_write : write_fn := fun r ret capture got w =>
  data ← pure (mapM id (take got capture));
  @syscall session_kernel _ (CStdout data).

Definition printed (rep : report) (evs : list event) : Prop :=
  evs = [Ev (CStdout (rp_data rep)) tt].

Definition attached_nop : prog unit := mret tt.
Definition poll_stop : prog bool := mret false.

Lemma print_callbacks_ok size : callbacks_ok size printed attached_nop poll_stop print_write.
Proof.
  split.
  - intros h r ret capture data w rest -> Hl. unfold print_write.
    rewrite take_app_length' by (by rewrite length_fmap). rewrite mapM_written.
    eapply wp_pure_bind; [reflexivity|]. apply wp_call. split; [by repeat constructor|].
    unfold printed. cbn [rp_data]. by destruct (answer _ _).
  - intros h. apply wp_ret. constructor.
  - intros h. apply wp_ret. constructor.
Defined.

Abbreviation example_trace :=
  (@hsed_trace_fd session_kernel x86_64 10 7 3 0 attached_nop poll_stop print_write
     (alloca 256) 256).

(** The run returns 0 and printed the five bytes. *)
Lemma trace_fd_correct_witness :
  fst (example_trace []) = Done (0%Z, alloca 256) /\
  List.filter (fun e => match e with Ev c _ => match c with CStdout _ => true | _ => false end end)
    (snd (example_trace [])) = [Ev (CStdout (lit "hello")) tt] /\
  wp example_trace [] (@trace_cut x86_64 3 0 printed)
    (@trace_done session_kernel x86_64 3 0 printed 7 (alloca 256) 256).
Proof.
  split; [vm_compute; reflexivity|]. split; [vm_compute; reflexivity|].
  apply (@trace_fd_correct session_kernel x86_64 x86_64_laws session_trace_laws session_task_laws
    10 7 3 0 printed attached_nop poll_stop print_write (alloca 256) 256 []).
  - exact (print_callbacks_ok (capture_size 0)).
  - unfold in_s. lia.
  - rewrite length_alloca. lia.
Defined.

Lemma trace_stops_answered_witness :
  wp example_trace [] stops_answered (fun res evs => res.1 = 0%Z -> stops_answered evs).
Proof.
  apply (@trace_stops_answered session_kernel x86_64 x86_64_laws session_trace_laws
    session_task_laws 10 7 3 0 printed attached_nop poll_stop print_write (alloca 256) 256 []).
  - exact (print_callbacks_ok (capture_size 0)).
  - unfold in_s. lia.
  - rewrite length_alloca. lia.
Defined.

Lemma trace_reports_entered_witness :
  wp example_trace []
    (fun evs => waits evs = 0 \/
       exists pre m turns m' rest, attachment pre m /\ evs = pre ++ calls turns ++ rest /\
         one_wait rest /\
         @session x86_64 3 (capture_size 0) printed m turns (Some m') /\
         @reports_ok x86_64 3 (capture_size 0) printed turns)
    (fun res evs => res.1 = 0%Z ->
       exists pre m turns, attachment pre m /\ evs = pre ++ calls turns /\
         @session x86_64 3 (capture_size 0) printed m turns None /\
         @reports_ok x86_64 3 (capture_size 0) printed turns).
Proof.
  apply (@trace_reports_entered session_kernel x86_64 x86_64_laws session_trace_laws
    session_task_laws 10 7 3 0 printed attached_nop poll_stop print_write (alloca 256) 256 []).
  - exact (print_callbacks_ok (capture_size 0)).
  - unfold in_s. lia.
  - rewrite length_alloca. lia.
Defined.

(** ** Two sessions *)

(** C37: The wait of a session is for any child of the process, so that it may
    be handed a stop of a thread [r] it never attached, which another session
    did.  Whatever the stop, the thread is taken into the table and resumed
    with no signal, and the answer of the kernel, which refuses this to any
    but the tracer of the thread, is not looked at: the stop is lost to the
    session that waits for it, and so is the signal, if it was one. *)
Theorem foreign_stop_taken {K : Kernel} {A : Arch} (write_cb : write_fn) (poll_cb : prog bool)
    (fd : Z) (max_capture : nat) (tids : list tid_state_t) (capture : buf) (h : hist)
    (r status : Z) :
  r ∉ t_tid <$> tids -> length tids < MAX_TRACKED_TIDS ->
  answer CWaitAny h = ROk (r, status) -> r <> 0%Z ->
  WIFEXITED status || WIFSIGNALED status = false -> WIFSTOPPED status = true ->
  trace_turn write_cb poll_cb fd max_capture tids capture h
  = (Done (Again (tids ++ [new_tid r]) capture),
     h ++ [Ev CWaitAny (ROk (r, status));
           Ev (CSyscall r 0) (answer (CSyscall r 0) (h ++ [Ev CWaitAny (ROk (r, status))]))]).
Proof.
  intros Hr Hroom Hw Hr0 Hgone Hstop. unfold trace_turn. rewrite run_call, Hw.
  rewrite decide_False by done. unfold find_or_add_tid.
  rewrite (proj2 (find_tid_none tids r 0) Hr), decide_False by lia.
  rewrite Hgone, Hstop. unfold resume, syscall, mbind, prog_bind. cbn. by rewrite <- app_assoc.
Qed.

(** A wait answers with a system-call stop of 99, a thread of another session. *)
Definition foreign_kernel : Kernel := {|
  answer R c h :=
    match c in call R return R with
    | CWaitAny => ROk (99, 0x857f)%Z
    | CSyscall _ _ => RErr 3
    | c => quiet c
    end;
  strerror _ := lit "error" |}.

Lemma foreign_stop_taken_witness :
  @trace_turn foreign_kernel x86_64 (fun _ _ _ _ _ => mret tt) (mret true) 3 200 [new_tid 7]
    (alloca 200) []
  = (Done (Again [new_tid 7; new_tid 99] (alloca 200)),
     [Ev CWaitAny (ROk (99, 0x857f)); Ev (CSyscall 99 0) (RErr 3)])%Z.
Proof.
  apply (@foreign_stop_taken foreign_kernel x86_64 (fun _ _ _ _ _ => mret tt) (mret true) 3 200
    [new_tid 7] (alloca 200) [] 99 0x857f).
  - by intros ?%list_elem_of_singleton.
  - unfold MAX_TRACKED_TIDS. cbn. lia.
  - reflexivity.
  - lia.
  - reflexivity.
  - reflexivity.
Defined.

(** The stub of the other architectures reports why it does nothing. *)
Lemma unsupported_run pid fd max_capture attached_cb poll_cb write_cb errbuf errlen h I :
  0 < errlen <= length errbuf ->
  wp (hsed_trace_fd_unsupported pid fd max_capture attached_cb poll_cb write_cb errbuf errlen) h I
    (fun res evs => res.1 = (-1)%Z /\ evs = [] /\ message errbuf errlen unsupported res.2).
Proof.
  intros Hl. unfold hsed_trace_fd_unsupported.
  assert (format unsupported [] = Some unsupported) as Hf by (unfold unsupported; format_now).
  destruct (snprintf_message errbuf errlen _ _ _ Hf Hl) as (b & Hb & Hm).
  eapply wp_pure_bind; [exact Hb|]. by apply wp_ret.
Qed.
