(* ===== verification/SessionEnds.v ===== *)
(** * tracer.c, the end of a session

    A session ends when the client has gone and no thread has anything to
    report: the loop of [hsed_trace_fd] then polls the client, learns it and
    returns.  The bound on the number of turns is the number of waits. *)

From stdpp Require Import gmap.
From S2P Require Import Prelude CLib Kernel ProcRead Reclaim Tids Tracer Session TraceProps.

(** ** Programs that do not run out of fuel

    [lasts m]: from any history, [m] only adds events, and neither exits nor
    stops for want of fuel. *)
Definition finished {A} (o : outcome A) : Prop :=
  match o with Done _ | Undef => True | Exited _ | NoFuel => False end.

Definition lasts {A} (m : prog A) : Prop :=
  forall h, finished (fst (m h)) /\ exists evs, snd (m h) = h ++ evs.

Section rules.
Context {K : Kernel}.

Lemma lasts_ret {A} (a : A) : lasts (mret a).
Proof. intros h. split; [done|]. exists []. by rewrite app_nil_r. Qed.

Lemma lasts_pure {A} (o : option A) : lasts (pure o).
Proof. intros h. split; [by destruct o|]. exists []. by rewrite app_nil_r. Qed.

Lemma lasts_call {R} (c : call R) : lasts (syscall c).
Proof. intros h. split; [done|]. by exists [Ev c (answer c h)]. Qed.

Lemma lasts_bind {A B} (m : prog A) (k : A -> prog B) :
  lasts m -> (forall a, lasts (k a)) -> lasts (m ≫= k).
Proof.
  intros Hm Hk h. destruct (Hm h) as [Hf [evs Hh]]. unfold mbind, prog_bind.
  destruct (m h) as [[a|c| |] h']; cbn [fst snd] in *; subst h'; [|done|by eauto|done].
  destruct (Hk a (h ++ evs)) as [Hf' [evs' ->]]. split; [done|].
  exists (evs ++ evs'). by rewrite app_assoc.
Qed.
End rules.

(** Follows the code down to its calls; [leaf] is for the functions called. *)
Ltac last_steps leaf :=
  repeat first
    [ progress leaf
    | apply lasts_ret | apply lasts_pure | apply lasts_call
    | apply lasts_bind; [|intros ?]
    | match goal with
      | |- lasts (match ?x with _ => _ end) => destruct x
      | |- lasts (let '_ := ?x in _) => destruct x
      end
    | progress cbv zeta ].

Section ends.
Context {K : Kernel} {A : Arch}.

Lemma seize_loop_lasts tid n : lasts (seize_loop tid n).
Proof. induction n as [|n IH]; cbn [seize_loop]; last_steps ltac:(apply IH). Qed.

Lemma attach_loop_lasts l : forall tids, lasts (attach_loop l tids).
Proof.
  induction l as [|tid l IH]; intros tids; cbn [attach_loop]; unfold attach_tid;
    last_steps ltac:(first [apply seize_loop_lasts | apply IH]).
Qed.

Lemma detach_loop_lasts l : lasts (detach_loop l).
Proof. induction l as [|t l IH]; cbn [detach_loop]; last_steps ltac:(apply IH). Qed.

Lemma capture_loop_lasts tid max iovs : forall total capture,
  lasts (capture_loop tid iovs total capture max).
Proof.
  induction iovs as [|[base len] iovs IH]; intros total capture; cbn [capture_loop];
    unfold read_remote; last_steps ltac:(apply IH).
Qed.

Context (write_cb : write_fn) (poll_cb : prog bool).
Context (write_cb_lasts : forall r ret capture got w, lasts (write_cb r ret capture got w)).
Context (poll_cb_lasts : lasts poll_cb).

Lemma handle_stop_lasts fd max r status tids i capture :
  lasts (handle_stop write_cb fd max r status tids i capture).
Proof.
  unfold handle_stop, enter_stop, exit_stop, report_write, fetch_data, capture_writev, get_regs,
    read_remote, resume.
  last_steps ltac:(first [apply capture_loop_lasts | apply write_cb_lasts]).
Qed.

(** What follows the wait of a turn. *)
Lemma trace_turn_lasts fd max tids capture :
  lasts (trace_turn write_cb poll_cb fd max tids capture).
Proof.
  unfold trace_turn, resume.
  last_steps ltac:(first [apply handle_stop_lasts | apply detach_loop_lasts | apply poll_cb_lasts]).
Qed.

(** A turn takes one wait more. *)
Lemma trace_turn_waits fd max tids capture h :
  waits h < waits (snd (trace_turn write_cb poll_cb fd max tids capture h)).
Proof.
  unfold trace_turn. rewrite run_call. set (w := answer CWaitAny h).
  assert (forall (m : prog turn), lasts m -> waits h < waits (snd (m (h ++ [Ev CWaitAny w])))) as Hm.
  { intros m Hm. destruct (Hm (h ++ [Ev CWaitAny w])) as [_ [evs ->]].
    rewrite !waits_app. change (waits [Ev CWaitAny w]) with 1. lia. }
  apply Hm. unfold resume.
  last_steps ltac:(first [apply handle_stop_lasts | apply detach_loop_lasts | apply poll_cb_lasts]).
Qed.

(** The client is gone and nothing happens, after [n] waits. *)
Definition over_after (n : nat) : Prop :=
  (forall h, n <= waits h -> exists status, answer CWaitAny h = ROk (0%Z, status)) /\
  (forall h, n <= waits h -> exists h', poll_cb h = (Done false, h')).

Lemma trace_turn_over n fd max tids capture h : over_after n -> n <= waits h ->
  fst (trace_turn write_cb poll_cb fd max tids capture h) = Done (Return 0).
Proof.
  intros [Hw Hp] Hn. unfold trace_turn. rewrite run_call.
  destruct (Hw h Hn) as [status ->]. rewrite decide_True by done.
  destruct (Hp (h ++ [Ev CWaitAny (ROk (0%Z, status))])) as [h' Hh'].
  { rewrite waits_app. lia. }
  rewrite (run_bind _ _ _ _ _ Hh'). cbn [negb].
  destruct (detach_loop_run tids h' (fun _ => False)) as (evs & Hs & Hd).
  destruct (detach_loop tids h') as [[[]|c| |] h''] eqn:E; try done.
  by rewrite (run_bind _ _ _ _ _ E).
Qed.

Lemma trace_loop_ends n fuel fd max : over_after n -> forall tids capture h,
  n - waits h < fuel -> finished (fst (trace_loop fuel write_cb poll_cb fd max tids capture h)).
Proof.
  intros Hover. induction fuel as [|fuel IH]; intros tids capture h Hlt; [lia|]. cbn [trace_loop].
  destruct (trace_turn_lasts fd max tids capture h) as [Hnf _].
  pose proof (trace_turn_waits fd max tids capture h) as Hw.
  destruct (decide (n <= waits h)) as [Hn|Hn].
  - pose proof (trace_turn_over n fd max tids capture h Hover Hn) as Ht.
    unfold mbind, prog_bind. destruct (trace_turn _ _ _ _ _ _ _) as [o h']. cbn [fst] in Ht.
    by subst o.
  - unfold mbind, prog_bind. destruct (trace_turn _ _ _ _ _ _ _) as [[t|c| |] h']; try done.
    cbn [fst snd] in *. destruct t as [rc|tids' capture']; [done|]. apply IH. lia.
Qed.

(** A program that finishes and is known not to be wrong returns. *)
Lemma wp_finished {B} (m : prog B) h I Q : wp m h I Q -> finished (fst (m h)) ->
  wp m h (fun _ => False) Q.
Proof.
  intros (evs & Hh & Hm) Hf. exists evs. split; [done|]. by destruct (fst (m h)).
Qed.

Lemma finished_bind {B C} (m : prog B) (k : B -> prog C) h : lasts m ->
  (forall a evs, finished (fst (k a (h ++ evs)))) -> finished (fst ((m ≫= k) h)).
Proof.
  intros Hm Hk. destruct (Hm h) as [Hf [evs Hh]]. unfold mbind, prog_bind.
  destruct (m h) as [[a|c| |] h']; cbn [fst snd] in *; subst; done.
Qed.

Lemma trace_fd_finished n fuel pid fd max_capture attached_cb errbuf errlen h :
  over_after n -> lasts attached_cb -> n < fuel ->
  finished (fst (hsed_trace_fd fuel pid fd max_capture attached_cb poll_cb write_cb errbuf errlen h)).
Proof.
  intros Hover Hatt Hfuel. unfold hsed_trace_fd, discover_tids.
  assert (forall {B} (m : prog B) h, lasts m -> finished (fst (m h))) as Hfin
    by (intros B m h' Hm; apply Hm).
  cbv zeta. apply finished_bind; [last_steps ltac:(fail)|]. intros [[|tid l]|] evs.
  1, 3: apply Hfin; last_steps ltac:(fail).
  apply finished_bind; [apply attach_loop_lasts|]. intros tids evs'.
  destruct (decide (length tids = 0)); [apply Hfin; last_steps ltac:(fail)|].
  apply finished_bind; [done|]. intros [] evs2. apply finished_bind; [apply lasts_call|].
  intros [|] evs3; [|apply Hfin; last_steps ltac:(apply detach_loop_lasts)].
  unfold mbind, prog_bind.
  match goal with |- context [trace_loop fuel ?w ?p ?f ?m ?t ?c ?h] =>
    pose proof (trace_loop_ends n fuel f m Hover t c h ltac:(lia)) as Hl;
    destruct (trace_loop fuel w p f m t c h) as [[rc|code| |] h']; done
  end.
Qed.
End ends.

(** ** Properties *)

(** C18: A session always ends once its client has gone and its threads are idle:
    if after [n] waits no thread has anything to report and the client's
    callback says to stop, then [n + 1] turns are enough for [hsed_trace_fd]
    to return, with what trace_fd_correct says of it. *)
Theorem trace_fd_ends {K : Kernel} {A : Arch} {AL : ArchLaws A} {TL : TraceLaws K A}
    {TK : TaskLaws K} (n fuel : nat) (pid fd max_capture : Z)
    (reported : report -> list event -> Prop)
    (attached_cb : prog unit) (poll_cb : prog bool) (write_cb : write_fn)
    (errbuf : buf) (errlen : nat) (h : hist) :
  callbacks_ok (capture_size max_capture) reported attached_cb poll_cb write_cb ->
  in_s 32 pid -> 0 < errlen <= length errbuf ->
  lasts attached_cb -> lasts poll_cb ->
  (forall r ret capture got w, lasts (write_cb r ret capture got w)) ->
  over_after poll_cb n -> n < fuel ->
  wp (hsed_trace_fd fuel pid fd max_capture attached_cb poll_cb write_cb errbuf errlen) h
    (fun _ => False) (trace_done fd max_capture reported pid errbuf errlen).
Proof.
  intros [H1 H2 H3] Hp Hl Ha Hpl Hw Hover Hfuel.
  eapply wp_finished; [by apply trace_fd_run|]. by apply (trace_fd_finished write_cb poll_cb Hw Hpl n).
Qed.

Lemma trace_fd_ends_witness :
  wp (@hsed_trace_fd session_kernel x86_64 3 7 3 0 attached_nop poll_stop print_write
        (alloca 256) 256) [] (fun _ => False)
    (@trace_done session_kernel x86_64 3 0 printed 7 (alloca 256) 256).
Proof.
  apply (@trace_fd_ends session_kernel x86_64 x86_64_laws session_trace_laws session_task_laws
    2 3 7 3 0 printed attached_nop poll_stop print_write (alloca 256) 256 []).
  - exact (print_callbacks_ok (capture_size 0)).
  - unfold in_s. lia.
  - rewrite length_alloca. lia.
  - apply lasts_ret.
  - apply lasts_ret.
  - intros r ret capture got w. apply lasts_bind; [apply lasts_pure|]. intros data. apply lasts_call.
  - split.
    + intros h Hh. exists 0%Z. cbn. rewrite decide_False by lia. reflexivity.
    + intros h _. exists h. reflexivity.
  - lia.
Defined.
