(* ===== verification/Stream.v ===== *)
(** * server.c, the STREAM command

    The three callbacks [handle_stream] gives the tracer, and the proof that
    they keep the promises the tracer's theorems ask of their callbacks; the
    line a write is reported by, when the client can read it back, and when
    it is cut. *)

From S2P Require Import Prelude CLib Kernel Util Base64 Json EntryList Protocol ProcRead Reclaim.
From S2P Require Import Tids Tracer Session TraceProps.

(** [EAGAIN], which is also [EWOULDBLOCK], on Linux. *)
Definition EAGAIN : Z := 11.

Section stream.
Context {K : Kernel} {A : Arch} (fuel : nat).

Definition stream_poll_cb (sockfd : Z) : prog bool :=
  r ← syscall (CRecv sockfd 256 true);
  match r with
  | ROk [] => mret false
  | RErr errno => mret (bool_decide (errno = EAGAIN))
  | ROk buf => mret (negb (memmem buf (lit "STOP")))
  end.

Definition write_format : bytes := jlit
  "{'type':'write','tid':%d,'ret':%ld,'captured':%zu,'is_writev':%s,'data_b64':'%s'}".

Definition STACKBUF : nat := Z.to_nat 1024.

Definition stream_write_cb (sockfd tid ret : Z) (capture : buf) (buflen : nat)
    (is_writev : bool) : prog unit :=
  let need := hsed_base64_encoded_len buflen in
  b64 ← (if decide (need <= STACKBUF) then mret (Some (alloca STACKBUF))
         else ok ← syscall (CMalloc (Z.of_nat need));
              mret (if (ok : bool) then Some (alloca need) else None));
  match b64 with
  | None => mret tt
  | Some b64 =>
      b64 ← pure (hsed_base64_encode capture buflen b64);
      s ← pure (cstr b64);
      _ ← hsed_send_linef fuel sockfd write_format
            [AInt tid; ALong ret; ASize (Z.of_nat buflen);
             AStr (if is_writev then lit "true" else lit "false"); AStr s];
      mret tt
  end.

Definition stream_attached_cb (sockfd pid fd : Z) : prog unit :=
  _ ← hsed_send_linef fuel sockfd (jlit "{'type':'attached','pid':%d,'fd':%d}") [AInt pid; AInt fd];
  mret tt.

Definition error_format : bytes := jlit "{'type':'error','message':'%s'}".

Definition handle_stream (sockfd pid fd max_capture : Z) : prog unit :=
  '(rc, err) ← hsed_trace_fd fuel pid fd max_capture (stream_attached_cb sockfd pid fd)
                 (stream_poll_cb sockfd) (stream_write_cb sockfd) (zeroed 256) 256;
  if decide (rc <> 0)%Z then
    msg ← pure (cstr err);
    esc ← pure (escaped_local 512 msg);
    _ ← hsed_send_linef fuel sockfd error_format [AStr esc];
    mret tt
  else
    _ ← hsed_send_linef fuel sockfd (jlit "{'type':'stream_end'}") [];
    mret tt.
End stream.

(** ** Events of a sender *)

(** Every call is a send to [fd]. *)
Definition is_send (fd : Z) (e : event) : bool :=
  match e with Ev c _ => match c with CSend fd' _ => bool_decide (fd' = fd) | _ => false end end.

Abbreviation sends_only fd evs := (Forall (fun e => is_send fd e = true) evs).

(** A send that failed for good. *)
Definition fails_send (fd : Z) (e : event) : bool :=
  match e with
  | Ev c r =>
      match c in call R return R -> bool with
      | CSend fd' _ => fun r =>
          match r with
          | RErr e => bool_decide (fd' = fd) && negb (bool_decide (e = EINTR))
          | ROk _ => false
          end
      | _ => fun _ => false
      end r
  end.

Definition send_failed (fd : Z) (evs : list event) : bool := existsb (fails_send fd) evs.

(** All of [text] was sent, or a prefix of it and then the socket failed. *)
Definition delivered (fd : Z) (text : bytes) (evs : list event) : Prop :=
  sent_to fd evs = text \/ (sent_to fd evs `prefix_of` text /\ send_failed fd evs = true).

Lemma sent_to_app fd evs evs' : sent_to fd (evs ++ evs') = sent_to fd evs ++ sent_to fd evs'.
Proof. apply bind_app. Qed.

Lemma send_failed_app fd evs evs' :
  send_failed fd (evs ++ evs') = send_failed fd evs || send_failed fd evs'.
Proof. apply existsb_app. Qed.

Section sending.
Context {K : Kernel}.

Lemma send_loop_events fuel fd json : forall sent h,
  wp (send_loop fuel fd json sent) h (fun evs => sends_only fd evs)
    (fun rc evs => sends_only fd evs /\ (rc = 0%Z \/ rc = (-1)%Z /\ send_failed fd evs = true)).
Proof.
  assert (forall h, wp (mret 0%Z) h (fun evs => sends_only fd evs)
    (fun rc evs => sends_only fd evs /\ (rc = 0%Z \/ rc = (-1)%Z /\ send_failed fd evs = true)))
    as Hdone by (intros; apply wp_ret; auto).
  induction fuel as [|fuel IH]; intros sent h; cbn [send_loop];
    (destruct (decide (sent < length json + 1)); [|apply Hdone]);
    [by apply wp_fuel|].
  set (chunk := if decide _ then _ else _).
  assert (forall r, is_send fd (Ev (CSend fd chunk) r) = true) as Hs
    by (intros; by apply bool_decide_eq_true).
  apply wp_call_bind. intros [n|e] _.
  - eapply wp_conseq; [apply IH| |]; cbn beta.
    + intros evs He. by constructor.
    + intros rc evs [He Hrc]. split; [by constructor|]. done.
  - case_decide as He.
    + eapply wp_conseq; [apply IH| |]; cbn beta.
      * intros evs Hevs. by constructor.
      * intros rc evs [Hevs Hrc]. split; [by constructor|].
        destruct Hrc as [?|[? Hf]]; [by left|right]. split; [done|].
        unfold send_failed in *. cbn [existsb]. by rewrite Hf, orb_true_r.
    + apply wp_ret. split; [by repeat constructor|]. right. split; [done|].
      unfold send_failed. cbn [existsb fails_send].
      by rewrite bool_decide_eq_true_2, bool_decide_eq_false_2.
Qed.

Context {L : SendLaws K}.

Lemma send_line_delivered fuel fd json h :
  wp (hsed_send_line fuel fd json) h
    (fun evs => sends_only fd evs /\ sent_to fd evs `prefix_of` json ++ [NL])
    (fun rc evs => sends_only fd evs /\ delivered fd (json ++ [NL]) evs /\
       (rc = 0%Z /\ sent_to fd evs = json ++ [NL] \/ rc = (-1)%Z /\ send_failed fd evs = true)).
Proof.
  eapply wp_conseq;
    [apply (wp_both _ _ _ _ _ _ (send_line_run fuel fd json h)
              (send_loop_events fuel fd json 0 h))| |]; cbn beta.
  - intros evs [[_ Hp] Hs]. done.
  - intros rc evs [Hsent [Hs Hrc]]. split; [done|]. unfold delivered.
    destruct Hsent as [[-> ->]|(-> & Hp & _)]; [by auto|].
    destruct Hrc as [?|[_ Hf]]; [lia|]. auto.
Qed.

(** Sending a formatted line: the part of it that fits the buffer. *)
Definition line_sent (s : bytes) : bytes := take (LINEF_MAX - 1) s ++ [NL].

Lemma send_linef_delivered fuel fd fmt args s h :
  format fmt args = Some s -> no_nul s ->
  wp (hsed_send_linef fuel fd fmt args) h
    (fun evs => sends_only fd evs /\ sent_to fd evs `prefix_of` line_sent s)
    (fun _ evs => sends_only fd evs /\ delivered fd (line_sent s) evs).
Proof.
  intros Hf Hn. unfold wp. rewrite (send_linef_run fuel fd fmt args s h Hf Hn).
  eapply wp_conseq; [apply send_line_delivered|done|]. by intros rc evs (? & ? & _).
Qed.
End sending.

Lemma sends_outside fd evs : sends_only fd evs -> outside evs.
Proof. intros H. eapply Forall_impl; [done|]. intros [R c x] He. by destruct c. Qed.

Lemma line_sent_fits s : length s < LINEF_MAX -> line_sent s = s ++ [NL].
Proof. intros H. unfold line_sent. rewrite take_ge by lia. done. Qed.

(** ** The event of a write *)

Definition bool_text (b : bool) : bytes := if b then lit "true" else lit "false".

Definition write_members (rep : report) : list (bytes * bytes) :=
  [ (lit "type", quoted (lit "write"));
    (lit "tid", print_d (rp_tid rep));
    (lit "ret", print_d (rp_ret rep));
    (lit "captured", print_u 10 (Z.of_nat (length (rp_data rep))));
    (lit "is_writev", bool_text (rp_is_writev rep));
    (lit "data_b64", quoted (b64_spec (rp_data rep))) ].

Definition write_line (rep : report) : bytes := json_line (write_members rep).

(** What the client reads. *)
Definition write_object (rep : report) : list (bytes * jval) :=
  [ (lit "type", JStr (lit "write"));
    (lit "tid", JNum (rp_tid rep));
    (lit "ret", JNum (rp_ret rep));
    (lit "captured", JNum (Z.of_nat (length (rp_data rep))));
    (lit "is_writev", JBool (rp_is_writev rep));
    (lit "data_b64", JStr (b64_spec (rp_data rep))) ].

Lemma format_write_line rep :
  format write_format
    [AInt (rp_tid rep); ALong (rp_ret rep); ASize (Z.of_nat (length (rp_data rep)));
     AStr (if rp_is_writev rep then lit "true" else lit "false"); AStr (b64_spec (rp_data rep))]
  = Some (write_line rep).
Proof. unfold write_line, write_members, bool_text, write_format. format_as. Qed.

Lemma sextet_printable v k : (32 <= byte_val (sextet v k))%Z.
Proof.
  unfold sextet, b64_char. destruct (B64_TABLE !! _) as [c|] eqn:E; [|done]. cbn.
  assert (Forall (fun c => (32 <= byte_val c)%Z) B64_TABLE) as H
    by (apply (bool_decide_unpack _); vm_compute; exact I).
  by eapply Forall_lookup in H.
Qed.

Lemma b64_spec_printable d : Forall (fun c => (32 <= byte_val c)%Z) (b64_spec d).
Proof.
  induction d as [d Hlt|a b c d IH] using list_ind3.
  - destruct d as [|? [|? [|]]]; simpl in Hlt; [|..|lia];
      repeat constructor; try apply sextet_printable; done.
  - cbn [b64_spec]. by repeat (apply Forall_cons; split; [apply sextet_printable|]).
Qed.

Lemma b64_spec_plain d : Forall plain_char (b64_spec d).
Proof.
  pose proof (b64_spec_clean d) as H1. pose proof (b64_spec_printable d) as H2.
  apply Forall_forall. intros c Hc. rewrite Forall_forall in H1, H2.
  destruct (H1 c Hc) as (_ & ? & ?). split_and!; auto.
Qed.

Lemma write_line_reads rep : json_object (write_line rep) = Some (write_object rep).
Proof.
  unfold write_line, write_members, write_object. json_reads; auto with json.
  - apply reads_as_plain. by apply (bool_decide_unpack _); vm_compute.
  - apply reads_as_unsigned. lia.
  - apply reads_as_bool.
  - apply reads_as_plain, b64_spec_plain.
Qed.

Lemma write_line_no_nul rep : no_nul (write_line rep).
Proof.
  unfold write_line, write_members. line_no_nul.
  - by repeat constructor.
  - unfold bool_text. destruct (rp_is_writev rep); by repeat constructor.
  - apply quoted_no_nul, b64_spec_no_nul.
Qed.

Lemma write_line_visible rep : visible (write_line rep).
Proof.
  unfold write_line, write_members, bool_text. line_visible.
  - destruct (rp_is_writev rep); apply visible_lit; by vm_compute.
  - apply visible_quoted, visible_plain, b64_spec_plain.
Qed.

Lemma write_line_length rep : in_s 32 (rp_tid rep) -> in_s 64 (rp_ret rep) ->
  length (rp_data rep) <= 1400 -> length (write_line rep) < LINEF_MAX.
Proof.
  intros Ht Hr Hd. unfold in_s in *. change (32 - 1)%Z with 31%Z in *.
  change (64 - 1)%Z with 63%Z in *.
  pose proof (print_d_length (rp_tid rep) 10). pose proof (print_d_length (rp_ret rep) 19).
  pose proof (print_u_length (Z.of_nat (length (rp_data rep))) 4).
  pose proof (b64_spec_length (rp_data rep)) as Hb.
  assert (length (b64_spec (rp_data rep)) <= 1868).
  { rewrite Hb. pose proof (Nat.Div0.div_le_mono (length (rp_data rep) + 2) 1402 3).
    change (1402 / 3) with 467 in *. lia. }
  unfold write_line, write_members, bool_text, LINEF_MAX, json_line.
  cbn [json_body]. unfold json_member, quoted. cbn [fst snd].
  repeat (rewrite length_app || rewrite length_lit || cbn [length]).
  destruct (rp_is_writev rep); cbn [String.length];
    repeat (rewrite length_lit || cbn [length String.length]); lia.
Qed.

(** The members before the data. *)
Definition write_head (rep : report) : bytes :=
  json_head (take 5 (write_members rep)) (lit "data_b64").

Lemma write_line_head rep :
  length (write_line rep) = length (write_head rep) + length (b64_spec (rp_data rep)) + 4.
Proof.
  unfold write_line, json_line.
  change (write_members rep) with (take 5 (write_members rep)
    ++ [(lit "data_b64", quoted (b64_spec (rp_data rep)))]).
  rewrite json_body_head. cbn [length]. rewrite length_app. cbn [length]. rewrite length_app.
  cbn [length]. unfold write_head. lia.
Qed.

Lemma write_head_length rep : in_s 32 (rp_tid rep) -> in_s 64 (rp_ret rep) ->
  length (rp_data rep) <= Z.to_nat MAX_CAPTURE_HARD_LIMIT -> 60 <= length (write_head rep) <= 200.
Proof.
  intros Ht Hr Hd. unfold in_s, MAX_CAPTURE_HARD_LIMIT in *. change (32 - 1)%Z with 31%Z in *.
  change (64 - 1)%Z with 63%Z in *.
  pose proof (print_d_length (rp_tid rep) 10). pose proof (print_d_length (rp_ret rep) 19).
  pose proof (print_u_length (Z.of_nat (length (rp_data rep))) 5).
  unfold write_head, write_members, bool_text, json_head.
  cbn [firstn mbind list_bind]. unfold json_member, quoted. cbn [fst snd].
  repeat (rewrite length_app || rewrite length_lit || cbn [length String.length]).
  destruct (rp_is_writev rep);
    repeat (rewrite length_lit || cbn [length String.length]); lia.
Qed.

(** 1500 bytes of data are too many for the line. *)
Lemma write_line_long rep : in_s 32 (rp_tid rep) -> in_s 64 (rp_ret rep) ->
  1500 <= length (rp_data rep) <= Z.to_nat MAX_CAPTURE_HARD_LIMIT ->
  LINEF_MAX <= length (write_line rep).
Proof.
  intros Ht Hr Hd. rewrite write_line_head, b64_spec_length.
  pose proof (write_head_length rep Ht Hr (proj2 Hd)).
  pose proof (Nat.Div0.div_le_mono 1500 (length (rp_data rep) + 2) 3).
  change (1500 / 3) with 500 in *. unfold LINEF_MAX. lia.
Qed.

(** A line that is cut cannot be read. *)
Lemma write_line_cut rep : in_s 32 (rp_tid rep) -> in_s 64 (rp_ret rep) ->
  length (rp_data rep) <= Z.to_nat MAX_CAPTURE_HARD_LIMIT ->
  LINEF_MAX <= length (write_line rep) ->
  json_object (take (LINEF_MAX - 1) (write_line rep)) = None.
Proof.
  intros Ht Hr Hd Hl. pose proof (write_head_length rep Ht Hr Hd) as Hh.
  unfold write_line in *.
  change (write_members rep) with (take 5 (write_members rep)
    ++ [(lit "data_b64", quoted (b64_spec (rp_data rep)))]) in *.
  eapply (json_object_cut _ (take 5 (write_object rep))).
  - unfold write_members, write_object. cbn [firstn].
    repeat (apply Forall2_cons_2; [apply member_reads_intro; [vm_compute; reflexivity|]|]);
      try apply Forall2_nil_2; auto with json.
    + apply reads_as_plain. by apply (bool_decide_unpack _); vm_compute.
    + apply reads_as_unsigned. lia.
    + apply reads_as_bool.
  - by apply (bool_decide_unpack _); vm_compute.
  - apply b64_spec_plain.
  - unfold write_head in Hh. unfold LINEF_MAX in *. lia.
Qed.

(** ** The callbacks of a stream *)

(** The calls that report an event whose encoding takes [need] bytes by the
    line [text]: the line is sent, whole or up to a failure of the socket,
    after the room for an encoding that the stack has none for is allocated;
    nothing is sent if there is no memory for it. *)
Inductive line_written (fd : Z) (need : nat) (text : bytes) : list event -> Prop :=
  | written_stack evs :
      need <= STACKBUF -> sends_only fd evs -> delivered fd text evs ->
      line_written fd need text evs
  | written_heap evs :
      STACKBUF < need -> sends_only fd evs -> delivered fd text evs ->
      line_written fd need text (Ev (CMalloc (Z.of_nat need)) true :: evs)
  | written_no_memory :
      STACKBUF < need -> line_written fd need text [Ev (CMalloc (Z.of_nat need)) false].

(** The same, cut short inside a send. *)
Definition line_begun (fd : Z) (text : bytes) (evs : list event) : Prop :=
  outside evs /\ sent_to fd evs `prefix_of` text.

(** The client is sent the event of a write. *)
Definition reported_line (fd : Z) (rep : report) : list event -> Prop :=
  line_written fd (hsed_base64_encoded_len (length (rp_data rep))) (line_sent (write_line rep)).

Lemma line_written_outside fd need text evs : line_written fd need text evs -> outside evs.
Proof.
  destruct 1; repeat (apply Forall_cons; split; [done|]); try apply Forall_nil;
    try by eapply sends_outside. done.
Qed.

Section callbacks.
Context {K : Kernel} {A : Arch} {L : SendLaws K} (fuel : nat).

Lemma write_encoded (data : bytes) (rest b64 : buf) :
  hsed_base64_encoded_len (length data) <= length b64 ->
  exists b, hsed_base64_encode ((Some <$> data) ++ rest) (length data) b64 = Some b /\
    cstr b = Some (b64_spec data).
Proof.
  intros Hl. eexists. split; [by apply encode_spec|].
  rewrite cstr_terminated. by rewrite nulcut_id by apply b64_spec_no_nul.
Qed.

(** Once there is an array for the encoded data. *)
Lemma write_send_run sockfd r ret (data : bytes) (rest b64 : buf) (w : bool) h :
  let text := line_sent (write_line (mk_report r ret data w)) in
  hsed_base64_encoded_len (length data) <= length b64 ->
  wp (b64 ← pure (hsed_base64_encode ((Some <$> data) ++ rest) (length data) b64);
      s ← pure (cstr b64);
      _ ← hsed_send_linef fuel sockfd write_format
            [AInt r; ALong ret; ASize (Z.of_nat (length data));
             AStr (if w then lit "true" else lit "false"); AStr s];
      mret tt) h (line_begun sockfd text)
    (fun _ evs => sends_only sockfd evs /\ delivered sockfd text evs).
Proof.
  intros text Hl. destruct (write_encoded data rest b64 Hl) as (b & Hb & Hc).
  eapply wp_pure_bind; [exact Hb|]. eapply wp_pure_bind; [exact Hc|].
  apply (wp_bind _ _ _ _ (fun _ evs => sends_only sockfd evs /\ delivered sockfd text evs)).
  - eapply wp_conseq; [apply send_linef_delivered;
      [apply (format_write_line (mk_report r ret data w))|apply write_line_no_nul]| |done].
    intros evs [Hs Hp]. split; [by eapply sends_outside|done].
  - intros rc evs Hd. apply wp_ret. by rewrite app_nil_r.
Qed.

Lemma stream_write_run sockfd r ret (data : bytes) (rest : buf) w h :
  let rep := mk_report r ret data w in
  wp (stream_write_cb fuel sockfd r ret ((Some <$> data) ++ rest) (length data) w) h
    (line_begun sockfd (line_sent (write_line rep))) (fun _ => reported_line sockfd rep).
Proof.
  intros rep. unfold stream_write_cb, reported_line. cbv zeta. cbn [rp_data rep].
  set (need := hsed_base64_encoded_len (length data)) in *. case_decide as Hneed.
  - apply run_mret_bind.
    eapply wp_mono; [apply write_send_run; by rewrite length_alloca|].
    intros [] evs [Hs Hd]. by apply written_stack.
  - apply (wp_bind _ _ _ _ (fun (b64 : option buf) evs => exists ok : bool,
      evs = [Ev (CMalloc (Z.of_nat need)) ok] /\ b64 = if ok then Some (alloca need) else None)).
    { apply wp_call_bind. intros ok _. apply wp_ret. eauto. }
    cbn beta. intros b64 evs (ok & -> & ->). destruct ok.
    + eapply wp_conseq; [apply write_send_run; by rewrite length_alloca| |].
      * intros evs [Ho Hp]. split; [by constructor|done].
      * intros [] evs [Hs Hd]. apply written_heap; [lia|done..].
    + apply wp_ret. apply written_no_memory. lia.
Qed.

Lemma stream_callbacks_ok sockfd pid fd size :
  callbacks_ok size (reported_line sockfd) (stream_attached_cb fuel sockfd pid fd)
    (stream_poll_cb sockfd) (stream_write_cb fuel sockfd).
Proof.
  split.
  - intros h r ret capture data w rest -> _.
    eapply wp_conseq; [apply stream_write_run|by intros evs []|].
    intros [] evs Hw. split; [by eapply line_written_outside|done].
  - intros h. unfold stream_poll_cb. apply wp_call_bind. intros [[|c buf]|e] _;
      apply wp_ret; by repeat constructor.
  - intros h. unfold stream_attached_cb.
    apply (wp_bind _ _ _ _ (fun _ evs => outside evs)).
    + assert (format (jlit "{'type':'attached','pid':%d,'fd':%d}") [AInt pid; AInt fd]
        = Some (json_line [(lit "type", quoted (lit "attached")); (lit "pid", print_d pid);
                           (lit "fd", print_d fd)])) as Hf by format_as.
      eapply wp_conseq; [apply send_linef_delivered; [exact Hf|]| |].
      * line_no_nul. by repeat constructor.
      * intros evs [Hs _]. by eapply sends_outside.
      * intros rc evs [Hs _]. by eapply sends_outside.
    + intros _ evs Ho. apply wp_ret. by rewrite app_nil_r.
Qed.
End callbacks.

(** ** Properties *)

(** C20: A captured write of up to 1400 bytes is reported by sending exactly one
    line, which a JSON reader reads back as the event with data that decodes
    to the very bytes captured.  The whole line is sent, unless a send fails
    for good, when a prefix is; nothing is sent only if the data needs an
    allocation and it fails. *)
Theorem stream_write_correct {K : Kernel} {A : Arch} {L : SendLaws K} (fuel : nat) (sockfd : Z)
    (tid ret : Z) (data : bytes) (rest : buf) (is_writev : bool) (h : hist) :
  in_s 32 tid -> in_s 64 ret -> length data <= 1400 ->
  exists line data_b64,
    NL ∉ line /\
    json_object line = Some
      [ (lit "type", JStr (lit "write")); (lit "tid", JNum tid); (lit "ret", JNum ret);
        (lit "captured", JNum (Z.of_nat (length data))); (lit "is_writev", JBool is_writev);
        (lit "data_b64", JStr data_b64) ] /\
    b64_decode data_b64 = Some data /\
    wp (stream_write_cb fuel sockfd tid ret ((Some <$> data) ++ rest) (length data) is_writev) h
      (line_begun sockfd (line ++ [NL]))
      (fun _ => line_written sockfd (hsed_base64_encoded_len (length data)) (line ++ [NL])).
Proof.
  intros Ht Hr Hd. set (rep := mk_report tid ret data is_writev).
  exists (write_line rep), (b64_spec data). split_and!.
  - apply visible_no_newline, write_line_visible.
  - apply (write_line_reads rep).
  - apply b64_decode_spec.
  - rewrite <- (line_sent_fits (write_line rep)) by (by apply write_line_length).
    apply (stream_write_run fuel sockfd tid ret data rest is_writev h).
Qed.

Lemma stream_write_correct_witness :
  let data := lit "hello" in
  let run := @stream_write_cb choppy 200 4 7 5 ((Some <$> data) ++ []) (length data) false in
  fst (run []) = Done tt /\
  exists line data_b64,
    NL ∉ line /\
    json_object line = Some
      [ (lit "type", JStr (lit "write")); (lit "tid", JNum 7); (lit "ret", JNum 5);
        (lit "captured", JNum (Z.of_nat (length data))); (lit "is_writev", JBool false);
        (lit "data_b64", JStr data_b64) ] /\
    b64_decode data_b64 = Some data /\
    wp run [] (line_begun 4 (line ++ [NL]))
      (fun _ => line_written 4 (hsed_base64_encoded_len (length data)) (line ++ [NL])).
Proof.
  intros data run. split; [by vm_compute|].
  apply (@stream_write_correct choppy x86_64 choppy_laws 200 4 7 5 data [] false []).
  - unfold in_s. lia.
  - unfold in_s. lia.
  - cbn. lia.
Defined.

(** C36: The line buffer of [hsed_send_linef] is smaller than the capture limit
    allows an event to be: every captured write of 1500 bytes or more, up to
    the capture limit, is reported by its first 2047 bytes and a newline,
    which is not the whole event and which no JSON reader accepts. *)
Theorem stream_write_cut {K : Kernel} {A : Arch} {L : SendLaws K} (fuel : nat) (sockfd : Z)
    (tid ret : Z) (data : bytes) (rest : buf) (is_writev : bool) (h : hist) :
  in_s 32 tid -> in_s 64 ret -> 1500 <= length data <= Z.to_nat MAX_CAPTURE_HARD_LIMIT ->
  exists cut more,
    write_line (mk_report tid ret data is_writev) = cut ++ more /\
    length cut = 2047 /\ more <> [] /\ json_object cut = None /\
    wp (stream_write_cb fuel sockfd tid ret ((Some <$> data) ++ rest) (length data) is_writev) h
      (line_begun sockfd (cut ++ [NL]))
      (fun _ => line_written sockfd (hsed_base64_encoded_len (length data)) (cut ++ [NL])).
Proof.
  intros Ht Hr Hd. set (rep := mk_report tid ret data is_writev).
  pose proof (write_line_long rep Ht Hr Hd) as Hl.
  exists (take (LINEF_MAX - 1) (write_line rep)), (drop (LINEF_MAX - 1) (write_line rep)).
  split_and!.
  - by rewrite take_drop.
  - rewrite length_take. unfold LINEF_MAX in *. lia.
  - intros E. apply (f_equal length) in E. rewrite length_drop in E. unfold LINEF_MAX in *.
    cbn [length] in E. lia.
  - by apply write_line_cut; [..|apply Hd|].
  - apply (stream_write_run fuel sockfd tid ret data rest is_writev h).
Qed.

Lemma stream_write_cut_witness :
  let data := replicate 1600 "a"%char in
  exists cut more,
    write_line (mk_report 7 1600 data true) = cut ++ more /\
    length cut = 2047 /\ more <> [] /\ json_object cut = None /\
    wp (@stream_write_cb choppy 3000 4 7 1600 ((Some <$> data) ++ []) (length data) true) []
      (line_begun 4 (cut ++ [NL]))
      (fun _ => line_written 4 (hsed_base64_encoded_len (length data)) (cut ++ [NL])).
Proof.
  intros data.
  apply (@stream_write_cut choppy x86_64 choppy_laws 3000 4 7 1600 data [] true []).
  - unfold in_s. lia.
  - unfold in_s. lia.
  - unfold data. rewrite length_replicate. unfold MAX_CAPTURE_HARD_LIMIT. lia.
Defined.
