(* ===== verification/Server.v ===== *)
(** * server.c: the commands of a connection

    [handle_connection] reads lines, splits them into words and runs the
    command; [hsed_server_run] opens the socket and starts a thread per
    client. *)

From stdpp Require Import sorting.
From S2P Require Import Prelude CLib Kernel Util Json EntryList Protocol ProcRead ProcScan.
From S2P Require Import Parallel Reclaim Tids Tracer Session TraceProps Stream.

Definition SIGHUP : Z := 1.
Definition SIGKILL : Z := 9.
Definition LINE_MAX : nat := Z.to_nat 512.

Record conn_args_t := mk_conn { sockfd : Z; max_capture : Z; scan_threads : Z }.

Section server.
Context {K : Kernel} {A : Arch} {Q : Qsort} (fuel : nat).

(** ** recv_line *)

(** The [for] loop, at index [i] of [buf]. *)
Fixpoint recv_loop (fuel : nat) (fd : Z) (buf : buf) (bufsize i : nat) : prog (Z * Prelude.buf) :=
  match fuel with
  | O => out_of_fuel
  | S fuel =>
      n ← syscall (CRecv fd 1 false);
      match n with
      | ROk [] => mret ((-1)%Z, buf)
      | RErr errno =>
          if decide (errno = EINTR) then recv_loop fuel fd buf bufsize i
          else mret ((-1)%Z, buf)
      | ROk (c :: _) =>
          if decide (c = NL) then
            buf ← pure (store buf i NUL);
            mret (Z.of_nat i, buf)
          else if decide (i + 1 < bufsize) then
            buf ← pure (store buf i c);
            recv_loop fuel fd buf bufsize (i + 1)
          else recv_loop fuel fd buf bufsize i
      end
  end.

Definition recv_line (fd : Z) (buf : buf) (bufsize : nat) : prog (Z * Prelude.buf) :=
  recv_loop fuel fd buf bufsize 0.

(** ** SCAN and STATS *)

(** The loop over the entries, from the [i]-th of [n] more; [None] when the
    function has returned early. *)
Fixpoint send_entries (sockfd : Z) (list : hsed_list_t) (n i : nat) (linebuf : buf) (total : Z)
    : prog (option Z) :=
  match n with
  | O => mret (Some total)
  | S n =>
      e ← pure (item_at list i);
      linebuf ← pure (hsed_format_entry e linebuf LINEBUF);
      line ← pure (cstr linebuf);
      rc ← hsed_send_line fuel sockfd line;
      if decide (rc <> 0)%Z then mret None else
      total ← pure (add_i64 total (e_size e));
      send_entries sockfd list n (S i) linebuf total
  end.

Definition handle_scan (sockfd min_size only_pid uid_filter scan_threads : Z) : prog unit :=
  P ← syscall CProcfs;
  '(rc, list) ← pure (hsed_scan P hsed_list_init min_size only_pid uid_filter scan_threads);
  if decide (rc <> 0)%Z then
    errno ← syscall CErrno;
    _ ← hsed_send_linef fuel sockfd (jlit "{'type':'error','message':'scan failed: %s'}")
          [AStr (strerror errno)];
    mret tt
  else
    total ← send_entries sockfd list (count list) 0 (alloca LINEBUF) 0;
    match total with
    | None => mret tt
    | Some total =>
        _ ← hsed_send_linef fuel sockfd (jlit "{'type':'end','count':%zu,'total_bytes':%lld}")
              [ASize (Z.of_nat (count list)); ALLong total];
        mret tt
    end.

Definition handle_stats (sockfd min_size uid_filter scan_threads : Z) : prog unit :=
  P ← syscall CProcfs;
  '(rc, stats) ← pure (hsed_scan_stats P (mk_stats 0 0) min_size uid_filter scan_threads);
  if decide (rc <> 0)%Z then
    errno ← syscall CErrno;
    _ ← hsed_send_linef fuel sockfd (jlit "{'type':'error','message':'stats scan failed: %s'}")
          [AStr (strerror errno)];
    mret tt
  else
    _ ← hsed_send_linef fuel sockfd (jlit "{'type':'stats','count':%zu,'total_bytes':%lld}")
          [ASize (s_count stats); ALLong (s_total stats)];
    mret tt.

(** ** TRUNCATE, HUP and KILL *)

(** The reply to a failure: [err] escaped into [esc]. *)
Definition send_error (sockfd : Z) (err : buf) : prog unit :=
  msg ← pure (cstr err);
  esc ← pure (escaped_local 512 msg);
  _ ← hsed_send_linef fuel sockfd error_format [AStr esc];
  mret tt.

Definition handle_truncate (sockfd pid fd : Z) : prog unit :=
  '(rc, freed, err) ← hsed_truncate_fd pid fd 0 (alloca 256) 256;
  if decide (rc <> 0)%Z then send_error sockfd err
  else
    _ ← hsed_send_linef fuel sockfd (jlit "{'type':'result','ok':true,'freed':%lld}") [ALLong freed];
    mret tt.

(** [handle_hup] and [handle_kill], which differ in the signal. *)
Definition handle_signal (sig sockfd pid : Z) : prog unit :=
  '(rc, err) ← hsed_send_signal pid sig (alloca 256) 256;
  if decide (rc <> 0)%Z then send_error sockfd err
  else _ ← hsed_send_linef fuel sockfd (jlit "{'type':'result','ok':true}") []; mret tt.

Definition handle_hup (sockfd pid : Z) : prog unit := handle_signal SIGHUP sockfd pid.
Definition handle_kill (sockfd pid : Z) : prog unit := handle_signal SIGKILL sockfd pid.

(** ** The commands *)

Definition delims : bytes := [SPACE; TAB; CR; NL].

(** [strtok_r(NULL, delims, &save)]. *)
Definition next_word (save : bytes) : option bytes * bytes := strtok_r delims save.

Definition pid_of (a : bytes) : Z := i32 (atol a).
Definition uid_of (a : bytes) : Z := u32 (strtoul 10 a).

(** One command; [false] when it ends the connection. *)
Definition dispatch (c : conn_args_t) (cmd save : bytes) : prog bool :=
  let sockfd := sockfd c in
  if strcaseeq cmd (lit "PING") then
    _ ← hsed_send_linef fuel sockfd (jlit "{'type':'pong'}") []; mret true
  else if strcaseeq cmd (lit "QUIT") then mret false
  else if strcaseeq cmd (lit "SCAN") then
    let '(a1, save) := next_word save in
    let '(a2, save) := next_word save in
    let '(a3, save) := next_word save in
    let min_size := match a1 with Some a => atoll a | None => 0%Z end in
    let only_pid := match a2 with Some a => pid_of a | None => 0%Z end in
    let uid_filter := match a3 with Some a => uid_of a | None => HSED_UID_ANY end in
    _ ← handle_scan sockfd min_size only_pid uid_filter (scan_threads c); mret true
  else if strcaseeq cmd (lit "STATS") then
    let '(a1, save) := next_word save in
    let '(a2, save) := next_word save in
    let min_size := match a1 with Some a => atoll a | None => 0%Z end in
    let uid_filter := match a2 with Some a => uid_of a | None => HSED_UID_ANY end in
    _ ← handle_stats sockfd min_size uid_filter (scan_threads c); mret true
  else if strcaseeq cmd (lit "TRUNCATE") then
    let '(a1, save) := next_word save in
    let '(a2, save) := next_word save in
    match a1, a2 with
    | Some a1, Some a2 => _ ← handle_truncate sockfd (pid_of a1) (atoi a2); mret true
    | _, _ => _ ← hsed_send_linef fuel sockfd (jlit "{'type':'error','message':'usage: TRUNCATE <pid> <fd>'}") [];
              mret true
    end
  else if strcaseeq cmd (lit "HUP") then
    let '(a1, save) := next_word save in
    match a1 with
    | Some a1 => _ ← handle_hup sockfd (pid_of a1); mret true
    | None => _ ← hsed_send_linef fuel sockfd (jlit "{'type':'error','message':'usage: HUP <pid>'}") []; mret true
    end
  else if strcaseeq cmd (lit "KILL") then
    let '(a1, save) := next_word save in
    match a1 with
    | Some a1 => _ ← handle_kill sockfd (pid_of a1); mret true
    | None => _ ← hsed_send_linef fuel sockfd (jlit "{'type':'error','message':'usage: KILL <pid>'}") []; mret true
    end
  else if strcaseeq cmd (lit "STREAM") then
    let '(a1, save) := next_word save in
    let '(a2, save) := next_word save in
    match a1, a2 with
    | Some a1, Some a2 =>
        _ ← handle_stream fuel sockfd (pid_of a1) (atoi a2) (max_capture c); mret true
    | _, _ => _ ← hsed_send_linef fuel sockfd (jlit "{'type':'error','message':'usage: STREAM <pid> <fd>'}") [];
              mret true
    end
  else
    _ ← hsed_send_linef fuel sockfd (jlit "{'type':'error','message':'unknown command'}") [];
    mret true.

(** The [for] loop: [turns] lines. *)
Fixpoint connection_loop (turns : nat) (c : conn_args_t) (line : buf) : prog unit :=
  match turns with
  | O => out_of_fuel
  | S turns =>
      '(n, line) ← recv_line (sockfd c) line LINE_MAX;
      if decide (n < 0)%Z then mret tt else
      s ← pure (cstr line);
      match strtok_r delims s with
      | (None, _) => connection_loop turns c line
      | (Some cmd, save) =>
          go ← dispatch c cmd save;
          if (go : bool) then connection_loop turns c line else mret tt
      end
  end.

Definition handle_connection (c : conn_args_t) : prog unit :=
  _ ← connection_loop fuel c (alloca LINE_MAX);
  syscall (CClose (sockfd c)).

(** ** hsed_server_run *)

Definition SUN_PATH : nat := 108.

(** One turn of [while ( *shutdown_flag == 0)], [true] to go on. *)
Definition accept_turn (g_use_syslog : bool) (listen_fd max_capture scan_threads : Z) : prog bool :=
  pr ← syscall (CPoll listen_fd 500);
  match pr with
  | RErr errno => mret (bool_decide (errno = EINTR))
  | ROk pr =>
      if decide (pr = 0)%Z then mret true else
      c ← syscall (CAccept listen_fd);
      match c with
      | RErr _ => mret true
      | ROk client_fd =>
          ok ← syscall (CMalloc 24);   (* sizeof( *cargs) *)
          if (ok : bool) then
            t ← syscall (CSpawn client_fd max_capture scan_threads);
            match t with
            | ROk _ => mret true
            | RErr errno =>
                msg ← pure (format (lit "pthread_create failed: %s") [AStr (strerror errno)]);
                _ ← hsed_log_err g_use_syslog msg;
                _ ← syscall (CClose client_fd);
                mret true
            end
          else _ ← syscall (CClose client_fd); mret true
      end
  end.

Fixpoint accept_loop (turns : nat) (g_use_syslog : bool) (listen_fd max_capture scan_threads : Z)
    : prog unit :=
  match turns with
  | O => out_of_fuel
  | S turns =>
      stop ← syscall CShutdownFlag;
      if (stop : bool) then mret tt else
      go ← accept_turn g_use_syslog listen_fd max_capture scan_threads;
      if (go : bool) then accept_loop turns g_use_syslog listen_fd max_capture scan_threads
      else mret tt
  end.

Definition hsed_server_run (g_use_syslog : bool) (socket_path : bytes)
    (max_capture scan_threads : Z) : prog Z :=
  _ ← syscall (CUnlink socket_path);
  s ← syscall CSocket;
  match s with
  | RErr errno =>
      msg ← pure (format (lit "socket() failed: %s") [AStr (strerror errno)]);
      _ ← hsed_log_err g_use_syslog msg;
      mret (-1)%Z
  | ROk listen_fd =>
      '(sun_path, _) ← pure (hsed_strlcpy (zeroed SUN_PATH) socket_path SUN_PATH);
      addr ← pure (cstr sun_path);
      b ← syscall (CBind listen_fd addr);
      match b with
      | RErr errno =>
          msg ← pure (format (lit "bind(%s) failed: %s") [AStr socket_path; AStr (strerror errno)]);
          _ ← hsed_log_err g_use_syslog msg;
          _ ← syscall (CClose listen_fd);
          mret (-1)%Z
      | ROk _ =>
          _ ← syscall (CChmod socket_path 0x180);   (* 0600 *)
          l ← syscall (CListen listen_fd 16);
          match l with
          | RErr errno =>
              msg ← pure (format (lit "listen() failed: %s") [AStr (strerror errno)]);
              _ ← hsed_log_err g_use_syslog msg;
              _ ← syscall (CClose listen_fd);
              _ ← syscall (CUnlink socket_path);
              mret (-1)%Z
          | ROk _ =>
              msg ← pure (format (lit "listening on %s") [AStr socket_path]);
              _ ← hsed_log g_use_syslog msg;
              _ ← accept_loop fuel g_use_syslog listen_fd max_capture scan_threads;
              _ ← syscall (CClose listen_fd);
              _ ← syscall (CUnlink socket_path);
              _ ← hsed_log g_use_syslog (lit "shut down");
              mret 0%Z
          end
      end
  end.
End server.
