(* ===== verification/Descriptors.v ===== *)
(** * The descriptors a thread holds

    A ledger of descriptors kept along the calls of a thread: a call may only
    use a descriptor that the thread holds, and a [close], or the creation of
    the thread it is handed to, gives it up.  A thread whose ledger is defined
    never uses a descriptor it has closed, and closes none twice. *)

From S2P Require Import Prelude Kernel.

Definition gained (r : sysres Z) (D : list Z) : list Z :=
  match r with ROk fd => fd :: D | RErr _ => D end.

Fixpoint given_up (fd : Z) (D : list Z) : option (list Z) :=
  match D with
  | [] => None
  | x :: D => if decide (x = fd) then Some D else cons x <$> given_up fd D
  end.

(** The call needs [fd], and does not give it up. *)
Definition needs (fd : Z) (D D' : list Z) : option (list Z) :=
  if decide (fd ∈ D) then Some D' else None.

Definition ledger_step (D : list Z) (e : event) : option (list Z) :=
  match e with
  | Ev c r =>
      match c in call R return R -> option (list Z) with
      | CSocket => fun r => Some (gained r D)
      | COpen _ _ => fun r => Some (gained r D)
      | CAccept fd => fun r => needs fd D (gained r D)
      | CClose fd => fun _ => given_up fd D
      | CSpawn fd _ _ =>
          fun r => match r with ROk _ => given_up fd D | RErr _ => needs fd D D end
      | CSend fd _ | CRecv fd _ _ | CBind fd _ | CListen fd _ | CPoll fd _ | CFtruncate fd _ =>
          fun _ => needs fd D D
      | _ => fun _ => Some D
      end r
  end.

Fixpoint ledger (D : list Z) (evs : list event) : option (list Z) :=
  match evs with
  | [] => Some D
  | e :: evs => D' ← ledger_step D e; ledger D' evs
  end.

(** The descriptors of the whole process: those it was given and has not closed. *)
Definition opened_step (D : list Z) (e : event) : list Z :=
  match e with
  | Ev c r =>
      match c in call R return R -> list Z with
      | CSocket => fun r => gained r D
      | COpen _ _ => fun r => gained r D
      | CAccept _ => fun r => gained r D
      | CClose fd => fun _ => default D (given_up fd D)
      | _ => fun _ => D
      end r
  end.

Definition opened (h : hist) : list Z := foldl opened_step [] h.

(** A new descriptor is one that is not open. *)
Class FdLaws (K : Kernel) : Prop := {
  socket_fresh h fd : answer CSocket h = ROk fd -> fd ∉ opened h;
  accept_fresh l h fd : answer (CAccept l) h = ROk fd -> fd ∉ opened h;
  open_fresh path flags h fd : answer (COpen path flags) h = ROk fd -> fd ∉ opened h }.

(** ** Facts *)

Lemma ledger_app D evs evs' : ledger D (evs ++ evs') = D' ← ledger D evs; ledger D' evs'.
Proof.
  revert D. induction evs as [|e evs IH]; intros D; cbn [app ledger]; [done|].
  destruct (ledger_step D e); cbn [mbind option_bind]; [apply IH|done].
Qed.

Lemma ledger_then D D' evs evs' : ledger D evs = Some D' ->
  ledger D (evs ++ evs') = ledger D' evs'.
Proof. intros H. by rewrite ledger_app, H. Qed.

(** A ledger that is defined is defined at every moment. *)
Lemma ledger_prefix D evs evs' : evs `prefix_of` evs' -> is_Some (ledger D evs') ->
  is_Some (ledger D evs).
Proof.
  intros [rest ->]. rewrite ledger_app. destruct (ledger D evs) as [D'|]; [done|].
  by intros [? ?].
Qed.

Lemma ledger_steady D evs : Forall (fun e => ledger_step D e = Some D) evs -> ledger D evs = Some D.
Proof. induction 1 as [|e evs He _ IH]; cbn [ledger]; [done|]. by rewrite He. Qed.

Lemma needs_held fd D D' : fd ∈ D -> needs fd D D' = Some D'.
Proof. intros H. unfold needs. by rewrite decide_True. Qed.

Lemma needs_some fd D D' D'' : needs fd D D' = Some D'' -> fd ∈ D /\ D'' = D'.
Proof. unfold needs. destruct (decide (fd ∈ D)); [|done]. by intros [= ->]. Qed.

Lemma given_up_head (fd : Z) D : given_up fd (fd :: D) = Some D.
Proof. cbn. by rewrite decide_True. Qed.

Lemma given_up_perm (fd : Z) D : forall D', given_up fd D = Some D' -> D ≡ₚ fd :: D'.
Proof.
  induction D as [|x D IH]; intros D' H; [done|]. cbn in H.
  destruct (decide (x = fd)) as [->|Hne]; [by injection H as ->|].
  destruct (given_up fd D) as [D0|]; [|done]. injection H as <-.
  rewrite (IH D0) by done. apply Permutation_swap.
Qed.

Lemma given_up_held (fd : Z) D : fd ∈ D -> exists D', given_up fd D = Some D'.
Proof.
  induction D as [|x D IH]; [by intros ?%elem_of_nil|]. cbn.
  destruct (decide (x = fd)) as [->|Hne]; [eauto|].
  intros [->|H]%elem_of_cons; [done|]. destruct (IH H) as [D' ->]. cbn. eauto.
Qed.

(** Computes the ledger of calls written out. *)
Ltac ledger_calls :=
  repeat first
    [ reflexivity
    | progress cbn [ledger ledger_step gained mbind option_bind app]
    | rewrite needs_held by (repeat first [apply list_elem_of_here | apply list_elem_of_further])
    | rewrite given_up_head ].
