(* ===== verification/Listener.v ===== *)
(** * server.c, the listening socket

    [hsed_server_run]: the set-up of the socket in the order that lets nobody
    in before it is private, what becomes of every client that is accepted,
    and the shutdown: the socket is closed and unlinked, and a raised
    shutdown flag does end the loop. *)

From S2P Require Import Prelude CLib Kernel Util Json EntryList Protocol ProcRead ProcScan.
From S2P Require Import Reclaim Tracer Server Descriptors.

(** ** Events of the loop *)

Definition is_log (e : event) : bool :=
  match e with Ev c _ => match c with CSyslog _ _ | CStderr _ => true | _ => false end end.

(** The clients [accept] returned. *)
Definition accepted_by (e : event) : list Z :=
  match e with
  | Ev c r =>
      match c in call R return R -> list Z with
      | CAccept _ => fun r => match r with ROk fd => [fd] | RErr _ => [] end
      | _ => fun _ => []
      end r
  end.

(** The clients given to a thread, or hung up on. *)
Definition settled_by (e : event) : list Z :=
  match e with
  | Ev c r =>
      match c in call R return R -> list Z with
      | CSpawn fd _ _ => fun r => match r with ROk _ => [fd] | RErr _ => [] end
      | CClose fd => fun _ => [fd]
      | _ => fun _ => []
      end r
  end.

Definition accepted (evs : list event) : list Z := evs ≫= accepted_by.
Definition settled (evs : list event) : list Z := evs ≫= settled_by.

(** The calls of the loop on the descriptor [listen_fd]; a thread is given
    the limits of the command line. *)
Definition loop_call (listen_fd max_capture scan_threads : Z) (e : event) : bool :=
  match e with
  | Ev c _ =>
      match c with
      | CShutdownFlag | CMalloc _ | CClose _ => true
      | CPoll fd _ | CAccept fd => bool_decide (fd = listen_fd)
      | CSpawn _ m t => bool_decide (m = max_capture /\ t = scan_threads)
      | _ => is_log e
      end
  end.

Lemma accepted_app evs evs' : accepted (evs ++ evs') = accepted evs ++ accepted evs'.
Proof. apply bind_app. Qed.
Lemma settled_app evs evs' : settled (evs ++ evs') = settled evs ++ settled evs'.
Proof. apply bind_app. Qed.

(** A stretch of the loop in which every client is settled as it comes. *)
Definition clients_settled (evs : list event) : Prop := accepted evs = settled evs.

Definition flag_reads (h : hist) : nat :=
  length (List.filter (fun e => match e with Ev c _ =>
    match c with CShutdownFlag => true | _ => false end end) h).

Lemma flag_reads_app h h' : flag_reads (h ++ h') = flag_reads h + flag_reads h'.
Proof. unfold flag_reads. by rewrite List.filter_app, length_app. Qed.

Section loop.
Context {K : Kernel} (g_use_syslog : bool) (listen_fd max_capture scan_threads : Z).

Definition looping (evs : list event) : Prop :=
  clients_settled evs /\ ledger [listen_fd] evs = Some [listen_fd] /\
  Forall (fun e => loop_call listen_fd max_capture scan_threads e = true) evs.

Lemma looping_app evs evs' : looping evs -> looping evs' -> looping (evs ++ evs').
Proof.
  intros (Hs & Hd & Hf) (Hs' & Hd' & Hf'). split_and!; [| |by apply Forall_app].
  - unfold clients_settled in *. by rewrite accepted_app, settled_app, Hs, Hs'.
  - by rewrite (ledger_then _ [listen_fd]).
Qed.

Lemma log_run msg h I : wp (hsed_log g_use_syslog msg) h I
  (fun _ evs => exists e, evs = [e] /\ is_log e = true).
Proof. unfold hsed_log. destruct g_use_syslog; apply wp_call; eauto. Qed.

Lemma log_err_run msg h I : wp (hsed_log_err g_use_syslog msg) h I
  (fun _ evs => exists e, evs = [e] /\ is_log e = true).
Proof. unfold hsed_log_err. destruct g_use_syslog; apply wp_call; eauto. Qed.

Lemma log_neutral e : is_log e = true -> accepted_by e = [] /\ settled_by e = [] /\
  loop_call listen_fd max_capture scan_threads e = true /\ forall S, ledger_step S e = Some S.
Proof. destruct e as [R c r]. by destruct c. Qed.

(** Closes [looping] of calls written out. *)
Ltac quiet_stretch := split_and!; [done|ledger_calls|by repeat constructor].

(** A turn of the loop always returns. *)
Lemma accept_turn_run h I :
  wp (accept_turn g_use_syslog listen_fd max_capture scan_threads) h I (fun _ evs => looping evs).
Proof.
  assert (bool_decide (listen_fd = listen_fd) = true) as Hfd by (by apply bool_decide_eq_true).
  assert (bool_decide (max_capture = max_capture /\ scan_threads = scan_threads) = true) as Hlim
    by (by apply bool_decide_eq_true).
  unfold accept_turn. apply wp_call_bind. intros [pr|e] _.
  2: { apply wp_ret. quiet_stretch. }
  destruct (decide (pr = 0)%Z); [apply wp_ret; quiet_stretch|].
  apply wp_call_bind. intros [client_fd|e] _.
  2: { apply wp_ret. quiet_stretch. }
  apply wp_call_bind. intros [|] _.
  2: { apply wp_call_bind. intros [] _. apply wp_ret. quiet_stretch. }
  apply wp_call_bind. intros [u|e] _.
  { apply wp_ret. quiet_stretch. }
  assert (format (lit "pthread_create failed: %s") [AStr (strerror e)]
    = Some (lit "pthread_create failed: " ++ strerror e)) as Hf by format_tail.
  eapply wp_pure_bind; [exact Hf|]. eapply wp_bind; [apply log_err_run|].
  cbn beta. intros [] evs (e' & -> & Hlog). apply wp_call_bind. intros [] _. apply wp_ret.
  destruct (log_neutral e' Hlog) as (Ha & Hs & Hl & Hd). split_and!.
  - unfold clients_settled, accepted, settled. cbn [app mbind list_bind accepted_by settled_by].
    by rewrite Ha, Hs.
  - ledger_calls. rewrite Hd. ledger_calls.
  - repeat (apply Forall_cons; split; [done|]). constructor.
Qed.

(** The loop, cut short or not. *)
Lemma accept_loop_run turns : forall h,
  wp (accept_loop turns g_use_syslog listen_fd max_capture scan_threads) h looping
    (fun _ evs => looping evs).
Proof.
  assert (forall x, looping [Ev CShutdownFlag x]) as Hflag
    by (intros; quiet_stretch).
  induction turns as [|turns IH]; intros h; cbn [accept_loop].
  { apply wp_fuel. quiet_stretch. }
  apply wp_call_bind. intros [|] _; [apply wp_ret; apply Hflag|].
  eapply wp_bind; [apply accept_turn_run|]. cbn beta. intros [|] evs Hevs.
  - eapply wp_conseq; [apply IH| |]; cbn beta.
    + intros evs' H. apply (looping_app [_]); [done|]. by apply looping_app.
    + intros [] evs' H. apply (looping_app [_]); [done|]. by apply looping_app.
  - apply wp_ret. apply (looping_app [_]); [done|]. by rewrite app_nil_r.
Qed.

(** Once the flag has been raised, the loop ends. *)
Lemma accept_loop_ends n turns : forall h,
  (forall h, n <= flag_reads h -> answer CShutdownFlag h = true) ->
  n - flag_reads h < turns ->
  wp (accept_loop turns g_use_syslog listen_fd max_capture scan_threads) h (fun _ => False)
    (fun _ _ => True).
Proof.
  intros h Hn. revert h. induction turns as [|turns IH]; intros h Hlt; [lia|]. cbn [accept_loop].
  apply wp_call_bind. intros stop Hstop. destruct stop; [by apply wp_ret|].
  assert (flag_reads h < n) as Hlt'.
  { destruct (decide (n <= flag_reads h)) as [Hle|]; [|lia]. by rewrite Hn in Hstop. }
  eapply wp_bind; [apply (accept_turn_run _ (fun _ => False))|].
  cbn beta. intros go evs _. destruct go; [|by apply wp_ret].
  eapply wp_conseq; [apply IH|done|done].
  rewrite !flag_reads_app. change (flag_reads [_]) with 1. lia.
Qed.
End loop.

(** ** The whole of [hsed_server_run] *)

(** The address bound: [sun_path] holds 107 bytes of the path. *)
Definition bound_path (socket_path : bytes) : bytes := take (SUN_PATH - 1) socket_path.

(** The set-up that succeeds: the permissions of the socket are narrowed
    before it listens. *)
Definition opening (socket_path : bytes) (fd : Z) (ch : sysres unit) : list event :=
  [ Ev (CUnlink socket_path) tt; Ev CSocket (ROk fd);
    Ev (CBind fd (bound_path socket_path)) (ROk tt); Ev (CChmod socket_path 0x180) ch ].

Inductive server_ran (socket_path : bytes) (max_capture scan_threads : Z)
    : Z -> list event -> Prop :=
  | ran_no_socket e log : is_log log = true ->
      server_ran socket_path max_capture scan_threads (-1)
        [Ev (CUnlink socket_path) tt; Ev CSocket (RErr e); log]
  | ran_no_bind fd e log : is_log log = true ->
      server_ran socket_path max_capture scan_threads (-1)
        [Ev (CUnlink socket_path) tt; Ev CSocket (ROk fd);
         Ev (CBind fd (bound_path socket_path)) (RErr e); log; Ev (CClose fd) tt]
  | ran_no_listen fd ch e log : is_log log = true ->
      server_ran socket_path max_capture scan_threads (-1)
        (opening socket_path fd ch ++
         [Ev (CListen fd 16) (RErr e); log; Ev (CClose fd) tt; Ev (CUnlink socket_path) tt])
  | ran fd ch log evs log' : is_log log = true -> is_log log' = true ->
      looping fd max_capture scan_threads evs ->
      server_ran socket_path max_capture scan_threads 0
        (opening socket_path fd ch ++ [Ev (CListen fd 16) (ROk tt); log] ++ evs ++
         [Ev (CClose fd) tt; Ev (CUnlink socket_path) tt; log']).

(** A run that is cut short is in the loop. *)
Definition server_running (socket_path : bytes) (max_capture scan_threads : Z)
    (evs : list event) : Prop :=
  exists fd ch log evs', is_log log = true /\ looping fd max_capture scan_threads evs' /\
    evs = opening socket_path fd ch ++ [Ev (CListen fd 16) (ROk tt); log] ++ evs'.

Section run.
Context {K : Kernel} (fuel : nat) (g_use_syslog : bool) (socket_path : bytes).
Context (max_capture scan_threads : Z).

(** The loop may be cut short, or, with [I] false, is known to end. *)
Lemma server_run_with (I : Z -> list event -> Prop) (J : list event -> Prop) h : no_nul socket_path ->
  (forall fd h, wp (accept_loop fuel g_use_syslog fd max_capture scan_threads) h (I fd)
     (fun _ evs => looping fd max_capture scan_threads evs)) ->
  (forall fd ch log evs, is_log log = true -> I fd evs ->
     J (opening socket_path fd ch ++ [Ev (CListen fd 16) (ROk tt); log] ++ evs)) ->
  wp (hsed_server_run fuel g_use_syslog socket_path max_capture scan_threads) h J
    (server_ran socket_path max_capture scan_threads).
Proof.
  intros Hn Hloop HJ. unfold hsed_server_run.
  apply wp_call_bind. intros [] _. apply wp_call_bind. intros [fd|e] _.
  2: { assert (format (lit "socket() failed: %s") [AStr (strerror e)]
         = Some (lit "socket() failed: " ++ strerror e)) as Hf by format_tail.
       eapply wp_pure_bind; [exact Hf|]. eapply wp_bind; [apply log_err_run|].
       cbn beta. intros [] evs (log & -> & Hlog). apply wp_ret. by apply ran_no_socket. }
  destruct (strlcpy_cstr (zeroed SUN_PATH) socket_path SUN_PATH) as (sun & Hcpy & _ & Hsun);
    [unfold zeroed; rewrite length_replicate; unfold SUN_PATH; lia|done|].
  eapply wp_pure_bind; [exact Hcpy|]. eapply wp_pure_bind; [exact Hsun|].
  apply wp_call_bind. intros [[]|e] _.
  2: { assert (format (lit "bind(%s) failed: %s") [AStr socket_path; AStr (strerror e)]
         = Some (lit "bind(" ++ socket_path ++ lit ") failed: " ++ strerror e)) as Hf by format_tail.
       eapply wp_pure_bind; [exact Hf|]. eapply wp_bind; [apply log_err_run|].
       cbn beta. intros [] evs (log & -> & Hlog). apply wp_call_bind. intros [] _.
       apply wp_ret. by apply ran_no_bind. }
  apply wp_call_bind. intros ch _. apply wp_call_bind. intros [[]|e] _.
  2: { assert (format (lit "listen() failed: %s") [AStr (strerror e)]
         = Some (lit "listen() failed: " ++ strerror e)) as Hf by format_tail.
       eapply wp_pure_bind; [exact Hf|]. eapply wp_bind; [apply log_err_run|].
       cbn beta. intros [] evs (log & -> & Hlog). do 2 (apply wp_call_bind; intros [] _).
       apply wp_ret. by apply (ran_no_listen _ _ _ fd ch e log). }
  assert (format (lit "listening on %s") [AStr socket_path]
    = Some (lit "listening on " ++ socket_path)) as Hf by format_tail.
  eapply wp_pure_bind; [exact Hf|]. eapply wp_bind; [apply log_run|].
  cbn beta. intros [] evs (log & -> & Hlog). eapply wp_bind.
  { eapply wp_conseq; [apply Hloop| |intros u evs H; exact H].
    intros evs Hevs. by apply (HJ fd ch log evs). }
  cbn beta. intros [] evs Hevs. do 2 (apply wp_call_bind; intros [] _).
  eapply wp_bind; [apply log_run|]. cbn beta. intros [] evs' (log' & -> & Hlog').
  apply wp_ret. by apply (ran _ _ _ fd ch log evs log').
Qed.
End run.

(** ** Properties *)

(** C9: With no undefined behaviour, [hsed_server_run] sets the socket up in an
    order that narrows its permissions before it listens, or undoes what it
    did and returns -1; every client it accepts is given to exactly one
    thread, with the limits of the command line, or hung up on, before the
    next is taken; and it ends by closing and unlinking the socket. *)
Theorem server_run_correct {K : Kernel} (fuel : nat) (g_use_syslog : bool) (socket_path : bytes)
    (max_capture scan_threads : Z) (h : hist) : no_nul socket_path ->
  wp (hsed_server_run fuel g_use_syslog socket_path max_capture scan_threads) h
    (server_running socket_path max_capture scan_threads)
    (server_ran socket_path max_capture scan_threads).
Proof.
  intros Hn. apply (server_run_with fuel g_use_syslog socket_path max_capture scan_threads
    (fun fd => looping fd max_capture scan_threads)); [done| |].
  - intros fd h'. apply accept_loop_run.
  - intros fd ch log evs Hlog Hevs. by exists fd, ch, log, evs.
Qed.

(** C19: The daemon can be stopped: once a signal has raised the shutdown flag
    (here, after [n] looks at it), [hsed_server_run] returns, whatever else
    the kernel answers and however many clients there are. *)
Theorem server_run_stops {K : Kernel} (n fuel : nat) (g_use_syslog : bool) (socket_path : bytes)
    (max_capture scan_threads : Z) (h : hist) : no_nul socket_path ->
  (forall h, n <= flag_reads h -> answer CShutdownFlag h = true) -> n < fuel ->
  wp (hsed_server_run fuel g_use_syslog socket_path max_capture scan_threads) h (fun _ => False)
    (server_ran socket_path max_capture scan_threads).
Proof.
  intros Hn Hflag Hfuel. apply (server_run_with fuel g_use_syslog socket_path max_capture
    scan_threads (fun _ _ => False)); [done| |done].
  intros fd h'. eapply wp_conseq; [apply (wp_both _ _ _ _ _ _
    (accept_loop_run g_use_syslog fd max_capture scan_threads fuel h')
    (accept_loop_ends g_use_syslog fd max_capture scan_threads n fuel h' Hflag ltac:(lia)))| |].
  - by intros evs [_ ?].
  - by intros u evs [? _].
Qed.

(** A kernel with a client waiting at every poll, and the flag raised at the
    third look. *)
Definition busy_kernel : Kernel := {|
  answer R c h :=
    match c in call R return R with
    | CShutdownFlag => bool_decide (2 <= flag_reads h)
    | CPoll _ _ => ROk 1%Z
    | c => quiet c
    end;
  strerror _ := lit "error" |}.

Abbreviation busy_run fuel :=
  (@hsed_server_run busy_kernel fuel false (lit "/run/hsed.sock") 200 0).

(** Two clients are given to threads; then the socket is unlinked. *)
Lemma server_run_correct_witness :
  fst (busy_run 5 []) = Done 0%Z /\ accepted (snd (busy_run 5 [])) = [4; 4]%Z /\
  wp (busy_run 5) [] (server_running (lit "/run/hsed.sock") 200 0)
    (server_ran (lit "/run/hsed.sock") 200 0).
Proof.
  split; [vm_compute; reflexivity|]. split; [vm_compute; reflexivity|].
  apply (@server_run_correct busy_kernel 5 false (lit "/run/hsed.sock") 200 0 []).
  repeat constructor; discriminate.
Defined.

Lemma server_run_stops_witness :
  wp (busy_run 3) [] (fun _ => False) (server_ran (lit "/run/hsed.sock") 200 0).
Proof.
  apply (@server_run_stops busy_kernel 2 3 false (lit "/run/hsed.sock") 200 0 []).
  - repeat constructor; discriminate.
  - intros h Hh. apply bool_decide_eq_true. exact Hh.
  - lia.
Defined.

(** C39: A path of 108 bytes or more is cut: the socket is bound under a shorter
    name, and the permissions are narrowed, and the file unlinked at the end,
    under another. *)
Theorem long_path_cut {K : Kernel} (fuel : nat) (g_use_syslog : bool) (socket_path : bytes)
    (max_capture scan_threads : Z) (h : hist) : no_nul socket_path -> 108 <= length socket_path ->
  wp (hsed_server_run fuel g_use_syslog socket_path max_capture scan_threads) h (fun _ => True)
    (fun rc evs => rc = 0%Z -> exists fd r name, name <> socket_path /\
       take 4 evs = [Ev (CUnlink socket_path) tt; Ev CSocket (ROk fd); Ev (CBind fd name) (ROk tt);
                     Ev (CChmod socket_path 0x180) r]).
Proof.
  intros Hn Hl. eapply wp_conseq; [apply (server_run_with fuel g_use_syslog socket_path max_capture
    scan_threads (fun fd => looping fd max_capture scan_threads) (fun _ => True)); [done| |done];
    intros fd h'; apply accept_loop_run|done|].
  intros rc evs H. destruct H as [| | |fd ch log evs log' _ _ _]; [done..|]. intros _.
  exists fd, ch, (bound_path socket_path). split; [|reflexivity]. intros E.
  apply (f_equal length) in E. unfold bound_path, SUN_PATH in E. rewrite length_take in E. lia.
Qed.

Abbreviation long_path := (replicate 120 "a"%char).

Lemma long_path_cut_witness :
  wp (@hsed_server_run busy_kernel 5 false long_path 200 0) [] (fun _ => True)
    (fun rc evs => rc = 0%Z -> exists fd r name, name <> long_path /\
       take 4 evs = [Ev (CUnlink long_path) tt; Ev CSocket (ROk fd); Ev (CBind fd name) (ROk tt);
                     Ev (CChmod long_path 0x180) r]).
Proof.
  apply (@long_path_cut busy_kernel 5 false long_path 200 0 []).
  - apply Forall_replicate. discriminate.
  - rewrite length_replicate. lia.
Defined.
