(* ===== verification/ServerProps.v ===== *)
(** * server.c, reading lines and sending entries

    [recv_line] against the bytes the socket hands over, and the lines that
    answer a SCAN. *)

From stdpp Require Import sorting.
From S2P Require Import Prelude CLib Kernel Util Json EntryList Protocol ProcRead ProcScan.
From S2P Require Import Parallel Reclaim Tids Tracer Session TraceProps Stream Server.

(** ** What the server relies on of the system *)

(** [recv] returns no more bytes than it was asked for. *)
Class RecvLaws (K : Kernel) : Prop :=
  recv_bound fd len dontwait h data :
    answer (CRecv fd len dontwait) h = ROk data -> length data <= len.

(** The /proc a scan sees is a Linux one: well-formed answers, fewer than
    2^31 processes, 15-byte process names, and not 2^63 bytes nor 2^64 deleted files. *)
Class ScanLaws (K : Kernel) : Prop := {
  scan_procfs_ok h : procfs_ok (answer CProcfs h);
  scan_few_pids h : few_pids (answer CProcfs h);
  scan_comm h pid : length (comm_text (answer CProcfs h) pid HSED_NAME_MAX) <= 15;
  scan_total h min_size only_pid uid_filter :
    (sum_sizes (system_entries (answer CProcfs h) min_size only_pid uid_filter) < 2 ^ 63)%Z;
  scan_count h min_size only_pid uid_filter :
    (Z.of_nat (length (system_entries (answer CProcfs h) min_size only_pid uid_filter))
     < 2 ^ 64)%Z }.

(** ** recv_line *)

(** The bytes [recv] handed over in blocking calls. *)
Definition received_by (fd : Z) (e : event) : bytes :=
  match e with
  | Ev c r =>
      match c in call R return R -> bytes with
      | CRecv fd' _ dontwait => fun r =>
          match r with
          | ROk data => if decide (fd' = fd /\ dontwait = false) then data else []
          | RErr _ => []
          end
      | _ => fun _ => []
      end r
  end.

Definition received (fd : Z) (evs : list event) : bytes := evs ≫= received_by fd.

Lemma received_app fd evs evs' : received fd (evs ++ evs') = received fd evs ++ received fd evs'.
Proof. apply bind_app. Qed.

(** The array of a line of which [pre] has been received: what fits of it. *)
Definition line_so_far (bufsize : nat) (pre : bytes) (b : buf) (i : nat) : Prop :=
  i = length (take (bufsize - 1) pre) /\
  exists rest, b = (Some <$> take (bufsize - 1) pre) ++ rest /\ bufsize <= length b.

Lemma line_more bufsize pre b i c : line_so_far bufsize pre b i -> i + 1 < bufsize ->
  exists b', store b i c = Some b' /\ length b' = length b /\
    line_so_far bufsize (pre ++ [c]) b' (i + 1).
Proof.
  intros [-> (rest & -> & Hl)] Hi. rewrite length_take in Hi. rewrite take_ge in * by lia.
  rewrite length_app, length_fmap in Hl.
  rewrite store_frontier by lia. eexists. split; [done|]. split.
  - rewrite !length_app, !length_fmap, length_app, length_drop. cbn. lia.
  - unfold line_so_far. rewrite (take_ge (pre ++ [c])) by (rewrite length_app; cbn; lia).
    split; [by rewrite length_app|]. eexists. split; [done|].
    rewrite !length_app, length_fmap, length_app, length_drop. cbn. lia.
Qed.

Lemma line_full bufsize pre b i c : line_so_far bufsize pre b i -> ~ (i + 1 < bufsize) ->
  line_so_far bufsize (pre ++ [c]) b i.
Proof.
  intros [-> (rest & -> & Hl)] Hi. unfold line_so_far. rewrite length_take in Hi.
  rewrite take_app_le by lia. eauto.
Qed.

Lemma line_end bufsize pre b i : 0 < bufsize -> line_so_far bufsize pre b i ->
  exists b', store b i NUL = Some b' /\ length b' = length b /\
    cstr b' = Some (nulcut (take (bufsize - 1) pre)).
Proof.
  intros Hb [-> (rest & -> & Hl)]. pose proof (length_take pre (bufsize - 1)).
  rewrite length_app, length_fmap in Hl.
  rewrite store_frontier by lia. eexists. split; [done|]. split.
  - rewrite !length_app, !length_fmap, length_app, length_drop. cbn. lia.
  - apply cstr_terminated.
Qed.

Section recv.
Context {K : Kernel}.

(** The state of the loop when [pre] has been received. *)
Definition line_read (fd : Z) (bufsize : nat) (pre : bytes) (len : nat) (r : Z * buf)
    (evs : list event) : Prop :=
  length r.2 = len /\
  (r.1 = (-1)%Z /\ (NL ∉ received fd evs) \/
   exists l, (NL ∉ l) /\ received fd evs = l ++ [NL] /\
     r.1 = Z.of_nat (length (take (bufsize - 1) (pre ++ l))) /\
     cstr r.2 = Some (nulcut (take (bufsize - 1) (pre ++ l)))).

Context {L : RecvLaws K}.

Lemma recv_loop_run fuel fd bufsize : forall pre b i h,
  0 < bufsize -> line_so_far bufsize pre b i ->
  wp (recv_loop fuel fd b bufsize i) h (fun evs => NL ∉ received fd evs)
    (line_read fd bufsize pre (length b)).
Proof.
  induction fuel as [|fuel IH]; intros pre b i h Hb Hline; cbn [recv_loop].
  { apply wp_fuel. by intros ?%elem_of_nil. }
  apply wp_call_bind. intros [[|c more]|e] Hr.
  - apply wp_ret. split; [done|]. left. split; [done|]. cbn.
    case_decide; by intros ?%elem_of_nil.
  - symmetry in Hr. apply recv_bound in Hr. destruct more; [|cbn in Hr; lia]. clear Hr.
    assert (forall evs, received fd (Ev (CRecv fd 1 false) (ROk [c]) :: evs)
      = c :: received fd evs) as Hcons.
    { intros evs. unfold received. csimpl. by rewrite decide_True. }
    assert (forall b' i', length b' = length b -> c <> NL -> line_so_far bufsize (pre ++ [c]) b' i' ->
      wp (recv_loop fuel fd b' bufsize i') (h ++ [Ev (CRecv fd 1 false) (ROk [c])])
        (fun evs => NL ∉ received fd (Ev (CRecv fd 1 false) (ROk [c]) :: evs))
        (fun r evs => line_read fd bufsize pre (length b) r
                        (Ev (CRecv fd 1 false) (ROk [c]) :: evs))) as Hgo.
    { intros b' i' Hl Hc Hline'. eapply wp_conseq; [by apply (IH (pre ++ [c]))| |].
      - intros evs Hn. rewrite Hcons. intros [?|?]%elem_of_cons; [by subst|done].
      - intros r evs [Hlen Hres]. split; [congruence|]. rewrite Hcons.
        destruct Hres as [[? Hn]|(l & Hn & Hrec & Hi & Hc')]; [left|right].
        + split; [done|]. intros [?|?]%elem_of_cons; [by subst|done].
        + exists (c :: l). rewrite <- app_assoc in Hi, Hc'. rewrite Hrec. split_and!; try done.
          intros [?|?]%elem_of_cons; [by subst|done]. }
    case_decide as Hnl; [|case_decide as Hi].
    + destruct (line_end bufsize pre b i Hb Hline) as (b' & Hst & Hl & Hc).
      eapply wp_pure_bind; [exact Hst|]. apply wp_ret. split; [done|]. right. exists [].
      rewrite app_nil_r, Hcons. subst c. destruct Hline as [-> _].
      split_and!; try done. by intros ?%elem_of_nil.
    + destruct (line_more bufsize pre b i c Hline Hi) as (b' & Hst & Hl & Hline').
      eapply wp_pure_bind; [exact Hst|]. by apply Hgo.
    + apply Hgo; [done..|]. by apply line_full.
  - assert (forall evs, received fd (Ev (CRecv fd 1 false) (RErr e) :: evs) = received fd evs)
      as Hcons by done.
    case_decide.
    + eapply wp_conseq; [by apply (IH pre)| |].
      * intros evs Hn. by rewrite Hcons.
      * intros r evs Hres. unfold line_read in *. by rewrite Hcons.
    + apply wp_ret. split; [done|]. left. split; [done|]. by intros ?%elem_of_nil.
Qed.

Lemma recv_line_run fuel fd b bufsize h : 0 < bufsize <= length b ->
  wp (recv_line fuel fd b bufsize) h (fun evs => NL ∉ received fd evs)
    (line_read fd bufsize [] (length b)).
Proof.
  intros Hb. apply recv_loop_run; [lia|]. unfold line_so_far. rewrite take_nil.
  split; [done|]. exists b. split; [done|lia].
Qed.
End recv.

(** ** The reply to SCAN *)

Definition end_members (count : nat) (total : Z) : list (bytes * bytes) :=
  [ (lit "type", quoted (lit "end")); (lit "count", print_u 10 (Z.of_nat count));
    (lit "total_bytes", print_d total) ].

Definition end_line (count : nat) (total : Z) : bytes := json_line (end_members count total).

Definition entry_lines (es : list hsed_entry_t) : bytes := es ≫= fun e => entry_line e ++ [NL].

Definition scan_reply (es : list hsed_entry_t) : bytes :=
  entry_lines es ++ end_line (length es) (sum_sizes es) ++ [NL].

Lemma format_end_line count total :
  format (jlit "{'type':'end','count':%zu,'total_bytes':%lld}")
    [ASize (Z.of_nat count); ALLong total] = Some (end_line count total).
Proof. unfold end_line, end_members. format_as. Qed.

Lemma end_line_reads count total :
  json_object (end_line count total)
  = Some [(lit "type", JStr (lit "end")); (lit "count", JNum (Z.of_nat count));
          (lit "total_bytes", JNum total)].
Proof.
  unfold end_line, end_members. json_reads; auto with json.
  - apply reads_as_plain. by apply (bool_decide_unpack _); vm_compute.
  - apply reads_as_unsigned. lia.
Qed.

Lemma end_line_no_nul count total : no_nul (end_line count total).
Proof. unfold end_line, end_members. line_no_nul. by repeat constructor. Qed.

Lemma end_line_length count total : (Z.of_nat count < 2 ^ 64)%Z -> in_s 64 total ->
  length (end_line count total) < LINEF_MAX.
Proof.
  intros Hc Ht. unfold in_s in Ht. change (64 - 1)%Z with 63%Z in Ht.
  pose proof (print_d_length total 19). pose proof (print_u_length (Z.of_nat count) 20).
  unfold end_line, end_members, LINEF_MAX, json_line.
  cbn [json_body]. unfold json_member, quoted. cbn [fst snd].
  repeat (rewrite length_app || rewrite length_lit || cbn [length String.length]). lia.
Qed.

Section scan.
Context {K : Kernel} {L : SendLaws K}.

(** A sender's events so far, all of [text] sent. *)
Definition sent_all (fd : Z) (text : bytes) (evs : list event) : Prop :=
  sends_only fd evs /\ sent_to fd evs = text.

(** The socket failed after a prefix of [text]. *)
Definition sent_some (fd : Z) (text : bytes) (evs : list event) : Prop :=
  sends_only fd evs /\ sent_to fd evs `prefix_of` text /\ send_failed fd evs = true.

Definition sending (fd : Z) (text : bytes) (evs : list event) : Prop :=
  sends_only fd evs /\ sent_to fd evs `prefix_of` text.

Lemma entry_formatted linebuf e : length linebuf = LINEBUF -> entry_ok e ->
  length (e_comm e) <= 15 ->
  exists linebuf', hsed_format_entry e linebuf LINEBUF = Some linebuf' /\
    length linebuf' = LINEBUF /\ cstr linebuf' = Some (entry_line e).
Proof.
  intros Hl Hok Hc.
  assert (0 < LINEBUF) by (unfold LINEBUF, HSED_PATH_MAX; lia).
  destruct (format_entry_run e linebuf LINEBUF Hok) as (b & Hb & Hlb & Hcb); [lia|].
  exists b. pose proof (entry_line_length e Hok Hc). rewrite take_ge in Hcb by lia.
  split_and!; [done|congruence|done].
Qed.

(** Adding the sizes up does not overflow. *)
Lemma sum_sizes_step es i e : es !! i = Some e -> Forall (fun e => 0 <= e_size e)%Z es ->
  (sum_sizes es < 2 ^ 63)%Z ->
  add_i64 (sum_sizes (take i es)) (e_size e) = Some (sum_sizes (take (S i) es)).
Proof.
  intros He Hpos Hsum.
  assert (sum_sizes (take (S i) es) = sum_sizes (take i es) + e_size e)%Z as Hsum1.
  { rewrite (take_S_r _ _ _ He), sum_sizes_app. unfold sum_sizes at 2. csimpl. lia. }
  assert (0 <= sum_sizes (take i es))%Z by (by apply sum_sizes_nonneg, Forall_take).
  assert (sum_sizes (take (S i) es) <= sum_sizes es)%Z.
  { pose proof (sum_sizes_nonneg _ (Forall_drop _ (S i) _ Hpos)) as Hd.
    rewrite <- (take_drop (S i) es) at 2. rewrite sum_sizes_app. lia. }
  assert (0 <= e_size e)%Z by (by eapply (Forall_lookup_1 _ _ _ _ Hpos He)).
  unfold add_i64. rewrite decide_True by (unfold in_s; lia). by rewrite Hsum1.
Qed.

Lemma send_entries_run fuel fd l es : forall n i linebuf h,
  holds l es -> i + n = count l -> length linebuf = LINEBUF ->
  Forall (fun e => entry_ok e /\ length (e_comm e) <= 15) es ->
  Forall (fun e => 0 <= e_size e)%Z es -> (sum_sizes es < 2 ^ 63)%Z ->
  wp (send_entries fuel fd l n i linebuf (sum_sizes (take i es))) h
    (sending fd (entry_lines (drop i es)))
    (fun r evs => r = Some (sum_sizes es) /\ sent_all fd (entry_lines (drop i es)) evs \/
                  r = None /\ sent_some fd (entry_lines (drop i es)) evs).
Proof.
  induction n as [|n IH]; intros i linebuf h Hl Hi Hb Hok Hpos Hsum; cbn [send_entries];
    pose proof (holds_count _ _ Hl) as Hc.
  - apply wp_ret. left. rewrite take_ge, drop_ge by lia. split; [done|]. by split.
  - destruct (lookup_lt_is_Some_2 es i) as [e He]; [lia|].
    eapply wp_pure_bind; [rewrite (holds_item_at l es) by (done || lia); exact He|].
    destruct (Forall_lookup_1 _ _ _ _ Hok He) as [Hoke Hcomm].
    destruct (entry_formatted linebuf e Hb Hoke Hcomm) as (b & Hf & Hlb & Hcb).
    eapply wp_pure_bind; [exact Hf|]. eapply wp_pure_bind; [exact Hcb|].
    assert (entry_lines (drop i es) = (entry_line e ++ [NL]) ++ entry_lines (drop (S i) es)) as Hlines.
    { by rewrite (drop_S _ _ _ He). }
    rewrite Hlines. eapply wp_bind.
    { eapply wp_conseq; [apply send_line_delivered| |intros rc evs H; exact H].
      intros evs [Hs Hp]. split; [done|]. by apply prefix_app_r. }
    cbn beta. intros rc evs (Hs & Hd & Hrc).
    assert (sent_to fd evs `prefix_of` entry_line e ++ [NL]) as Hpre
      by (destruct Hd as [-> |[? _]]; done).
    case_decide as Hz.
    { apply wp_ret. right. rewrite app_nil_r. split; [done|].
      destruct Hrc as [[? _]|[_ Hf']]; [lia|]. split; [done|].
      split; [by apply prefix_app_r|done]. }
    destruct Hrc as [[_ Hsent]|[? _]]; [|lia].
    eapply wp_pure_bind; [by apply (sum_sizes_step es i e)|].
    eapply wp_conseq; [apply IH; try done; lia| |]; cbn beta.
    + intros evs' [Hs' Hp']. split; [by apply Forall_app|]. rewrite sent_to_app, Hsent.
      by apply prefix_app.
    + intros r evs' [[-> [Hs' Hall]]|[-> (Hs' & Hp' & Hf')]]; [left|right].
      * split; [done|]. split; [by apply Forall_app|]. by rewrite sent_to_app, Hsent, Hall.
      * split; [done|]. split; [by apply Forall_app|]. rewrite sent_to_app, Hsent.
        split; [by apply prefix_app|]. by rewrite send_failed_app, Hf', orb_true_r.
Qed.

Lemma system_entries_comm P min_size only_pid uid_filter :
  (forall pid, length (comm_text P pid HSED_NAME_MAX) <= 15) ->
  Forall (fun e => length (e_comm e) <= 15) (system_entries P min_size only_pid uid_filter).
Proof.
  intros Hcomm.
  assert (forall pid, Forall (fun e => length (e_comm e) <= 15)
    (pid_entries P min_size uid_filter pid)) as Hpid.
  { intros pid. unfold pid_entries. destruct (p_stat P _) as [pst|]; [|constructor].
    case_decide; [|constructor]. destruct (p_opendir P _) as [names|]; [|constructor].
    apply Forall_forall. intros e He. apply list_elem_of_omap in He as (name & _ & He).
    unfold fd_entry in He. destruct (fd_deleted _ _ _ _) as [[path st]|]; [|done].
    rewrite some_bind in He. injection He as <-. apply Hcomm. }
  unfold system_entries. case_decide; [done|]. destruct (p_opendir P _) as [names|]; [|constructor].
  unfold all_entries. induction (proc_pids names) as [|pid pids IH]; [constructor|].
  rewrite bind_cons. by apply Forall_app.
Qed.

End scan.
