(* ===== verification/Requests.v ===== *)
(** * The requests of the protocol

    What a line of the socket asks for, independently of the way server.c
    finds it out: the words of the line, a table of commands, and the request
    that the command makes of its arguments.  The functions of server.c are
    proved against it in Connection.v. *)

From S2P Require Import Prelude CLib ProcScan Reclaim Server.

(** ** Words *)

(** The fields between delimiters, empty ones included. *)
Fixpoint fields (s : bytes) : list bytes :=
  match s with
  | [] => [[]]
  | c :: s' =>
      if decide (c ∈ delims) then [] :: fields s'
      else match fields s' with f :: fs => (c :: f) :: fs | [] => [[c]] end
  end.

Definition words (s : bytes) : list bytes := filter (fun f => f <> []) (fields s).

Lemma words_delim c s : c ∈ delims -> words (c :: s) = words s.
Proof. intros H. unfold words. cbn [fields]. by rewrite decide_True. Qed.

Lemma fields_span s t r : tok_span delims s = (t, r) ->
  exists fs, fields s = t :: fs /\ filter (fun f => f <> []) fs = words r.
Proof.
  revert t r. induction s as [|c s IH]; intros t r; cbn [tok_span fields].
  - intros [= <- <-]. by exists [].
  - case_decide as Hc.
    + intros [= <- <-]. by exists (fields s).
    + destruct (tok_span delims s) as [t' r'] eqn:E. intros [= <- <-].
      destruct (IH t' r' eq_refl) as (fs & -> & Hfs). eauto.
Qed.

(** [strtok_r] takes the words one by one. *)
Lemma next_word_words s :
  match next_word s with
  | (Some w, r) => words s = w :: words r
  | (None, r) => words s = [] /\ words r = []
  end.
Proof.
  unfold next_word, strtok_r.
  assert (words s = words (tok_skip delims s)) as ->.
  { induction s as [|c s IH]; cbn [tok_skip]; [done|]. case_decide; [|done].
    by rewrite words_delim. }
  assert (forall c s', tok_skip delims s = c :: s' -> c ∉ delims) as Hhead.
  { induction s as [|a s IH]; cbn [tok_skip]; [done|]. case_decide; [done|]. by intros c s' [= <- _]. }
  destruct (tok_skip delims s) as [|c s'] eqn:E; [done|].
  specialize (Hhead c s' eq_refl). destruct (tok_span delims (c :: s')) as [t r] eqn:Et.
  destruct (fields_span _ _ _ Et) as (fs & Hf & Hr). unfold words at 1. rewrite Hf.
  cbn [tok_span] in Et. rewrite decide_False in Et by done.
  destruct (tok_span delims s') as [t' r']. injection Et as <- <-.
  by rewrite filter_cons_True, Hr.
Qed.

(** ** Requests *)

Inductive request :=
  | RPing
  | RQuit
  | RScan (min_size only_pid uid_filter : Z)
  | RStats (min_size uid_filter : Z)
  | RTruncate (pid fd : Z)
  | RSignal (sig pid : Z)
  | RStream (pid fd : Z)
  | RInvalid (message : bytes).

Definition opt_arg (f : bytes -> Z) (default : Z) (a : option bytes) : Z :=
  match a with Some a => f a | None => default end.

Definition two_args (mk : Z -> Z -> request) (message : bytes) (args : list bytes) : request :=
  match args with
  | a1 :: a2 :: _ => mk (pid_of a1) (atoi a2)
  | _ => RInvalid message
  end.

Definition one_arg (mk : Z -> request) (message : bytes) (args : list bytes) : request :=
  match args with a1 :: _ => mk (pid_of a1) | [] => RInvalid message end.

Definition commands : list (bytes * (list bytes -> request)) :=
  [ (lit "PING", fun _ => RPing);
    (lit "QUIT", fun _ => RQuit);
    (lit "SCAN", fun args => RScan (opt_arg atoll 0 (args !! 0)) (opt_arg pid_of 0 (args !! 1))
                                   (opt_arg uid_of HSED_UID_ANY (args !! 2)));
    (lit "STATS", fun args => RStats (opt_arg atoll 0 (args !! 0))
                                     (opt_arg uid_of HSED_UID_ANY (args !! 1)));
    (lit "TRUNCATE", two_args RTruncate (lit "usage: TRUNCATE <pid> <fd>"));
    (lit "HUP", one_arg (RSignal SIGHUP) (lit "usage: HUP <pid>"));
    (lit "KILL", one_arg (RSignal SIGKILL) (lit "usage: KILL <pid>"));
    (lit "STREAM", two_args RStream (lit "usage: STREAM <pid> <fd>")) ].

(** Command names are matched in any case. *)
Definition command (cmd : bytes) (args : list bytes) : request :=
  match List.find (fun entry => strcaseeq cmd entry.1) commands with
  | Some entry => entry.2 args
  | None => RInvalid (lit "unknown command")
  end.

(** The request of a line; a blank line asks for nothing. *)
Definition request_of (line : bytes) : option request :=
  match words line with [] => None | cmd :: args => Some (command cmd args) end.

(** The arguments reach the handlers as C values. *)
Definition request_ok (r : request) : Prop :=
  match r with
  | RScan _ only_pid _ => in_s 32 only_pid
  | RTruncate pid fd | RStream pid fd => in_s 32 pid /\ in_s 32 fd
  | RSignal _ pid => in_s 32 pid
  | _ => True
  end.

Lemma pid_of_range a : in_s 32 (pid_of a).
Proof. by apply wrap_s_range. Qed.

Lemma command_ok cmd args : request_ok (command cmd args).
Proof.
  unfold command. destruct (List.find _ _) as [e|] eqn:E; [|done].
  apply List.find_some in E as [He _]. unfold commands in He. cbn [List.In] in He.
  destruct_or! He; subst; cbn [snd]; try done.
  - cbn. destruct (args !! 1); cbn; [apply pid_of_range|unfold in_s; lia].
  - destruct args as [|a1 [|a2 args]]; cbn; auto using pid_of_range, atoi_range.
  - destruct args; cbn; auto using pid_of_range.
  - destruct args; cbn; auto using pid_of_range.
  - destruct args as [|a1 [|a2 args]]; cbn; auto using pid_of_range, atoi_range.
Qed.

(** The signals a request asks for. *)
Definition request_signals (r : request) : list (Z * Z) :=
  match r with RSignal sig pid => [(pid, sig)] | _ => [] end.

(** ** The line a client writes for a request *)

Definition request_line (name : bytes) (args : list bytes) : bytes :=
  name ++ (args ≫= fun a => SPACE :: a).

Definition print_request (r : request) : bytes :=
  match r with
  | RPing => lit "PING"
  | RQuit => lit "QUIT"
  | RScan m p u => request_line (lit "SCAN") [print_d m; print_d p; print_u 10 u]
  | RStats m u => request_line (lit "STATS") [print_d m; print_u 10 u]
  | RTruncate p f => request_line (lit "TRUNCATE") [print_d p; print_d f]
  | RSignal sig p =>
      request_line (if decide (sig = SIGHUP) then lit "HUP" else lit "KILL") [print_d p]
  | RStream p f => request_line (lit "STREAM") [print_d p; print_d f]
  | RInvalid _ => []
  end.

(** The requests a client can make. *)
Definition sendable (r : request) : Prop :=
  request_ok r /\
  match r with
  | RScan m _ u | RStats m u => in_s 64 m /\ in_u 32 u
  | RSignal sig _ => sig = SIGHUP \/ sig = SIGKILL
  | RInvalid _ => False
  | _ => True
  end.

(** *** Words of a printed line *)

Definition word (w : bytes) : Prop := w <> [] /\ Forall (fun c => c ∉ delims) w.

Lemma fields_word w s : Forall (fun c => c ∉ delims) w ->
  exists f fs, fields s = f :: fs /\ fields (w ++ s) = (w ++ f) :: fs.
Proof.
  induction 1 as [|c w Hc _ (f & fs & Hs & Hw)].
  - assert (exists f fs, fields s = f :: fs) as (f & fs & Hs); [|by exists f, fs].
    destruct s as [|c s]; cbn [fields]; [eauto|]. case_decide; [eauto|]. destruct (fields s); eauto.
  - exists f, fs. split; [done|]. cbn [app fields]. by rewrite decide_False, Hw.
Qed.

Lemma words_last w : word w -> words w = [w].
Proof.
  intros [Hne Hw]. destruct (fields_word w [] Hw) as (f & fs & [= <- <-] & H).
  rewrite app_nil_r in H. unfold words.
  rewrite H, filter_cons_True by done. done.
Qed.

Lemma words_more w s : word w -> words (w ++ SPACE :: s) = w :: words s.
Proof.
  intros [Hne Hw]. destruct (fields_word w (SPACE :: s) Hw) as (f & fs & Hf & H).
  unfold words. rewrite H. cbn [fields] in Hf.
  rewrite decide_True in Hf by apply list_elem_of_here. injection Hf as <- <-.
  by rewrite app_nil_r, filter_cons_True.
Qed.

Lemma digit_not_delim c : digit_in 10 c = true -> c ∉ delims.
Proof.
  intros Hc H. unfold delims in H. repeat apply elem_of_cons in H as [->|H]; try done.
  by apply elem_of_nil in H.
Qed.

Lemma print_u_word z : word (print_u 10 z).
Proof.
  split; [destruct (print_u_cons z) as (c & s & -> & _); done|].
  eapply Forall_impl; [apply print_u_digits|]. apply digit_not_delim.
Qed.

Lemma print_d_word z : word (print_d z).
Proof.
  unfold print_d. destruct (z <? 0)%Z; [|apply print_u_word].
  split; [done|]. constructor; [|apply print_u_word].
  intros H. unfold delims in H. repeat apply elem_of_cons in H as [?|H]; try done.
  by apply elem_of_nil in H.
Qed.

Lemma lit_word s : bool_decide (word (lit s)) = true -> word (lit s).
Proof. apply bool_decide_eq_true. Qed.

Lemma print_word_line name args : word name -> Forall word args ->
  words (request_line name args) = name :: args.
Proof.
  unfold request_line. intros Hn Ha. revert name Hn. induction Ha as [|w args Hw _ IH]; intros name Hn.
  - cbn [mbind list_bind]. by rewrite app_nil_r, words_last.
  - rewrite bind_cons. cbn [app]. by rewrite words_more, IH.
Qed.

Lemma pid_of_print z : in_s 32 z -> pid_of (print_d z) = z.
Proof.
  intros Hz. unfold pid_of, atol, strtol.
  rewrite <- (app_nil_r (print_d z)), strtol_print_d; [|unfold in_s in *; lia|done].
  by apply wrap_s_small.
Qed.

Lemma atoi_print z : in_s 32 z -> atoi (print_d z) = z.
Proof. apply pid_of_print. Qed.

Lemma atoll_print z : in_s 64 z -> atoll (print_d z) = z.
Proof.
  intros Hz. unfold atoll, strtoll, strtol.
  by rewrite <- (app_nil_r (print_d z)), strtol_print_d.
Qed.

Lemma uid_of_print z : in_u 32 z -> uid_of (print_u 10 z) = z.
Proof.
  intros Hz. unfold uid_of, strtoul. unfold in_u in Hz.
  rewrite <- (app_nil_r (print_u 10 z)), scan_number_print_u by (done || lia).
  destruct (2 ^ 64 <=? z)%Z eqn:E; [lia|]. by apply wrap_u_small.
Qed.

(** ** Properties *)

(** C26: The line a client writes for a request is read as that very request, its
    pids, descriptors, sizes and user ids unchanged over their whole ranges. *)
Theorem request_roundtrip (r : request) : sendable r ->
  request_of (print_request r) = Some r.
Proof.
  intros [Hok Hs].
  assert (forall name args, word (lit name) -> Forall word args ->
    request_of (request_line (lit name) args) = Some (command (lit name) args)) as Hline.
  { intros name args Hn Ha. unfold request_of. by rewrite print_word_line. }
  destruct r as [| |m p u|m u|p f|sig p|p f|msg]; cbn [print_request request_ok] in *.
  - done.
  - done.
  - rewrite Hline by auto using print_d_word, print_u_word, lit_word.
    change (Some (RScan (atoll (print_d m)) (pid_of (print_d p)) (uid_of (print_u 10 u)))
            = Some (RScan m p u)).
    by rewrite atoll_print, pid_of_print, uid_of_print by tauto.
  - rewrite Hline by auto using print_d_word, print_u_word, lit_word.
    change (Some (RStats (atoll (print_d m)) (uid_of (print_u 10 u))) = Some (RStats m u)).
    by rewrite atoll_print, uid_of_print by tauto.
  - rewrite Hline by auto using print_d_word, lit_word.
    change (Some (RTruncate (pid_of (print_d p)) (atoi (print_d f))) = Some (RTruncate p f)).
    by rewrite atoi_print, pid_of_print by tauto.
  - destruct Hs as [-> | ->].
    + rewrite decide_True, Hline by auto using print_d_word, lit_word.
      change (Some (RSignal SIGHUP (pid_of (print_d p))) = Some (RSignal SIGHUP p)).
      by rewrite pid_of_print.
    + rewrite decide_False, Hline by (done || auto using print_d_word, lit_word).
      change (Some (RSignal SIGKILL (pid_of (print_d p))) = Some (RSignal SIGKILL p)).
      by rewrite pid_of_print.
  - rewrite Hline by auto using print_d_word, lit_word.
    change (Some (RStream (pid_of (print_d p)) (atoi (print_d f))) = Some (RStream p f)).
    by rewrite atoi_print, pid_of_print by tauto.
  - done.
Qed.

Lemma request_roundtrip_witness :
  request_of (lit "KILL 4321") = Some (RSignal SIGKILL 4321) /\
  print_request (RSignal SIGKILL 4321) = lit "KILL 4321" /\
  request_of (print_request (RSignal SIGKILL 4321)) = Some (RSignal SIGKILL 4321).
Proof.
  split; [vm_compute; reflexivity|]. split; [vm_compute; reflexivity|].
  apply (request_roundtrip (RSignal SIGKILL 4321)). split.
  - cbn. unfold in_s. lia.
  - right. reflexivity.
Defined.
