(* ===== verification/Replies.v ===== *)
(** * server.c, the replies

    What each request is answered with, as a relation between the calls its
    handler makes and the text it sends; and the proof that the handlers of
    server.c keep to it, on every kernel. *)

From stdpp Require Import sorting.
From S2P Require Import Prelude CLib Kernel Util Json EntryList Protocol ProcRead ProcScan.
From S2P Require Import Parallel Reclaim Tids Tracer Session TraceProps Stream Server ServerProps.
From S2P Require Import Requests.

(** The messages of [strerror] are printable, without quotes or backslashes. *)
Class StrerrorLaws (K : Kernel) : Prop :=
  strerror_plain e : Forall plain_char (strerror e) /\ length (strerror e) <= 128.

(** A file size is an [off_t]. *)
Class StatLaws (K : Kernel) : Prop :=
  stat_size path h st : answer (CStat path) h = ROk st -> in_s 64 (st_size st).

(** ** Plain text *)

Lemma plain_no_nul s : Forall plain_char s -> no_nul s.
Proof.
  intros H. eapply Forall_impl; [done|]. intros c (_ & _ & Hc) ->. by vm_compute in Hc.
Qed.

Lemma plain_lit s : bool_decide (Forall plain_char (lit s)) = true -> Forall plain_char (lit s).
Proof. apply bool_decide_eq_true. Qed.

Lemma plain_escaped s : Forall plain_char s -> json_escaped s = s.
Proof.
  unfold json_escaped. induction 1 as [|c s (H1 & H2 & H3) _ IH]; [done|].
  rewrite bind_cons, IH. unfold json_char.
  do 2 (rewrite decide_False by done).
  do 3 (rewrite decide_False by (intros ->; by vm_compute in H3)).
  by rewrite (proj2 (Z.ltb_ge _ _)).
Qed.

#[local] Hint Resolve print_u_plain print_d_plain : hsed.

Ltac plain := unfold proc_fd; repeat rewrite Forall_app;
  split_and!; auto with hsed; apply plain_lit; vm_compute; reflexivity.

(** ** The lines *)

Definition error_line (msg : bytes) : bytes :=
  json_line [(lit "type", quoted (lit "error")); (lit "message", quoted (json_escaped msg))].
Definition pong_line : bytes := json_line [(lit "type", quoted (lit "pong"))].
Definition ok_line : bytes := json_line [(lit "type", quoted (lit "result")); (lit "ok", lit "true")].
Definition freed_line (freed : Z) : bytes :=
  json_line [(lit "type", quoted (lit "result")); (lit "ok", lit "true");
             (lit "freed", print_d freed)].
Definition stats_line (count total : Z) : bytes :=
  json_line [(lit "type", quoted (lit "stats")); (lit "count", print_u 10 count);
             (lit "total_bytes", print_d total)].
Definition stream_end_line : bytes := json_line [(lit "type", quoted (lit "stream_end"))].

(** A line a client can read, that the line buffer holds. *)
Definition line_ok (s : bytes) : Prop := no_nul s /\ length s < LINEF_MAX.

Ltac line_length := unfold LINEF_MAX, json_line; cbn [json_body]; unfold json_member, quoted;
  cbn [fst snd]; repeat (rewrite length_app || rewrite length_lit || cbn [length String.length]).

Lemma error_line_ok msg : no_nul msg -> length (json_escaped msg) < 1024 -> line_ok (error_line msg).
Proof.
  intros Hn Hl. split; [|unfold error_line; line_length; lia].
  unfold error_line. line_no_nul; [by repeat constructor|]. apply quoted_no_nul.
  clear Hl. induction Hn as [|c s Hc _ IH]; [constructor|].
  unfold json_escaped in *. rewrite bind_cons. apply Forall_app. split; [by apply json_char_no_nul|done].
Qed.

Lemma error_line_reads msg : json_object (error_line msg)
  = Some [(lit "type", JStr (lit "error")); (lit "message", JStr msg)].
Proof.
  unfold error_line. json_reads; auto with json.
  apply reads_as_plain. by apply (bool_decide_unpack _); vm_compute.
Qed.

Lemma freed_line_ok n : in_s 64 n -> line_ok (freed_line n).
Proof.
  intros Hn. unfold in_s in Hn. change (64 - 1)%Z with 63%Z in Hn.
  pose proof (print_d_length n 19). split; [|unfold freed_line; line_length; lia].
  unfold freed_line. line_no_nul; by repeat constructor.
Qed.

Lemma stats_line_ok c t : in_u 64 c -> in_s 64 t -> line_ok (stats_line c t).
Proof.
  unfold in_s, in_u. intros Hc Ht. change (64 - 1)%Z with 63%Z in Ht.
  pose proof (print_d_length t 19). pose proof (print_u_length c 20).
  split; [|unfold stats_line; line_length; lia].
  unfold stats_line. line_no_nul; by repeat constructor.
Qed.

(** The reasons of failures are printable. *)
Section reasons.
Context {K : Kernel} {EL : StrerrorLaws K}.

Lemma strerror_is_plain e : Forall plain_char (strerror e).
Proof. apply strerror_plain. Qed.
#[local] Hint Resolve strerror_is_plain : hsed.

Lemma stat_failed_plain pid fd e : Forall plain_char (stat_failed pid fd e).
Proof. unfold stat_failed. plain. Qed.
Lemma open_failed_plain pid fd e : Forall plain_char (open_failed pid fd e).
Proof. unfold open_failed. plain. Qed.
Lemma ftruncate_failed_plain pid fd e : Forall plain_char (ftruncate_failed pid fd e).
Proof. unfold ftruncate_failed. plain. Qed.
Lemma kill_failed_plain pid sig e : Forall plain_char (kill_failed pid sig e).
Proof. unfold kill_failed. plain. Qed.

Lemma trace_failure_plain max_capture pid msg : trace_failure max_capture pid msg ->
  Forall plain_char msg.
Proof.
  intros [e|e|]; [unfold no_threads; plain|unfold no_seize; plain|unfold no_memory; plain].
Qed.
End reasons.

(** ** What each request is answered with *)

(** The caller's array holds 255 bytes of a reason. *)
Definition error_reply (why : bytes) : bytes := error_line (take 255 why) ++ [NL].

(** [outcome c r acts text]: in a connection [c] the request [r] may make the
    calls [acts] and then send [text]. *)
Section outcome.
Context {K : Kernel} {A : Arch} (c : conn_args_t).

Inductive outcome : request -> list event -> bytes -> Prop :=
  | out_pong : outcome RPing [] (pong_line ++ [NL])
  | out_quit : outcome RQuit [] []
  | out_found min_size only_pid uid_filter P es :
      es ≡ₚ system_entries P min_size only_pid uid_filter -> StronglySorted size_desc es ->
      Forall entry_ok es ->
      outcome (RScan min_size only_pid uid_filter) [Ev CProcfs P] (scan_reply es)
  | out_no_scan min_size only_pid uid_filter P e : scan_can_fail P ->
      outcome (RScan min_size only_pid uid_filter) [Ev CProcfs P; Ev CErrno e]
        (error_line (lit "scan failed: " ++ strerror e) ++ [NL])
  | out_stats min_size uid_filter P :
      let es := system_entries P min_size 0 uid_filter in
      outcome (RStats min_size uid_filter) [Ev CProcfs P]
        (stats_line (u64 (Z.of_nat (length es))) (sum_sizes es) ++ [NL])
  | out_no_stats min_size uid_filter P e : scan_can_fail P ->
      outcome (RStats min_size uid_filter) [Ev CProcfs P; Ev CErrno e]
        (error_line (lit "stats scan failed: " ++ strerror e) ++ [NL])
  | out_truncated pid fd st raw :
      outcome (RTruncate pid fd)
        [Ev (CStat (proc_fd pid fd)) (ROk st); Ev (COpen (proc_fd pid fd) O_WRONLY) (ROk raw);
         Ev (CFtruncate raw 0) (ROk tt); Ev (CClose raw) tt]
        (freed_line (st_size st) ++ [NL])
  | out_no_stat pid fd e :
      outcome (RTruncate pid fd) [Ev (CStat (proc_fd pid fd)) (RErr e)]
        (error_reply (stat_failed pid fd e))
  | out_no_open pid fd st e :
      outcome (RTruncate pid fd)
        [Ev (CStat (proc_fd pid fd)) (ROk st); Ev (COpen (proc_fd pid fd) O_WRONLY) (RErr e)]
        (error_reply (open_failed pid fd e))
  | out_no_truncate pid fd st raw e :
      outcome (RTruncate pid fd)
        [Ev (CStat (proc_fd pid fd)) (ROk st); Ev (COpen (proc_fd pid fd) O_WRONLY) (ROk raw);
         Ev (CFtruncate raw 0) (RErr e); Ev (CClose raw) tt]
        (error_reply (ftruncate_failed pid fd e))
  | out_signalled sig pid :
      outcome (RSignal sig pid) [Ev (CKill pid sig) (ROk tt)] (ok_line ++ [NL])
  | out_no_signal sig pid e :
      outcome (RSignal sig pid) [Ev (CKill pid sig) (RErr e)] (error_reply (kill_failed pid sig e))
  | out_streamed pid fd acts pre m turns :
      acts = pre ++ calls turns -> attachment pre m ->
      session fd (capture_size (max_capture c)) (reported_line (sockfd c)) m turns None ->
      outcome (RStream pid fd) acts (stream_end_line ++ [NL])
  | out_no_stream pid fd acts why :
      tracees ∅ acts = ∅ -> trace_failure (max_capture c) pid why ->
      outcome (RStream pid fd) acts (error_reply why)
  | out_invalid message :
      outcome (RInvalid message) [] (error_line message ++ [NL]).

(** The request was carried out and answered, up to a failure of the socket. *)
Definition handled (r : request) (evs : list event) : Prop :=
  exists acts text rest, evs = acts ++ rest /\ outcome r acts text /\
    sends_only (sockfd c) rest /\ delivered (sockfd c) text rest.

(** It was interrupted: while answering, or within a stream. *)
Definition handling (r : request) (evs : list event) : Prop :=
  (exists acts text rest, evs = acts ++ rest /\ outcome r acts text /\
     sending (sockfd c) text rest) \/
  (exists pid fd, r = RStream pid fd /\
     trace_cut fd (max_capture c) (reported_line (sockfd c)) evs).
End outcome.

(** ** The handlers *)

Section handlers.
Context {K : Kernel} {A : Arch} {Q : Qsort} {QL : QsortLaws Q}.
Context {L : SendLaws K} {SL : ScanLaws K} {EL : StrerrorLaws K} {STL : StatLaws K}.
Context (fuel : nat) (c : conn_args_t).

(** Sending the line of a reply, after the calls [acts]. *)
Lemma reply_run {B} (x : B) r acts fmt args s h :
  format fmt args = Some s -> line_ok s -> outcome c r acts (s ++ [NL]) ->
  wp (_ ← hsed_send_linef fuel (sockfd c) fmt args; mret x) h
    (fun evs => handling c r (acts ++ evs)) (fun b evs => b = x /\ handled c r (acts ++ evs)).
Proof.
  intros Hf [Hn Hl] Hout. eapply wp_bind.
  - eapply wp_conseq; [by apply (send_linef_delivered fuel (sockfd c) fmt args s)| |].
    + rewrite line_sent_fits by done. intros evs Hs. left. eauto 10.
    + intros rc evs Hd. exact Hd.
  - rewrite line_sent_fits by done. cbn beta. intros rc evs [Hs Hd]. apply wp_ret.
    rewrite app_nil_r. split; [done|]. exists acts, (s ++ [NL]), evs. done.
Qed.

Lemma reason_read (errbuf errbuf' : buf) why : Forall plain_char why ->
  message errbuf 256 why errbuf' -> cstr errbuf' = Some (take 255 why).
Proof.
  intros Hp [_ Hc]. rewrite Hc. change (256 - 1) with 255.
  by rewrite nulcut_id by (by apply plain_no_nul, Forall_take).
Qed.

Lemma reason_escaped why : Forall plain_char why ->
  escaped_local 512 (take 255 why) = Some (json_escaped (take 255 why)).
Proof.
  intros Hp. apply (Forall_take _ 255) in Hp. rewrite escaped_local_spec by lia.
  rewrite clip_kept. rewrite kept_all; [done|by apply plain_no_nul|].
  rewrite plain_escaped by done. rewrite length_take. lia.
Qed.

Lemma reason_line_ok why : Forall plain_char why -> line_ok (error_line (take 255 why)).
Proof.
  intros Hp. apply (Forall_take _ 255) in Hp. apply error_line_ok; [by apply plain_no_nul|].
  rewrite plain_escaped by done. rewrite length_take. lia.
Qed.

Lemma format_error_line msg : format error_format [AStr (json_escaped msg)] = Some (error_line msg).
Proof. unfold error_line, error_format. format_as. Qed.

Lemma send_error_run r acts (errbuf err : buf) why h :
  Forall plain_char why -> message errbuf 256 why err -> outcome c r acts (error_reply why) ->
  wp (send_error fuel (sockfd c) err) h
    (fun evs => handling c r (acts ++ evs)) (fun _ evs => handled c r (acts ++ evs)).
Proof.
  intros Hp Hm Hout. unfold send_error.
  eapply wp_pure_bind; [by eapply reason_read|]. eapply wp_pure_bind; [by apply reason_escaped|].
  eapply wp_mono; [apply (reply_run tt r acts _ _ (error_line (take 255 why))); [apply format_error_line|by apply reason_line_ok|done]|].
  by intros b evs [_ ?].
Qed.

Lemma truncate_size pid fd (errbuf : buf) errlen h (I : list event -> Prop) :
  in_s 32 pid -> in_s 32 fd -> 0 < errlen <= length errbuf ->
  wp (hsed_truncate_fd pid fd 0 errbuf errlen) h I (fun res _ => in_s 64 res.1.2).
Proof.
  intros Hp Hf Hl. unfold hsed_truncate_fd. eapply wp_pure_bind; [by apply sformat_proc_fd|].
  assert (in_s 64 0) as H0 by (unfold in_s; lia).
  apply wp_call_bind. intros [st|e] Hst.
  2: { destruct (snprintf_message errbuf errlen _ _ _ (format_stat_failed pid fd e) Hl)
         as (b & Hb & _). eapply wp_pure_bind; [exact Hb|]. by apply wp_ret. }
  apply wp_call_bind. intros [raw|e] _.
  2: { destruct (snprintf_message errbuf errlen _ _ _ (format_open_failed pid fd e) Hl)
         as (b & Hb & _). eapply wp_pure_bind; [exact Hb|]. by apply wp_ret. }
  apply wp_call_bind. intros [[]|e] _.
  - apply wp_call_bind. intros [] _. apply wp_ret. cbn. eapply stat_size. by rewrite <- Hst.
  - destruct (snprintf_message errbuf errlen _ _ _ (format_ftruncate_failed pid fd e) Hl)
      as (b & Hb & _). eapply wp_pure_bind; [exact Hb|].
    apply wp_call_bind. intros [] _. by apply wp_ret.
Qed.

Lemma handle_truncate_run pid fd h : in_s 32 pid -> in_s 32 fd ->
  wp (handle_truncate fuel (sockfd c) pid fd) h
    (handling c (RTruncate pid fd)) (fun _ evs => handled c (RTruncate pid fd) evs).
Proof.
  intros Hp Hf. unfold handle_truncate.
  assert (0 < 256 <= length (alloca 256)) as Hl by (rewrite length_alloca; lia).
  eapply wp_bind.
  { apply (wp_and _ _ _ (fun _ => True)); [|by apply truncate_size].
    by apply (truncate_fd_run pid fd 0 (alloca 256) 256 h). }
  cbn beta. intros [[rc freed] err] evs [Ht Hsize].
  inversion Ht; subst; cbn [fst snd] in *.
  - eapply wp_mono; [apply (reply_run tt (RTruncate pid fd) _ _ _ (freed_line (st_size st)));
      [unfold freed_line; format_as|by apply freed_line_ok|constructor]|].
    by intros b evs [_ ?].
  - eapply send_error_run; [apply stat_failed_plain|done|constructor].
  - eapply send_error_run; [apply open_failed_plain|done|constructor].
  - eapply send_error_run; [apply ftruncate_failed_plain|done|constructor].
Qed.

Lemma handle_signal_run sig pid h :
  wp (handle_signal fuel sig (sockfd c) pid) h
    (handling c (RSignal sig pid)) (fun _ evs => handled c (RSignal sig pid) evs).
Proof.
  unfold handle_signal. eapply wp_bind.
  { apply (send_signal_run pid sig (alloca 256) 256 h). rewrite length_alloca. lia. }
  cbn beta. intros [rc err] evs Ht. inversion Ht; subst; cbn [fst snd] in *.
  - eapply wp_mono; [apply (reply_run tt (RSignal sig pid) _ _ _ ok_line); [unfold ok_line; format_as| |constructor]|].
    + split; [unfold ok_line; line_no_nul; by repeat constructor|unfold ok_line; line_length; lia].
    + by intros b evs [_ ?].
  - eapply send_error_run; [apply kill_failed_plain|done|constructor].
Qed.

Lemma failure_reply what e : Forall plain_char what -> length what <= 64 ->
  line_ok (error_line (what ++ strerror e)) /\
  json_escaped (what ++ strerror e) = what ++ strerror e.
Proof.
  intros Hw Hl. destruct (strerror_plain e) as [Hp Hle].
  assert (Forall plain_char (what ++ strerror e)) as H by (by apply Forall_app).
  pose proof (plain_escaped _ H) as E. split; [|done]. apply error_line_ok; [by apply plain_no_nul|].
  rewrite E, length_app. lia.
Qed.

Lemma entries_well_formed P min_size only_pid uid_filter es :
  procfs_ok P -> in_s 32 only_pid ->
  (forall pid, length (comm_text P pid HSED_NAME_MAX) <= 15) ->
  es ≡ₚ system_entries P min_size only_pid uid_filter ->
  Forall (fun e => entry_ok e /\ length (e_comm e) <= 15) es /\
  Forall (fun e => 0 <= e_size e)%Z es.
Proof.
  intros HP Hp Hc Hperm. split; rewrite Hperm.
  - apply Forall_and. split; [|by apply system_entries_comm].
    eapply Forall_impl; [by apply system_entries_ok|]. by intros e (? & _).
  - unfold system_entries. case_decide; [by apply pid_entries_nonneg|].
    destruct (p_opendir P _); [by apply all_entries_nonneg|constructor].
Qed.

(** The reply to a scan that found [es]. *)
Lemma scan_reply_run r acts l es h : holds l es -> outcome c r acts (scan_reply es) ->
  Forall (fun e => entry_ok e /\ length (e_comm e) <= 15) es ->
  Forall (fun e => 0 <= e_size e)%Z es -> (sum_sizes es < 2 ^ 63)%Z ->
  (Z.of_nat (length es) < 2 ^ 64)%Z ->
  wp (total ← send_entries fuel (sockfd c) l (count l) 0 (alloca LINEBUF) 0;
      match total with
      | None => mret tt
      | Some total =>
          _ ← hsed_send_linef fuel (sockfd c) (jlit "{'type':'end','count':%zu,'total_bytes':%lld}")
                [ASize (Z.of_nat (count l)); ALLong total];
          mret tt
      end) h
    (fun evs => handling c r (acts ++ evs)) (fun _ evs => handled c r (acts ++ evs)).
Proof.
  intros Hh Hout Hok Hpos Hsum Hcnt. pose proof (holds_count _ _ Hh) as Hc.
  eapply wp_bind.
  { eapply wp_conseq; [apply (send_entries_run fuel (sockfd c) l es (count l) 0 (alloca LINEBUF) _ Hh);
      try done; apply length_alloca| |intros res evs H; exact H].
    intros evs [Hs Hpre]. left. exists acts, (scan_reply es), evs. split_and!; try done.
    split; [done|]. rewrite drop_0 in Hpre. unfold scan_reply. by apply prefix_app_r. }
  cbn beta. intros res evs [[-> [Hs Hall]]|[-> (Hs & Hpre & Hf)]]; rewrite drop_0 in *.
  - assert (length (end_line (length es) (sum_sizes es)) < LINEF_MAX) as Hlen.
    { apply end_line_length; [done|]. pose proof (sum_sizes_nonneg _ Hpos). unfold in_s. lia. }
    rewrite Hc. eapply wp_bind.
    { eapply wp_conseq; [apply send_linef_delivered;
        [apply format_end_line|apply end_line_no_nul]| |intros rc evs' H; exact H].
      rewrite line_sent_fits by done. intros evs' [Hs' Hpre]. left.
      exists acts, (scan_reply es), (evs ++ evs'). split_and!; try done.
      split; [by apply Forall_app|]. rewrite sent_to_app, Hall. by apply prefix_app. }
    rewrite line_sent_fits by done. cbn beta. intros rc evs' [Hs' Hd]. apply wp_ret.
    exists acts, (scan_reply es), (evs ++ evs'). rewrite app_nil_r.
    split_and!; [done|done|by apply Forall_app|].
    unfold delivered, scan_reply. rewrite sent_to_app, Hall, send_failed_app.
    destruct Hd as [-> |[Hd ->]]; [by left|right].
    split; [by apply prefix_app|by rewrite orb_true_r].
  - apply wp_ret. exists acts, (scan_reply es), evs. rewrite app_nil_r.
    split_and!; [done..|]. right. split; [|done]. unfold scan_reply. by apply prefix_app_r.
Qed.

Lemma handle_scan_run min_size only_pid uid_filter h :
  in_s 32 only_pid -> in_s 32 (scan_threads c) ->
  wp (handle_scan fuel (sockfd c) min_size only_pid uid_filter (scan_threads c)) h
    (handling c (RScan min_size only_pid uid_filter))
    (fun _ evs => handled c (RScan min_size only_pid uid_filter) evs).
Proof.
  intros Hp Ht. unfold handle_scan. apply wp_call_bind. intros P HP.
  pose proof (scan_procfs_ok h) as Hok. pose proof (scan_few_pids h) as Hfew.
  pose proof (scan_total h min_size only_pid uid_filter) as Htot.
  pose proof (scan_count h min_size only_pid uid_filter) as Hcnt.
  pose proof (scan_comm h) as Hcomm. rewrite <- HP in *.
  destruct (hsed_scan_run P hsed_list_init min_size only_pid uid_filter (scan_threads c) Hok Hfew Hp Ht)
    as (rc & l & Hscan & Ho).
  eapply wp_pure_bind; [exact Hscan|]. cbn beta iota.
  destruct Ho as [[-> (es & Hh & Hperm & Hsort)]|[-> Hfail]].
  - rewrite decide_False by lia.
    destruct (entries_well_formed P min_size only_pid uid_filter es Hok Hp Hcomm Hperm) as [Hes Hpos].
    eapply (scan_reply_run (RScan min_size only_pid uid_filter) [Ev CProcfs P] l es); try done.
    + constructor; [done|done|]. eapply Forall_impl; [exact Hes|]. by intros e [? _].
    + by rewrite Hperm.
    + by rewrite Hperm.
  - rewrite decide_True by lia. apply wp_call_bind. intros errno _.
    destruct (failure_reply (lit "scan failed: ") errno) as [Hl He];
      [by apply plain_lit|rewrite length_lit; cbn; lia|].
    eapply wp_mono;
      [apply (reply_run tt (RScan min_size only_pid uid_filter) [Ev CProcfs P; Ev CErrno errno] _ _
         (error_line (lit "scan failed: " ++ strerror errno)));
       [unfold error_line; rewrite He; format_as|done|by constructor]|].
    by intros b evs [_ ?].
Qed.

Lemma handle_stats_run min_size uid_filter h : in_s 32 (scan_threads c) ->
  wp (handle_stats fuel (sockfd c) min_size uid_filter (scan_threads c)) h
    (handling c (RStats min_size uid_filter)) (fun _ evs => handled c (RStats min_size uid_filter) evs).
Proof.
  intros Ht. unfold handle_stats. apply wp_call_bind. intros P HP.
  pose proof (scan_procfs_ok h) as Hok. pose proof (scan_few_pids h) as Hfew.
  pose proof (scan_total h min_size 0 uid_filter) as Htot. rewrite <- HP in *.
  destruct (hsed_scan_stats_run P (mk_stats 0 0) min_size uid_filter (scan_threads c) Hok Hfew Ht Htot)
    as (rc & st & Hscan & Ho).
  eapply wp_pure_bind; [exact Hscan|]. cbn beta iota.
  destruct Ho as [[-> ->]|[-> Hfail]].
  - rewrite decide_False by lia. cbn [s_count s_total].
    set (es := system_entries P min_size 0 uid_filter) in *.
    assert (0 <= sum_sizes es)%Z as Hpos.
    { apply sum_sizes_nonneg. unfold es, system_entries. rewrite decide_False by lia.
      destruct (p_opendir P _); [by apply all_entries_nonneg|constructor]. }
    eapply wp_mono;
      [apply (reply_run tt (RStats min_size uid_filter) [Ev CProcfs P] _ _
         (stats_line (u64 (Z.of_nat (length es))) (sum_sizes es)));
       [unfold stats_line; format_as| |constructor]|].
    + apply stats_line_ok; [apply Z.mod_pos_bound; lia|unfold in_s; lia].
    + by intros b evs [_ ?].
  - rewrite decide_True by lia. apply wp_call_bind. intros errno _.
    destruct (failure_reply (lit "stats scan failed: ") errno) as [Hl He];
      [by apply plain_lit|rewrite length_lit; cbn; lia|].
    eapply wp_mono;
      [apply (reply_run tt (RStats min_size uid_filter) [Ev CProcfs P; Ev CErrno errno] _ _
         (error_line (lit "stats scan failed: " ++ strerror errno)));
       [unfold error_line; rewrite He; format_as|done|by constructor]|].
    by intros b evs [_ ?].
Qed.

Context {AL : ArchLaws A} {TL : TraceLaws K A} {TK : TaskLaws K}.

Lemma handle_stream_run pid fd h : in_s 32 pid ->
  wp (handle_stream fuel (sockfd c) pid fd (max_capture c)) h
    (handling c (RStream pid fd)) (fun _ evs => handled c (RStream pid fd) evs).
Proof.
  intros Hp. unfold handle_stream.
  assert (0 < 256 <= length (zeroed 256)) as Hl by (unfold zeroed; rewrite length_replicate; lia).
  destruct (stream_callbacks_ok fuel (sockfd c) pid fd (capture_size (max_capture c))) as [H1 H2 H3].
  eapply wp_bind.
  { eapply wp_conseq; [apply (trace_fd_run fd (max_capture c) (reported_line (sockfd c))
      _ _ _ H1 H2 H3 fuel pid _ _ h Hp Hl)| |intros res evs H; exact H].
    intros evs Hc. right. eauto. }
  cbn beta. intros [rc err] evs [[Hrc (pre & m & turns & Hat & Hs & ->)]|[Hrc (Hno & why & Hwhy & Hm)]];
    cbn [fst snd] in *; subst rc.
  - rewrite decide_False by lia.
    eapply wp_mono; [apply (reply_run tt (RStream pid fd) _ _ _ stream_end_line);
      [unfold stream_end_line; format_as| |by eapply out_streamed]|].
    + split; [unfold stream_end_line; line_no_nul; by repeat constructor
             |unfold stream_end_line; line_length; lia].
    + by intros b evs [_ ?].
  - rewrite decide_True by lia. eapply send_error_run; [by eapply trace_failure_plain|exact Hm|].
    by apply out_no_stream.
Qed.
End handlers.
