(* ===== verification/Script.v ===== *)
(** * Example clients

    A kernel whose client sends a given text and on which everything else
    succeeds; it satisfies the laws the theorems ask of kernels. *)

From S2P Require Import Prelude CLib Kernel Json EntryList Protocol ProcRead ProcScan Parallel.
From S2P Require Import Tids Tracer Session TraceProps Stream Server ServerProps Requests Replies.

(** The bytes read so far, one by each call. *)
Definition reads_so_far (h : hist) : nat :=
  length (List.filter (fun e => match e with Ev c _ =>
    match c with CRecv _ _ dontwait => negb dontwait | _ => false end end) h).

Definition scripted (text : bytes) : Kernel := {|
  answer R c h :=
    match c in call R return R with
    | CRecv _ len dontwait =>
        if (dontwait : bool) then ROk [] else ROk (take (Nat.min len 1) (drop (reads_so_far h) text))
    | CGetRegs _ => ROk write_regs
    | c => quiet c
    end;
  strerror _ := lit "error" |}.

Section laws.
Context (text : bytes).

#[export] Instance scripted_send : SendLaws (scripted text).
Proof.
  intros fd data h n Hne Hn. cbn in Hn. injection Hn as <-. destruct data; [done|]. cbn. lia.
Defined.

#[export] Instance scripted_recv : RecvLaws (scripted text).
Proof.
  intros fd len dontwait h data H. cbn in H. destruct dontwait; injection H as <-; [cbn; lia|].
  rewrite length_take. lia.
Defined.

#[export] Instance scripted_strerror : StrerrorLaws (scripted text).
Proof. intros e. split; [by apply (plain_lit "error")|cbn; lia]. Defined.

#[export] Instance scripted_stat : StatLaws (scripted text).
Proof. intros path h st H. cbn in H. injection H as <-. unfold in_s. cbn. lia. Defined.

#[export] Instance scripted_trace : TraceLaws (scripted text) x86_64.
Proof.
  split.
  - intros tid h r H. cbn in H. injection H as <-. reflexivity.
  - intros tid addr len h data H. cbn in H. injection H as <-. cbn. lia.
Defined.

#[export] Instance scripted_task : TaskLaws (scripted text).
Proof. intros path h names H. cbn in H. injection H as <-. constructor. Defined.

Lemma quiet_entries min_size only_pid uid_filter :
  system_entries quiet_procfs min_size only_pid uid_filter = [].
Proof. unfold system_entries. by case_decide. Qed.

#[export] Instance scripted_scan : ScanLaws (scripted text).
Proof.
  split.
  - intros h. split; [intros path names [= <-]; constructor|done].
  - intros h names [= <-]. cbn. lia.
  - intros h pid. change (answer CProcfs h) with quiet_procfs.
    assert (proc_file quiet_procfs (lit "/proc/%d/comm") pid = None) as Hnone
      by (unfold proc_file; by destruct (format _ _)).
    unfold comm_text. rewrite Hnone. cbn [first_line or_question]. rewrite length_take.
    change (length (lit "?")) with 1. lia.
  - intros h m p u. change (answer CProcfs h) with quiet_procfs. by rewrite quiet_entries.
  - intros h m p u. change (answer CProcfs h) with quiet_procfs. by rewrite quiet_entries.
Defined.
End laws.

(** A connection on descriptor 4. *)
Definition script_conn : conn_args_t := mk_conn 4 200 1.

Definition script (lines : list string) : bytes := lines ≫= fun l => lit l ++ [NL].
