(* ===== verification/Permitted.v ===== *)
(** * What a request may touch

    The calls each request may make, and the proof, by following the code
    down to its calls, that the handlers make no others, whatever the kernel
    answers and wherever the run is cut short. *)

From S2P Require Import Prelude CLib Kernel Util Json EntryList Protocol ProcRead ProcScan.
From S2P Require Import Parallel Reclaim Tids Tracer Session TraceProps Stream Server ServerProps.
From S2P Require Import Requests Replies.

(** The calls of a trace of the tracer, which change no other process but by
    stopping its threads for a while. *)
Definition trace_call (e : event) : bool :=
  match e with
  | Ev c _ =>
      match c with
      | COpendir _ | CSeize _ _ | CInterrupt _ | CDetach _ | CSyscall _ _ | CCont _ | CGetRegs _
      | CGetEventMsg _ | CWaitpid _ | CWaitAny | CReadVm _ _ _ | CMalloc _ | CUsleep _ => true
      | _ => false
      end
  end.

Definition reply_call (sockfd : Z) (e : event) : bool :=
  match e with
  | Ev c _ => match c with CSend fd _ => bool_decide (fd = sockfd) | CErrno => true | _ => false end
  end.

(** The calls that serve a request, besides sending its reply. *)
Definition acts_for (sockfd : Z) (r : request) (e : event) : bool :=
  match e with
  | Ev c _ =>
      match r with
      | RScan _ _ _ | RStats _ _ => match c with CProcfs => true | _ => false end
      | RTruncate pid fd =>
          match c with
          | CStat path => bool_decide (path = proc_fd pid fd)
          | COpen path flags => bool_decide (path = proc_fd pid fd /\ flags = O_WRONLY)
          | CFtruncate _ len => bool_decide (len = 0%Z)
          | CClose _ => true
          | _ => false
          end
      | RSignal sig pid =>
          match c with CKill pid' sig' => bool_decide (pid' = pid /\ sig' = sig) | _ => false end
      | RStream _ _ =>
          match c with
          | CRecv fd _ dontwait => bool_decide (fd = sockfd /\ dontwait = true)
          | _ => trace_call e
          end
      | _ => false
      end
  end.

Definition permitted (sockfd : Z) (r : request) (e : event) : bool :=
  reply_call sockfd e || acts_for sockfd r e.

Lemma only_some {K : Kernel} {A B} (ok : event -> bool) (o : option A) (a : A) (k : A -> prog B) :
  o = Some a -> only ok (k a) -> only ok (pure o ≫= k).
Proof. intros -> H h. exact (H h). Qed.

(** As [only_calls], with the lemma [leaf] for the functions called. *)
Ltac only_steps leaf :=
  repeat first
    [ progress leaf
    | apply only_ret | apply only_pure | apply only_fuel
    | apply only_bind; [|intros ?]
    | match goal with
      | |- only _ (match ?x with _ => _ end) => destruct x
      | |- only _ (let '_ := ?x in _) => destruct x
      end
    | progress cbv zeta ].

Section sending.
Context {K : Kernel} (ok : event -> bool) (fuel : nat) (sockfd : Z).
Hypothesis ok_reply : forall e, reply_call sockfd e = true -> ok e = true.

Lemma ok_send data r : ok (Ev (CSend sockfd data) r) = true.
Proof. apply ok_reply. by apply bool_decide_eq_true. Qed.

Lemma ok_errno r : ok (Ev CErrno r) = true.
Proof. by apply ok_reply. Qed.

Lemma send_loop_only n json : forall sent, only ok (send_loop n sockfd json sent).
Proof.
  induction n as [|n IH]; intros sent; cbn [send_loop]; only_calls ltac:(apply ok_send); apply IH.
Qed.

Lemma send_line_only json : only ok (hsed_send_line fuel sockfd json).
Proof. apply send_loop_only. Qed.

Lemma send_linef_only fmt args : only ok (hsed_send_linef fuel sockfd fmt args).
Proof. unfold hsed_send_linef. only_steps ltac:(apply send_line_only). Qed.

Lemma send_entries_only l n : forall i linebuf total,
  only ok (send_entries fuel sockfd l n i linebuf total).
Proof.
  induction n as [|n IH]; intros i linebuf total; cbn [send_entries];
    only_steps ltac:(first [apply send_line_only | apply IH]).
Qed.

Lemma send_error_only err : only ok (send_error fuel sockfd err).
Proof. unfold send_error. only_steps ltac:(apply send_linef_only). Qed.
End sending.

(** ** The tracer *)

Section tracing.
Context {K : Kernel} {A : Arch} (ok : event -> bool) (fuel : nat) (sockfd : Z).
Hypothesis ok_trace : forall e, trace_call e = true -> ok e = true.
Hypothesis ok_reply : forall e, reply_call sockfd e = true -> ok e = true.
Hypothesis ok_poll : forall len r, ok (Ev (CRecv sockfd len true) r) = true.

Ltac trace_leaf := apply only_call; intros ?; by apply ok_trace.

Lemma seize_loop_only tid n : only ok (seize_loop tid n).
Proof. induction n as [|n IH]; cbn [seize_loop]; only_steps ltac:(first [trace_leaf | apply IH]). Qed.

Lemma attach_loop_only l : forall tids, only ok (attach_loop l tids).
Proof.
  induction l as [|tid l IH]; intros tids; cbn [attach_loop]; unfold attach_tid;
    only_steps ltac:(first [trace_leaf | apply seize_loop_only | apply IH]).
Qed.

Lemma detach_loop_only l : only ok (detach_loop l).
Proof. induction l as [|t l IH]; cbn [detach_loop]; only_steps ltac:(first [trace_leaf | apply IH]). Qed.

Lemma capture_loop_only tid max iovs : forall total capture,
  only ok (capture_loop tid iovs total capture max).
Proof.
  induction iovs as [|[base len] iovs IH]; intros total capture; cbn [capture_loop];
    unfold read_remote; only_steps ltac:(first [trace_leaf | apply IH]).
Qed.

Lemma fetch_data_only r ret ts capture max : only ok (fetch_data r ret ts capture max).
Proof.
  unfold fetch_data, capture_writev, read_remote.
  only_steps ltac:(first [trace_leaf | apply capture_loop_only]).
Qed.

Lemma stream_write_only tid ret capture buflen w :
  only ok (stream_write_cb fuel sockfd tid ret capture buflen w).
Proof.
  unfold stream_write_cb.
  only_steps ltac:(first [trace_leaf | apply send_linef_only; apply ok_reply]).
Qed.

Lemma stream_poll_only : only ok (stream_poll_cb sockfd).
Proof. unfold stream_poll_cb. only_steps ltac:(apply only_call; intros ?; apply ok_poll). Qed.

Lemma handle_stop_only fd max r status tids i capture :
  only ok (handle_stop (stream_write_cb fuel sockfd) fd max r status tids i capture).
Proof.
  unfold handle_stop, enter_stop, exit_stop, report_write, get_regs, resume.
  only_steps ltac:(first [trace_leaf | apply fetch_data_only | apply stream_write_only]).
Qed.

Lemma trace_loop_only n fd max : forall tids capture,
  only ok (trace_loop n (stream_write_cb fuel sockfd) (stream_poll_cb sockfd) fd max tids capture).
Proof.
  induction n as [|n IH]; intros tids capture; cbn [trace_loop]; unfold trace_turn, resume;
    only_steps ltac:(first [trace_leaf | apply handle_stop_only | apply detach_loop_only
                           | apply stream_poll_only | apply IH]).
Qed.

Lemma handle_stream_only pid fd max_capture : only ok (handle_stream fuel sockfd pid fd max_capture).
Proof.
  unfold handle_stream, hsed_trace_fd, discover_tids, stream_attached_cb.
  only_steps ltac:(first
    [ trace_leaf | apply attach_loop_only | apply trace_loop_only | apply detach_loop_only
    | apply send_linef_only; apply ok_reply
    | apply only_call; intros ?; by apply ok_reply ]).
Qed.
End tracing.

(** ** The other requests *)

Section requests.
Context {K : Kernel} {A : Arch} {Q : Qsort} (fuel : nat) (sockfd : Z).

Lemma permitted_reply r e : reply_call sockfd e = true -> permitted sockfd r e = true.
Proof. unfold permitted. by intros ->. Qed.

Lemma permitted_acts r e : acts_for sockfd r e = true -> permitted sockfd r e = true.
Proof. unfold permitted. intros ->. apply orb_true_r. Qed.

Ltac reply_leaf :=
  first [ apply send_linef_only; apply permitted_reply
        | apply send_error_only; apply permitted_reply
        | apply send_entries_only; apply permitted_reply
        | apply only_call; intros ?; by apply permitted_reply
        | apply only_call; intros ?; by apply permitted_acts ].

Lemma handle_scan_only m p u t :
  only (permitted sockfd (RScan m p u)) (handle_scan fuel sockfd m p u t).
Proof. unfold handle_scan. only_steps reply_leaf. Qed.

Lemma handle_stats_only m u t :
  only (permitted sockfd (RStats m u)) (handle_stats fuel sockfd m u t).
Proof. unfold handle_stats. only_steps reply_leaf. Qed.

Lemma handle_signal_only sig pid :
  only (permitted sockfd (RSignal sig pid)) (handle_signal fuel sig sockfd pid).
Proof.
  unfold handle_signal, hsed_send_signal. only_steps reply_leaf.
  apply only_call. intros r. apply permitted_acts. by apply bool_decide_eq_true.
Qed.

Lemma handle_truncate_only pid fd : in_s 32 pid -> in_s 32 fd ->
  only (permitted sockfd (RTruncate pid fd)) (handle_truncate fuel sockfd pid fd).
Proof.
  intros Hp Hf. unfold handle_truncate. apply only_bind.
  - unfold hsed_truncate_fd. eapply only_some; [by apply sformat_proc_fd|].
    only_steps reply_leaf; apply only_call; intros x; apply permitted_acts;
      by apply bool_decide_eq_true.
  - intros [[rc freed] err]. only_steps reply_leaf.
Qed.

Lemma stream_only pid fd cap :
  only (permitted sockfd (RStream pid fd)) (handle_stream fuel sockfd pid fd cap).
Proof.
  apply handle_stream_only.
  - intros [R c r] H. apply permitted_acts. by destruct c.
  - apply permitted_reply.
  - intros len r. apply permitted_acts. by apply bool_decide_eq_true.
Qed.
End requests.
