(* ===== verification/Connection.v ===== *)
(** * server.c, a whole connection

    [handle_connection] as a conversation: it takes the lines it receives one
    by one, carries each request out and answers it before it reads the next,
    and does nothing that no line asked for. *)

From stdpp Require Import sorting sets.
From S2P Require Import Prelude CLib Kernel Util Json EntryList Protocol ProcRead ProcScan.
From S2P Require Import Parallel Reclaim Tids Tracer Session TraceProps Stream Server ServerProps.
From S2P Require Import Requests Replies Permitted Script.

(** ** The handlers, by request *)

Section serve.
Context {K : Kernel} {A : Arch} {Q : Qsort} (fuel : nat) (c : conn_args_t).

Definition invalid_format (message : bytes) : bytes :=
  jlit "{'type':'error','message':'" ++ message ++ jlit "'}".

Definition serve (r : request) : prog bool :=
  match r with
  | RPing => _ ← hsed_send_linef fuel (sockfd c) (jlit "{'type':'pong'}") []; mret true
  | RQuit => mret false
  | RScan m p u => _ ← handle_scan fuel (sockfd c) m p u (scan_threads c); mret true
  | RStats m u => _ ← handle_stats fuel (sockfd c) m u (scan_threads c); mret true
  | RTruncate p f => _ ← handle_truncate fuel (sockfd c) p f; mret true
  | RSignal sig p => _ ← handle_signal fuel sig (sockfd c) p; mret true
  | RStream p f => _ ← handle_stream fuel (sockfd c) p f (max_capture c); mret true
  | RInvalid m => _ ← hsed_send_linef fuel (sockfd c) (invalid_format m) []; mret true
  end.

Lemma next_word_head s :
  (next_word s).1 = head (words s) /\ words (next_word s).2 = tail (words s).
Proof.
  pose proof (next_word_words s) as H. destruct (next_word s) as [[w|] r]; cbn [fst snd] in *.
  - by rewrite H.
  - by destruct H as [-> ->].
Qed.

(** Names the next word of the line, [head] of the words left. *)
Ltac take_word s a s' :=
  let Ha := fresh in let Hs := fresh "Hs" in
  destruct (next_word_head s) as [Ha Hs]; destruct (next_word s) as [a s'];
  cbn [fst snd] in Ha, Hs; subst a.

(** [dispatch] is [serve] of the request that the words make. *)
Lemma dispatch_serve cmd save : dispatch fuel c cmd save = serve (command cmd (words save)).
Proof.
  unfold dispatch, command. cbn [List.find commands fst]. cbv zeta.
  destruct (strcaseeq cmd (lit "PING")); [done|].
  destruct (strcaseeq cmd (lit "QUIT")); [done|].
  destruct (strcaseeq cmd (lit "SCAN")).
  { take_word save a1 s1. take_word s1 a2 s2. take_word s2 a3 s3. rewrite Hs, Hs0 in *.
    by destruct (words save) as [|w1 [|w2 [|w3 ws]]]. }
  destruct (strcaseeq cmd (lit "STATS")).
  { take_word save a1 s1. take_word s1 a2 s2. rewrite Hs in *.
    by destruct (words save) as [|w1 [|w2 ws]]. }
  destruct (strcaseeq cmd (lit "TRUNCATE")).
  { take_word save a1 s1. take_word s1 a2 s2. rewrite Hs in *.
    by destruct (words save) as [|w1 [|w2 ws]]. }
  destruct (strcaseeq cmd (lit "HUP")).
  { take_word save a1 s1. by destruct (words save) as [|w1 ws]. }
  destruct (strcaseeq cmd (lit "KILL")).
  { take_word save a1 s1. by destruct (words save) as [|w1 ws]. }
  destruct (strcaseeq cmd (lit "STREAM")).
  { take_word save a1 s1. take_word s1 a2 s2. rewrite Hs in *.
    by destruct (words save) as [|w1 [|w2 ws]]. }
  done.
Qed.

Definition is_quit (r : request) : bool := match r with RQuit => true | _ => false end.

Lemma serve_only r : request_ok r -> only (permitted (sockfd c) r) (serve r).
Proof.
  assert (forall (m : prog unit) (x : bool), only (permitted (sockfd c) r) m ->
    only (permitted (sockfd c) r) (_ ← m; mret x)) as Hthen
    by (intros m x Hm; apply only_bind; [done|]; intros; apply only_ret).
  assert (forall fmt (x : bool), only (permitted (sockfd c) r)
    (_ ← hsed_send_linef fuel (sockfd c) fmt []; mret x)) as Hsend.
  { intros fmt x. apply only_bind; [|intros; apply only_ret]. apply send_linef_only.
    apply permitted_reply. }
  intros Hok. destruct r; cbn [serve request_ok] in *; try (by apply Hsend).
  - apply only_ret.
  - apply Hthen, handle_scan_only.
  - apply Hthen, handle_stats_only.
  - destruct Hok. by apply Hthen, handle_truncate_only.
  - apply Hthen, handle_signal_only.
  - apply Hthen, stream_only.
Qed.

Context {QL : QsortLaws Q} {L : SendLaws K} {SL : ScanLaws K} {EL : StrerrorLaws K}.
Context {STL : StatLaws K} {AL : ArchLaws A} {TL : TraceLaws K A} {TK : TaskLaws K}.

(** The messages [command] gives. *)
Definition message_ok (r : request) : Prop :=
  match r with
  | RInvalid m => format (invalid_format m) [] = Some (error_line m) /\ line_ok (error_line m)
  | _ => True
  end.

Lemma serve_run r h : request_ok r -> message_ok r -> in_s 32 (scan_threads c) ->
  wp (serve r) h (handling c r) (fun go evs => go = negb (is_quit r) /\ handled c r evs).
Proof.
  intros Hok Hm Ht.
  assert (forall m : prog unit, wp m h (handling c r) (fun _ evs => handled c r evs) ->
    wp (_ ← m; mret true) h (handling c r) (fun go evs => go = true /\ handled c r evs)) as Hthen.
  { intros m Hm'. eapply wp_bind; [exact Hm'|]. intros [] evs He. apply wp_ret.
    by rewrite app_nil_r. }
  destruct r as [| |m p u|m u|p f|sig p|p f|msg]; cbn [serve request_ok is_quit negb message_ok] in *.
  - apply (reply_run fuel c true RPing [] _ [] pong_line); [unfold pong_line; format_as| |constructor].
    split; [unfold pong_line; line_no_nul; by repeat constructor|unfold pong_line; line_length; lia].
  - apply wp_ret. split; [done|]. exists [], [], []. split_and!; [done|constructor|constructor|by left].
  - by apply Hthen, handle_scan_run.
  - by apply Hthen, handle_stats_run.
  - destruct Hok. by apply Hthen, handle_truncate_run.
  - by apply Hthen, handle_signal_run.
  - destruct Hok. by apply Hthen, handle_stream_run.
  - destruct Hm as [Hf Hl]. apply (reply_run fuel c true (RInvalid msg) [] _ [] _ _ Hf Hl). constructor.
Qed.

Lemma command_message_ok cmd args : message_ok (command cmd args).
Proof.
  assert (forall m, format (invalid_format m) [] = Some (error_line m) ->
    Forall plain_char m -> length m <= 64 -> message_ok (RInvalid m)) as Hmsg.
  { intros m Hf Hp Hl. split; [done|]. apply error_line_ok; [by apply plain_no_nul|].
    rewrite plain_escaped by done. lia. }
  assert (forall s, format (invalid_format (lit s)) [] = Some (error_line (lit s)) ->
    bool_decide (Forall plain_char (lit s)) = true -> bool_decide (length (lit s) <= 64) = true ->
    message_ok (RInvalid (lit s))) as Hlit.
  { intros s Hf Hp Hl. apply Hmsg; [done|by apply plain_lit|by apply bool_decide_eq_true in Hl]. }
  unfold command. destruct (List.find _ _) as [e|] eqn:E.
  2: { apply Hlit; by vm_compute. }
  apply List.find_some in E as [He _]. unfold commands in He. cbn [List.In] in He.
  destruct_or! He; subst; cbn [snd]; try done.
  - destruct args as [|a1 [|a2 args]]; [apply Hlit; by vm_compute..|done].
  - destruct args as [|a1 args]; [apply Hlit; by vm_compute|done].
  - destruct args as [|a1 args]; [apply Hlit; by vm_compute|done].
  - destruct args as [|a1 [|a2 args]]; [apply Hlit; by vm_compute..|done].
Qed.
End serve.

(** ** The conversation *)

(** What a line asks for: the array of [recv_line] keeps 511 bytes of it. *)
Definition asks (line : bytes) : option request := request_of (nulcut (take (LINE_MAX - 1) line)).

Definition quits (line : bytes) : bool :=
  match asks line with Some r => is_quit r | None => false end.

(** The calls of [recv_line]. *)
Definition read_call (sockfd : Z) (e : event) : bool :=
  match e with
  | Ev c _ =>
      match c with
      | CRecv fd len dontwait => bool_decide (fd = sockfd /\ len = 1 /\ dontwait = false)
      | _ => false
      end
  end.

Section conversation.
Context {K : Kernel} {A : Arch} (c : conn_args_t).

Definition reading (evs : list event) : Prop := Forall (fun e => read_call (sockfd c) e = true) evs.

(** A whole line is taken off the socket. *)
Definition took (line : bytes) (evs : list event) : Prop :=
  reading evs /\ (NL ∉ line) /\ received (sockfd c) evs = line ++ [NL].

Definition serves (P : request -> list event -> Prop) (r : request) (evs : list event) : Prop :=
  P r evs /\ Forall (fun e => permitted (sockfd c) r e = true) evs.

(** A line is read, and the request it makes, if it makes one, carried out. *)
Definition line_turn (line : bytes) (evs : list event) : Prop :=
  exists taking serving, evs = taking ++ serving /\ took line taking /\
    match asks line with Some r => serves (handled c) r serving | None => serving = [] end.

(** [talk over lines evs]: the connection has taken these lines in this
    order.  It is [over] when the client has hung up or quit; otherwise it
    was cut short while it read or served. *)
Inductive talk (over : bool) : list bytes -> list event -> Prop :=
  | talk_reading evs : reading evs -> NL ∉ received (sockfd c) evs -> talk over [] evs
  | talk_quit line evs : over = true -> quits line = true -> line_turn line evs ->
      talk over [line] evs
  | talk_serving line r taking serving : over = false -> took line taking ->
      asks line = Some r -> serves (handling c) r serving -> talk over [line] (taking ++ serving)
  | talk_line line evs lines evs' : quits line = false -> line_turn line evs ->
      talk over lines evs' -> talk over (line :: lines) (evs ++ evs').
End conversation.

Section connection.
Context {K : Kernel} {A : Arch} {Q : Qsort} {QL : QsortLaws Q} {L : SendLaws K} {SL : ScanLaws K}.
Context {EL : StrerrorLaws K} {STL : StatLaws K} {AL : ArchLaws A} {TL : TraceLaws K A}.
Context {TK : TaskLaws K} {RL : RecvLaws K}.
Context (fuel : nat) (c : conn_args_t).

Lemma recv_loop_only n bufsize : forall b i,
  only (read_call (sockfd c)) (recv_loop n (sockfd c) b bufsize i).
Proof.
  induction n as [|n IH]; intros b i; cbn [recv_loop]; only_steps ltac:(first
    [ apply IH | apply only_call; intros ?; by apply bool_decide_eq_true ]).
Qed.

Lemma take_line_run b h : LINE_MAX <= length b ->
  wp (recv_line fuel (sockfd c) b LINE_MAX) h
    (fun evs => reading c evs /\ NL ∉ received (sockfd c) evs)
    (fun r evs => length r.2 = length b /\
       (r.1 = (-1)%Z /\ reading c evs /\ NL ∉ received (sockfd c) evs \/
        exists line, (0 <= r.1)%Z /\ took c line evs /\
          cstr r.2 = Some (nulcut (take (LINE_MAX - 1) line)))).
Proof.
  intros Hb.
  eapply wp_conseq; [apply (wp_only (read_call (sockfd c)));
    [apply (recv_line_run fuel (sockfd c) b LINE_MAX h); unfold LINE_MAX in *; lia
    |apply recv_loop_only]| |]; cbn beta.
  - intros evs [Hn Hr]. done.
  - intros [n b'] evs [[Hl Hres] Hr]. split; [done|].
    destruct Hres as [[? ?]|(line & Hn & Hrec & Hi & Hc)]; [by left|right].
    exists line. cbn [fst snd app] in *. split_and!; [lia|done..].
Qed.

Lemma connection_loop_run turns : forall b h, in_s 32 (scan_threads c) -> LINE_MAX <= length b ->
  wp (connection_loop fuel turns c b) h
    (fun evs => exists lines, talk c false lines evs)
    (fun _ evs => exists lines, talk c true lines evs).
Proof.
  induction turns as [|turns IH]; intros b h Ht Hb; cbn [connection_loop].
  { apply wp_fuel. exists []. constructor; [constructor|by intros ?%elem_of_nil]. }
  eapply wp_bind.
  { eapply wp_conseq; [by apply take_line_run| |intros r evs H; exact H].
    intros evs [Hr Hn]. exists []. by constructor. }
  cbn beta. intros [n b'] evs [Hl Hres]. cbn [fst snd] in *.
  destruct Hres as [(-> & Hr & Hn)|(line & Hn & Htook & Hc)].
  { rewrite decide_True by lia. apply wp_ret. exists []. rewrite app_nil_r. by constructor. }
  rewrite decide_False by lia. eapply wp_pure_bind; [exact Hc|].
  set (s := nulcut (take (LINE_MAX - 1) line)) in *.
  assert (asks line = request_of s) as Hasks by done. unfold request_of in Hasks.
  pose proof (next_word_words s) as Hw. unfold next_word in Hw.
  assert (forall over lines evs', quits line = false -> line_turn c line evs ->
    talk c over lines evs' -> exists lines', talk c over lines' (evs ++ evs')) as Hmore.
  { intros over lines evs' Hq Hturn Htalk. exists (line :: lines). by constructor. }
  destruct (strtok_r delims s) as [[cmd|] save].
  2: { destruct Hw as [Hw _]. rewrite Hw in Hasks.
       assert (quits line = false) as Hq by (unfold quits; by rewrite Hasks).
       assert (line_turn c line evs) as Hturn.
       { exists evs, []. rewrite app_nil_r, Hasks. done. }
       eapply wp_conseq; [apply IH; [done|lia]| |]; cbn beta.
       - intros evs' [lines Htalk]. by eapply Hmore.
       - intros [] evs' [lines Htalk]. by eapply Hmore. }
  rewrite Hw in Hasks. rewrite dispatch_serve. set (r := command cmd (words save)) in *.
  eapply wp_bind.
  { eapply wp_conseq; [apply (wp_only (permitted (sockfd c) r));
      [apply (serve_run fuel c r); [apply command_ok|apply command_message_ok|done]
      |apply serve_only, command_ok]| |intros go evs' H; exact H].
    intros evs' Hs. exists [line]. by eapply talk_serving. }
  cbn beta. intros go serving [[-> Hh] Hp].
  assert (line_turn c line (evs ++ serving)) as Hturn
    by (exists evs, serving; rewrite Hasks; done).
  assert (quits line = is_quit r) as Hq by (unfold quits; by rewrite Hasks).
  destruct (is_quit r); cbn [negb].
  - apply wp_ret. exists [line]. rewrite app_nil_r. by apply talk_quit.
  - eapply wp_conseq; [apply IH; [done|lia]| |]; cbn beta.
    + intros evs' [lines Htalk]. exists (line :: lines). rewrite app_assoc. by constructor.
    + intros [] evs' [lines Htalk]. exists (line :: lines). rewrite app_assoc. by constructor.
Qed.

Lemma handle_connection_run h : in_s 32 (scan_threads c) ->
  wp (handle_connection fuel c) h
    (fun evs => exists lines, talk c false lines evs)
    (fun _ evs => exists lines evs', evs = evs' ++ [Ev (CClose (sockfd c)) tt] /\
                    talk c true lines evs').
Proof.
  intros Ht. unfold handle_connection. eapply wp_bind.
  { apply connection_loop_run; [done|by rewrite length_alloca]. }
  cbn beta. intros [] evs [lines Htalk]. apply wp_call. exists lines, evs.
  by destruct (answer _ _).
Qed.
End connection.

(** ** What a conversation did *)

(** The signals sent, and the pairs of pid and signal the lines ask for. *)
Definition signal_by (e : event) : list (Z * Z) :=
  match e with Ev c _ => match c with CKill pid sig => [(pid, sig)] | _ => [] end end.

Definition signals (evs : list event) : list (Z * Z) := evs ≫= signal_by.

Definition requests (lines : list bytes) : list request := omap asks lines.

Definition asked_signals (lines : list bytes) : list (Z * Z) := requests lines ≫= request_signals.

(** The lines that a newline ends. *)
Fixpoint complete_lines (s : bytes) : list bytes :=
  match s with
  | [] => []
  | a :: s' =>
      if decide (a = NL) then [] :: complete_lines s'
      else match complete_lines s' with l :: ls => (a :: l) :: ls | [] => [] end
  end.

Lemma complete_lines_more line s : NL ∉ line ->
  complete_lines ((line ++ [NL]) ++ s) = line :: complete_lines s.
Proof.
  rewrite <- app_assoc. cbn [app].
  induction line as [|a line IH]; intros Hn; cbn [app complete_lines].
  - by rewrite decide_True.
  - apply not_elem_of_cons in Hn as [Ha Hn].
    rewrite decide_False by congruence. by rewrite IH.
Qed.

Lemma complete_lines_none s : NL ∉ s -> complete_lines s = [].
Proof.
  induction s as [|a s IH]; intros Hn; cbn [complete_lines]; [done|].
  apply not_elem_of_cons in Hn as [Ha Hn]. by rewrite decide_False, IH by congruence.
Qed.

Lemma signals_app evs evs' : signals (evs ++ evs') = signals evs ++ signals evs'.
Proof. apply bind_app. Qed.

(** Events that are all of a kind without signals, or without received bytes. *)
Lemma bind_none {B} (f : event -> list B) (P : event -> Prop) evs :
  (forall e, P e -> f e = []) -> Forall P evs -> (evs ≫= f) = [].
Proof. intros Hf. induction 1 as [|e evs He _ IH]; csimpl; [done|]. by rewrite Hf, IH. Qed.

Lemma read_no_signal sockfd e : read_call sockfd e = true -> signal_by e = [].
Proof. destruct e as [R c r]. by destruct c. Qed.

Lemma send_no_signal sockfd e : is_send sockfd e = true -> signal_by e = [].
Proof. destruct e as [R c r]. by destruct c. Qed.

Lemma permitted_no_signal sockfd r e : request_signals r = [] ->
  permitted sockfd r e = true -> signal_by e = [].
Proof. destruct e as [R c x]. intros Hr. by destruct r, c. Qed.

Lemma permitted_not_received sockfd r e : permitted sockfd r e = true ->
  received_by sockfd e = [].
Proof.
  destruct e as [R c x]. destruct c; try done.
  unfold permitted. cbn [reply_call orb acts_for]. intros H. cbn [received_by].
  destruct x as [data|]; [|done]. rewrite decide_False; [done|].
  intros [-> ->]. destruct r; try done. by apply bool_decide_eq_true in H as [_ ?].
Qed.

Section consequences.
Context {K : Kernel} {A : Arch} (c : conn_args_t).

Lemma outcome_signals r acts text : outcome c r acts text ->
  request_signals r = [] \/ signals acts = request_signals r.
Proof. intros H. destruct H; auto. Qed.

Lemma answered_signals r acts text rest : outcome c r acts text -> sends_only (sockfd c) rest ->
  Forall (fun e => permitted (sockfd c) r e = true) (acts ++ rest) ->
  signals (acts ++ rest) = request_signals r.
Proof.
  intros Ho Hs Hp. destruct (decide (request_signals r = [])) as [Hr|Hr].
  - rewrite Hr. eapply bind_none; [|exact Hp]. intros e. by apply permitted_no_signal.
  - rewrite signals_app. destruct (outcome_signals r acts text Ho) as [?| ->]; [done|].
    assert (signals rest = []) as -> by (eapply bind_none; [apply send_no_signal|exact Hs]).
    apply app_nil_r.
Qed.

Lemma serves_signals r evs : serves c (handled c) r evs -> signals evs = request_signals r.
Proof.
  intros [(acts & text & rest & -> & Ho & Hs & _) Hp]. by eapply answered_signals.
Qed.

Lemma cut_signals r evs : serves c (handling c) r evs -> signals evs = request_signals r.
Proof.
  intros [[(acts & text & rest & -> & Ho & Hs & _)|(pid & fd & -> & _)] Hp];
    [by eapply answered_signals|].
  eapply bind_none; [|exact Hp]. intros e. by apply permitted_no_signal.
Qed.

Lemma served_received r evs : Forall (fun e => permitted (sockfd c) r e = true) evs ->
  received (sockfd c) evs = [].
Proof. intros H. eapply bind_none; [|exact H]. intros e. by apply permitted_not_received. Qed.

Lemma turn_facts line evs : line_turn c line evs ->
  (NL ∉ line) /\ received (sockfd c) evs = line ++ [NL] /\ signals evs = asked_signals [line].
Proof.
  intros (taking & serving & -> & (Hr & Hn & Hrec) & Hserve).
  assert (signals taking = []) as Ht by (eapply bind_none; [apply read_no_signal|exact Hr]).
  rewrite received_app, signals_app, Hrec, Ht. unfold asked_signals, requests. csimpl.
  destruct (asks line) as [r|].
  - rewrite (served_received r serving) by apply Hserve.
    rewrite (serves_signals r) by done. csimpl. by rewrite !app_nil_r.
  - subst serving. by rewrite app_nil_r.
Qed.

Lemma asked_cons line lines : asked_signals (line :: lines) = asked_signals [line] ++ asked_signals lines.
Proof.
  unfold asked_signals, requests. csimpl. destruct (asks line); csimpl; [|done].
  by rewrite app_nil_r.
Qed.

(** The lines of the conversation are those received, and the signals sent
    are those they ask for. *)
Lemma talk_facts over lines evs : talk c over lines evs ->
  complete_lines (received (sockfd c) evs) = lines /\ signals evs = asked_signals lines.
Proof.
  induction 1 as [evs Hr Hn|line evs _ _ Ht|line r taking serving _ (Hr & Hn & Hrec) Ha Hserve
                 |line evs lines evs' _ Ht _ [IHl IHs]].
  - split; [by apply complete_lines_none|]. eapply bind_none; [apply read_no_signal|exact Hr].
  - apply turn_facts in Ht as (Hn & -> & ->). split; [|done].
    by rewrite <- (app_nil_r (line ++ [NL])), complete_lines_more.
  - assert (signals taking = []) as Ht by (eapply bind_none; [apply read_no_signal|exact Hr]).
    rewrite received_app, signals_app, Hrec, Ht.
    rewrite (served_received r serving) by apply Hserve. rewrite (cut_signals r) by done.
    unfold asked_signals, requests. csimpl. rewrite Ha. csimpl. rewrite !app_nil_r. split; [|done].
    by rewrite <- (app_nil_r (line ++ [NL])), complete_lines_more.
  - apply turn_facts in Ht as (Hn & Hrec & Hs).
    rewrite received_app, signals_app, Hrec, Hs, complete_lines_more, IHl, IHs by done.
    split; [done|]. symmetry. apply asked_cons.
Qed.

(** Every call is part of reading, or one that some request permits. *)
Definition accounted (lines : list bytes) (e : event) : Prop :=
  read_call (sockfd c) e = true \/
  exists r, r ∈ requests lines /\ permitted (sockfd c) r e = true.

Lemma turn_accounted line evs : line_turn c line evs -> Forall (accounted [line]) evs.
Proof.
  intros (taking & serving & -> & (Hr & _) & Hserve). apply Forall_app. split.
  - eapply Forall_impl; [exact Hr|]. intros e. by left.
  - destruct (asks line) as [r|] eqn:E; [|by subst serving].
    eapply Forall_impl; [apply Hserve|]. intros e He. right. exists r. split; [|exact He].
    unfold requests. csimpl. rewrite E. by apply list_elem_of_singleton.
Qed.

Lemma accounted_more lines lines' e : lines ⊆ lines' -> accounted lines e -> accounted lines' e.
Proof.
  intros Hsub [?|(r & Hr & Hp)]; [by left|right]. exists r. split; [|done].
  unfold requests in *. rewrite list_elem_of_omap in *. destruct Hr as (l & Hl & Ha). eauto.
Qed.

Lemma talk_accounted over lines evs : talk c over lines evs -> Forall (accounted lines) evs.
Proof.
  induction 1 as [evs Hr Hn|line evs _ _ Ht|line r taking serving _ (Hr & _) Ha Hserve
                 |line evs lines evs' _ Ht _ IH].
  - eapply Forall_impl; [exact Hr|]. intros e. by left.
  - by apply turn_accounted.
  - apply Forall_app. split; [eapply Forall_impl; [exact Hr|]; intros e; by left|].
    eapply Forall_impl; [apply Hserve|]. intros e He. right. exists r. split; [|exact He].
    unfold requests. csimpl. rewrite Ha. by apply list_elem_of_singleton.
  - apply Forall_app. split.
    + eapply Forall_impl; [by apply turn_accounted|]. intros e.
      apply accounted_more. set_solver.
    + eapply Forall_impl; [exact IH|]. intros e. apply accounted_more. set_solver.
Qed.
End consequences.

(** ** Properties *)

(** C12: On every kernel, and with no undefined behaviour, a connection is a
    conversation: it takes lines off the socket one at a time; a line that
    makes a request is served, with the calls and the reply that request
    allows, before the next is read; it ends when the client hangs up, or
    with a QUIT, and then closes the socket, once. *)
Theorem connection_correct {K : Kernel} {A : Arch} {Q : Qsort} {QL : QsortLaws Q} {L : SendLaws K}
    {SL : ScanLaws K} {EL : StrerrorLaws K} {STL : StatLaws K} {AL : ArchLaws A}
    {TL : TraceLaws K A} {TK : TaskLaws K} {RL : RecvLaws K}
    (fuel : nat) (c : conn_args_t) (h : hist) : in_s 32 (scan_threads c) ->
  wp (handle_connection fuel c) h
    (fun evs => exists lines, talk c false lines evs)
    (fun _ evs => exists lines evs', evs = evs' ++ [Ev (CClose (sockfd c)) tt] /\
                    talk c true lines evs').
Proof. apply handle_connection_run. Qed.

(** C1: Whatever the client sends, and wherever the connection is cut short, the
    signals it sends are exactly those the complete lines it received ask
    for, in their order; and every call it makes but to read a line or to
    close its socket is one that some request it received permits, so no
    file is opened or truncated but the descriptor a TRUNCATE names. *)
Theorem connection_safe {K : Kernel} {A : Arch} {Q : Qsort} {QL : QsortLaws Q} {L : SendLaws K}
    {SL : ScanLaws K} {EL : StrerrorLaws K} {STL : StatLaws K} {AL : ArchLaws A}
    {TL : TraceLaws K A} {TK : TaskLaws K} {RL : RecvLaws K}
    (fuel : nat) (c : conn_args_t) (h : hist) : in_s 32 (scan_threads c) ->
  let ok evs := let lines := complete_lines (received (sockfd c) evs) in
    signals evs = asked_signals lines /\
    Forall (fun e => accounted c lines e \/ e = Ev (CClose (sockfd c)) tt) evs in
  wp (handle_connection fuel c) h ok (fun _ evs => ok evs).
Proof.
  intros Ht ok.
  assert (forall over lines evs, talk c over lines evs -> ok evs) as Htalk.
  { intros over lines evs H. unfold ok. destruct (talk_facts c over lines evs H) as [-> ->].
    split; [done|]. eapply Forall_impl; [by eapply talk_accounted|]. intros e. by left. }
  eapply wp_conseq; [by apply handle_connection_run| |].
  - intros evs [lines H]. by eapply Htalk.
  - intros [] evs (lines & evs' & -> & H). apply Htalk in H as [Hs Hf]. unfold ok.
    rewrite received_app, signals_app. unfold received at 2 4, signals at 2. csimpl.
    rewrite !app_nil_r. split; [done|]. apply Forall_app. split; [done|].
    constructor; [by right|constructor].
Qed.

(** The client of the examples pings, asks for a signal to process 4321 and
    quits. *)
Abbreviation chat := (script ["PING"; "KILL 4321"; "QUIT"]%string).

Lemma connection_correct_witness :
  wp (@handle_connection (scripted chat) x86_64 _ 600 script_conn) []
    (fun evs => exists lines, @talk (scripted chat) x86_64 script_conn false lines evs)
    (fun _ evs => exists lines evs', evs = evs' ++ [Ev (CClose 4) tt] /\
                    @talk (scripted chat) x86_64 script_conn true lines evs').
Proof.
  apply (@connection_correct (scripted chat) x86_64 insertion_qsort insertion_qsort_laws _ _ _ _
    x86_64_laws _ _ _ 600 script_conn []).
  unfold in_s. cbn. lia.
Defined.

Lemma connection_safe_witness :
  (let r := @handle_connection (scripted chat) x86_64 _ 600 script_conn [] in
   fst r = Done tt /\ signals (snd r) = [(4321, 9)%Z] /\
   complete_lines (received 4 (snd r)) = [lit "PING"; lit "KILL 4321"; lit "QUIT"]) /\
  wp (@handle_connection (scripted chat) x86_64 _ 600 script_conn) []
    (fun evs => signals evs = asked_signals (complete_lines (received 4 evs)) /\
       Forall (fun e => accounted script_conn (complete_lines (received 4 evs)) e \/
                        e = Ev (CClose 4) tt) evs)
    (fun _ evs => signals evs = asked_signals (complete_lines (received 4 evs)) /\
       Forall (fun e => accounted script_conn (complete_lines (received 4 evs)) e \/
                        e = Ev (CClose 4) tt) evs).
Proof.
  split; [split_and!; vm_compute; reflexivity|].
  apply (@connection_safe (scripted chat) x86_64 insertion_qsort insertion_qsort_laws _ _ _ _
    x86_64_laws _ _ _ 600 script_conn []).
  unfold in_s. cbn. lia.
Defined.

(** C24: The chain of comparisons in the connection loop runs the handler that the
    request of the line names in the table of commands, with the arguments
    the words of the line make. *)
Theorem dispatch_correct {K : Kernel} {A : Arch} {Q : Qsort} (fuel : nat) (c : conn_args_t)
    (s cmd save : bytes) : strtok_r delims s = (Some cmd, save) ->
  exists r, request_of s = Some r /\ dispatch fuel c cmd save = serve fuel c r.
Proof.
  intros Hs. pose proof (next_word_words s) as Hw. unfold next_word in Hw. rewrite Hs in Hw.
  exists (command cmd (words save)). split; [unfold request_of; by rewrite Hw|].
  apply dispatch_serve.
Qed.

Lemma dispatch_correct_witness :
  exists r, request_of (lit "  Scan 100 42") = Some r /\ r = RScan 100 42 HSED_UID_ANY /\
    @dispatch (scripted []) x86_64 _ 10 script_conn (lit "Scan") (lit "100 42")
    = @serve (scripted []) x86_64 _ 10 script_conn r.
Proof.
  destruct (@dispatch_correct (scripted []) x86_64 insertion_qsort 10 script_conn
    (lit "  Scan 100 42") (lit "Scan") (lit "100 42")) as (r & Hr & Hd).
  - vm_compute. reflexivity.
  - exists r. split; [exact Hr|]. split; [|exact Hd].
    assert (request_of (lit "  Scan 100 42") = Some (RScan 100 42 HSED_UID_ANY)) as E
      by (vm_compute; reflexivity).
    congruence.
Defined.

(** C25: [recv_line] stays in its array and takes from the socket the bytes up to
    and including the next newline, not one more; it returns the number of
    bytes kept, which are the first of the line, or -1 when the socket ended
    or failed before a newline came. *)
Theorem recv_line_correct {K : Kernel} {RL : RecvLaws K} (fuel : nat) (fd : Z) (b : buf)
    (bufsize : nat) (h : hist) : 0 < bufsize <= length b ->
  wp (recv_line fuel fd b bufsize) h (fun evs => NL ∉ received fd evs)
    (fun '(n, b') evs => length b' = length b /\
       (n = (-1)%Z /\ (NL ∉ received fd evs) \/
        exists line, (NL ∉ line) /\ received fd evs = line ++ [NL] /\
          n = Z.of_nat (length (take (bufsize - 1) line)) /\
          cstr b' = Some (nulcut (take (bufsize - 1) line)))).
Proof.
  intros Hb. eapply wp_mono; [by apply recv_line_run|]. intros [n b'] evs H. exact H.
Qed.

Lemma recv_line_correct_witness :
  (let r := @recv_line (scripted (script ["SCAN 0 7"; "QUIT"]%string)) 20 4 (alloca 6) 6 [] in
   exists b, fst r = Done (5%Z, b) /\ cstr b = Some (lit "SCAN ") /\
     received 4 (snd r) = lit "SCAN 0 7" ++ [NL]) /\
  wp (@recv_line (scripted (script ["SCAN 0 7"; "QUIT"]%string)) 20 4 (alloca 6) 6) []
    (fun evs => NL ∉ received 4 evs)
    (fun '(n, b') evs => length b' = length (alloca 6) /\
       (n = (-1)%Z /\ (NL ∉ received 4 evs) \/
        exists line, (NL ∉ line) /\ received 4 evs = line ++ [NL] /\
          n = Z.of_nat (length (take (6 - 1) line)) /\
          cstr b' = Some (nulcut (take (6 - 1) line)))).
Proof.
  split; [eexists; split_and!; vm_compute; reflexivity|].
  apply (@recv_line_correct (scripted (script ["SCAN 0 7"; "QUIT"]%string)) _ 20 4 (alloca 6) 6 []).
  rewrite length_alloca. lia.
Defined.

(** *** The pid of a KILL *)

Lemma strcaseeq_same a b c : strcaseeq a b = true -> strcaseeq a c = strcaseeq b c.
Proof. unfold strcaseeq. intros H%bool_decide_eq_true. by rewrite H. Qed.

(** The commands that send a signal, in any case. *)
Definition signal_command (cmd : bytes) (sig : Z) : Prop :=
  strcaseeq cmd (lit "HUP") = true /\ sig = SIGHUP \/
  strcaseeq cmd (lit "KILL") = true /\ sig = SIGKILL.

Lemma command_signal cmd sig a args : signal_command cmd sig ->
  command cmd (a :: args) = RSignal sig (pid_of a).
Proof.
  intros [[Hc ->]|[Hc ->]]; unfold command, commands; cbn [List.find fst];
    rewrite !(strcaseeq_same _ _ _ Hc); reflexivity.
Qed.

(** Text no number can start with. *)
Definition not_a_number (a : bytes) : Prop :=
  match a with
  | c :: _ => isspace c = false /\ isdigit c = false /\ c <> "-"%char /\ c <> "+"%char
  | [] => True
  end.

Lemma pid_of_not_a_number a : not_a_number a -> pid_of a = 0%Z.
Proof.
  intros Ha. unfold pid_of, atol, strtol, strtol_end, scan_number.
  destruct a as [|c a]; [done|]. destruct Ha as (Hs & Hd & Hm & Hp). cbn [skip_space].
  rewrite Hs, !decide_False by done. unfold digit_in. by rewrite Hd.
Qed.

Lemma pid_of_wraps z : in_s 64 z -> pid_of (print_d z) = i32 z.
Proof.
  intros Hz. unfold pid_of, atol, strtol.
  by rewrite <- (app_nil_r (print_d z)), strtol_print_d.
Qed.

(** C38: The pid of a KILL or HUP is not checked: whatever the word that follows
    the command, the first call is a kill of the pid [atol] and the conversion
    to an [int] make of it, and only then is the client answered.  A word that
    is no number is read as 0, which asks the kernel to kill the daemon's own
    process group; a number beyond an [int] wraps around, so that 4294967295
    is -1, which asks for every process. *)
Theorem kill_unchecked {K : Kernel} {A : Arch} {Q : Qsort} {QL : QsortLaws Q} {L : SendLaws K}
    {SL : ScanLaws K} {EL : StrerrorLaws K} {STL : StatLaws K}
    (fuel : nat) (c : conn_args_t) (h : hist) (cmd save a save' : bytes) (sig : Z) :
  signal_command cmd sig -> next_word save = (Some a, save') ->
  let killed evs := exists r replies,
    evs = Ev (CKill (pid_of a) sig) r :: replies /\ sends_only (sockfd c) replies in
  wp (dispatch fuel c cmd save) h killed (fun go evs => go = true /\ killed evs) /\
  (not_a_number a -> pid_of a = 0%Z) /\
  (forall z, in_s 64 z -> a = print_d z -> pid_of a = i32 z).
Proof.
  intros Hcmd Hw killed.
  split; [|split; [apply pid_of_not_a_number|by intros z Hz ->; apply pid_of_wraps]].
  pose proof (next_word_words save) as Hws. rewrite Hw in Hws.
  rewrite dispatch_serve, Hws, (command_signal _ _ _ _ Hcmd). cbn [serve].
  assert (forall acts text replies, outcome c (RSignal sig (pid_of a)) acts text ->
    sends_only (sockfd c) replies -> killed (acts ++ replies)) as Hacts.
  { intros acts text replies Ho Hs. inversion Ho; subst; by do 2 eexists. }
  apply (wp_bind _ _ _ _ (fun _ evs => handled c (RSignal sig (pid_of a)) evs)).
  - eapply wp_conseq; [apply handle_signal_run| |done].
    intros evs [(acts & text & replies & -> & Ho & Hs & _)|(p & f & ? & _)]; [|done].
    by eapply Hacts.
  - cbn beta. intros [] evs (acts & text & replies & -> & Ho & Hs & _). apply wp_ret.
    rewrite app_nil_r. split; [done|]. by eapply Hacts.
Qed.

Lemma kill_unchecked_witness :
  let run := @dispatch (scripted []) x86_64 _ 30 script_conn (lit "Kill") (lit " abc") in
  let killed evs := exists r replies,
    evs = Ev (CKill (pid_of (lit "abc")) SIGKILL) r :: replies /\ sends_only 4 replies in
  fst (run []) = Done true /\ pid_of (lit "abc") = 0%Z /\
  wp run [] killed (fun go evs => go = true /\ killed evs).
Proof.
  intros run killed.
  destruct (@kill_unchecked (scripted []) x86_64 insertion_qsort insertion_qsort_laws _ _ _ _
    30 script_conn [] (lit "Kill") (lit " abc") (lit "abc") [] SIGKILL) as (Hk & H0 & _).
  - right. split; [by vm_compute|reflexivity].
  - vm_compute. reflexivity.
  - split; [by vm_compute|]. split; [apply H0; repeat split; by vm_compute|exact Hk].
Defined.
