(* ===== verification/ClientView.v ===== *)
(** * What a client reads

    The text of a reply is whole lines, each a JSON object; for a SCAN, the
    objects are the entries of the deleted files, largest first, and their
    count and total. *)

From stdpp Require Import sorting sets.
From S2P Require Import Prelude CLib Kernel Util Base64 Json EntryList Protocol ProcRead ProcScan.
From S2P Require Import Parallel Reclaim Tids Tracer Session TraceProps Stream Server ServerProps.
From S2P Require Import Requests Replies Permitted Script Connection.

(** ** The lines have no control characters *)

Lemma json_char_visible c : visible (json_char c).
Proof.
  assert (bool_decide (visible (json_char c)) = true) as H
    by (revert c; apply byte_cases; by vm_compute).
  by apply bool_decide_eq_true in H.
Qed.

Lemma visible_escaped s : visible (json_escaped s).
Proof.
  unfold json_escaped. induction s as [|c s IH]; [constructor|]. rewrite bind_cons.
  apply Forall_app. split; [apply json_char_visible|done].
Qed.

Lemma visible_clip s n o : visible (clip s n o).
Proof. rewrite clip_kept. apply visible_escaped. Qed.

#[local] Hint Resolve visible_escaped visible_clip : visible.

Lemma entry_line_visible e : entry_ok e -> visible (entry_line e).
Proof.
  intros Hok. destruct (mode_plain e Hok) as [Hm _]. unfold entry_line, entry_members. line_visible.
Qed.

Lemma end_line_visible n t : visible (end_line n t).
Proof. unfold end_line, end_members. line_visible. Qed.
Lemma error_line_visible m : visible (error_line m).
Proof. unfold error_line. line_visible. Qed.
Lemma pong_line_visible : visible pong_line.
Proof. unfold pong_line. line_visible. Qed.
Lemma ok_line_visible : visible ok_line.
Proof. unfold ok_line. line_visible. Qed.
Lemma freed_line_visible n : visible (freed_line n).
Proof. unfold freed_line. line_visible. Qed.
Lemma stats_line_visible n t : visible (stats_line n t).
Proof. unfold stats_line. line_visible. Qed.
Lemma stream_end_line_visible : visible stream_end_line.
Proof. unfold stream_end_line. line_visible. Qed.

(** ** Reading a reply *)

Abbreviation object := (list (bytes * jval)).

(** A client splits what it receives into lines and parses each. *)
Definition client_reads (text : bytes) : option (list object) :=
  mapM json_object (complete_lines text).

Definition lines_text (lines : list bytes) : bytes := lines ≫= fun l => l ++ [NL].

Lemma complete_lines_text lines : Forall visible lines ->
  complete_lines (lines_text lines) = lines.
Proof.
  unfold lines_text. induction 1 as [|l lines Hl _ IH]; [done|].
  rewrite bind_cons, complete_lines_more, IH; [done|by apply visible_no_newline].
Qed.

Lemma client_reads_lines lines objs : Forall visible lines ->
  Forall2 (fun l o => json_object l = Some o) lines objs ->
  client_reads (lines_text lines) = Some objs.
Proof.
  intros Hv H. unfold client_reads. rewrite complete_lines_text by done.
  by apply mapM_Some.
Qed.

Lemma client_reads_line l o : visible l -> json_object l = Some o ->
  client_reads (l ++ [NL]) = Some [o].
Proof.
  intros Hv H. rewrite <- (client_reads_lines [l] [o]); [|by repeat constructor..].
  unfold lines_text. csimpl. by rewrite app_nil_r.
Qed.

(** *** The objects *)

Definition end_object (es : list hsed_entry_t) : object :=
  [(lit "type", JStr (lit "end")); (lit "count", JNum (Z.of_nat (length es)));
   (lit "total_bytes", JNum (sum_sizes es))].
Definition error_object (msg : bytes) : object :=
  [(lit "type", JStr (lit "error")); (lit "message", JStr msg)].

Lemma scan_reply_reads es : Forall entry_ok es ->
  client_reads (scan_reply es) = Some ((entry_object <$> es) ++ [end_object es]).
Proof.
  intros Hes.
  assert (scan_reply es = lines_text ((entry_line <$> es) ++ [end_line (length es) (sum_sizes es)]))
    as ->.
  { unfold scan_reply, lines_text, entry_lines. rewrite bind_app.
    change ([end_line (length es) (sum_sizes es)] ≫= (fun l => l ++ [NL]))
      with ((end_line (length es) (sum_sizes es) ++ [NL]) ++ []).
    rewrite app_nil_r. f_equal. symmetry. apply list_fmap_bind. }
  apply client_reads_lines.
  - apply Forall_app. split; [|constructor; [apply end_line_visible|constructor]].
    apply Forall_fmap. eapply Forall_impl; [done|]. apply entry_line_visible.
  - apply Forall2_app; [|constructor; [apply end_line_reads|constructor]].
    apply Forall2_fmap, Forall_Forall2_diag. eapply Forall_impl; [exact Hes|].
    apply entry_line_reads.
Qed.

Definition pong_object : object := [(lit "type", JStr (lit "pong"))].
Definition ok_object : object := [(lit "type", JStr (lit "result")); (lit "ok", JBool true)].
Definition freed_object (n : Z) : object := ok_object ++ [(lit "freed", JNum n)].
Definition stats_object (es : list hsed_entry_t) : object :=
  [(lit "type", JStr (lit "stats")); (lit "count", JNum (u64 (Z.of_nat (length es))));
   (lit "total_bytes", JNum (sum_sizes es))].

Lemma pong_line_reads : json_object pong_line = Some pong_object.
Proof. by vm_compute. Qed.
Lemma ok_line_reads : json_object ok_line = Some ok_object.
Proof. by vm_compute. Qed.
Lemma stream_end_line_reads :
  json_object stream_end_line = Some [(lit "type", JStr (lit "stream_end"))].
Proof. by vm_compute. Qed.

Lemma reads_true : reads_as (lit "true") (JBool true).
Proof. apply (reads_as_bool true). Qed.

Ltac object_reads := json_reads; auto using reads_true with json;
  apply reads_as_plain; by apply (bool_decide_unpack _); vm_compute.

Lemma freed_line_reads n : json_object (freed_line n) = Some (freed_object n).
Proof. unfold freed_line, freed_object, ok_object. cbn [app]. object_reads. Qed.

Lemma stats_line_reads es : json_object (stats_line (u64 (Z.of_nat (length es))) (sum_sizes es))
  = Some (stats_object es).
Proof.
  unfold stats_line, stats_object. json_reads; auto with json.
  - apply reads_as_plain. by apply (bool_decide_unpack _); vm_compute.
  - apply reads_as_unsigned. apply Z.mod_pos_bound. lia.
Qed.

(** A call that returned an error. *)
Definition failed_call (e : event) : bool :=
  match e with
  | Ev c r =>
      match c in call R return R -> bool with
      | CStat _ => fun r => match r with RErr _ => true | ROk _ => false end
      | COpen _ _ => fun r => match r with RErr _ => true | ROk _ => false end
      | CFtruncate _ _ => fun r => match r with RErr _ => true | ROk _ => false end
      | CKill _ _ => fun r => match r with RErr _ => true | ROk _ => false end
      | _ => fun _ => false
      end r
  end.

(** ** What each request tells the client

    [told r acts objs]: a client that asked [r], for which the daemon made
    the calls [acts], reads [objs]. *)
Inductive told : request -> list event -> list object -> Prop :=
  | told_pong : told RPing [] [pong_object]
  | told_quit : told RQuit [] []
  | told_entries min_size only_pid uid_filter P es :
      es ≡ₚ system_entries P min_size only_pid uid_filter -> StronglySorted size_desc es ->
      told (RScan min_size only_pid uid_filter) [Ev CProcfs P]
        ((entry_object <$> es) ++ [end_object es])
  | told_stats min_size uid_filter P :
      told (RStats min_size uid_filter) [Ev CProcfs P]
        [stats_object (system_entries P min_size 0 uid_filter)]
  | told_freed pid fd st raw :
      told (RTruncate pid fd)
        [Ev (CStat (proc_fd pid fd)) (ROk st); Ev (COpen (proc_fd pid fd) O_WRONLY) (ROk raw);
         Ev (CFtruncate raw 0) (ROk tt); Ev (CClose raw) tt]
        [freed_object (st_size st)]
  | told_signalled sig pid : told (RSignal sig pid) [Ev (CKill pid sig) (ROk tt)] [ok_object]
  | told_invalid message : told (RInvalid message) [] [error_object message]
  | told_failed r acts why : existsb failed_call acts = true \/ (exists P, Ev CProcfs P ∈ acts /\ scan_can_fail P) ->
      told r acts [error_object why].

Section answered.
Context {K : Kernel} {A : Arch} (c : conn_args_t).

Definition is_stream (r : request) : bool := match r with RStream _ _ => true | _ => false end.

Definition reads_told (r : request) (acts : list event) (text : bytes) : Prop :=
  exists objs, client_reads text = Some objs /\ told r acts objs /\ sent_to (sockfd c) acts = [].

Lemma line_told r acts l o : visible l -> json_object l = Some o -> told r acts [o] ->
  sent_to (sockfd c) acts = [] -> reads_told r acts (l ++ [NL]).
Proof. intros Hv Hr Ht Hs. exists [o]. split_and!; [by apply client_reads_line|done|done]. Qed.

Lemma error_told r acts why : sent_to (sockfd c) acts = [] ->
  existsb failed_call acts = true \/ (exists P, Ev CProcfs P ∈ acts /\ scan_can_fail P) ->
  reads_told r acts (error_line why ++ [NL]).
Proof.
  intros Hs Hf. eapply line_told; [apply error_line_visible|apply error_line_reads| |done].
  by apply told_failed.
Qed.

(** The text of an outcome reads as what the client is told. *)
Lemma outcome_reads r acts text : outcome c r acts text -> is_stream r = false ->
  reads_told r acts text.
Proof.
  intros Ho Hns. destruct Ho as [ | |m p u P es Hperm Hsort Hok|m p u P e Hf|m u P es|m u P e Hf
    |pid fd st raw|pid fd e|pid fd st e|pid fd st raw e|sig pid|sig pid e| | |msg]; try done.
  - eapply line_told; [apply pong_line_visible|apply pong_line_reads|constructor|done].
  - exists []. split; [done|]. by split; [constructor|].
  - exists ((entry_object <$> es) ++ [end_object es]).
    split; [exact (scan_reply_reads es Hok)|]. split; [by constructor|reflexivity].
  - apply error_told; [done|]. right. exists P. split; [apply list_elem_of_here|done].
  - eapply line_told; [apply stats_line_visible|apply stats_line_reads|constructor|done].
  - apply error_told; [done|]. right. exists P. split; [apply list_elem_of_here|done].
  - eapply line_told; [apply freed_line_visible|apply freed_line_reads|constructor|done].
  - unfold error_reply. apply error_told; [reflexivity|by left].
  - unfold error_reply. apply error_told; [reflexivity|by left].
  - unfold error_reply. apply error_told; [reflexivity|by left].
  - eapply line_told; [apply ok_line_visible|apply ok_line_reads|constructor|done].
  - unfold error_reply. apply error_told; [reflexivity|by left].
  - eapply line_told; [apply error_line_visible|apply error_line_reads|constructor|done].
Qed.

Lemma handled_reads r evs : handled c r evs -> is_stream r = false ->
  send_failed (sockfd c) evs = false ->
  exists acts rest objs, evs = acts ++ rest /\ told r acts objs /\
    client_reads (sent_to (sockfd c) evs) = Some objs.
Proof.
  intros (acts & text & rest & -> & Ho & _ & Hd) Hns Hf.
  destruct (outcome_reads r acts text Ho Hns) as (objs & Hr & Ht & Hs).
  rewrite send_failed_app in Hf. apply orb_false_iff in Hf as [_ Hf].
  exists acts, rest, objs. split_and!; [done|done|]. rewrite sent_to_app, Hs.
  destruct Hd as [-> |[_ Hf']]; [done|congruence].
Qed.
End answered.

(** ** Properties *)

(** C2: What a client reads: unless the socket fails, the bytes sent for a
    command (STREAM aside) split into lines that each parse as JSON, and the
    objects tell truly what was done: the entries of exactly the deleted
    files, largest first, then their number and total, for a SCAN; the size
    freed for a TRUNCATE whose four calls succeeded; and an error only if a
    call failed or the command was not understood.  A run that is cut short
    was answering so. *)
Theorem client_told {K : Kernel} {A : Arch} {Q : Qsort} {QL : QsortLaws Q} {L : SendLaws K}
    {SL : ScanLaws K} {EL : StrerrorLaws K} {STL : StatLaws K} {AL : ArchLaws A}
    {TL : TraceLaws K A} {TK : TaskLaws K}
    (fuel : nat) (c : conn_args_t) (cmd save : bytes) (h : hist) :
  in_s 32 (scan_threads c) ->
  let r := command cmd (words save) in
  wp (dispatch fuel c cmd save) h (handling c r)
    (fun go evs => go = negb (is_quit r) /\
       (is_stream r = false -> send_failed (sockfd c) evs = false ->
        exists acts rest objs, evs = acts ++ rest /\ told r acts objs /\
          client_reads (sent_to (sockfd c) evs) = Some objs)).
Proof.
  intros Ht r. rewrite dispatch_serve.
  eapply wp_mono;
    [apply (serve_run fuel c r h); [apply command_ok|apply command_message_ok|done]|].
  intros go evs [Hg Hh]. split; [done|]. intros Hns Hf. by apply handled_reads.
Qed.

Lemma client_told_witness :
  (let r := @dispatch (scripted []) x86_64 _ 100 script_conn (lit "SCAN") (lit "0") [] in
   fst r = Done true /\
   client_reads (sent_to 4 (snd r))
   = Some [[(lit "type", JStr (lit "end")); (lit "count", JNum 0); (lit "total_bytes", JNum 0)]]) /\
  wp (@dispatch (scripted []) x86_64 _ 100 script_conn (lit "SCAN") (lit "0")) []
    (@handling (scripted []) x86_64 script_conn (command (lit "SCAN") (words (lit "0"))))
    (fun go evs => go = negb (is_quit (command (lit "SCAN") (words (lit "0")))) /\
       (is_stream (command (lit "SCAN") (words (lit "0"))) = false -> send_failed 4 evs = false ->
        exists acts rest objs, evs = acts ++ rest /\
          told (command (lit "SCAN") (words (lit "0"))) acts objs /\
          client_reads (sent_to 4 evs) = Some objs)).
Proof.
  split; [split; vm_compute; reflexivity|].
  apply (@client_told (scripted []) x86_64 insertion_qsort insertion_qsort_laws _ _ _ _
    x86_64_laws _ _ 100 script_conn (lit "SCAN") (lit "0") []).
  unfold in_s. cbn. lia.
Defined.
