(* ===== verification/Main.v ===== *)
(** * hsed.c: the command line and the life of the daemon

    [main] reads the options, answers --scan-once and --stats-once on the
    standard output, or becomes the daemon and runs the server. *)

From stdpp Require Import sorting.
From S2P Require Import Prelude CLib Kernel Util Json EntryList Protocol ProcRead ProcScan.
From S2P Require Import Parallel Reclaim Tracer Server Listener.

Definition DEFAULT_MAX_CAPTURE : Z := 200.
Definition HSED_SCAN_THREADS_AUTO : Z := 0.
Definition SIGPIPE : Z := 13.
Definition SIGTERM : Z := 15.
Definition SIGINT : Z := 2.
Definition O_RDWR : Z := 2.
Definition STDERR_FILENO : Z := 2.

(** ** The command line *)

(** The local variables of [main] that the options set. *)
Record options := mk_options {
  foreground : bool;
  scan_once : bool;
  stats_once : bool;
  socket_path : option bytes;
  pidfile : bytes;
  opt_max_capture : Z;
  min_size : Z;
  uid_filter : Z;
  opt_scan_threads : Z }.

Definition default_options : options :=
  mk_options false false false None (lit "/run/hsed.pid") DEFAULT_MAX_CAPTURE 0 HSED_UID_ANY
    HSED_SCAN_THREADS_AUTO.

Definition set_foreground (o : options) : options :=
  mk_options true (scan_once o) (stats_once o) (socket_path o) (pidfile o) (opt_max_capture o)
    (min_size o) (uid_filter o) (opt_scan_threads o).
Definition set_scan_once (o : options) : options :=
  mk_options (foreground o) true (stats_once o) (socket_path o) (pidfile o) (opt_max_capture o)
    (min_size o) (uid_filter o) (opt_scan_threads o).
Definition set_stats_once (o : options) : options :=
  mk_options (foreground o) (scan_once o) true (socket_path o) (pidfile o) (opt_max_capture o)
    (min_size o) (uid_filter o) (opt_scan_threads o).
Definition set_socket_path (s : bytes) (o : options) : options :=
  mk_options (foreground o) (scan_once o) (stats_once o) (Some s) (pidfile o) (opt_max_capture o)
    (min_size o) (uid_filter o) (opt_scan_threads o).
Definition set_pidfile (s : bytes) (o : options) : options :=
  mk_options (foreground o) (scan_once o) (stats_once o) (socket_path o) s (opt_max_capture o)
    (min_size o) (uid_filter o) (opt_scan_threads o).
Definition set_max_capture (n : Z) (o : options) : options :=
  mk_options (foreground o) (scan_once o) (stats_once o) (socket_path o) (pidfile o) n
    (min_size o) (uid_filter o) (opt_scan_threads o).
Definition set_min_size (n : Z) (o : options) : options :=
  mk_options (foreground o) (scan_once o) (stats_once o) (socket_path o) (pidfile o)
    (opt_max_capture o) n (uid_filter o) (opt_scan_threads o).
Definition set_uid_filter (n : Z) (o : options) : options :=
  mk_options (foreground o) (scan_once o) (stats_once o) (socket_path o) (pidfile o)
    (opt_max_capture o) (min_size o) n (opt_scan_threads o).
Definition set_scan_threads (n : Z) (o : options) : options :=
  mk_options (foreground o) (scan_once o) (stats_once o) (socket_path o) (pidfile o)
    (opt_max_capture o) (min_size o) (uid_filter o) n.

(** How the loop over the arguments ends. *)
Inductive parsed := PRun (o : options) | PHelp | PUnknown (arg : bytes).

(** The loop, at the arguments [argv[i]...]; an option that takes a value is
    not one when it is the last argument. *)
Fixpoint parse_args (args : list bytes) (o : options) : parsed :=
  match args with
  | [] => PRun o
  | a :: rest =>
      let other := if streq a (lit "--help") || streq a (lit "-h") then PHelp else PUnknown a in
      if streq a (lit "--foreground") then parse_args rest (set_foreground o)
      else if streq a (lit "--scan-once") then parse_args rest (set_scan_once o)
      else if streq a (lit "--stats-once") then parse_args rest (set_stats_once o)
      else
        match rest with
        | [] => other
        | v :: rest =>
            if streq a (lit "--socket") then parse_args rest (set_socket_path v o)
            else if streq a (lit "--pidfile") then parse_args rest (set_pidfile v o)
            else if streq a (lit "--max-capture") then
              parse_args rest (set_max_capture (u64 (strtoul 10 v)) o)
            else if streq a (lit "--min-size") then parse_args rest (set_min_size (strtoll 10 v) o)
            else if streq a (lit "--uid") then
              parse_args rest (set_uid_filter (u32 (strtoul 10 v)) o)
            else if streq a (lit "--scan-threads") then
              parse_args rest (set_scan_threads (atoi v) o)
            else other
        end
  end.

Section main.
Context {K : Kernel} {A : Arch} {Q : Qsort} (fuel : nat).

Definition default_socket_path : prog bytes :=
  euid ← syscall CGeteuid;
  if decide (euid = 0)%Z then mret (lit "/run/hsed.sock")
  else
    euid ← syscall CGeteuid;
    pure (sformat 256 (lit "/tmp/hsed-%u.sock") [AUInt euid]).

Definition usage_format : bytes :=
  lit "Usage: %s [--foreground] [--scan-once] [--stats-once] [--socket PATH] "
  ++ lit "[--pidfile PATH] [--max-capture N] [--min-size N] [--uid N] "
  ++ lit "[--scan-threads N]" ++ [NL].

(** [fprintf(stderr, ...)] and [printf(...)]. *)
Definition fprintf_stderr (fmt : bytes) (args : list farg) : prog unit :=
  text ← pure (format fmt args); syscall (CStderr text).
Definition printf (fmt : bytes) (args : list farg) : prog unit :=
  text ← pure (format fmt args); syscall (CStdout text).

Definition print_usage (prog_name : bytes) : prog unit := fprintf_stderr usage_format [AStr prog_name].

(** ** --scan-once and --stats-once *)

(** The loop over the entries, from the [i]-th of [n] more. *)
Fixpoint print_entries (list : hsed_list_t) (n i : nat) (linebuf : buf) (total : Z) : prog Z :=
  match n with
  | O => mret total
  | S n =>
      e ← pure (item_at list i);
      linebuf ← pure (hsed_format_entry e linebuf LINEBUF);
      line ← pure (cstr linebuf);
      _ ← printf (lit "%s" ++ [NL]) [AStr line];
      total ← pure (add_i64 total (e_size e));
      print_entries list n (S i) linebuf total
  end.

Definition run_scan_once (min_size uid_filter scan_threads : Z) : prog unit :=
  P ← syscall CProcfs;
  '(rc, list) ← pure (hsed_scan P hsed_list_init min_size 0 uid_filter scan_threads);
  if decide (rc <> 0)%Z then
    errno ← syscall CErrno;
    _ ← fprintf_stderr (lit "scan failed: %s" ++ [NL]) [AStr (strerror errno)];
    exit 1
  else
    total ← print_entries list (count list) 0 (alloca LINEBUF) 0;
    printf (jlit "{'type':'end','count':%zu,'total_bytes':%lld}" ++ [NL])
      [ASize (Z.of_nat (count list)); ALLong total].

Definition run_stats_once (min_size uid_filter scan_threads : Z) : prog unit :=
  P ← syscall CProcfs;
  '(rc, stats) ← pure (hsed_scan_stats P (mk_stats 0 0) min_size uid_filter scan_threads);
  if decide (rc <> 0)%Z then
    errno ← syscall CErrno;
    _ ← fprintf_stderr (lit "stats scan failed: %s" ++ [NL]) [AStr (strerror errno)];
    exit 1
  else
    printf (jlit "{'type':'stats','count':%zu,'total_bytes':%lld}" ++ [NL])
      [ASize (s_count stats); ALLong (s_total stats)].

(** ** The daemon *)

Definition perror (s : bytes) (errno : Z) : prog unit :=
  fprintf_stderr (lit "%s: %s" ++ [NL]) [AStr s; AStr (strerror errno)].

(** [fork()], whose parent exits. *)
Definition fork_or_exit : prog unit :=
  pid ← syscall CFork;
  match pid with
  | RErr errno => _ ← perror (lit "fork") errno; exit 1
  | ROk pid => if decide (0 < pid)%Z then exit 0 else mret tt
  end.

Definition daemonize : prog unit :=
  _ ← fork_or_exit;
  s ← syscall CSetsid;
  match s with
  | RErr errno => _ ← perror (lit "setsid") errno; exit 1
  | ROk _ =>
      _ ← fork_or_exit;
      _ ← syscall (CUmask 0);
      _ ← syscall (CChdir (lit "/"));
      d ← syscall (COpen (lit "/dev/null") O_RDWR);
      match d with
      | RErr _ => mret tt
      | ROk devnull =>
          _ ← syscall (CDup2 devnull 0);
          _ ← syscall (CDup2 devnull 1);
          _ ← syscall (CDup2 devnull 2);
          if decide (STDERR_FILENO < devnull)%Z then syscall (CClose devnull) else mret tt
      end
  end.

Definition write_pidfile (g_use_syslog : bool) (path : bytes) : prog unit :=
  f ← syscall (CFopen path (lit "w"));
  match f with
  | RErr errno =>
      msg ← pure (format (lit "could not write pidfile %s: %s") [AStr path; AStr (strerror errno)]);
      hsed_log_err g_use_syslog msg
  | ROk f =>
      pid ← syscall CGetpid;
      text ← pure (format (lit "%d" ++ [NL]) [AInt pid]);
      _ ← syscall (CFputs f text);
      syscall (CFclose f)
  end.

Definition no_root_warning : bytes :=
  lit "[!] Running without root: only your own processes are visible, "
  ++ lit "and truncate/signal/stream actions will fail with EPERM on "
  ++ lit "anything you don't own. Run with sudo for full coverage." ++ [NL].

(** The end of [main]: the server, until it is told to stop. *)
Definition run_server (o : options) (socket_path : bytes) (g_use_syslog : bool) : prog Z :=
  pid ← syscall CGetpid;
  msg ← pure (format
    (lit "hsed starting (pid %d, socket %s, max_capture %zu, scan_threads %d)")
    [AInt pid; AStr socket_path; ASize (opt_max_capture o); AInt (opt_scan_threads o)]);
  _ ← hsed_log g_use_syslog msg;
  rc ← hsed_server_run fuel g_use_syslog socket_path (opt_max_capture o) (opt_scan_threads o);
  _ ← (if negb (foreground o) then syscall (CUnlink (pidfile o)) else mret tt);
  mret (if decide (rc = 0)%Z then 0%Z else 1%Z).

(** The rest of [main] once the options are known to ask for the daemon. *)
Definition run_daemon (o : options) (socket_path : bytes) : prog Z :=
  euid ← syscall CGeteuid;
  _ ← (if decide (euid <> 0)%Z then fprintf_stderr no_root_warning [] else mret tt);
  _ ← syscall (CSignal SIGPIPE true);
  _ ← syscall (CSignal SIGTERM false);
  _ ← syscall (CSignal SIGINT false);
  g_use_syslog ←
    (if negb (foreground o) then
       _ ← daemonize;
       g_use_syslog ← hsed_log_init true;
       _ ← write_pidfile g_use_syslog (pidfile o);
       mret g_use_syslog
     else hsed_log_init false);
  run_server o socket_path g_use_syslog.

(** [main(argc, argv)] for [argv0 :: args]; the result is the exit status. *)
Definition main (argv0 : bytes) (args : list bytes) : prog Z :=
  match parse_args args default_options with
  | PHelp => _ ← print_usage argv0; mret 0%Z
  | PUnknown a =>
      _ ← fprintf_stderr (lit "unknown argument: %s" ++ [NL]) [AStr a];
      _ ← print_usage argv0;
      mret 2%Z
  | PRun o =>
      path ← (match socket_path o with Some p => mret p | None => default_socket_path end);
      if scan_once o then
        _ ← run_scan_once (min_size o) (uid_filter o) (opt_scan_threads o); mret 0%Z
      else if stats_once o then
        _ ← run_stats_once (min_size o) (uid_filter o) (opt_scan_threads o); mret 0%Z
      else run_daemon o path
  end.
End main.
