(* ===== verification/MainProps.v ===== *)
(** * hsed.c, properties

    The options are read by their grammar, and back as they are written; --scan-once prints what a
    SCAN sends; and the daemon's life: what happens before the server runs,
    and what is left when it ends. *)

From stdpp Require Import sorting sets.
From S2P Require Import Prelude CLib Kernel Util Json EntryList Protocol ProcRead ProcScan.
From S2P Require Import Parallel Reclaim Tids Tracer Session TraceProps Stream Server Listener.
From S2P Require Import ServerProps Requests Replies Permitted Script Connection ClientView Main.

(** ** The options *)

Definition flag (b : bool) (name : string) : list bytes := if b then [lit name] else [].

(** A command line that sets every option. *)
Definition options_args (o : options) : list bytes :=
  flag (foreground o) "--foreground" ++ flag (scan_once o) "--scan-once" ++
  flag (stats_once o) "--stats-once" ++
  match socket_path o with Some p => [lit "--socket"; p] | None => [] end ++
  [ lit "--pidfile"; pidfile o; lit "--max-capture"; print_u 10 (opt_max_capture o);
    lit "--min-size"; print_d (min_size o); lit "--uid"; print_u 10 (uid_filter o);
    lit "--scan-threads"; print_d (opt_scan_threads o) ].

Record options_ok (o : options) : Prop := {
  ok_max_capture : in_u 64 (opt_max_capture o);
  ok_min_size : in_s 64 (min_size o);
  ok_uid_filter : in_u 32 (uid_filter o);
  ok_scan_threads : in_s 32 (opt_scan_threads o) }.

Lemma strtoul_print z : in_u 64 z -> strtoul 10 (print_u 10 z) = z.
Proof.
  intros Hz. unfold strtoul. unfold in_u in Hz.
  rewrite <- (app_nil_r (print_u 10 z)), scan_number_print_u by (done || lia).
  by rewrite (proj2 (Z.leb_gt _ _)) by lia.
Qed.

(** What every setter preserves, the parser preserves; [V] holds of every argument. *)
Record preserved (V : bytes -> Prop) (P : options -> Prop) : Prop := {
  keep_foreground o : P o -> P (set_foreground o);
  keep_scan_once o : P o -> P (set_scan_once o);
  keep_stats_once o : P o -> P (set_stats_once o);
  keep_socket_path v o : V v -> P o -> P (set_socket_path v o);
  keep_pidfile v o : V v -> P o -> P (set_pidfile v o);
  keep_max_capture n o : in_u 64 n -> P o -> P (set_max_capture n o);
  keep_min_size n o : in_s 64 n -> P o -> P (set_min_size n o);
  keep_uid_filter n o : in_u 32 n -> P o -> P (set_uid_filter n o);
  keep_scan_threads n o : in_s 32 n -> P o -> P (set_scan_threads n o) }.

Definition parsed_with (P : options -> Prop) (r : parsed) : Prop :=
  match r with PRun o => P o | _ => True end.

Lemma parse_args_preserves V P args : preserved V P -> forall o, Forall V args -> P o ->
  parsed_with P (parse_args args o).
Proof.
  intros HP. assert (forall z, in_u 64 (u64 z)) as Hu64 by (intros; apply Z.mod_pos_bound; lia).
  induction args as [args IH] using (induction_ltof1 _ (@length bytes)). unfold ltof in IH.
  intros o Hv Ho. destruct args as [|a rest]; [done|].
  assert (forall rest' o', length rest' < length (a :: rest) -> Forall V rest' -> P o' ->
    parsed_with P (parse_args rest' o')) as Hgo by (intros; by apply IH).
  assert (forall b : bool, parsed_with P (if b then PHelp else PUnknown a)) as Hother by (by intros []).
  apply Forall_cons_1 in Hv as [_ Hv]. destruct HP. cbn [parse_args].
  destruct (streq a (lit "--foreground")); [apply Hgo; [cbn; lia|done|by auto]|].
  destruct (streq a (lit "--scan-once")); [apply Hgo; [cbn; lia|done|by auto]|].
  destruct (streq a (lit "--stats-once")); [apply Hgo; [cbn; lia|done|by auto]|].
  destruct rest as [|v rest]; [apply Hother|]. apply Forall_cons_1 in Hv as [Hv1 Hv].
  repeat match goal with
  | |- parsed_with P (if streq a ?n then parse_args _ _ else _) =>
      destruct (streq a n); [apply Hgo; [cbn; lia|done|]|]
  end; auto using strtol_range, u32_range.
  apply keep_scan_threads0; [by apply wrap_s_range|done].
Qed.

(** The options are C values, and the paths C strings. *)
Definition paths_ok (o : options) : Prop :=
  no_nul (pidfile o) /\ match socket_path o with Some p => no_nul p | None => True end.

Lemma options_ok_preserved : preserved (fun _ => True) options_ok.
Proof. split; intros; match goal with H : options_ok _ |- _ => destruct H end; by split. Qed.

Lemma paths_ok_preserved : preserved no_nul paths_ok.
Proof. split; intros; match goal with H : paths_ok _ |- _ => destruct H end; by split. Qed.

Lemma default_options_ok : options_ok default_options.
Proof. split; cbn; unfold in_s, in_u, DEFAULT_MAX_CAPTURE, HSED_UID_ANY, HSED_SCAN_THREADS_AUTO; lia. Qed.

(** The command line as a grammar: the words of each option, and the one value
    it changes. *)
Inductive option_words : list bytes -> options -> options -> Prop :=
  | words_foreground fg so st sock pid cap ms uid th :
      option_words [lit "--foreground"] (mk_options fg so st sock pid cap ms uid th)
        (mk_options true so st sock pid cap ms uid th)
  | words_scan_once fg so st sock pid cap ms uid th :
      option_words [lit "--scan-once"] (mk_options fg so st sock pid cap ms uid th)
        (mk_options fg true st sock pid cap ms uid th)
  | words_stats_once fg so st sock pid cap ms uid th :
      option_words [lit "--stats-once"] (mk_options fg so st sock pid cap ms uid th)
        (mk_options fg so true sock pid cap ms uid th)
  | words_socket v fg so st sock pid cap ms uid th :
      option_words [lit "--socket"; v] (mk_options fg so st sock pid cap ms uid th)
        (mk_options fg so st (Some v) pid cap ms uid th)
  | words_pidfile v fg so st sock pid cap ms uid th :
      option_words [lit "--pidfile"; v] (mk_options fg so st sock pid cap ms uid th)
        (mk_options fg so st sock v cap ms uid th)
  | words_max_capture v fg so st sock pid cap ms uid th :
      option_words [lit "--max-capture"; v] (mk_options fg so st sock pid cap ms uid th)
        (mk_options fg so st sock pid (u64 (strtoul 10 v)) ms uid th)
  | words_min_size v fg so st sock pid cap ms uid th :
      option_words [lit "--min-size"; v] (mk_options fg so st sock pid cap ms uid th)
        (mk_options fg so st sock pid cap (strtoll 10 v) uid th)
  | words_uid v fg so st sock pid cap ms uid th :
      option_words [lit "--uid"; v] (mk_options fg so st sock pid cap ms uid th)
        (mk_options fg so st sock pid cap ms (u32 (strtoul 10 v)) th)
  | words_scan_threads v fg so st sock pid cap ms uid th :
      option_words [lit "--scan-threads"; v] (mk_options fg so st sock pid cap ms uid th)
        (mk_options fg so st sock pid cap ms uid (atoi v)).

Definition flag_names : list bytes := [lit "--foreground"; lit "--scan-once"; lit "--stats-once"].
Definition value_names : list bytes :=
  [ lit "--socket"; lit "--pidfile"; lit "--max-capture"; lit "--min-size"; lit "--uid";
    lit "--scan-threads" ].
Definition help_names : list bytes := [lit "--help"; lit "-h"].

(** Options are taken from the left until one asks for help, or is unknown;
    one that lacks its value is unknown. *)
Inductive command_line : list bytes -> options -> parsed -> Prop :=
  | line_end o : command_line [] o (PRun o)
  | line_option ws rest o o' r : option_words ws o o' -> command_line rest o' r ->
      command_line (ws ++ rest) o r
  | line_help a rest o : a ∈ help_names -> command_line (a :: rest) o PHelp
  | line_unknown a rest o : a ∉ flag_names -> a ∉ help_names -> (a ∈ value_names -> rest = []) ->
      command_line (a :: rest) o (PUnknown a).

Lemma streq_eq a b : reflect (a = b) (streq a b).
Proof. apply bool_decide_reflect. Qed.

Lemma parse_args_parses args : forall o, command_line args o (parse_args args o).
Proof.
  induction args as [args IH] using (induction_ltof1 _ (@length bytes)). unfold ltof in IH.
  intros o. destruct args as [|a rest]; [constructor|]. cbn [parse_args].
  assert (forall ws rest' o', a :: rest = ws ++ rest' -> option_words ws o o' ->
    command_line (a :: rest) o (parse_args rest' o')) as Hopt.
  { intros ws rest' o' E Hw. rewrite E. eapply line_option; [exact Hw|]. apply IH.
    rewrite E, length_app. destruct Hw; cbn; lia. }
  destruct (streq_eq a (lit "--foreground")) as [->|Hf]; [apply (Hopt [lit "--foreground"]); [done|by destruct o; constructor]|].
  destruct (streq_eq a (lit "--scan-once")) as [->|Hs]; [apply (Hopt [lit "--scan-once"]); [done|by destruct o; constructor]|].
  destruct (streq_eq a (lit "--stats-once")) as [->|Ht]; [apply (Hopt [lit "--stats-once"]); [done|by destruct o; constructor]|].
  assert (a ∉ flag_names) as Hflag by (unfold flag_names; set_solver).
  assert ((a ∈ value_names -> rest = []) -> command_line (a :: rest) o
    (if streq a (lit "--help") || streq a (lit "-h") then PHelp else PUnknown a)) as Hother.
  { intros Hv. destruct (streq_eq a (lit "--help")) as [->|H1];
      [apply line_help; unfold help_names; set_solver|].
    destruct (streq_eq a (lit "-h")) as [->|H2];
      [apply line_help; unfold help_names; set_solver|].
    apply line_unknown; [done|unfold help_names; set_solver|done]. }
  destruct rest as [|v rest]; [by apply Hother|].
  repeat match goal with
  | |- command_line _ _ (if streq a ?n then parse_args _ _ else _) =>
      destruct (streq_eq a n) as [->|?]; [apply (Hopt [n; v]); [done|by destruct o; constructor]|]
  end.
  apply Hother. unfold value_names. set_solver.
Qed.

Lemma streq_other a b : a <> b -> streq a b = false.
Proof. intros H. by destruct (streq_eq a b). Qed.

Lemma parses_parse_args args o r : command_line args o r -> parse_args args o = r.
Proof.
  induction 1 as [o|ws rest o o' r Hw _ <-|a rest o Ha|a rest o Hf Hh Hv].
  - done.
  - by destruct Hw.
  - unfold help_names in Ha.
    assert (a = lit "--help" \/ a = lit "-h") as [->| ->] by set_solver; by destruct rest.
  - unfold flag_names, help_names in *. cbn [parse_args].
    rewrite !(streq_other a) by set_solver. cbn [orb]. destruct rest as [|v rest]; [done|].
    assert (a ∉ value_names) as Hn by (intros Hin; by apply Hv in Hin).
    unfold value_names in Hn. by rewrite !(streq_other a) by set_solver.
Qed.

(** C34: The loop over the arguments reads the command line by its grammar, and
    in no other way: the options are taken in order, each sets what its name
    says, the last of two prevailing, a value is taken as it is, even when
    it looks like an option, --help ends the reading, and a word that is no
    option, or an option without its value, is unknown. *)
Theorem parse_args_grammar (args : list bytes) (o : options) (r : parsed) :
  parse_args args o = r <-> command_line args o r.
Proof.
  split; [|apply parses_parse_args]. intros <-. apply parse_args_parses.
Qed.

(** C29: A command line that writes every option out is read as those options,
    whatever strings the paths are and over the whole range of each number. *)
Theorem parse_args_roundtrip (o : options) : options_ok o ->
  parse_args (options_args o) default_options = PRun o.
Proof.
  intros [H1 H2 H3 H4]. unfold options_args.
  destruct o as [fg so st sock pid cap ms uid th]. cbn in *.
  assert (u64 (strtoul 10 (print_u 10 cap)) = cap) as Ecap.
  { rewrite strtoul_print by done. by apply wrap_u_small. }
  assert (strtoll 10 (print_d ms) = ms) as Ems by (by apply atoll_print).
  assert (u32 (strtoul 10 (print_u 10 uid)) = uid) as Euid by (by apply uid_of_print).
  assert (atoi (print_d th) = th) as Eth by (by apply atoi_print).
  assert (forall fg so st sock, parse_args
    [ lit "--pidfile"; pid; lit "--max-capture"; print_u 10 cap;
      lit "--min-size"; print_d ms; lit "--uid"; print_u 10 uid; lit "--scan-threads"; print_d th ]
    (mk_options fg so st sock (lit "/run/hsed.pid") DEFAULT_MAX_CAPTURE 0 HSED_UID_ANY
       HSED_SCAN_THREADS_AUTO) = PRun (mk_options fg so st sock pid cap ms uid th)) as Hvals.
  { intros fg' so' st' sock'.
    transitivity (PRun (mk_options fg' so' st' sock' pid (u64 (strtoul 10 (print_u 10 cap)))
      (strtoll 10 (print_d ms)) (u32 (strtoul 10 (print_u 10 uid))) (atoi (print_d th))));
      [reflexivity|by rewrite Ecap, Ems, Euid, Eth]. }
  destruct fg, so, st, sock as [p|]; apply Hvals.
Qed.

Lemma parse_args_roundtrip_witness :
  parse_args [lit "--foreground"; lit "--socket"; lit "--uid"; lit "--pidfile"; lit "p";
    lit "--max-capture"; lit "65536"; lit "--min-size"; lit "-1"; lit "--uid"; lit "1000";
    lit "--scan-threads"; lit "8"] default_options
  = PRun (mk_options true false false (Some (lit "--uid")) (lit "p") 65536 (-1) 1000 8).
Proof.
  apply (parse_args_roundtrip
    (mk_options true false false (Some (lit "--uid")) (lit "p") 65536 (-1) 1000 8)).
  split; cbn; unfold in_s, in_u; lia.
Defined.

(** ** --scan-once *)

Definition stdout_by (e : event) : bytes :=
  match e with Ev c _ => match c with CStdout text => text | _ => [] end end.
Definition stdout (evs : list event) : bytes := evs ≫= stdout_by.

Definition is_stdout (e : event) : bool :=
  match e with Ev c _ => match c with CStdout _ => true | _ => false end end.

(** Events that print [text] and do nothing else. *)
Definition prints (text : bytes) (evs : list event) : Prop :=
  Forall (fun e => is_stdout e = true) evs /\ stdout evs = text.

Lemma prints_app t t' evs evs' : prints t evs -> prints t' evs' -> prints (t ++ t') (evs ++ evs').
Proof.
  intros [Hf Hs] [Hf' Hs']. split; [by apply Forall_app|].
  unfold stdout in *. by rewrite bind_app, Hs, Hs'.
Qed.

Section printing.
Context {K : Kernel}.

Lemma printf_run fmt args text h I : format fmt args = Some text ->
  wp (printf fmt args) h I (fun _ evs => prints text evs).
Proof.
  intros Hf. unfold printf. eapply wp_pure_bind; [exact Hf|]. apply wp_call.
  split; [by repeat constructor|]. unfold stdout. csimpl. apply app_nil_r.
Qed.

Lemma format_line line : format (lit "%s" ++ [NL]) [AStr line] = Some (line ++ [NL]).
Proof. format_now. Qed.

Lemma format_end_text count total :
  format (jlit "{'type':'end','count':%zu,'total_bytes':%lld}" ++ [NL])
    [ASize (Z.of_nat count); ALLong total] = Some (end_line count total ++ [NL]).
Proof. unfold end_line, end_members. format_as. Qed.

Lemma format_stats_text count total :
  format (jlit "{'type':'stats','count':%zu,'total_bytes':%lld}" ++ [NL])
    [ASize count; ALLong total] = Some (stats_line count total ++ [NL]).
Proof. unfold stats_line. format_as. Qed.

Lemma print_entries_run l es : forall n i linebuf h I,
  holds l es -> i + n = count l -> length linebuf = LINEBUF ->
  Forall (fun e => entry_ok e /\ length (e_comm e) <= 15) es ->
  Forall (fun e => 0 <= e_size e)%Z es -> (sum_sizes es < 2 ^ 63)%Z ->
  wp (print_entries l n i linebuf (sum_sizes (take i es))) h I
    (fun total evs => total = sum_sizes es /\ prints (entry_lines (drop i es)) evs).
Proof.
  induction n as [|n IH]; intros i linebuf h I Hl Hi Hb Hok Hpos Hsum; cbn [print_entries];
    pose proof (holds_count _ _ Hl) as Hc.
  - apply wp_ret. rewrite take_ge, drop_ge by lia. split; [done|]. by split.
  - destruct (lookup_lt_is_Some_2 es i) as [e He]; [lia|].
    eapply wp_pure_bind; [rewrite (holds_item_at l es) by (done || lia); exact He|].
    destruct (Forall_lookup_1 _ _ _ _ Hok He) as [Hoke Hcomm].
    destruct (entry_formatted linebuf e Hb Hoke Hcomm) as (b & Hf & Hlb & Hcb).
    eapply wp_pure_bind; [exact Hf|]. eapply wp_pure_bind; [exact Hcb|].
    eapply wp_bind; [apply printf_run, format_line|]. cbn beta. intros [] evs Hp.
    eapply wp_pure_bind; [by apply (sum_sizes_step es i e)|]. eapply wp_mono; [apply IH; try done; lia|]. cbn beta.
    intros total evs' [-> Hp']. split; [done|]. rewrite (drop_S _ _ _ He).
    change (entry_lines (e :: drop (S i) es)) with ((entry_line e ++ [NL]) ++ entry_lines (drop (S i) es)).
    by apply prints_app.
Qed.
End printing.

(** What --scan-once, or --stats-once, does: it prints the text on the
    standard output and goes on, or exits with a message and the status 1. *)
Inductive scanned_once (min_size uid_filter : Z) : list event -> bytes -> Prop :=
  | once_found P evs es :
      es ≡ₚ system_entries P min_size 0 uid_filter -> StronglySorted size_desc es ->
      Forall entry_ok es -> prints (scan_reply es) evs ->
      scanned_once min_size uid_filter (Ev CProcfs P :: evs) (scan_reply es).

Inductive counted_once (min_size uid_filter : Z) : list event -> bytes -> Prop :=
  | once_counted P evs :
      let es := system_entries P min_size 0 uid_filter in
      prints (stats_line (u64 (Z.of_nat (length es))) (sum_sizes es) ++ [NL]) evs ->
      counted_once min_size uid_filter (Ev CProcfs P :: evs)
        (stats_line (u64 (Z.of_nat (length es))) (sum_sizes es) ++ [NL]).

Definition scan_gave_up {K : Kernel} (what : bytes) (evs : list event) : Prop :=
  exists P e, scan_can_fail P /\
    evs = [Ev CProcfs P; Ev CErrno e; Ev (CStderr (what ++ strerror e ++ [NL])) tt;
           Ev (CExit 1) tt].

Section once.
Context {K : Kernel} {Q : Qsort} {QL : QsortLaws Q} {SL : ScanLaws K}.

(** The message of a failed scan, and the exit. *)
Lemma gave_up_run what fmt P h (Q' : unit -> list event -> Prop) : scan_can_fail P ->
  (forall e, format fmt [AStr (strerror e)] = Some (what ++ strerror e ++ [NL])) ->
  wp (errno ← syscall CErrno; _ ← fprintf_stderr fmt [AStr (strerror errno)]; exit 1) h
    (fun evs => scan_gave_up what (Ev CProcfs P :: evs)) Q'.
Proof.
  intros Hfail Hf. apply wp_call_bind. intros e _. unfold fprintf_stderr.
  apply (wp_bind _ _ _ _ (fun u evs => evs = [Ev (CStderr (what ++ strerror e ++ [NL])) tt])).
  { eapply wp_pure_bind; [apply Hf|]. apply wp_call. by destruct (answer _ _). }
  cbn beta. intros [] evs ->. apply wp_exit. by exists P, e.
Qed.

Lemma scan_once_run min_size uid_filter scan_threads h : in_s 32 scan_threads ->
  wp (run_scan_once min_size uid_filter scan_threads) h (scan_gave_up (lit "scan failed: "))
    (fun _ evs => exists text, scanned_once min_size uid_filter evs text).
Proof.
  intros Ht. unfold run_scan_once. apply wp_call_bind. intros P HP.
  pose proof (scan_procfs_ok h) as Hok. pose proof (scan_few_pids h) as Hfew.
  pose proof (scan_total h min_size 0 uid_filter) as Htot.
  pose proof (scan_comm h) as Hcomm. rewrite <- HP in *.
  assert (in_s 32 0) as H0 by (unfold in_s; lia).
  destruct (hsed_scan_run P hsed_list_init min_size 0 uid_filter scan_threads Hok Hfew H0 Ht)
    as (rc & l & Hscan & Ho).
  eapply wp_pure_bind; [exact Hscan|]. cbn beta iota.
  destruct Ho as [[-> (es & Hh & Hperm & Hsort)]|[-> Hfail]].
  - rewrite decide_False by lia.
    destruct (entries_well_formed P min_size 0 uid_filter es Hok H0 Hcomm Hperm) as [Hes Hpos].
    pose proof (holds_count _ _ Hh) as Hc. eapply wp_bind.
    { apply (print_entries_run l es (count l) 0 (alloca LINEBUF) _ _ Hh); try done.
      by rewrite Hperm. }
    cbn beta. intros total evs [-> Hp]. rewrite drop_0 in Hp. rewrite Hc.
    eapply wp_mono; [apply printf_run, format_end_text|]. cbn beta. intros [] evs' Hp'.
    exists (scan_reply es). constructor; [done|done| |by apply prints_app].
    eapply Forall_impl; [exact Hes|]. by intros e [? _].
  - rewrite decide_True by lia. apply gave_up_run; [done|]. intros e. format_now.
Qed.

Lemma stats_once_run min_size uid_filter scan_threads h : in_s 32 scan_threads ->
  wp (run_stats_once min_size uid_filter scan_threads) h (scan_gave_up (lit "stats scan failed: "))
    (fun _ evs => exists text, counted_once min_size uid_filter evs text).
Proof.
  intros Ht. unfold run_stats_once. apply wp_call_bind. intros P HP.
  pose proof (scan_procfs_ok h) as Hok. pose proof (scan_few_pids h) as Hfew.
  pose proof (scan_total h min_size 0 uid_filter) as Htot. rewrite <- HP in *.
  destruct (hsed_scan_stats_run P (mk_stats 0 0) min_size uid_filter scan_threads Hok Hfew Ht Htot)
    as (rc & st & Hscan & Ho).
  eapply wp_pure_bind; [exact Hscan|]. cbn beta iota.
  destruct Ho as [[-> ->]|[-> Hfail]].
  - rewrite decide_False by lia. cbn [s_count s_total].
    eapply wp_mono; [apply printf_run, format_stats_text|]. cbn beta. intros [] evs' Hp'.
    eexists. by constructor.
  - rewrite decide_True by lia. apply gave_up_run; [done|]. intros e. format_now.
Qed.
End once.

(** ** Properties of --scan-once *)

(** C27: --scan-once prints, byte for byte, what a SCAN of the same filter sends:
    one JSON object for each deleted file, largest first, and a last one with
    their number and total; or it exits because the scan could not be made. *)
Theorem scan_once_correct {K : Kernel} {Q : Qsort} {QL : QsortLaws Q} {SL : ScanLaws K}
    (min_size uid_filter scan_threads : Z) (h : hist) : in_s 32 scan_threads ->
  wp (run_scan_once min_size uid_filter scan_threads) h (scan_gave_up (lit "scan failed: "))
    (fun _ evs => exists es objs, scanned_once min_size uid_filter evs (scan_reply es) /\
       stdout evs = scan_reply es /\ client_reads (stdout evs) = Some objs /\
       told (RScan min_size 0 uid_filter) (take 1 evs) objs).
Proof.
  intros Ht. eapply wp_mono; [by apply scan_once_run|]. cbn beta.
  intros [] evs [text Hs]. inversion Hs as [P evs' es Hperm Hsort Hok [Hf Hp]]; subst.
  exists es, ((entry_object <$> es) ++ [end_object es]). split; [done|].
  assert (stdout (Ev CProcfs P :: evs') = scan_reply es) as E by exact Hp.
  split; [exact E|]. rewrite E. split; [exact (scan_reply_reads es Hok)|].
  cbn [take]. by constructor.
Qed.

Lemma scan_once_correct_witness :
  stdout (snd (@run_scan_once (scripted []) _ 0 HSED_UID_ANY 2 [])) = end_line 0 0 ++ [NL] /\
  wp (@run_scan_once (scripted []) _ 0 HSED_UID_ANY 2) []
    (@scan_gave_up (scripted []) (lit "scan failed: "))
    (fun _ evs => exists es objs, scanned_once 0 HSED_UID_ANY evs (scan_reply es) /\
       stdout evs = scan_reply es /\ client_reads (stdout evs) = Some objs /\
       told (RScan 0 0 HSED_UID_ANY) (take 1 evs) objs).
Proof.
  split; [vm_compute; reflexivity|].
  apply (@scan_once_correct (scripted []) insertion_qsort insertion_qsort_laws _ 0 HSED_UID_ANY 2 []).
  unfold in_s. lia.
Defined.

(** ** The life of the daemon *)

(** User ids are 32-bit. *)
Class EuidLaws (K : Kernel) : Prop := geteuid_range h : in_u 32 (answer CGeteuid h).

Definition user_socket (euid : Z) : bytes := lit "/tmp/hsed-" ++ print_u 10 euid ++ lit ".sock".

(** How the path of the socket is chosen, and the calls it takes. *)
Inductive socket_chosen : option bytes -> bytes -> list event -> Prop :=
  | chosen_option p : socket_chosen (Some p) p []
  | chosen_root : socket_chosen None (lit "/run/hsed.sock") [Ev CGeteuid 0%Z]
  | chosen_user e e' : e <> 0%Z ->
      socket_chosen None (user_socket e') [Ev CGeteuid e; Ev CGeteuid e'].

(** The standard descriptors are pointed at /dev/null, unless it cannot be opened. *)
Inductive silenced : list event -> Prop :=
  | silenced_not e : silenced [Ev (COpen (lit "/dev/null") O_RDWR) (RErr e)]
  | silenced_std n :
      silenced ([Ev (COpen (lit "/dev/null") O_RDWR) (ROk n); Ev (CDup2 n 0) tt; Ev (CDup2 n 1) tt;
                 Ev (CDup2 n 2) tt] ++ if decide (2 < n)%Z then [Ev (CClose n) tt] else []).

(** The surviving grandchild. *)
Inductive detached : list event -> Prop :=
  | detached_intro p p' r nul : (p <= 0)%Z -> (p' <= 0)%Z -> silenced nul ->
      detached ([Ev CFork (ROk p); Ev CSetsid (ROk tt); Ev CFork (ROk p'); Ev (CUmask 0) tt;
                 Ev (CChdir (lit "/")) r] ++ nul).

Inductive pid_written (path : bytes) : list event -> Prop :=
  | not_written e log : is_log log = true ->
      pid_written path [Ev (CFopen path (lit "w")) (RErr e); log]
  | written f pid :
      pid_written path [Ev (CFopen path (lit "w")) (ROk f); Ev CGetpid pid;
                        Ev (CFputs f (print_d pid ++ [NL])) tt; Ev (CFclose f) tt].

Section starting.
Context {K : Kernel}.

(** [perror], and then [exit(1)]. *)
Definition perror_exit (s : bytes) (e : Z) : list event :=
  [Ev (CStderr (s ++ lit ": " ++ strerror e ++ [NL])) tt; Ev (CExit 1) tt].

(** The process that leaves at a [fork]: the parent, with status 0, or, when
    there is no child, the process itself, with 1. *)
Inductive fork_left : list event -> Prop :=
  | parent_left p : (0 < p)%Z -> fork_left [Ev CFork (ROk p); Ev (CExit 0) tt]
  | no_child e : fork_left (Ev CFork (RErr e) :: perror_exit (lit "fork") e).

(** The processes that leave on the way: at the first [fork], at [setsid], or
    at the second [fork]. *)
Inductive leaving : list event -> Prop :=
  | leaving_first evs : fork_left evs -> leaving evs
  | leaving_setsid p e : (p <= 0)%Z ->
      leaving (Ev CFork (ROk p) :: Ev CSetsid (RErr e) :: perror_exit (lit "setsid") e)
  | leaving_second p evs : (p <= 0)%Z -> fork_left evs ->
      leaving (Ev CFork (ROk p) :: Ev CSetsid (ROk tt) :: evs).

Lemma perror_run s e h I :
  wp (perror s e) h I (fun _ evs => evs = [Ev (CStderr (s ++ lit ": " ++ strerror e ++ [NL])) tt]).
Proof.
  assert (format (lit "%s: %s" ++ [NL]) [AStr s; AStr (strerror e)]
    = Some (s ++ lit ": " ++ strerror e ++ [NL])) as Hf by format_now.
  unfold perror, fprintf_stderr. eapply wp_pure_bind; [exact Hf|]. apply wp_call.
  by destruct (answer _ _).
Qed.

Lemma perror_exit_run {B} s e h (I : list event -> Prop) (Q : B -> list event -> Prop) :
  I (perror_exit s e) -> wp (_ ← perror s e; exit 1) h I Q.
Proof.
  intros HI. eapply wp_bind; [apply perror_run|]. cbn beta. intros [] evs ->.
  apply wp_exit. apply HI.
Qed.

Lemma fork_run h :
  wp fork_or_exit h fork_left (fun _ evs => exists p, (p <= 0)%Z /\ evs = [Ev CFork (ROk p)]).
Proof.
  unfold fork_or_exit. apply wp_call_bind. intros [p|e] _.
  - destruct (decide (0 < p)%Z); [apply wp_exit; by constructor|]. apply wp_ret.
    exists p. split; [lia|done].
  - apply perror_exit_run. constructor.
Qed.

Lemma daemonize_run h : wp daemonize h leaving (fun _ evs => detached evs).
Proof.
  unfold daemonize. eapply wp_bind.
  { eapply wp_conseq; [apply fork_run| |intros u evs H; exact H]. by constructor. }
  cbn beta. intros [] evs (p & Hp & ->).
  apply wp_call_bind. intros [[]|e] _.
  2: { apply perror_exit_run. by constructor. }
  eapply wp_bind.
  { eapply wp_conseq; [apply fork_run| |intros u evs H; exact H].
    intros evs H. by apply leaving_second. }
  cbn beta. intros [] evs (p' & Hp' & ->).
  apply wp_call_bind. intros [] _. apply wp_call_bind. intros r _.
  assert (forall nul, silenced nul -> detached ([Ev CFork (ROk p)] ++ Ev CSetsid (ROk tt) ::
    [Ev CFork (ROk p')] ++ Ev (CUmask 0) tt :: Ev (CChdir (lit "/")) r :: nul)) as Hdone
    by (intros nul Hnul; by apply (detached_intro p p' r nul)).
  apply wp_call_bind. intros [n|e] _; [|apply wp_ret; apply Hdone; constructor].
  do 3 (apply wp_call_bind; intros [] _).
  pose proof (silenced_std n) as Hn. change STDERR_FILENO with 2%Z. destruct (decide (2 < n)%Z).
  - apply wp_call. destruct (answer _ _). by apply Hdone.
  - apply wp_ret. by apply Hdone.
Qed.

Lemma write_pidfile_run g path h I :
  wp (write_pidfile g path) h I (fun _ evs => pid_written path evs).
Proof.
  unfold write_pidfile. apply wp_call_bind. intros [f|e] _.
  - apply wp_call_bind. intros pid _.
    assert (format (lit "%d" ++ [NL]) [AInt pid] = Some (print_d pid ++ [NL])) as Hf by format_now.
    eapply wp_pure_bind; [exact Hf|]. apply wp_call_bind. intros [] _. apply wp_call.
    destruct (answer _ _). by constructor.
  - assert (format (lit "could not write pidfile %s: %s") [AStr path; AStr (strerror e)]
      = Some (lit "could not write pidfile " ++ path ++ lit ": " ++ strerror e)) as Hf by format_tail.
    eapply wp_pure_bind; [exact Hf|]. eapply wp_mono; [apply log_err_run|].
    cbn beta. intros [] evs (log & -> & Hlog). by constructor.
Qed.

Context {EL : EuidLaws K}.

Lemma default_socket_path_run h I :
  wp default_socket_path h I (fun p evs => socket_chosen None p evs /\ no_nul p).
Proof.
  unfold default_socket_path. apply wp_call_bind. intros e _. case_decide as He.
  { apply wp_ret. subst e. split; [constructor|by apply lit_no_nul]. }
  apply wp_call_bind. intros e' He'. pose proof (geteuid_range (h ++ [Ev CGeteuid e])) as Hr.
  rewrite <- He' in Hr. unfold in_u in Hr.
  assert (no_nul (user_socket e')) as Hn.
  { unfold user_socket. rewrite !Forall_app. split_and!; (by apply lit_no_nul) || apply print_u_no_nul. }
  eapply wp_pure; [|split; [by constructor|exact Hn]].
  apply sformat_fits; [format_now|exact Hn|].
  pose proof (print_u_length e' 10). unfold user_socket. rewrite !length_app, !length_lit. cbn [String.length]. lia.
Qed.
End starting.

Definition log_opened : event := Ev (COpenlog (lit "hsed") LOG_PID LOG_DAEMON) tt.

Definition handlers_set : list event :=
  [Ev (CSignal SIGPIPE true) tt; Ev (CSignal SIGTERM false) tt; Ev (CSignal SIGINT false) tt].

Definition warned (euid : Z) : list event :=
  if decide (euid <> 0%Z) then [Ev (CStderr no_root_warning) tt] else [].

(** Before the server: the signal handlers are set, then the process detaches
    and writes its pid, unless it stays in the foreground. *)
Inductive daemon_started (o : options) : list event -> Prop :=
  | started_foreground euid pid log : foreground o = true -> is_log log = true ->
      daemon_started o (Ev CGeteuid euid :: warned euid ++ handlers_set ++ [Ev CGetpid pid; log])
  | started_detached euid det file pid log : foreground o = false -> is_log log = true ->
      detached det -> pid_written (pidfile o) file ->
      daemon_started o (Ev CGeteuid euid :: warned euid ++ handlers_set ++ det ++ log_opened :: file ++
                        [Ev CGetpid pid; log]).

Definition pidfile_removed (o : options) : list event :=
  if foreground o then [] else [Ev (CUnlink (pidfile o)) tt].

(** The run that ends: the exit status tells how the server ended, and the
    pidfile is removed if it was written. *)
Definition daemon_ran (o : options) (path : bytes) (code : Z) (evs : list event) : Prop :=
  exists pre srv rc, daemon_started o pre /\
    server_ran path (opt_max_capture o) (opt_scan_threads o) rc srv /\
    evs = pre ++ srv ++ pidfile_removed o /\ code = if decide (rc = 0)%Z then 0%Z else 1%Z.

(** The run that does not: a process that exits while detaching, or the server. *)
Definition daemon_running {K : Kernel} (o : options) (path : bytes) (evs : list event) : Prop :=
  (foreground o = false /\ exists euid rest,
     evs = Ev CGeteuid euid :: warned euid ++ handlers_set ++ rest /\ leaving rest) \/
  (exists pre srv, daemon_started o pre /\ evs = pre ++ srv /\
     server_running path (opt_max_capture o) (opt_scan_threads o) srv).

Section daemon.
Context {K : Kernel} (fuel : nat).

(** From the log line on. *)
Lemma serve_and_leave o path g pre h : no_nul path ->
  (forall pid log, is_log log = true -> daemon_started o (pre ++ [Ev CGetpid pid; log])) ->
  wp (run_server fuel o path g) h
    (fun evs => daemon_running o path (pre ++ evs))
    (fun code evs => daemon_ran o path code (pre ++ evs)).
Proof.
  intros Hn Hstart. unfold run_server. apply wp_call_bind. intros pid _.
  eapply wp_pure_bind; [format_now|]. eapply wp_bind; [apply log_run|].
  cbn beta. intros [] evs (log & -> & Hlog).
  assert (forall srv, pre ++ Ev CGetpid pid :: [log] ++ srv = (pre ++ [Ev CGetpid pid; log]) ++ srv)
    as Hassoc by (intros; by rewrite <- app_assoc).
  eapply wp_bind.
  { eapply wp_conseq; [apply (server_run_with fuel g path (opt_max_capture o) (opt_scan_threads o)
      (fun fd => looping fd (opt_max_capture o) (opt_scan_threads o))
      (server_running path (opt_max_capture o) (opt_scan_threads o)) _ Hn)| |intros rc evs H; exact H].
    - intros fd h'. apply accept_loop_run.
    - intros fd ch l evs Hl Hevs. by exists fd, ch, l, evs.
    - intros srv Hsrv. right. eexists _, srv. split; [by apply (Hstart pid log)|]. by rewrite Hassoc. }
  cbn beta. intros rc srv Hsrv. apply (wp_bind _ _ _ _ (fun u evs => evs = pidfile_removed o)).
  - unfold pidfile_removed. destruct (foreground o); cbn [negb]; [by apply wp_ret|].
    apply wp_call. by destruct (answer _ _).
  - intros [] evs ->. apply wp_ret. exists (pre ++ [Ev CGetpid pid; log]), srv, rc.
    split_and!; [by apply Hstart|done| |done]. by rewrite app_nil_r, Hassoc.
Qed.

Lemma run_daemon_run o path h : no_nul path ->
  wp (run_daemon fuel o path) h (daemon_running o path) (daemon_ran o path).
Proof.
  intros Hn. unfold run_daemon. apply wp_call_bind. intros euid _.
  apply (wp_bind _ _ _ _ (fun u evs => evs = warned euid)).
  { unfold warned. destruct (decide (euid <> 0%Z)); [|by apply wp_ret].
    unfold fprintf_stderr. eapply wp_pure_bind; [reflexivity|]. apply wp_call. by destruct (answer _ _). }
  cbn beta. intros [] w ->.
  do 3 (apply wp_call_bind; intros [] _).
  assert (forall rest, Ev CGeteuid euid :: warned euid ++ Ev (CSignal SIGPIPE true) tt ::
    Ev (CSignal SIGTERM false) tt :: Ev (CSignal SIGINT false) tt :: rest
    = (Ev CGeteuid euid :: warned euid ++ handlers_set) ++ rest) as Hset.
  { intros rest. cbn [app]. by rewrite <- app_assoc. }
  destruct (foreground o) eqn:Hfg; cbn [negb].
  - apply run_mret_bind. eapply wp_conseq; [apply (serve_and_leave o path false
      (Ev CGeteuid euid :: warned euid ++ handlers_set)); [done|]| |].
    + intros pid log Hlog. rewrite <- app_comm_cons, <- app_assoc. by apply started_foreground.
    + intros evs H. by rewrite Hset.
    + intros code evs H. by rewrite Hset.
  - apply (wp_bind _ _ _ _ (fun g evs => exists det file, detached det /\
      pid_written (pidfile o) file /\ evs = det ++ log_opened :: file)).
    { eapply wp_bind.
      - eapply wp_conseq; [apply daemonize_run| |intros u evs H; exact H].
        intros evs Hevs. left. split; [done|]. exists euid, evs.
        split; [|done]. rewrite Hset. by rewrite <- app_comm_cons, <- app_assoc.
      - cbn beta. intros [] det Hdet. eapply wp_bind.
        { unfold hsed_log_init. apply (wp_call_bind _ _ _ _ (fun _ evs => evs = [log_opened])).
          intros [] _. by apply wp_ret. }
        cbn beta. intros g opened ->. eapply wp_bind; [apply write_pidfile_run|].
        cbn beta. intros [] file Hfile. apply wp_ret. exists det, file. by rewrite app_nil_r. }
    cbn beta. intros g evs (det & file & Hdet & Hfile & ->).
    eapply wp_conseq; [apply (serve_and_leave o path g
      (Ev CGeteuid euid :: warned euid ++ handlers_set ++ det ++ log_opened :: file)); [done|]| |].
    + intros pid log Hlog. rewrite <- app_comm_cons, <- !app_assoc. by apply started_detached.
    + intros evs H. cbn beta in H. rewrite Hset. rewrite <- app_comm_cons, <- !app_assoc in *. exact H.
    + intros code evs H. cbn beta in H. rewrite Hset. rewrite <- app_comm_cons, <- !app_assoc in *. exact H.
Qed.
End daemon.

Definition usage_text (argv0 : bytes) : bytes :=
  lit "Usage: " ++ argv0 ++
  lit " [--foreground] [--scan-once] [--stats-once] [--socket PATH] " ++
  lit "[--pidfile PATH] [--max-capture N] [--min-size N] [--uid N] " ++
  lit "[--scan-threads N]" ++ [NL].

(** ** Properties of [main] *)

(** C10: What [main] does with its arguments, on every path, with no undefined
    behaviour.  An unknown argument is reported and gives 2, --help gives 0,
    and neither does anything else.  --scan-once and --stats-once print and
    give 0, or leave with a message and exit with 1.  Otherwise the handlers
    are set, and the process detaches, unless it is in the foreground: the
    parents of the two forks exit with 0, a process whose fork or setsid
    fails with 1 and a message.  The one left writes its pid, the server runs
    on the socket chosen, the pidfile is removed if it was asked for, and the
    exit status is 0 or 1 as the server ended. *)
Theorem main_correct {K : Kernel} {A : Arch} {Q : Qsort} {QL : QsortLaws Q} {SL : ScanLaws K}
    {EL : EuidLaws K} (fuel : nat) (argv0 : bytes) (args : list bytes) (h : hist) :
  Forall no_nul args ->
  match parse_args args default_options with
  | PHelp => wp (main fuel argv0 args) h (fun _ => False)
      (fun code evs => code = 0%Z /\ evs = [Ev (CStderr (usage_text argv0)) tt])
  | PUnknown a => wp (main fuel argv0 args) h (fun _ => False)
      (fun code evs => code = 2%Z /\
         evs = [Ev (CStderr (lit "unknown argument: " ++ a ++ [NL])) tt; Ev (CStderr (usage_text argv0)) tt])
  | PRun o =>
      options_ok o /\
      wp (main fuel argv0 args) h
        (fun evs => exists path pre rest, socket_chosen (socket_path o) path pre /\
           evs = pre ++ rest /\
           if scan_once o then scan_gave_up (lit "scan failed: ") rest
           else if stats_once o then scan_gave_up (lit "stats scan failed: ") rest
           else daemon_running o path rest)
        (fun code evs => exists path pre rest, socket_chosen (socket_path o) path pre /\
           evs = pre ++ rest /\
           if scan_once o then
             code = 0%Z /\ exists text, scanned_once (min_size o) (uid_filter o) rest text
           else if stats_once o then
             code = 0%Z /\ exists text, counted_once (min_size o) (uid_filter o) rest text
           else daemon_ran o path code rest)
  end.
Proof.
  intros Hargs. unfold main.
  assert (forall h (I : list event -> Prop), wp (print_usage argv0) h I
    (fun _ evs => evs = [Ev (CStderr (usage_text argv0)) tt])) as Husage.
  { intros h' I. unfold print_usage, fprintf_stderr.
    assert (format usage_format [AStr argv0] = Some (usage_text argv0)) as Hf by format_now.
    eapply wp_pure_bind; [exact Hf|]. apply wp_call. by destruct (answer _ _). }
  pose proof (parse_args_preserves _ _ args options_ok_preserved default_options) as Hopt.
  pose proof (parse_args_preserves _ _ args paths_ok_preserved default_options) as Hpath.
  destruct (parse_args args default_options) as [o| |a]; cbn [parsed_with] in *.
  - assert (options_ok o) as Ho.
    { apply Hopt; [by apply Forall_true|apply default_options_ok]. }
    assert (paths_ok o) as [_ Hp].
    { apply Hpath; [done|]. split; [by apply lit_no_nul|done]. }
    split; [exact Ho|]. destruct Ho as [_ _ _ Hthreads].
    apply (wp_bind _ _ _ _ (fun path pre => socket_chosen (socket_path o) path pre /\ no_nul path)).
    { destruct (socket_path o) as [p|]; [|apply default_socket_path_run].
      apply wp_ret. split; [constructor|done]. }
    cbn beta. intros path pre [Hch Hn]. destruct (scan_once o); [|destruct (stats_once o)].
    + eapply wp_bind.
      { eapply wp_conseq; [by apply scan_once_run| |intros u evs H; exact H]. intros evs H. eauto 10. }
      cbn beta. intros [] evs H. apply wp_ret. exists path, pre, evs. by rewrite app_nil_r.
    + eapply wp_bind.
      { eapply wp_conseq; [by apply stats_once_run| |intros u evs H; exact H]. intros evs H. eauto 10. }
      cbn beta. intros [] evs H. apply wp_ret. exists path, pre, evs. by rewrite app_nil_r.
    + eapply wp_conseq; [by apply run_daemon_run| |].
      * intros evs H. eauto 10.
      * intros code evs H. eauto 10.
  - eapply wp_bind; [apply Husage|]. cbn beta. intros [] evs ->. by apply wp_ret.
  - assert (format (lit "unknown argument: %s" ++ [NL]) [AStr a]
      = Some (lit "unknown argument: " ++ a ++ [NL])) as Hf by format_now.
    eapply wp_bind.
    { unfold fprintf_stderr. eapply wp_pure_bind; [exact Hf|].
      apply (wp_call _ _ _ (fun u evs => evs = [Ev (CStderr (lit "unknown argument: " ++ a ++ [NL])) tt])).
      by destruct (answer _ _). }
    cbn beta. intros [] evs ->. eapply wp_bind; [apply Husage|].
    cbn beta. intros [] evs ->. by apply wp_ret.
Qed.

#[export] Instance scripted_euid text : EuidLaws (scripted text).
Proof. intros h. cbn. unfold in_u. lia. Defined.

Abbreviation daemon_args := [lit "--uid"; lit "1000"; lit "--socket"; lit "/tmp/s"].

(** The daemon starts, finds the shutdown flag raised and leaves. *)
Lemma main_correct_witness :
  let o := set_socket_path (lit "/tmp/s") (set_uid_filter 1000 default_options) in
  parse_args daemon_args default_options = PRun o /\
  fst (@main (scripted []) insertion_qsort 10 (lit "hsedd") daemon_args []) = Done 0%Z /\
  options_ok o /\
  wp (@main (scripted []) insertion_qsort 10 (lit "hsedd") daemon_args) []
    (fun evs => exists path pre rest, socket_chosen (Some (lit "/tmp/s")) path pre /\
       evs = pre ++ rest /\ @daemon_running (scripted []) o path rest)
    (fun code evs => exists path pre rest, socket_chosen (Some (lit "/tmp/s")) path pre /\
       evs = pre ++ rest /\ daemon_ran o path code rest).
Proof.
  split; [vm_compute; reflexivity|]. split; [vm_compute; reflexivity|].
  apply (@main_correct (scripted []) x86_64 insertion_qsort insertion_qsort_laws _ _ 10
    (lit "hsedd") daemon_args []).
  repeat constructor; discriminate.
Defined.

Definition is_umask (e : event) : bool :=
  match e with Ev c _ => match c with CUmask _ => true | _ => false end end.

(** C40: A daemon that is not in the foreground clears its umask and creates its
    pidfile, with fopen, while the umask is still zero: any user may write to
    the file. *)
Theorem pidfile_open {K : Kernel} (fuel : nat) (o : options) (path : bytes) (h : hist) :
  foreground o = false -> no_nul path ->
  wp (run_daemon fuel o path) h (fun _ => True)
    (fun code evs => exists before between after r,
       evs = before ++ [Ev (CUmask 0) tt] ++ between ++ [Ev (CFopen (pidfile o) (lit "w")) r] ++ after
       /\ Forall (fun e => is_umask e = false) between).
Proof.
  intros Hfg Hn. eapply wp_conseq; [by apply run_daemon_run|done|].
  intros code evs (pre & srv & rc & Hpre & _ & -> & _).
  destruct Hpre as [|euid det file pid log _ _ Hdet Hfile]; [congruence|].
  destruct Hdet as [p p' r nul _ _ Hnul].
  assert (exists r' after, file = Ev (CFopen (pidfile o) (lit "w")) r' :: after) as (r' & after & ->)
    by (inversion Hfile; eauto).
  exists (Ev CGeteuid euid :: warned euid ++ handlers_set ++
          [Ev CFork (ROk p); Ev CSetsid (ROk tt); Ev CFork (ROk p')]),
    (Ev (CChdir (lit "/")) r :: nul ++ [log_opened]),
    (after ++ [Ev CGetpid pid; log] ++ srv ++ pidfile_removed o), r'.
  split; [cbn [app]; repeat (rewrite <- !app_assoc; cbn [app]); reflexivity|].
  constructor; [done|]. apply Forall_app. split; [|by repeat constructor].
  destruct Hnul as [e|n]; [by repeat constructor|].
  apply Forall_app. split; [by repeat constructor|]. case_decide; by repeat constructor.
Qed.

Lemma pidfile_open_witness :
  wp (@run_daemon (scripted []) 10 default_options (lit "/tmp/s")) [] (fun _ => True)
    (fun code evs => exists before between after r,
       evs = before ++ [Ev (CUmask 0) tt] ++ between ++
             [Ev (CFopen (lit "/run/hsed.pid") (lit "w")) r] ++ after
       /\ Forall (fun e => is_umask e = false) between).
Proof.
  apply (@pidfile_open (scripted []) 10 default_options (lit "/tmp/s") []).
  - reflexivity.
  - repeat constructor; discriminate.
Defined.
