(* ===== verification/Daemon.v ===== *)
(** * The daemon as a whole: its threads, interleaved

    The accept loop and the connections it hands to threads run concurrently,
    on one kernel.  An execution is the sequence of their calls, in the order
    in which the kernel takes them, each with its thread.  What a thread does
    next depends on the answers it had; what the kernel answers depends on
    the calls of all of them. *)

From stdpp Require Import sorting sets relations.
From S2P Require Import Prelude CLib Kernel Util Json EntryList Protocol ProcRead ProcScan.
From S2P Require Import Parallel Reclaim Tids Tracer Session TraceProps Stream Server Descriptors.
From S2P Require Import Listener ServerProps Requests Replies Script Permitted Connection.

(** ** Executions *)

(** Thread 0 is the one that accepts; thread [S i] runs the [i]-th connection
    handed to [pthread_create]. *)
Abbreviation trace := (list (nat * event)).

Definition events (tr : trace) : hist := snd <$> tr.

(** The calls of one thread. *)
Definition local (t : nat) (tr : trace) : hist :=
  tr ≫= fun x => if decide (x.1 = t) then [x.2] else [].

Definition started_by (e : event) : list conn_args_t :=
  match e with
  | Ev c r =>
      match c in call R return R -> list conn_args_t with
      | CSpawn fd m n => fun r => match r with ROk _ => [mk_conn fd m n] | RErr _ => [] end
      | _ => fun _ => []
      end r
  end.

Definition started (tr : trace) : list conn_args_t := events tr ≫= started_by.

(** The calls before call number [k] of thread [t], or all of them. *)
Fixpoint before (t k : nat) (tr : trace) : trace :=
  match tr with
  | [] => []
  | x :: tr =>
      if decide (x.1 = t)
      then match k with O => [] | S k => x :: before t k tr end
      else x :: before t k tr
  end.

(** The kernel as thread [t] meets it in the execution [tr]: between two of
    its calls the others have made theirs. *)
Definition seen (G : Kernel) (t : nat) (tr : trace) : Kernel := {|
  answer R c h := @answer G R c (events (before t (length h) tr));
  strerror := @strerror G |}.

Section executions.
Context (G : Kernel) {A : Arch} {Q : Qsort} (g_use_syslog : bool) (socket_path : bytes).
Context (limit threads : Z).

(** The calls of a whole run of thread [t], as long as the fuel lasts. *)
Definition thread_run (fuel t : nat) (tr : trace) : hist :=
  match t with
  | O => snd (@hsed_server_run (seen G t tr) fuel g_use_syslog socket_path limit threads [])
  | S i =>
      match started tr !! i with
      | Some c => snd (@handle_connection (seen G t tr) A Q fuel c [])
      | None => []
      end
  end.

(** One call of one thread: the next of its run. *)
Inductive step (tr : trace) : trace -> Prop :=
  | step_call t e fuel : (local t tr ++ [e]) `prefix_of` thread_run fuel t tr ->
      step tr (tr ++ [(t, e)]).

Definition execution (tr : trace) : Prop := rtc step [] tr.

(** Thread [t] has returned. *)
Definition ended (fuel t : nat) (tr : trace) : Prop :=
  match t with
  | O => exists rc, @hsed_server_run (seen G 0 tr) fuel g_use_syslog socket_path limit threads []
                    = (Done rc, local 0 tr)
  | S i => exists c, started tr !! i = Some c /\
             @handle_connection (seen G t tr) A Q fuel c [] = (Done tt, local t tr)
  end.

(** The descriptors each thread holds after an execution, [None] when a
    thread used or closed one that it did not hold. *)
Definition handed (e : event) : list (list Z) := (fun c => [sockfd c]) <$> started_by e.

Fixpoint ledgers (Ds : list (list Z)) (tr : trace) : option (list (list Z)) :=
  match tr with
  | [] => Some Ds
  | (t, e) :: tr =>
      D ← Ds !! t; D' ← ledger_step D e;
      ledgers (<[t := D']> Ds ++ handed e) tr
  end.
End executions.
