(* ===== verification/ThreadRuns.v ===== *)
(** * The runs of the daemon's threads, at every moment

    What holds of the history of a connection, and of the thread that accepts
    them, wherever one stops looking: what the client has been obeyed in, and
    which descriptors are held.  Each is proved of the whole run and, being
    closed under prefixes, holds of every part of it. *)

From stdpp Require Import sorting sets relations.
From S2P Require Import Prelude CLib Kernel Util Json EntryList Protocol ProcRead ProcScan.
From S2P Require Import Parallel Reclaim Tids Tracer Session TraceProps Stream Server Descriptors.
From S2P Require Import Listener ServerProps Requests Replies Script Permitted Connection Daemon.

(** ** What one connection does, at every moment *)

(** The signals sent so far are the first of those that the lines received
    ask for, and every call is part of reading a line, permitted by a request
    received, or the last close. *)
Definition obeys (c : conn_args_t) (evs : hist) : Prop :=
  let lines := complete_lines (received (sockfd c) evs) in
  signals evs `prefix_of` asked_signals lines /\
  Forall (fun e => accounted c lines e \/ e = Ev (CClose (sockfd c)) tt) evs.

Lemma prefix_app_cases {B} (pre a b : list B) : pre `prefix_of` a ++ b ->
  pre `prefix_of` a \/ exists pre', pre = a ++ pre' /\ pre' `prefix_of` b.
Proof.
  intros Hp. destruct (prefix_weak_total pre a (a ++ b)) as [H|[pre' ->]]; [done|by exists b|by left|].
  right. exists pre'. split; [done|]. by apply prefix_app_inv in Hp.
Qed.

Lemma Forall_prefix {B} (P : B -> Prop) pre l : pre `prefix_of` l -> Forall P l -> Forall P pre.
Proof. intros [rest ->] H. by apply Forall_app in H as [H _]. Qed.

Lemma signals_prefix pre evs : pre `prefix_of` evs -> signals pre `prefix_of` signals evs.
Proof. intros [rest ->]. rewrite signals_app. by apply prefix_app_r. Qed.

Section talking.
Context {K : Kernel} {A : Arch} (c : conn_args_t).

Lemma reading_obeys evs : reading c evs -> obeys c evs.
Proof.
  intros Hr. split.
  - assert (signals evs = []) as -> by (eapply bind_none; [apply read_no_signal|exact Hr]).
    apply prefix_nil.
  - eapply Forall_impl; [exact Hr|]. intros e He. by do 2 left.
Qed.

(** In the middle of serving the request of a line. *)
Lemma serving_obeys line r taking serving : took c line taking -> asks line = Some r ->
  Forall (fun e => permitted (sockfd c) r e = true) serving ->
  signals serving `prefix_of` request_signals r -> obeys c (taking ++ serving).
Proof.
  intros (Hr & Hn & Hrec) Ha Hp Hs.
  assert (complete_lines (received (sockfd c) (taking ++ serving)) = [line]) as Hlines.
  { rewrite received_app, Hrec, (served_received c r serving Hp).
    by rewrite complete_lines_more. }
  unfold obeys. rewrite Hlines. split.
  - assert (signals taking = []) as Ht by (eapply bind_none; [apply read_no_signal|exact Hr]).
    rewrite signals_app, Ht. unfold asked_signals, requests. csimpl. rewrite Ha. csimpl.
    by rewrite app_nil_r.
  - apply Forall_app. split; [eapply Forall_impl; [exact Hr|]; intros e He; by do 2 left|].
    eapply Forall_impl; [exact Hp|]. intros e He. left. right. exists r. split; [|done].
    unfold requests. csimpl. rewrite Ha. by apply list_elem_of_singleton.
Qed.

(** Up to any moment of a turn. *)
Lemma turn_obeys line r taking serving pre : took c line taking -> asks line = Some r ->
  Forall (fun e => permitted (sockfd c) r e = true) serving ->
  signals serving = request_signals r -> pre `prefix_of` taking ++ serving -> obeys c pre.
Proof.
  intros Ht Ha Hp Hs [H|(pre' & -> & H)]%prefix_app_cases.
  - apply reading_obeys. eapply Forall_prefix; [exact H|apply Ht].
  - eapply serving_obeys; [done..|by eapply Forall_prefix|]. rewrite <- Hs.
    by apply signals_prefix.
Qed.

Lemma line_obeys line evs pre : line_turn c line evs -> pre `prefix_of` evs -> obeys c pre.
Proof.
  intros (taking & serving & -> & Ht & Hserve) Hpre.
  destruct (asks line) as [r|] eqn:Ha.
  - eapply turn_obeys; [done|done|apply Hserve|by eapply serves_signals|done].
  - subst serving. rewrite app_nil_r in Hpre. apply reading_obeys.
    eapply Forall_prefix; [done|apply Ht].
Qed.

(** A turn, and then something that obeys. *)
Lemma obeys_more line evs evs' : line_turn c line evs -> obeys c evs' -> obeys c (evs ++ evs').
Proof.
  intros Hturn [Hs Hf]. pose proof (turn_accounted c line evs Hturn) as Hacc.
  apply turn_facts in Hturn as (Hn & Hrec & Hsig). unfold obeys.
  rewrite received_app, Hrec, complete_lines_more, signals_app, Hsig by done. split.
  - rewrite (asked_cons line (complete_lines (received (sockfd c) evs'))). by apply prefix_app.
  - apply Forall_app. split.
    + eapply Forall_impl; [exact Hacc|]. intros e He. left. eapply accounted_more; [|done]. set_solver.
    + eapply Forall_impl; [exact Hf|]. intros e [He|He]; [left|by right].
      eapply accounted_more; [|done]. set_solver.
Qed.

Lemma talk_obeys over lines evs : talk c over lines evs ->
  forall pre, pre `prefix_of` evs -> obeys c pre.
Proof.
  induction 1 as [evs Hr Hn|line evs _ _ Ht|line r taking serving _ Htook Ha Hserve
                 |line evs lines evs' _ Ht _ IH]; intros pre Hpre.
  - apply reading_obeys. by eapply Forall_prefix.
  - by eapply line_obeys.
  - eapply turn_obeys; [done|done|apply Hserve|by eapply cut_signals|done].
  - apply prefix_app_cases in Hpre as [Hpre|(pre' & -> & Hpre)]; [by eapply line_obeys|].
    eapply obeys_more; [done|]. by apply IH.
Qed.
End talking.

(** ** The descriptors of one thread *)

(** The calls of a request but TRUNCATE use the socket only, and a TRUNCATE
    closes the descriptor it opened; no thread is created. *)
Definition is_truncate (r : request) : bool := match r with RTruncate _ _ => true | _ => false end.

Lemma permitted_steady sockfd r e : is_truncate r = false -> permitted sockfd r e = true ->
  ledger_step [sockfd] e = Some [sockfd].
Proof.
  destruct e as [R c x]. unfold permitted. intros Hr Hp.
  assert (forall fd, bool_decide (fd = sockfd) = true -> needs fd [sockfd] [sockfd] = Some [sockfd])
    as Hneed by (intros fd ->%bool_decide_eq_true; by apply needs_held, list_elem_of_here).
  destruct c; cbn [reply_call orb] in Hp; try done; try (by destruct r).
  - apply orb_true_iff in Hp as [Hp|Hp]; [by apply Hneed|by destruct r].
  - destruct r; try done. apply bool_decide_eq_true in Hp as [-> _].
    by apply needs_held, list_elem_of_here.
Qed.

Lemma permitted_no_spawn sockfd r e : permitted sockfd r e = true -> started_by e = [].
Proof. destruct e as [R c x]. by destruct c, r. Qed.

Lemma sends_steady fd evs : sends_only fd evs -> ledger [fd] evs = Some [fd].
Proof.
  intros H. apply ledger_steady. eapply Forall_impl; [exact H|]. intros [R c x] He.
  destruct c; try done. apply bool_decide_eq_true in He as ->.
  by apply needs_held, list_elem_of_here.
Qed.

Lemma reading_steady fd evs : Forall (fun e => read_call fd e = true) evs ->
  ledger [fd] evs = Some [fd].
Proof.
  intros H. apply ledger_steady. eapply Forall_impl; [exact H|]. intros [R c x] He.
  destruct c; try done. apply bool_decide_eq_true in He as [-> _].
  by apply needs_held, list_elem_of_here.
Qed.

Section ledgers_of.
Context {K : Kernel} {A : Arch} (c : conn_args_t).

(** Serving a request ends with the socket alone, as it began. *)
Lemma answered_steady r acts text rest : outcome c r acts text -> sends_only (sockfd c) rest ->
  Forall (fun e => permitted (sockfd c) r e = true) (acts ++ rest) ->
  ledger [sockfd c] (acts ++ rest) = Some [sockfd c].
Proof.
  intros Ho Hs Hp. destruct (is_truncate r) eqn:Hr.
  - rewrite (ledger_then _ [sockfd c]); [by apply sends_steady|].
    destruct Ho; try done; ledger_calls.
  - apply ledger_steady. eapply Forall_impl; [exact Hp|]. intros e. by apply permitted_steady.
Qed.

Lemma handled_steady r evs : serves c (handled c) r evs ->
  ledger [sockfd c] evs = Some [sockfd c].
Proof. intros [(acts & text & rest & -> & Ho & Hs & _) Hp]. by eapply answered_steady. Qed.

Lemma handling_steady r evs : serves c (handling c) r evs ->
  ledger [sockfd c] evs = Some [sockfd c].
Proof.
  intros [[(acts & text & rest & -> & Ho & Hs & _)|(pid & fd & -> & _)] Hp];
    [by eapply answered_steady|].
  apply ledger_steady. eapply Forall_impl; [exact Hp|]. intros e. by apply permitted_steady.
Qed.

Lemma turn_steady line evs : line_turn c line evs -> ledger [sockfd c] evs = Some [sockfd c].
Proof.
  intros (taking & serving & -> & (Hr & _) & Hserve).
  rewrite (ledger_then _ [sockfd c]) by by apply reading_steady.
  destruct (asks line); [by eapply handled_steady|by subst serving].
Qed.

Lemma talk_steady over lines evs : talk c over lines evs ->
  ledger [sockfd c] evs = Some [sockfd c].
Proof.
  induction 1 as [evs Hr Hn|line evs _ _ Ht|line r taking serving _ (Hr & _) Ha Hserve
                 |line evs lines evs' _ Ht _ IH].
  - by apply reading_steady.
  - by eapply turn_steady.
  - rewrite (ledger_then _ [sockfd c]) by by apply reading_steady. by eapply handling_steady.
  - rewrite (ledger_then _ [sockfd c]) by by eapply turn_steady. done.
Qed.

Lemma accounted_no_spawn lines e : accounted c lines e -> started_by e = [].
Proof.
  intros [H|(r & _ & H)]; [|by eapply permitted_no_spawn].
  destruct e as [R k x]. by destruct k.
Qed.

(** What holds of a connection at every moment of its run. *)
Definition conn_facts (evs : hist) : Prop :=
  is_Some (ledger [sockfd c] evs) /\ obeys c evs.

Lemma talk_facts_prefix over lines evs tail : talk c over lines evs ->
  tail = [] \/ tail = [Ev (CClose (sockfd c)) tt] ->
  forall pre, pre `prefix_of` evs ++ tail -> conn_facts pre.
Proof.
  intros Ht Htail pre Hpre. split.
  - eapply ledger_prefix; [exact Hpre|]. rewrite (ledger_then _ [sockfd c]) by by eapply talk_steady.
    destruct Htail as [-> | ->]; [by eexists|]. cbn. rewrite decide_True by done. by eexists.
  - apply prefix_app_cases in Hpre as [Hpre|(pre' & -> & Hpre)]; [by eapply talk_obeys|].
    destruct (talk_obeys c over lines evs Ht evs) as [Hs Hf]; [done|].
    assert (pre' = [] \/ pre' = [Ev (CClose (sockfd c)) tt]) as [-> | ->].
    { destruct pre' as [|e pre']; [by left|right].
      destruct Htail as [-> | ->]; [by apply prefix_nil_not in Hpre|].
      rewrite (prefix_cons_inv_1 _ _ _ _ Hpre). f_equal.
      apply prefix_cons_inv_2 in Hpre. by apply prefix_nil_inv in Hpre. }
    + rewrite app_nil_r. by split.
    + unfold obeys. rewrite received_app, signals_app. unfold received at 2 4, signals at 2. csimpl.
      rewrite !app_nil_r. split; [done|]. apply Forall_app. split; [done|].
      constructor; [by right|constructor].
Qed.
End ledgers_of.

(** ** The runs of the threads *)

Definition any_event (e : event) : bool := true.

Lemma dispatch_only {K : Kernel} {A : Arch} {Q : Qsort} fuel c cmd save :
  only any_event (dispatch fuel c cmd save).
Proof.
  rewrite dispatch_serve. eapply only_weaken; [|apply serve_only, command_ok]. done.
Qed.

Lemma connection_only {K : Kernel} {A : Arch} {Q : Qsort} fuel c :
  only any_event (handle_connection fuel c).
Proof.
  unfold handle_connection. apply only_bind; [|intros _; by apply only_call].
  generalize (alloca LINE_MAX). generalize fuel at 2. intros turns.
  induction turns as [|turns IH]; intros b; cbn [connection_loop]; [apply only_fuel|].
  only_steps ltac:(first [ apply IH | apply dispatch_only
    | unfold recv_line; eapply only_weaken; [|apply (recv_loop_only c)]; done ]).
Qed.

Lemma accept_loop_only {K : Kernel} turns g fd m n : only any_event (accept_loop turns g fd m n).
Proof.
  induction turns as [|turns IH]; cbn [accept_loop]; [apply only_fuel|].
  only_steps ltac:(first [ apply IH | by apply only_call
    | progress unfold accept_turn, hsed_log_err ]).
Qed.

Lemma server_only {K : Kernel} fuel g path m n : only any_event (hsed_server_run fuel g path m n).
Proof.
  unfold hsed_server_run.
  only_steps ltac:(first [ apply accept_loop_only | by apply only_call
    | progress unfold hsed_log, hsed_log_err ]).
Qed.

(** The history of a run, as the program logic describes it. *)
Lemma wp_history {B} (m : prog B) (I : list event -> Prop) Q : wp m [] I Q ->
  I (snd (m [])) \/ exists b, Q b (snd (m [])).
Proof.
  intros (evs & Hh & Hm). rewrite Hh. cbn [app]. destruct (fst (m [])); eauto. done.
Qed.

Lemma only_history {K : Kernel} {B} (m : prog B) : only any_event m -> honest [] (snd (m [])).
Proof. intros H. destruct (H []) as (evs & -> & Hh & _). done. Qed.

Lemma connection_history {K : Kernel} {A : Arch} {Q : Qsort} {QL : QsortLaws Q} {L : SendLaws K}
    {SL : ScanLaws K} {EL : StrerrorLaws K} {STL : StatLaws K} {AL : ArchLaws A}
    {TL : TraceLaws K A} {TK : TaskLaws K} {RL : RecvLaws K} fuel c pre :
  in_s 32 (scan_threads c) -> pre `prefix_of` snd (handle_connection fuel c []) ->
  conn_facts c pre.
Proof.
  intros Ht Hpre. destruct (wp_history _ _ _ (handle_connection_run fuel c [] Ht))
    as [(lines & Htalk)|([] & lines & evs & E & Htalk)].
  - eapply (talk_facts_prefix c _ _ _ []); [exact Htalk|by left|]. by rewrite app_nil_r.
  - rewrite E in Hpre. eapply talk_facts_prefix; [exact Htalk|by right|exact Hpre].
Qed.

(** The accepting thread sends no signal, and gives the threads it starts the
    limits of the command line. *)
Definition main_event (limit threads : Z) (e : event) : Prop :=
  signal_by e = [] /\
  Forall (fun c => max_capture c = limit /\ scan_threads c = threads) (started_by e).

Definition main_facts (limit threads : Z) (evs : hist) : Prop :=
  is_Some (ledger [] evs) /\ Forall (main_event limit threads) evs.

Section main_run.
Context (limit threads : Z).

Lemma loop_main fd e : loop_call fd limit threads e = true -> main_event limit threads e.
Proof.
  destruct e as [R c x]. intros H. destruct c; try done; try (by split; constructor).
  apply bool_decide_eq_true in H as [-> ->]. split; [done|]. destruct x; repeat constructor.
Qed.

Lemma log_main e : is_log e = true ->
  main_event limit threads e /\ forall D, ledger_step D e = Some D.
Proof.
  intros H. split; [|by apply (log_neutral 0 0 0)]. apply (loop_main 0).
  by apply (log_neutral 0 limit threads).
Qed.

(** Up to the loop, and through it. *)
Lemma opening_main path fd ch log evs : is_log log = true -> looping fd limit threads evs ->
  let run := opening path fd ch ++ [Ev (CListen fd 16) (ROk tt); log] ++ evs in
  ledger [] run = Some [fd] /\ Forall (main_event limit threads) run.
Proof.
  intros Hlog (_ & Hd & Hf). destruct (log_main log Hlog) as [Hm Hl]. split.
  - unfold opening. ledger_calls. by rewrite Hl.
  - unfold opening. repeat (apply Forall_cons; split; [done || by split; constructor|]).
    eapply Forall_impl; [exact Hf|]. intros e. apply loop_main.
Qed.
End main_run.

(** Closes [main_event] of the events written out; [Hlm] is for the log. *)
Ltac main_events Hlm :=
  repeat (apply Forall_cons; split; [by split; constructor || by apply Hlm|]); constructor.

(** The whole run ends with no descriptor. *)
Lemma server_ran_main path limit threads rc evs : server_ran path limit threads rc evs ->
  ledger [] evs = Some [] /\ Forall (main_event limit threads) evs.
Proof.
  assert (forall log, is_log log = true -> forall D, ledger_step D log = Some D) as Hskip
    by (intros log Hlog; by apply (log_main limit threads)).
  assert (forall log, is_log log = true -> main_event limit threads log) as Hlm
    by (intros log Hlog; by apply log_main).
  intros H.
  destruct H as [e log Hlog|fd e log Hlog|fd ch e log Hlog|fd ch log evs' log' Hlog Hlog' Hloop].
  - split; [ledger_calls; rewrite Hskip by done; ledger_calls|]. main_events Hlm.
  - split; [ledger_calls; rewrite Hskip by done; ledger_calls|]. main_events Hlm.
  - split; [unfold opening; ledger_calls; rewrite Hskip by done; ledger_calls|].
    unfold opening. cbn [app]. main_events Hlm.
  - destruct (opening_main limit threads path fd ch log evs' Hlog Hloop) as [Hl Hf].
    assert (forall tail, opening path fd ch ++ [Ev (CListen fd 16) (ROk tt); log] ++ evs' ++ tail
      = (opening path fd ch ++ [Ev (CListen fd 16) (ROk tt); log] ++ evs') ++ tail) as ->
      by (intros; by rewrite <- !app_assoc).
    rewrite (ledger_then _ _ _ _ Hl).
    split; [ledger_calls; rewrite Hskip by done; ledger_calls|].
    apply Forall_app. split; [done|]. main_events Hlm.
Qed.

Lemma server_wp {K : Kernel} fuel g path limit threads : no_nul path ->
  wp (hsed_server_run fuel g path limit threads) []
    (server_running path limit threads) (server_ran path limit threads).
Proof.
  intros Hn.
  apply (server_run_with fuel g path limit threads (fun fd => looping fd limit threads)); [done| |].
  - intros fd h. apply accept_loop_run.
  - intros fd ch log evs' Hlog Hevs. by exists fd, ch, log, evs'.
Qed.

Lemma server_history {K : Kernel} fuel g path limit threads pre : no_nul path ->
  pre `prefix_of` snd (hsed_server_run fuel g path limit threads []) ->
  main_facts limit threads pre.
Proof.
  intros Hn Hpre. pose proof (wp_history _ _ _ (server_wp fuel g path limit threads Hn)) as Hrun.
  set (evs := snd (hsed_server_run fuel g path limit threads [])) in *.
  assert (is_Some (ledger [] evs) /\ Forall (main_event limit threads) evs) as [Hl Hf].
  2: { split; [by eapply ledger_prefix|by eapply Forall_prefix]. }
  destruct Hrun as [(fd & ch & log & evs' & Hlog & Hloop & ->)|[rc H]].
  - destruct (opening_main limit threads path fd ch log evs' Hlog Hloop) as [-> ?]. by split.
  - apply server_ran_main in H as [-> ?]. by split.
Qed.

(** ** Threads that have ended *)

Lemma server_ended {K : Kernel} fuel g path limit threads rc evs : no_nul path ->
  hsed_server_run fuel g path limit threads [] = (Done rc, evs) -> ledger [] evs = Some [].
Proof.
  intros Hn E. destruct (wp_done _ _ _ _ _ _ (server_wp fuel g path limit threads Hn) E)
    as (evs' & -> & H). by apply server_ran_main in H as [? _].
Qed.

Lemma connection_ended {K : Kernel} {A : Arch} {Q : Qsort} {QL : QsortLaws Q} {L : SendLaws K}
    {SL : ScanLaws K} {EL : StrerrorLaws K} {STL : StatLaws K} {AL : ArchLaws A}
    {TL : TraceLaws K A} {TK : TaskLaws K} {RL : RecvLaws K} fuel c evs :
  in_s 32 (scan_threads c) -> handle_connection fuel c [] = (Done tt, evs) ->
  ledger [sockfd c] evs = Some [].
Proof.
  intros Ht E. destruct (wp_done _ _ _ _ _ _ (handle_connection_run fuel c [] Ht) E)
    as (evs' & -> & lines & talked & -> & Htalk). cbn [app].
  rewrite (ledger_then _ [sockfd c]) by by eapply talk_steady. ledger_calls.
Qed.

