(* ===== verification/DaemonProps.v ===== *)
(** * Properties of the daemon as a whole

    The invariant of the executions of Daemon.v, by induction on their calls:
    it makes a property of each thread a property of all of them together. *)

From stdpp Require Import sorting sets relations.
From S2P Require Import Prelude CLib Kernel Util Json EntryList Protocol ProcRead ProcScan.
From S2P Require Import Parallel Reclaim Tids Tracer Session TraceProps Stream Server Descriptors.
From S2P Require Import Listener ServerProps Requests Replies Script Permitted Connection Daemon ThreadRuns.

(** ** Executions, call by call *)

Lemma local_snoc t tr t' e :
  local t (tr ++ [(t', e)]) = local t tr ++ (if decide (t' = t) then [e] else []).
Proof. unfold local. rewrite bind_app. csimpl. by rewrite app_nil_r. Qed.

Lemma events_snoc tr t e : events (tr ++ [(t, e)]) = events tr ++ [e].
Proof. unfold events. by rewrite fmap_app. Qed.

Lemma started_snoc tr t e : started (tr ++ [(t, e)]) = started tr ++ started_by e.
Proof. unfold started. rewrite events_snoc, bind_app. csimpl. by rewrite app_nil_r. Qed.

Lemma opened_snoc h e : opened (h ++ [e]) = opened_step (opened h) e.
Proof. unfold opened. by rewrite foldl_app. Qed.

Lemma ledgers_snoc Ds tr t e : ledgers Ds (tr ++ [(t, e)]) =
  Ds' ← ledgers Ds tr; D ← Ds' !! t; D' ← ledger_step D e; Some (<[t := D']> Ds' ++ handed e).
Proof.
  revert Ds. induction tr as [|[t' e'] tr IH]; intros Ds; cbn [app ledgers]; [done|].
  destruct (Ds !! t') as [D|]; cbn [mbind option_bind]; [|done].
  destruct (ledger_step D e'); cbn [mbind option_bind]; [apply IH|done].
Qed.

(** Before its next call a thread has seen everything. *)
Lemma before_all t tr : before t (length (local t tr)) tr = tr.
Proof.
  induction tr as [|[t' e] tr IH]; [done|]. unfold local in *. csimpl.
  destruct (decide (t' = t)); csimpl; by rewrite IH.
Qed.

(** What the kernel answers to the next call of a thread. *)
Lemma next_answer (G : Kernel) t tr e rest :
  @honest (seen G t tr) [] ((local t tr ++ [e]) ++ rest) -> @honest G (events tr) [e].
Proof.
  intros [[_ Hh]%honest_app _]%honest_app. cbn [app] in Hh. destruct e as [R c r].
  destruct Hh as [Hr _]. split; [|done].
  change (r = @answer G R c (events (before t (length (local t tr)) tr))) in Hr.
  by rewrite before_all in Hr.
Qed.

(** ** One call and the descriptors of the process *)

Definition new_fds (e : event) : list Z :=
  match e with
  | Ev c r =>
      match c in call R return R -> list Z with
      | CSocket => fun r => gained r []
      | COpen _ _ => fun r => gained r []
      | CAccept _ => fun r => gained r []
      | _ => fun _ => []
      end r
  end.

Lemma fresh_fds {K : Kernel} {FL : FdLaws K} h e : honest h [e] ->
  forall fd, fd ∈ new_fds e -> fd ∉ opened h.
Proof.
  intros [Hr _] fd Hfd. destruct e as [R c r].
  destruct c; cbn in Hfd; try (by apply elem_of_nil in Hfd);
    (destruct r as [fd'|]; cbn in Hfd; [|by apply elem_of_nil in Hfd]);
    apply list_elem_of_singleton in Hfd as ->; symmetry in Hr.
  - by apply socket_fresh.
  - by apply (accept_fresh fd0).
  - by apply (open_fresh path flags).
Qed.

(** The descriptors [D] of the thread that makes the call, those of the
    others, [R], and those of the process, [O]. *)
Lemma ledger_opened D D' R O e : ledger_step D e = Some D' -> D ++ R ≡ₚ O -> NoDup O ->
  (forall fd, fd ∈ new_fds e -> fd ∉ O) ->
  D' ++ R ++ concat (handed e) ≡ₚ opened_step O e /\ NoDup (opened_step O e).
Proof.
  intros Hstep Hperm Hnd Hfresh.
  assert (D' = D -> D' ++ R ++ [] ≡ₚ O) as Hsame by (intros ->; by rewrite app_nil_r).
  assert (forall r, new_fds e = gained r [] -> D' = gained r D ->
    D' ++ R ++ [] ≡ₚ gained r O /\ NoDup (gained r O)) as Hgain.
  { intros [fd|err] Hnew ->; cbn [gained]; [|by split; [apply Hsame|]].
    rewrite app_nil_r. cbn [app]. rewrite Hperm. split; [done|]. apply NoDup_cons. split; [|done].
    apply Hfresh. rewrite Hnew. apply list_elem_of_here. }
  destruct e as [R0 c r]. destruct c; cbn in Hstep; try (injection Hstep as <-; by split; [apply Hsame|]);
    try (apply needs_some in Hstep as [Hin ->]; by split; [apply Hsame|]).
  - injection Hstep as <-. by apply Hgain.
  - apply needs_some in Hstep as [Hin ->]. by apply Hgain.
  - injection Hstep as <-. by apply Hgain.
  - apply given_up_perm in Hstep as HD. unfold handed. cbn [started_by fmap list_fmap concat].
    destruct (given_up_held fd O) as [O' HO].
    { rewrite <- Hperm, HD. apply list_elem_of_here. }
    unfold opened_step. rewrite HO. cbn [default]. apply given_up_perm in HO.
    assert (fd :: D' ++ R ≡ₚ fd :: O') as HO' by (by rewrite <- HO, <- Hperm, HD).
    apply Permutation_cons_inv in HO'. rewrite app_nil_r. split; [done|].
    rewrite HO in Hnd. by apply NoDup_cons in Hnd as [_ ?].
  - destruct r as [u|err]; [|apply needs_some in Hstep as [Hin ->]; by split; [apply Hsame|]].
    apply given_up_perm in Hstep as HD. split; [|done]. cbn. rewrite <- Hperm, HD.
    rewrite app_assoc, Permutation_app_comm. done.
Qed.

(** ** The laws, as a thread meets them *)

Section seen_laws.
Context (G : Kernel) (t : nat) (tr : trace).

#[export] Instance seen_send {L : SendLaws G} : SendLaws (seen G t tr).
Proof. intros fd data h. apply L. Qed.
#[export] Instance seen_recv {L : RecvLaws G} : RecvLaws (seen G t tr).
Proof. intros fd len dontwait h. apply L. Qed.
#[export] Instance seen_strerror {L : StrerrorLaws G} : StrerrorLaws (seen G t tr).
Proof. intros e. apply L. Qed.
#[export] Instance seen_stat {L : StatLaws G} : StatLaws (seen G t tr).
Proof. intros path h. apply L. Qed.
#[export] Instance seen_task {L : TaskLaws G} : TaskLaws (seen G t tr).
Proof. intros path h. apply L. Qed.
#[export] Instance seen_trace {A : Arch} {L : TraceLaws G A} : TraceLaws (seen G t tr) A.
Proof. split; [intros tid h|intros tid addr len h]; apply L. Qed.
#[export] Instance seen_scan {L : ScanLaws G} : ScanLaws (seen G t tr).
Proof. split; intros h; apply L. Qed.
End seen_laws.

(** ** The invariant of an execution *)

Section invariant.
Context (G : Kernel) {A : Arch} {Q : Qsort} {QL : QsortLaws Q} {L : SendLaws G} {SL : ScanLaws G}.
Context {EL : StrerrorLaws G} {STL : StatLaws G} {AL : ArchLaws A} {TL : TraceLaws G A}.
Context {TK : TaskLaws G} {RL : RecvLaws G}.
Context (g_use_syslog : bool) (socket_path : bytes) (limit threads : Z).
Context (Hpath : no_nul socket_path) (Hthreads : in_s 32 threads).

Abbreviation step := (step G g_use_syslog socket_path limit threads).
Abbreviation execution := (execution G g_use_syslog socket_path limit threads).

(** The descriptors a thread begins with, [None] when there is no such thread. *)
Definition born (t : nat) (tr : trace) : option (list Z) :=
  match t with
  | O => Some []
  | S i => (fun c => [sockfd c]) <$> started tr !! i
  end.

Definition thread_facts (t : nat) (cs : list conn_args_t) (evs : hist) : Prop :=
  match t with
  | O => main_facts limit threads evs
  | S i => forall c, cs !! i = Some c -> conn_facts c evs
  end.

Record inv (tr : trace) : Prop := {
  inv_facts t : thread_facts t (started tr) (local t tr);
  inv_limits : Forall (fun c => max_capture c = limit /\ scan_threads c = threads) (started tr);
  inv_unborn t : born t tr = None -> local t tr = [];
  inv_ledgers : exists Ds, ledgers [[]] tr = Some Ds /\ length Ds = S (length (started tr)) /\
    forall t D0, born t tr = Some D0 -> ledger D0 (local t tr) = Ds !! t }.

(** A call is made by a thread that has begun; it keeps the facts of that
    thread, and its answer is the kernel's. *)
Lemma step_facts tr t e fuel : inv tr ->
  (local t tr ++ [e]) `prefix_of` thread_run G g_use_syslog socket_path limit threads fuel t tr ->
  is_Some (born t tr) /\ thread_facts t (started tr) (local t tr ++ [e]) /\
  @honest G (events tr) [e].
Proof.
  intros Hinv Hpre. destruct t as [|i]; cbn [thread_run born thread_facts] in *.
  - split; [done|]. split; [by apply (server_history (K := seen G 0 tr) fuel g_use_syslog socket_path)|].
    destruct Hpre as [rest Hrun]. apply (next_answer G 0 tr e rest). rewrite <- Hrun.
    apply (only_history (K := seen G 0 tr)), server_only.
  - destruct (started tr !! i) as [c|] eqn:Hc.
    2: { destruct Hpre as [rest Hrun]. exfalso. destruct (local (S i) tr); discriminate Hrun. }
    split; [by eexists|]. split.
    + intros c' [= <-]. eapply (connection_history (K := seen G (S i) tr) fuel); [|exact Hpre].
      pose proof (inv_limits tr Hinv) as Hl. rewrite Forall_lookup in Hl.
      destruct (Hl i c Hc) as [_ ->]. done.
    + destruct Hpre as [rest Hrun]. apply (next_answer G (S i) tr e rest). rewrite <- Hrun.
      apply (only_history (K := seen G (S i) tr)), connection_only.
Qed.
Lemma born_iff t tr : is_Some (born t tr) <-> t < S (length (started tr)).
Proof.
  destruct t as [|i]; cbn [born]; [split; [lia|by eexists]|].
  rewrite fmap_is_Some, lookup_lt_is_Some. lia.
Qed.

Lemma born_more t tr t' e D : born t tr = Some D -> born t (tr ++ [(t', e)]) = Some D.
Proof.
  destruct t as [|i]; cbn [born]; [done|]. rewrite started_snoc.
  intros (c & Hc & ->)%fmap_Some. apply fmap_Some. exists c. split; [|done].
  by apply lookup_app_l_Some.
Qed.

(** Thread [t] holds [D] before the call and [D'] after it. *)
Lemma ledger_next tr t e : inv tr -> is_Some (born t tr) ->
  thread_facts t (started tr) (local t tr ++ [e]) ->
  exists Ds D D', ledgers [[]] tr = Some Ds /\ Ds !! t = Some D /\ ledger_step D e = Some D'.
Proof.
  intros Hinv [D0 Hborn] Hfacts. destruct (inv_ledgers tr Hinv) as (Ds & HDs & _ & Hl).
  assert (is_Some (ledger D0 (local t tr ++ [e]))) as Hsome.
  { destruct t as [|i]; cbn [born] in Hborn.
    - injection Hborn as <-. apply Hfacts.
    - apply fmap_Some in Hborn as (c & Hc & ->). by apply Hfacts. }
  rewrite ledger_app, (Hl t D0 Hborn) in Hsome. exists Ds.
  destruct (Ds !! t) as [D|]; cbn [mbind option_bind] in Hsome; [|by destruct Hsome].
  cbn [ledger] in Hsome. exists D. destruct (ledger_step D e) as [D'|]; [by eauto|].
  by destruct Hsome.
Qed.

(** Only the thread that accepts starts others. *)
Lemma starts_limits tr t e : is_Some (born t tr) ->
  thread_facts t (started tr) (local t tr ++ [e]) ->
  Forall (fun c => max_capture c = limit /\ scan_threads c = threads) (started_by e).
Proof.
  intros Hborn Hf. destruct t as [|i].
  - destruct Hf as [_ Hf]. apply Forall_app in Hf as [_ Hf]. apply Forall_cons in Hf as [Hf _].
    apply Hf.
  - destruct Hborn as [D0 (c & Hc & _)%fmap_Some]. destruct (Hf c Hc) as [_ [_ Ho]].
    apply Forall_app in Ho as [_ Ho]. apply Forall_cons in Ho as [[Ho| ->] _]; [|constructor].
    apply accounted_no_spawn in Ho as ->. constructor.
Qed.

Lemma idle_facts c : conn_facts c [].
Proof. split; [by eexists|]. split; [apply prefix_nil|constructor]. Qed.

Lemma facts_more tr t' e t : inv tr -> (t = t' -> thread_facts t (started tr) (local t tr ++ [e])) ->
  is_Some (born t' tr) ->
  thread_facts t (started (tr ++ [(t', e)])) (local t (tr ++ [(t', e)])).
Proof.
  intros Hinv Hnew Hborn. rewrite local_snoc, started_snoc.
  assert (thread_facts t (started tr) (local t tr ++ (if decide (t' = t) then [e] else []))) as Hf.
  { destruct (decide (t' = t)) as [->|]; [by apply Hnew|]. rewrite app_nil_r. by apply inv_facts. }
  destruct t as [|i]; cbn [thread_facts] in *; [done|]. intros c Hc.
  destruct (started tr !! i) as [c'|] eqn:Hi.
  - apply Hf. by erewrite lookup_app_l_Some in Hc.
  - assert (local (S i) tr = []) as ->
      by (apply (inv_unborn tr Hinv); cbn [born]; by rewrite Hi).
    rewrite decide_False; [apply idle_facts|]. intros ->. cbn [born] in Hborn. rewrite Hi in Hborn.
    by destruct Hborn.
Qed.
Lemma ledgers_more tr t' e Ds D D' : inv tr -> is_Some (born t' tr) ->
  ledgers [[]] tr = Some Ds -> Ds !! t' = Some D -> ledger_step D e = Some D' ->
  let Ds' := <[t' := D']> Ds ++ handed e in
  ledgers [[]] (tr ++ [(t', e)]) = Some Ds' /\
  length Ds' = S (length (started (tr ++ [(t', e)]))) /\
  forall t D0, born t (tr ++ [(t', e)]) = Some D0 ->
    ledger D0 (local t (tr ++ [(t', e)])) = Ds' !! t.
Proof.
  intros Hinv Hborn HDs HD Hstep Ds'.
  destruct (inv_ledgers tr Hinv) as (Ds0 & HDs0 & Hlen & Hl).
  rewrite HDs in HDs0. injection HDs0 as <-. split_and!.
  - by rewrite ledgers_snoc, HDs, some_bind, HD, some_bind, Hstep.
  - unfold Ds', handed. rewrite started_snoc, !length_app, length_insert, length_fmap. lia.
  - intros t D0 Ht. rewrite local_snoc. destruct (decide (t < length Ds)) as [Hlt|Hge].
    + rewrite Hlen in Hlt. apply born_iff in Hlt as [D1 HD1].
      pose proof (born_more t tr t' e D1 HD1) as HD1'. rewrite Ht in HD1'. injection HD1' as <-.
      pose proof (Hl t D0 HD1) as Hled.
      unfold Ds'. rewrite lookup_app_l
        by (rewrite length_insert, Hlen; apply born_iff; by eexists).
      destruct (decide (t' = t)) as [->|Hne].
      * rewrite list_lookup_insert_eq by (by apply lookup_lt_Some in HD).
        rewrite HD in Hled. rewrite (ledger_then _ _ _ _ Hled). cbn [ledger]. by rewrite Hstep.
      * by rewrite app_nil_r, list_lookup_insert_ne.
    + assert (born t tr = None) as Hnone.
      { apply eq_None_not_Some. rewrite born_iff. lia. }
      rewrite (inv_unborn tr Hinv t Hnone), decide_False
        by (intros ->; by rewrite Hnone in Hborn; destruct Hborn).
      cbn [app ledger]. destruct t as [|i]; [done|]. cbn [born] in Ht.
      apply fmap_Some in Ht as (c & Hc & ->). unfold Ds', handed.
      rewrite lookup_app_r by (rewrite length_insert; lia).
      rewrite started_snoc, lookup_app_r in Hc by lia.
      rewrite length_insert, Hlen, list_lookup_fmap. cbn [Nat.sub]. by rewrite Hc.
Qed.

Lemma inv_start : inv [].
Proof.
  split.
  - intros [|i]; cbn; [split; [by eexists|constructor]|done].
  - constructor.
  - done.
  - exists [[]]. split_and!; [done..|]. intros [|i] D0 HD; [by injection HD as <-|done].
Qed.

Lemma inv_call tr tr' : step tr tr' -> inv tr -> inv tr'.
Proof.
  intros Hs Hinv. destruct Hs as [t e fuel Hpre].
  destruct (step_facts tr t e fuel Hinv Hpre) as (Hborn & Hfacts & _).
  destruct (ledger_next tr t e Hinv Hborn Hfacts) as (Ds & D & D' & HDs & HD & Hstep).
  split.
  - intros t'. apply facts_more; [done| |done]. by intros ->.
  - rewrite started_snoc. apply Forall_app. split; [apply Hinv|by eapply starts_limits].
  - intros t' Hnone. rewrite local_snoc.
    assert (born t' tr = None) as Hnone'.
    { destruct (born t' tr) as [D0|] eqn:E; [|done]. by rewrite (born_more _ _ _ _ _ E) in Hnone. }
    rewrite (inv_unborn tr Hinv t' Hnone'), decide_False; [done|].
    intros ->. rewrite Hnone' in Hborn. by destruct Hborn.
  - exists (<[t := D']> Ds ++ handed e). by apply (ledgers_more tr t e Ds D D').
Qed.

Lemma execution_inv tr : execution tr -> inv tr.
Proof.
  intros H. unfold execution, Daemon.execution in H. revert H.
  apply (rtc_ind_r (fun tr => inv tr)); [apply inv_start|].
  intros tr1 tr2 _ Hs Hinv. by eapply inv_call.
Qed.

Lemma ended_nothing fuel t tr Ds : inv tr -> ledgers [[]] tr = Some Ds ->
  ended G g_use_syslog socket_path limit threads fuel t tr ->
  Ds !! t = Some [].
Proof.
  intros Hinv HDs Hend. destruct (inv_ledgers tr Hinv) as (Ds' & HDs' & _ & Hl).
  rewrite HDs in HDs'. injection HDs' as <-. destruct t as [|i].
  - destruct Hend as [rc E]. rewrite <- (Hl 0 [] eq_refl).
    by apply (server_ended (K := seen G 0 tr)) in E.
  - destruct Hend as (c & Hc & E). rewrite <- (Hl (S i) [sockfd c]).
    2: { cbn [born]. by rewrite Hc. }
    apply (connection_ended (K := seen G (S i) tr)) in E; [done|].
    pose proof (inv_limits tr Hinv) as Hlim. rewrite Forall_lookup in Hlim.
    by destruct (Hlim i c Hc) as [_ ->].
Qed.

(** The descriptors of the process and those of its threads. *)
Lemma execution_ledgers {FL : FdLaws G} tr : execution tr ->
  exists Ds, ledgers [[]] tr = Some Ds /\ concat Ds ≡ₚ opened (events tr) /\
    NoDup (opened (events tr)).
Proof.
  intros H. unfold execution, Daemon.execution in H. revert H.
  apply (rtc_ind_r (fun tr => exists Ds, ledgers [[]] tr = Some Ds /\
    concat Ds ≡ₚ opened (events tr) /\ NoDup (opened (events tr)))).
  { exists [[]]. split_and!; [done..|constructor]. }
  intros tr1 tr2 Hex Hs (Ds & HDs & Hperm & Hnd).
  assert (inv tr1) as Hinv by by apply execution_inv.
  destruct Hs as [t e fuel Hpre].
  destruct (step_facts tr1 t e fuel Hinv Hpre) as (Hborn & Hfacts & Hhonest).
  destruct (ledger_next tr1 t e Hinv Hborn Hfacts) as (Ds1 & D & D' & HDs1 & HD & Hstep).
  rewrite HDs in HDs1. injection HDs1 as <-.
  exists (<[t := D']> Ds ++ handed e). split.
  { by rewrite ledgers_snoc, HDs, some_bind, HD, some_bind, Hstep. }
  set (R := concat (take t Ds) ++ concat (drop (S t) Ds)).
  assert (concat Ds ≡ₚ D ++ R) as HR.
  { rewrite <- (take_drop_middle Ds t D HD) at 1. rewrite concat_app. cbn [concat].
    unfold R. rewrite !app_assoc. apply Permutation_app_tail, Permutation_app_comm. }
  assert (concat (<[t := D']> Ds ++ handed e) ≡ₚ D' ++ R ++ concat (handed e)) as ->.
  { rewrite insert_take_drop by (by apply lookup_lt_Some in HD). rewrite !concat_app. cbn [concat].
    unfold R. rewrite !app_assoc. do 2 apply Permutation_app_tail. apply Permutation_app_comm. }
  rewrite events_snoc, opened_snoc. rewrite HR in Hperm.
  eapply ledger_opened; [done|done|done|]. by apply fresh_fds.
Qed.
End invariant.

(** ** Properties *)

(** C11: However the threads of the daemon are interleaved, and at every moment,
    the accepting thread has signalled nobody, and each connection has sent
    only signals that the lines its own client completed ask for, in their
    order, and has made only calls that one of its client's requests
    permits; what the others do to the kernel they share changes nothing.
    No thread but those started makes a call. *)
Theorem daemon_safe (G : Kernel) {A : Arch} {Q : Qsort} {QL : QsortLaws Q} {L : SendLaws G}
    {SL : ScanLaws G} {EL : StrerrorLaws G} {STL : StatLaws G} {AL : ArchLaws A}
    {TL : TraceLaws G A} {TK : TaskLaws G} {RL : RecvLaws G}
    (g_use_syslog : bool) (socket_path : bytes) (limit threads : Z) (tr : trace) :
  no_nul socket_path -> in_s 32 threads ->
  execution G g_use_syslog socket_path limit threads tr ->
  signals (local 0 tr) = [] /\
  (forall i c, started tr !! i = Some c -> obeys c (local (S i) tr)) /\
  (forall t, length (started tr) < t -> local t tr = []).
Proof.
  intros Hp Ht Hex. eapply execution_inv in Hex; [|done..]. split_and!.
  - destruct (inv_facts _ _ _ Hex 0) as [_ Hf]. eapply bind_none; [|exact Hf]. by intros e [? _].
  - intros i c Hc. by apply (inv_facts _ _ _ Hex (S i)).
  - intros t Hlt. apply (inv_unborn _ _ _ Hex). apply eq_None_not_Some. rewrite born_iff. lia.
Qed.

(** C3: However the threads of the daemon are interleaved, each uses and closes
    only descriptors that it holds: those it opened or accepted, and the
    socket it was handed.  No descriptor is held by two threads, and none is
    used after it was closed or closed twice; the threads hold between them
    exactly those the process has open, and one that has ended holds none, so
    that none is lost. *)
Theorem descriptors_owned (G : Kernel) {A : Arch} {Q : Qsort} {QL : QsortLaws Q} {L : SendLaws G}
    {SL : ScanLaws G} {EL : StrerrorLaws G} {STL : StatLaws G} {AL : ArchLaws A}
    {TL : TraceLaws G A} {TK : TaskLaws G} {RL : RecvLaws G} {FL : FdLaws G}
    (g_use_syslog : bool) (socket_path : bytes) (limit threads : Z) (tr : trace) :
  no_nul socket_path -> in_s 32 threads ->
  execution G g_use_syslog socket_path limit threads tr ->
  exists Ds, ledgers [[]] tr = Some Ds /\ NoDup (concat Ds) /\ concat Ds ≡ₚ opened (events tr) /\
    (forall fuel t, ended G g_use_syslog socket_path limit threads fuel t tr -> Ds !! t = Some []).
Proof.
  intros Hp Ht Hex. pose proof Hex as Hinv. eapply execution_inv in Hinv; [|done..].
  eapply execution_ledgers in Hex as (Ds & HDs & Hperm & Hnd); [|done..].
  exists Ds. split_and!; [done|by rewrite Hperm|done|]. intros fuel t. by eapply ended_nothing.
Qed.

(** ** An example *)

(** A kernel with two clients, which gives each descriptor the number after
    the highest that is open. *)
Definition fresh_fd (h : hist) : Z := (1 + foldr Z.max 2 (opened h))%Z.

Definition reads_of (fd : Z) (h : hist) : nat :=
  length (List.filter (fun e => match e with Ev c _ =>
    match c with CRecv fd' _ _ => bool_decide (fd' = fd) | _ => false end end) h).

Definition two_clients : Kernel := {|
  answer R c h :=
    match c in call R return R with
    | CShutdownFlag => false
    | CPoll _ _ => ROk 1%Z
    | CSocket => ROk (fresh_fd h)
    | CAccept _ => ROk (fresh_fd h)
    | COpen _ _ => ROk (fresh_fd h)
    | CRecv fd len _ =>
        ROk (take (Nat.min len 1)
          (drop (reads_of fd h) (script (if decide (fd = 4)%Z then ["KILL 7"] else ["TRUNCATE 8 9"])%string)))
    | c => @answer (scripted []) _ c h
    end;
  strerror := @strerror (scripted []) |}.

#[export] Instance two_send : SendLaws two_clients.
Proof. intros fd data h. apply (scripted_send []). Defined.
#[export] Instance two_recv : RecvLaws two_clients.
Proof.
  intros fd len dontwait h data H. injection H as <-. rewrite length_take. lia.
Defined.
#[export] Instance two_strerror : StrerrorLaws two_clients.
Proof. intros e. apply (scripted_strerror []). Defined.
#[export] Instance two_stat : StatLaws two_clients.
Proof. intros path h. apply (scripted_stat []). Defined.
#[export] Instance two_task : TaskLaws two_clients.
Proof. intros path h. apply (scripted_task []). Defined.
#[export] Instance two_trace : TraceLaws two_clients x86_64.
Proof. split; [intros tid h|intros tid addr len h]; apply (scripted_trace []). Defined.
#[export] Instance two_scan : ScanLaws two_clients.
Proof. split; intros h; apply (scripted_scan []). Defined.

Lemma fresh_fd_new h : fresh_fd h ∉ opened h.
Proof.
  unfold fresh_fd. assert (forall l x, x ∈ l -> (x <= foldr Z.max 2 l)%Z) as Hmax.
  { induction l as [|y l IH]; intros x; [by intros ?%elem_of_nil|].
    intros [->|H%IH]%elem_of_cons; cbn [foldr]; lia. }
  intros H%Hmax. lia.
Qed.

#[export] Instance two_fds : FdLaws two_clients.
Proof. split; intros; cbn in *; simplify_eq; apply fresh_fd_new. Defined.

Abbreviation two_execution :=
  (@execution two_clients x86_64 insertion_qsort true (lit "/tmp/s") 200 1).

Abbreviation two_ended := (@ended two_clients x86_64 insertion_qsort true (lit "/tmp/s") 200 1).

(** Runs the threads named, a call each. *)
Section schedule.
Context (fuel : nat).

Abbreviation run_of t tr := (@thread_run two_clients x86_64 insertion_qsort true (lit "/tmp/s") 200 1 fuel t tr).

Fixpoint schedule (ts : list nat) (tr : trace) : trace :=
  match ts with
  | [] => tr
  | t :: ts =>
      match run_of t tr !! length (local t tr) with
      | Some e => schedule ts (tr ++ [(t, e)])
      | None => tr
      end
  end.

(** Each thread goes on from what it did before. *)
Fixpoint goes_on (ts : list nat) (tr : trace) : Prop :=
  match ts with
  | [] => True
  | t :: ts =>
      match run_of t tr !! length (local t tr) with
      | Some e => take (length (local t tr)) (run_of t tr) = local t tr /\
                  goes_on ts (tr ++ [(t, e)])
      | None => True
      end
  end.

Lemma schedule_execution ts : forall tr, goes_on ts tr ->
  two_execution tr ->
  two_execution (schedule ts tr).
Proof.
  induction ts as [|t ts IH]; intros tr Hgo Hex; cbn [schedule goes_on] in *; [done|].
  destruct (run_of t tr !! length (local t tr)) as [e|] eqn:He; [|done].
  destruct Hgo as [Ht Hgo]. apply IH; [done|]. eapply rtc_r; [exact Hex|].
  apply (step_call _ _ _ _ _ tr t e fuel). rewrite <- Ht, <- (take_S_r _ _ _ He).
  apply prefix_take.
Qed.
End schedule.

(** The second client is accepted while the first is served; the first asks
    for a signal and hangs up, and the second for a truncation, which the
    execution leaves in the middle. *)
Definition demo : trace := schedule 30
  (replicate 11 0 ++ replicate 4 1 ++ replicate 5 0 ++ concat (replicate 5 [1; 2; 2]) ++
   [2; 2; 2; 2; 2; 2; 1; 1; 1]) [].

Lemma demo_execution : two_execution demo.
Proof.
  apply schedule_execution; [|apply rtc_refl].
  vm_compute. repeat (split; [reflexivity|]). exact I.
Qed.

Lemma daemon_safe_witness :
  (signals (events demo) = [(7, 9)%Z] /\ started demo = [mk_conn 4 200 1; mk_conn 5 200 1]) /\
  signals (local 0 demo) = [] /\
  (forall i c, started demo !! i = Some c -> obeys c (local (S i) demo)) /\
  (forall t, length (started demo) < t -> local t demo = []).
Proof.
  split; [split; vm_compute; reflexivity|].
  apply (@daemon_safe two_clients x86_64 insertion_qsort insertion_qsort_laws _ _ _ _
    x86_64_laws _ _ _ true (lit "/tmp/s") 200 1 demo).
  - repeat constructor; discriminate.
  - unfold in_s. cbn. lia.
  - apply demo_execution.
Defined.

(** The first connection has ended; the second holds the file it truncates. *)
Lemma descriptors_owned_witness :
  (ledgers [[]] demo = Some [[3]; []; [6; 5]]%Z /\ two_ended 30 1 demo) /\
  exists Ds, ledgers [[]] demo = Some Ds /\ NoDup (concat Ds) /\ concat Ds ≡ₚ opened (events demo) /\
    (forall fuel t, two_ended fuel t demo ->
       Ds !! t = Some []).
Proof.
  split; [split; [vm_compute; reflexivity|exists (mk_conn 4 200 1); split; vm_compute; reflexivity]|].
  apply (@descriptors_owned two_clients x86_64 insertion_qsort insertion_qsort_laws _ _ _ _
    x86_64_laws _ _ _ _ true (lit "/tmp/s") 200 1 demo).
  - repeat constructor; discriminate.
  - unfold in_s. cbn. lia.
  - apply demo_execution.
Defined.
